(** * Tensor parallelism of oslo: a shallow embedding of the 1D engine

Sources embedded here:
- [oslo/pytorch/model_parallelism/utils/distributed.py]
  ([VocabParallelEmbedding], [ColumnParallelLinear], [RowParallelLinear]);
- [oslo/pytorch/model_parallelism/tensor_parallelism/tensor_parallel_engine_1d.py]
  ([TensorParallelEngine1D], [TensorDeparallelEngine1D]).

Python integers are [Z]; Python exceptions are values of [PyErr] carried
by the [result] type; tensors are modelled up to rank two, with an
abstract element type so that slicing and gathering are statements about
the stored bit patterns. *)

From stdpp Require Import gmap strings list fin_maps.
From Stdlib Require Import ZArith Lia.

Local Open Scope Z_scope.

(** ** Python exceptions *)

Inductive PyErr : Type :=
| AssertionError
| IndexError
| AttributeError
| TypeError
| ZeroDivisionError
| RuntimeError.

Inductive result (X : Type) : Type :=
| Ok (x : X)
| Raise (e : PyErr).
Arguments Ok {X} x.
Arguments Raise {X} e.

Definition rbind {X Y : Type} (r : result X) (f : X -> result Y) : result Y :=
  match r with
  | Ok x => f x
  | Raise e => Raise e
  end.

Declare Scope res_scope.
Delimit Scope res_scope with res.
Notation "x <- r ;; k" := (rbind r (fun x => k))
  (at level 100, r at next level, right associativity) : res_scope.

Fixpoint rmapM {X Y : Type} (f : X -> result Y) (l : list X) : result (list Y) :=
  match l with
  | [] => Ok []
  | x :: l' => (y <- f x ;; ys <- rmapM f l' ;; Ok (y :: ys))%res
  end.

(** ** Python sequences *)

Module Py.

(** [l[i]] on a list or tuple: negative indices count from the end, an
    index outside the sequence raises [IndexError]. *)
Definition index {X : Type} (l : list X) (i : Z) : result X :=
  let n := Z.of_nat (length l) in
  let j := if i <? 0 then n + i else i in
  if (j <? 0) || (n <=? j) then Raise IndexError
  else match l !! Z.to_nat j with
       | Some x => Ok x
       | None => Raise IndexError
       end.

(** [l[lo:hi]] for non-negative bounds: the slice is clipped to the list. *)
Definition slice {X : Type} (l : list X) (lo hi : Z) : list X :=
  take (Z.to_nat hi - Z.to_nat lo) (drop (Z.to_nat lo) l).

(** [range(n)] *)
Definition range (n : Z) : list Z :=
  (fun i => Z.of_nat i) <$> seq 0 (Z.to_nat n).

(** [sum(l)] on integers *)
Definition sum (l : list Z) : Z := foldr Z.add 0 l.

(** [math.ceil(a / b)] on non-negative [a] and positive [b]. The code
    rounds the quotient to a binary64 float before it takes the ceiling;
    the quotient is taken to be exact here, which it is for [a] and [b]
    below [2 ^ 53]. Beyond that the float can round down to an integer
    ([2 ^ 54 + 2] over [2] gives [2 ^ 53], not [2 ^ 53 + 1]), and the
    model does not follow the code. *)
Definition ceil_div (a b : Z) : Z := (a + b - 1) / b.

(** [zip( *groups )]: the i-th tuple collects the i-th element of every
    group, and the result stops at the shortest group. *)
Fixpoint zip_star {X : Type} (groups : list (list X)) : list (list X) :=
  match groups with
  | [] => []
  | [g] => (fun x => [x]) <$> g
  | g :: gs => zip_with cons g (zip_star gs)
  end.

End Py.

(** ** Vocabulary ranges of [VocabParallelEmbedding] *)

Module VocabRange.

(** The loop [for i in range(1, len(indices)): indices[i] += indices[i - 1]]
    of [_get_partitioned_vocab_range], one in-place update per index. *)
Definition cumsum_step (indices : list Z) (i : nat) : list Z :=
  match indices !! i, indices !! (i - 1)%nat with
  | Some x, Some y => <[i := x + y]> indices
  | _, _ => indices
  end.

Definition cumulative_summation (indices : list Z) : list Z :=
  foldl cumsum_step indices (seq 1 (length indices - 1)).

(** [indices] as it stands before [return]. [world_size = 0] leaves the
    list empty, so [indices[-1] = ...] raises [IndexError]. *)
Definition partition_indices (num_embeddings world_size : Z)
  : result (list Z) :=
  let indices :=
    (fun _ => Py.ceil_div num_embeddings world_size) <$> Py.range world_size in
  match indices with
  | [] => Raise IndexError
  | _ =>
      let last := (length indices - 1)%nat in
      let indices :=
        <[last := num_embeddings - Py.sum (take last indices)]> indices in
      let indices := 0 :: indices in
      Ok (cumulative_summation indices)
  end.

(** [VocabParallelEmbedding._get_partitioned_vocab_range] *)
Definition _get_partitioned_vocab_range (num_embeddings world_size rank : Z)
  : result (Z * Z) :=
  (indices <- partition_indices num_embeddings world_size ;;
   lo <- Py.index indices rank ;;
   hi <- Py.index indices (rank + 1) ;;
   Ok (lo, hi))%res.

End VocabRange.

(** ** Tensors

A tensor is a scalar, a vector or a matrix stored as its list of rows; a
matrix without rows is taken to have no columns. Elements are opaque:
slicing, concatenation and gathering only move them. Tensors of higher
rank, strides and devices other than the [is_cuda] flag are not
modelled, and [contiguous()] is the identity on values. *)

Module Torch.

Inductive Tensor (A : Type) : Type :=
| Scal (x : A)
| Vec (v : list A)
| Mat (rows : list (list A)).
Arguments Scal {A} x.
Arguments Vec {A} v.
Arguments Mat {A} rows.

Section Ops.
Context {A : Type}.

(** [t.dim()] *)
Definition dim (t : Tensor A) : Z :=
  match t with
  | Scal _ => 0
  | Vec _ => 1
  | Mat _ => 2
  end.

Definition ncols (rows : list (list A)) : nat :=
  match rows with
  | [] => 0%nat
  | r :: _ => length r
  end.

(** [t.size()] *)
Definition size (t : Tensor A) : list Z :=
  match t with
  | Scal _ => []
  | Vec v => [Z.of_nat (length v)]
  | Mat rows => [Z.of_nat (length rows); Z.of_nat (ncols rows)]
  end.

(** A dimension argument, wrapped as torch does: [-1] is the last one. *)
Definition wrap_dim (t : Tensor A) (d : Z) : result nat :=
  let n := dim t in
  if (d <? Z.opp n) || (n <=? d) then Raise IndexError
  else Ok (Z.to_nat (if d <? 0 then d + n else d)).

(** The pieces of [torch.chunk] along one axis of length [length l]:
    [split_size = ceil(length / chunks)], then pieces of [split_size]
    until the axis is used up (the last one may be shorter, and there may
    be fewer than [chunks] of them). An axis of length zero gives
    [chunks] empty pieces. *)
Definition chunk_count (n chunks : Z) : Z :=
  let split_size := (n + chunks - 1) / chunks in
  if split_size =? 0 then chunks
  else Z.max ((n + split_size - 1) / split_size) 1.

Definition chunk_piece {X : Type} (split_size : nat) (l : list X) (i : nat)
  : list X :=
  take split_size (drop (i * split_size) l).

Definition chunk_axis {X : Type} (l : list X) (chunks : Z) : list (list X) :=
  let n := Z.of_nat (length l) in
  let split_size := Z.to_nat ((n + chunks - 1) / chunks) in
  chunk_piece split_size l <$> seq 0 (Z.to_nat (chunk_count n chunks)).

(** The same along the columns of a matrix: every row is cut at the same
    places. *)
Definition chunk_cols (rows : list (list A)) (chunks : Z)
  : list (list (list A)) :=
  let n := Z.of_nat (ncols rows) in
  let split_size := Z.to_nat ((n + chunks - 1) / chunks) in
  (fun i => (fun r => chunk_piece split_size r i) <$> rows)
    <$> seq 0 (Z.to_nat (chunk_count n chunks)).

(** [torch.chunk(t, chunks, dim)] / [t.chunk(chunks, dim=dim)] *)
Definition chunk (t : Tensor A) (chunks : Z) (d : Z)
  : result (list (Tensor A)) :=
  if chunks <=? 0 then Raise RuntimeError
  else
    match t with
    | Scal _ => Raise RuntimeError
    | Vec v =>
        (k <- wrap_dim t d ;; Ok (Vec <$> chunk_axis v chunks))%res
    | Mat rows =>
        (k <- wrap_dim t d ;;
         match k with
         | O => Ok (Mat <$> chunk_axis rows chunks)
         | _ => Ok (Mat <$> chunk_cols rows chunks)
         end)%res
    end.

Definition as_vec (t : Tensor A) : result (list A) :=
  match t with
  | Vec v => Ok v
  | _ => Raise RuntimeError
  end.

Definition as_mat (t : Tensor A) : result (list (list A)) :=
  match t with
  | Mat rows => Ok rows
  | _ => Raise RuntimeError
  end.

Definition all_equal (l : list nat) : bool :=
  match l with
  | [] => true
  | n :: l' => forallb (Nat.eqb n) l'
  end.

(** Rows of the side-by-side concatenation of matrices with the same
    number [n] of rows. *)
Definition hcat (n : nat) (ms : list (list (list A))) : list (list A) :=
  foldr (zip_with app) (replicate n []) ms.

(** [torch.cat(ts, dim=d)]: an empty list, a scalar, tensors of different
    ranks, or sizes that differ away from [d] raise [RuntimeError]. *)
Definition cat (ts : list (Tensor A)) (d : Z) : result (Tensor A) :=
  match ts with
  | [] => Raise RuntimeError
  | Scal _ :: _ => Raise RuntimeError
  | Vec _ :: _ =>
      (k <- wrap_dim (Vec []) d ;;
       vs <- rmapM as_vec ts ;;
       Ok (Vec (concat vs)))%res
  | Mat _ :: _ =>
      (k <- wrap_dim (Mat []) d ;;
       ms <- rmapM as_mat ts ;;
       match k with
       | O =>
           if all_equal (ncols <$> ms) then Ok (Mat (concat ms))
           else Raise RuntimeError
       | _ =>
           if all_equal (length <$> ms)
           then Ok (Mat (hcat (length (default [] (head ms))) ms))
           else Raise RuntimeError
       end)%res
  end.

(** [t.t()] on a matrix *)
Definition transpose (rows : list (list A)) : list (list A) :=
  (fun j => omap (fun r => r !! j) rows) <$> seq 0 (ncols rows).

End Ops.

End Torch.

Import Torch.

(** ** The object graph

A model is the sequence that [named_modules()] yields (the model itself
first, under the empty name, then every distinct submodule once), a
store of parameter and buffer objects, and the module that
[get_input_embeddings()] returns, when the model has that accessor.
Modules refer to their weight and bias objects by store key, so two
modules holding the same key share one object, as a tied output head
does with the input embedding. *)

Inductive Class : Type :=
| Linear
| Conv1D
| Embedding
| VocabParallelEmbedding
| ColumnParallelLinear
| RowParallelLinear
| OtherClass (name : string).

#[global] Instance Class_eq_dec : EqDecision Class.
Proof. solve_decision. Defined.

(** [isinstance(module, Embedding)]: [VocabParallelEmbedding] derives from
    [nn.Embedding]. *)
Definition isinstance_Embedding (c : Class) : bool :=
  match c with
  | Embedding | VocabParallelEmbedding => true
  | _ => false
  end.

Definition isinstance_VocabParallelEmbedding (c : Class) : bool :=
  match c with
  | VocabParallelEmbedding => true
  | _ => false
  end.

(** The distribution context, as far as a rank can ask it without
    communication. *)
Record MPU : Type := {
  get_tensor_parallel_world_size : Z;
  get_tensor_parallel_rank : Z;
}.

#[global] Instance MPU_eq_dec : EqDecision MPU.
Proof. solve_decision. Defined.

(** Values of the attributes set with [setattr] on modules. *)
Inductive Value : Type :=
| VInt (z : Z)
| VBool (b : bool)
| VNone
| VClass (c : Class)
| VMpu (m : MPU).

#[global] Instance Value_eq_dec : EqDecision Value.
Proof. solve_decision. Defined.

(** [weight] and [bias] of a module: no such attribute, [None], or an
    object of the store. *)
Inductive Slot : Type :=
| Absent
| IsNone
| Ref (p : nat).

#[global] Instance Slot_eq_dec : EqDecision Slot.
Proof. solve_decision. Defined.

Record Module : Type := {
  cls : Class;
  weight : Slot;
  bias : Slot;
  attrs : gmap string Value;
}.

(** The mapping resolver [TensorParallelMapping] of
    [oslo/pytorch/model_parallelism/utils/mappings.py] is not part of the
    sources at hand; the engines only query it, so it is taken as given.
    [update_attrs] lists the names of the attributes to rescale. *)
Record TensorParallelMapping : Type := {
  is_column_parallel : string -> bool;
  is_row_parallel : string -> bool;
  is_reversed_param : string -> bool;
  get_combined_qkv_degree : string -> Module -> Z;
  update_attrs : list string;
}.

Section Objects.
Context {A : Type}.

Record Param : Type := {
  data : Tensor A;
  tp_rank : option Z;
  is_cuda : bool;
}.

Record Model : Type := {
  named_modules : list (string * Module);
  input_embeddings : option nat;
  store : gmap nat Param;
}.

(** *** Rank-local computations: state of one model, Python exceptions *)

Definition L (X : Type) : Type := Model -> result X * Model.

Definition lret {X : Type} (x : X) : L X := fun m => (Ok x, m).
Definition lraise {X : Type} (e : PyErr) : L X := fun m => (Raise e, m).
Definition lbind {X Y : Type} (c : L X) (f : X -> L Y) : L Y :=
  fun m =>
    match c m with
    | (Ok x, m') => f x m'
    | (Raise e, m') => (Raise e, m')
    end.
Definition lift {X : Type} (r : result X) : L X := fun m => (r, m).
Definition get : L Model := fun m => (Ok m, m).
Definition put (m : Model) : L unit := fun _ => (Ok tt, m).

End Objects.

Arguments Param A : clear implicits.
Arguments Model A : clear implicits.
Arguments L A X : clear implicits.

Declare Scope local_scope.
Delimit Scope local_scope with L.
Notation "x <- c ;; k" := (lbind c (fun x => k))
  (at level 100, c at next level, right associativity) : local_scope.
Notation "c ;; k" := (lbind c (fun _ => k))
  (at level 100, right associativity) : local_scope.

Section Access.
Context {A : Type}.
Local Open Scope local_scope.

(** [for x in xs: body(x)] *)
Fixpoint for_each {X : Type} (xs : list X) (body : X -> L A unit) : L A unit :=
  match xs with
  | [] => lret tt
  | x :: xs' => body x ;; for_each xs' body
  end.

(** The module objects, addressed by their position in [named_modules()]. *)
Definition module_ids (m : Model A) : list nat :=
  seq 0 (length (named_modules m)).

Definition get_module (i : nat) : L A Module :=
  m <- get ;;
  match named_modules m !! i with
  | Some (_, md) => lret md
  | None => lraise RuntimeError
  end.

Definition module_name (i : nat) : L A string :=
  m <- get ;;
  match named_modules m !! i with
  | Some (name, _) => lret name
  | None => lraise RuntimeError
  end.

Definition upd_module (i : nat) (f : Module -> Module) (m : Model A) : Model A :=
  {| named_modules := alter (fun nm => (nm.1, f nm.2)) i (named_modules m);
     input_embeddings := input_embeddings m;
     store := store m |}.

Definition modify_module (i : nat) (f : Module -> Module) : L A unit :=
  m <- get ;; put (upd_module i f m).

Definition with_attrs (md : Module) (a : gmap string Value) : Module :=
  {| cls := cls md; weight := weight md; bias := bias md; attrs := a |}.

Definition with_class (md : Module) (c : Class) : Module :=
  {| cls := c; weight := weight md; bias := bias md; attrs := attrs md |}.

(** [setattr(module, name, v)] *)
Definition setattr (i : nat) (name : string) (v : Value) : L A unit :=
  modify_module i (fun md => with_attrs md (<[name := v]> (attrs md))).

(** [getattr(module, name)] / [module.name] *)
Definition getattr (i : nat) (name : string) : L A Value :=
  md <- get_module i ;;
  match attrs md !! name with
  | Some v => lret v
  | None => lraise AttributeError
  end.

(** [hasattr(module, name)] *)
Definition hasattr (md : Module) (name : string) : bool :=
  bool_decide (is_Some (attrs md !! name)).

(** [module.__class__ = c] *)
Definition set_class (i : nat) (c : Class) : L A unit :=
  modify_module i (fun md => with_class md c).

Definition get_param (p : nat) : L A (Param A) :=
  m <- get ;;
  match store m !! p with
  | Some x => lret x
  | None => lraise RuntimeError
  end.

Definition upd_param (p : nat) (f : Param A -> Param A) (m : Model A) : Model A :=
  {| named_modules := named_modules m;
     input_embeddings := input_embeddings m;
     store := alter f p (store m) |}.

Definition modify_param (p : nat) (f : Param A -> Param A) : L A unit :=
  m <- get ;; put (upd_param p f m).

(** [param.data = t] *)
Definition set_data (p : nat) (t : Tensor A) : L A unit :=
  modify_param p (fun x =>
    {| data := t; tp_rank := tp_rank x; is_cuda := is_cuda x |}).

(** [setattr(param, "tp_rank", r)] *)
Definition set_tp_rank (p : nat) (r : Z) : L A unit :=
  modify_param p (fun x =>
    {| data := data x; tp_rank := Some r; is_cuda := is_cuda x |}).

(** [param.data = param.cuda()] *)
Definition to_cuda (p : nat) : L A unit :=
  modify_param p (fun x =>
    {| data := data x; tp_rank := tp_rank x; is_cuda := true |}).

(** Modelled from the spec: [update_module_arguments] of
    [oslo/pytorch/model_parallelism/utils/mappings.py], which is not part
    of the sources at hand. It is the explicit update function of the
    design notes: every keyword argument is set as an attribute of the
    module, in the order written. *)
Definition update_module_arguments (i : nat) (kwargs : list (string * Value))
  : L A unit :=
  for_each kwargs (fun kv => setattr i kv.1 kv.2).

(** [a // b] and [a * b] on attribute values; [bool] is a subtype of
    [int]. *)
Definition as_int (v : Value) : result Z :=
  match v with
  | VInt z => Ok z
  | VBool b => Ok (if b then 1 else 0)
  | _ => Raise TypeError
  end.

Definition py_floordiv (v : Value) (w : Z) : result Value :=
  (h <- as_int v ;;
   if w =? 0 then Raise ZeroDivisionError else Ok (VInt (h / w)))%res.

Definition py_mul (v : Value) (w : Z) : result Value :=
  (h <- as_int v ;; Ok (VInt (h * w)))%res.

(** Truth value of an attribute, for [if not reversed] and the like. *)
Definition truthy (v : Value) : bool :=
  match v with
  | VInt z => negb (z =? 0)
  | VBool b => b
  | VNone => false
  | _ => true
  end.

End Access.

(** ** [TensorParallelEngine1D] *)

Record Engine : Type := {
  mpu : MPU;
  tp_mapping : TensorParallelMapping;
}.

Module TensorParallelEngine1D.
Section Defs.
Context {A : Type}.
Local Open Scope local_scope.

Definition _update_mp_arguments (self : Engine) : L A unit :=
  m <- get ;;
  for_each (module_ids m) (fun module =>
    for_each (update_attrs (tp_mapping self)) (fun elem_name =>
      md <- get_module module ;;
      if hasattr md elem_name then
        let world_size := get_tensor_parallel_world_size (mpu self) in
        v <- getattr module elem_name ;;
        reduced_arg <- lift (py_floordiv v world_size) ;;
        setattr module elem_name reduced_arg
      else lret tt)).

Definition _deconstruct_combined_qkv (tensor : list (Tensor A)) (world_size : Z)
  : result (list (Tensor A)) :=
  if world_size =? 0 then Raise ZeroDivisionError
  else
    let ranks := (Z.of_nat (length tensor) + world_size - 1) / world_size in
    let tensor :=
      (fun i => Py.slice tensor (i * world_size) ((i + 1) * world_size))
        <$> Py.range ranks in
    rmapM (fun x => cat x (-1)) (Py.zip_star tensor).

(** The tensor that [_slice] stores for this rank: [chunk], regrouping
    when the projection is fused, then [weight[gpu_index]]. *)
Definition slice_tensor (t : Tensor A) (fusion_degree world_size gpu_index d : Z)
  : result (Tensor A) :=
  (weight <- chunk t (fusion_degree * world_size) d ;;
   weight <- (if 1 <? fusion_degree
              then _deconstruct_combined_qkv weight world_size
              else Ok weight) ;;
   Py.index weight gpu_index)%res.

Definition _slice (self : Engine) (module : nat) (reversed : bool)
    (fusion_degree : Z) (slice_bias : bool) (d : Z) : L A unit :=
  let d := if negb reversed then d else Z.abs (d - 1) in
  let world_size := get_tensor_parallel_world_size (mpu self) in
  let gpu_index := get_tensor_parallel_rank (mpu self) in
  md <- get_module module ;;
  update_module_arguments module
    [("mpu", VMpu (mpu self));
     ("reversed", VBool reversed);
     ("fusion_degree", VInt fusion_degree);
     ("orig_module", VClass (cls md));
     ("gather_output", VBool false)] ;;
  match weight md with
  | Ref w =>
      pw <- get_param w ;;
      (if 1 <=? dim (data pw) then
         t <- lift (slice_tensor (data pw) fusion_degree world_size gpu_index d) ;;
         set_data w t
       else lret tt) ;;
      set_tp_rank w gpu_index ;;
      pw <- get_param w ;;
      in_features <- lift (Py.index (size (data pw)) 0) ;;
      out_features <- lift (Py.index (size (data pw)) 1) ;;
      update_module_arguments module
        [("in_features", VInt in_features);
         ("out_features", VInt out_features)]
  | _ => lret tt
  end ;;
  match bias md with
  | Ref b =>
      pb <- get_param b ;;
      (if slice_bias && (1 <=? dim (data pb)) then
         t <- lift (slice_tensor (data pb) fusion_degree world_size gpu_index 0) ;;
         set_data b t
       else lret tt) ;;
      set_tp_rank b gpu_index
  | _ => lret tt
  end.

Definition _column_slice (self : Engine) (module : nat) (fusion_degree : Z)
    (reversed : bool) : L A unit :=
  _slice self module reversed fusion_degree true 0.

Definition _row_slice (self : Engine) (module : nat) (fusion_degree : Z)
    (reversed : bool) : L A unit :=
  _slice self module reversed fusion_degree false 1.

(** [embedding.weight], read where a tensor is needed *)
Definition weight_ref (md : Module) : L A nat :=
  match weight md with
  | Ref w => lret w
  | IsNone => lraise TypeError
  | Absent => lraise AttributeError
  end.

(** [hasattr(module, "weight") and module.weight is embedding.weight and
    not isinstance(module, Embedding) and
    not isinstance(module, VocabParallelEmbedding)] *)
Definition is_tied_head (md : Module) (w : nat) : bool :=
  bool_decide (weight md = Ref w)
  && negb (isinstance_Embedding (cls md))
  && negb (isinstance_VocabParallelEmbedding (cls md)).

Definition _parallelize_embedding (self : Engine) : L A unit :=
  m <- get ;;
  match input_embeddings m with
  | None => lraise AssertionError
  | Some embedding =>
      let gpu_index := get_tensor_parallel_rank (mpu self) in
      emb <- get_module embedding ;;
      w <- weight_ref emb ;;
      pw <- get_param w ;;
      chunked_weights <-
        lift (chunk (data pw) (get_tensor_parallel_world_size (mpu self)) 0) ;;
      chunked_weight <- lift (Py.index chunked_weights gpu_index) ;;
      set_data w chunked_weight ;;
      set_tp_rank w gpu_index ;;
      update_module_arguments embedding
        [("mpu", VMpu (mpu self)); ("orig_module", VClass (cls emb))] ;;
      set_class embedding VocabParallelEmbedding ;;
      for_each (module_ids m) (fun module =>
        name <- module_name module ;;
        md <- get_module module ;;
        if is_tied_head md w then
          update_module_arguments module
            [("mpu", VMpu (mpu self));
             ("reversed", VBool (is_reversed_param (tp_mapping self) name));
             ("fusion_degree", VInt 1);
             ("orig_module", VClass (cls md));
             ("gather_output", VBool true)] ;;
          set_class module ColumnParallelLinear
        else lret tt)
  end.

Definition _parallelize_modules (self : Engine) : L A unit :=
  m <- get ;;
  for_each (module_ids m) (fun module =>
    param_name <- module_name module ;;
    md <- get_module module ;;
    if is_column_parallel (tp_mapping self) param_name then
      _column_slice self module
        (get_combined_qkv_degree (tp_mapping self) param_name md)
        (is_reversed_param (tp_mapping self) param_name) ;;
      set_class module ColumnParallelLinear
    else if is_row_parallel (tp_mapping self) param_name then
      _row_slice self module 1
        (is_reversed_param (tp_mapping self) param_name) ;;
      set_class module RowParallelLinear
    else lret tt).

(** Every parameter and buffer that is not on the device is tagged with
    the rank; the store holds both kinds. *)
Definition _postprocess (self : Engine) : L A unit :=
  let gpu_index := get_tensor_parallel_rank (mpu self) in
  m <- get ;;
  put {| named_modules := named_modules m;
         input_embeddings := input_embeddings m;
         store :=
           (fun x => if is_cuda x then x
                     else {| data := data x; tp_rank := Some gpu_index;
                             is_cuda := is_cuda x |}) <$> store m |}.

Definition parallelize (self : Engine) : L A unit :=
  _update_mp_arguments self ;;
  _parallelize_embedding self ;;
  _parallelize_modules self ;;
  _postprocess self ;;
  update_module_arguments 0%nat [("mpu", VMpu (mpu self))].

End Defs.
End TensorParallelEngine1D.

(** ** Collectives

Every rank runs the same program on its own model. A rank-local
computation is an [L]; a computation that communicates is a tree whose
nodes are the collective calls: the rank hands over its tensor and
resumes with the tensors of all ranks, in rank order. [run_cluster]
advances all ranks in lockstep, one collective at a time. *)

Inductive CollOp : Type :=
| OpAllGather
| OpReduce
| OpBroadcast.

#[global] Instance CollOp_eq_dec : EqDecision CollOp.
Proof. solve_decision. Defined.

Inductive Prog (A X : Type) : Type :=
| Ret (x : X)
| Coll (op : CollOp) (t : Tensor A) (k : list (Tensor A) -> Prog A X).
Arguments Ret {A X} x.
Arguments Coll {A X} op t k.

Section Cluster.
Context {A : Type}.

Fixpoint prog_bind {X Y : Type} (p : Prog A X) (f : X -> Prog A Y) : Prog A Y :=
  match p with
  | Ret x => f x
  | Coll op t k => Coll op t (fun ts => prog_bind (k ts) f)
  end.

Definition M (X : Type) : Type := Model A -> Prog A (result X * Model A).

Definition cret {X : Type} (x : X) : M X := fun m => Ret (Ok x, m).
Definition craise {X : Type} (e : PyErr) : M X := fun m => Ret (Raise e, m).
Definition cbind {X Y : Type} (c : M X) (f : X -> M Y) : M Y :=
  fun m =>
    prog_bind (c m) (fun rm =>
      match rm with
      | (Ok x, m') => f x m'
      | (Raise e, m') => Ret (Raise e, m')
      end).
Definition local {X : Type} (c : L A X) : M X := fun m => Ret (c m).
Definition collective (op : CollOp) (t : Tensor A) : M (list (Tensor A)) :=
  fun m => Coll op t (fun ts => Ret (Ok ts, m)).

Definition as_ret {X : Type} (p : Prog A X) : option X :=
  match p with
  | Ret x => Some x
  | Coll _ _ _ => None
  end.

Definition as_coll {X : Type} (p : Prog A X)
  : option (CollOp * Tensor A * (list (Tensor A) -> Prog A X)) :=
  match p with
  | Ret _ => None
  | Coll op t k => Some (op, t, k)
  end.

Definition same_op (cs : list CollOp) : bool :=
  match cs with
  | [] => true
  | op :: cs' => forallb (fun op' => bool_decide (op' = op)) cs'
  end.

(** All ranks have returned, or all ranks are at a collective of the same
    kind and exchange their tensors; anything else is a hang. *)
Fixpoint run_cluster {X : Type} (fuel : nat) (ps : list (Prog A X))
  : option (list X) :=
  match mapM as_ret ps with
  | Some xs => Some xs
  | None =>
      match fuel with
      | O => None
      | S fuel' =>
          match mapM as_coll ps with
          | Some cs =>
              if same_op ((fun c => c.1.1) <$> cs)
              then
                let ts := (fun c => c.1.2) <$> cs in
                run_cluster fuel' ((fun c => c.2 ts) <$> cs)
              else None
          | None => None
          end
      end
  end.

End Cluster.

Arguments M A X : clear implicits.

Declare Scope coll_scope.
Delimit Scope coll_scope with M.
Notation "x <- c ;; k" := (cbind c (fun x => k))
  (at level 100, c at next level, right associativity) : coll_scope.
Notation "c ;; k" := (cbind c (fun _ => k))
  (at level 100, right associativity) : coll_scope.

Section Dist.
Context {A : Type}.
Local Open Scope coll_scope.

Fixpoint cfor_each {X : Type} (xs : list X) (body : X -> M A unit) : M A unit :=
  match xs with
  | [] => cret tt
  | x :: xs' => body x ;; cfor_each xs' body
  end.

Definition same_shape (t1 t2 : Tensor A) : bool :=
  bool_decide (size t1 = size t2).

(** [dist.all_gather(tensor_list, tensor, group)] with [tensor_list] made
    of [world_size] buffers shaped like [tensor]: the group must have
    [world_size] ranks and every rank must contribute a tensor of that
    shape; a mismatch is reported as [RuntimeError]. *)
Definition dist_all_gather (world_size : Z) (t : Tensor A)
  : M A (list (Tensor A)) :=
  ts <- collective OpAllGather t ;;
  if bool_decide (Z.of_nat (length ts) = world_size)
     && forallb (same_shape t) ts
  then cret ts
  else craise RuntimeError.

(** Modelled from the spec: [mpu._gather(tensor, dim)] of the
    distribution context, which is not part of the sources at hand: a
    plain all-gather followed by concatenation along [dim], in rank
    order. *)
Definition mpu_gather (self_mpu : MPU) (t : Tensor A) (d : Z) : M A (Tensor A) :=
  ts <- dist_all_gather (get_tensor_parallel_world_size self_mpu) t ;;
  local (lift (cat ts d)).

End Dist.

(** ** [TensorDeparallelEngine1D] *)

Module TensorDeparallelEngine1D.
Section Defs.
Context {A : Type}.

Definition _update_mp_arguments (self : Engine) : L A unit :=
  (m <- get ;;
   for_each (module_ids m) (fun module =>
     for_each (update_attrs (tp_mapping self)) (fun elem_name =>
       md <- get_module module ;;
       if hasattr md elem_name then
         let world_size := get_tensor_parallel_world_size (mpu self) in
         v <- getattr module elem_name ;;
         reduced_arg <- lift (py_mul v world_size) ;;
         setattr module elem_name reduced_arg
       else lret tt)))%L.

(** [for i, chunk in enumerate(chunks): result_tensors[i].append(chunk)] *)
Definition append_chunks (result_tensors : list (list (Tensor A)))
    (chunks : list (Tensor A)) : list (list (Tensor A)) :=
  foldl (fun acc ic => alter (fun val => val ++ [ic.2]) ic.1 acc)
        result_tensors (imap pair chunks).

Definition _reconstruct_combined_qkv (tensors : list (Tensor A))
    (fusion_degree d : Z) : result (Tensor A) :=
  (let result_tensors := (fun _ => []) <$> Py.range fusion_degree in
   chunkss <- rmapM (fun tensor => chunk tensor fusion_degree d) tensors ;;
   let result_tensors := foldl append_chunks result_tensors chunkss in
   result_tensors <- rmapM (fun val => cat val d) result_tensors ;;
   cat result_tensors d)%res.

(** The tensor that [_merge] stores, from the gathered [tensor_list]. *)
Definition merge_tensors (tensor_list : list (Tensor A)) (fusion_degree : Value)
    (d : Z) : result (Tensor A) :=
  (f <- as_int fusion_degree ;;
   if 1 <? f then _reconstruct_combined_qkv tensor_list f d
   else cat tensor_list d)%res.

Local Open Scope coll_scope.

Definition ensure_cuda (p : nat) : M A unit :=
  pw <- local (get_param p) ;;
  if is_cuda pw then cret tt else local (to_cuda p).

Definition _merge (self : Engine) (module : nat) (reversed fusion_degree : Value)
    (merge_bias : bool) (d : Z) : M A unit :=
  let d := if negb (truthy reversed) then d else Z.abs (d - 1) in
  let world_size := get_tensor_parallel_world_size (mpu self) in
  local (update_module_arguments module [("mpu", VNone)]) ;;
  md <- local (get_module module) ;;
  match weight md with
  | Ref w =>
      pw <- local (get_param w) ;;
      if 1 <=? dim (data pw) then
        ensure_cuda w ;;
        pw <- local (get_param w) ;;
        tensor_list <- dist_all_gather world_size (data pw) ;;
        output <- local (lift (merge_tensors tensor_list fusion_degree d)) ;;
        local (set_data w output) ;;
        size0 <- local (lift (Py.index (size output) 0)) ;;
        size1 <- local (lift (Py.index (size output) 1)) ;;
        local (update_module_arguments module
                 [("in_features", VInt size0);
                  ("out_features", VInt size1);
                  ("nx", VInt size0);
                  ("nf", VInt size1)])
      else cret tt
  | _ => cret tt
  end ;;
  match bias md with
  | Ref b =>
      pb <- local (get_param b) ;;
      if merge_bias && (1 <=? dim (data pb)) then
        ensure_cuda b ;;
        pb <- local (get_param b) ;;
        tensor_list <- dist_all_gather world_size (data pb) ;;
        output <- local (lift (merge_tensors tensor_list fusion_degree 0)) ;;
        local (set_data b output)
      else cret tt
  | _ => cret tt
  end.

(** [if hasattr(module, "orig_module"):
       module.__class__ = module.orig_module] *)
Definition restore_class (module : nat) : L A unit :=
  (md <- get_module module ;;
   match attrs md !! "orig_module" with
   | Some (VClass c) => set_class module c
   | Some _ => lraise TypeError
   | None => lret tt
   end)%L.

Definition _column_merge (self : Engine) (module : nat)
    (fusion_degree reversed : Value) : M A unit :=
  _merge self module reversed fusion_degree true 0 ;;
  local (restore_class module).

Definition _row_merge (self : Engine) (module : nat)
    (fusion_degree reversed : Value) : M A unit :=
  _merge self module reversed fusion_degree false 1 ;;
  local (restore_class module).

Definition _deparallelize_embedding (self : Engine) : M A unit :=
  m <- local get ;;
  match input_embeddings m with
  | None => craise AttributeError
  | Some embedding =>
      emb <- local (get_module embedding) ;;
      w <- local (TensorParallelEngine1D.weight_ref emb) ;;
      ensure_cuda w ;;
      pw <- local (get_param w) ;;
      gathered_weight <- mpu_gather (mpu self) (data pw) 0 ;;
      local (set_data w gathered_weight) ;;
      size0 <- local (lift (Py.index (size gathered_weight) 0)) ;;
      local (update_module_arguments embedding
               [("mpu", VNone); ("num_embeddings", VInt size0)]) ;;
      local (restore_class embedding) ;;
      local (for_each (module_ids m) (fun module =>
        md <- get_module module ;;
        if TensorParallelEngine1D.is_tied_head md w then
          num_embeddings <- getattr embedding "num_embeddings" ;;
          update_module_arguments module
            [("mpu", VNone); ("out_features", num_embeddings)] ;;
          restore_class module
        else lret tt)%L)
  end.

Definition _deparallelize_modules (self : Engine) : M A unit :=
  m <- local get ;;
  cfor_each (module_ids m) (fun module =>
    param_name <- local (module_name module) ;;
    if is_column_parallel (tp_mapping self) param_name then
      fusion_degree <- local (getattr module "fusion_degree") ;;
      reversed <- local (getattr module "reversed") ;;
      _column_merge self module fusion_degree reversed
    else if is_row_parallel (tp_mapping self) param_name then
      fusion_degree <- local (getattr module "fusion_degree") ;;
      reversed <- local (getattr module "reversed") ;;
      _row_merge self module fusion_degree reversed
    else cret tt).

Definition deparallelize (self : Engine) : M A unit :=
  local (_update_mp_arguments self) ;;
  _deparallelize_embedding self ;;
  _deparallelize_modules self ;;
  local (update_module_arguments 0%nat [("mpu", VNone)]).

End Defs.
End TensorDeparallelEngine1D.

(** ** The whole group

Rank [r] of a group of [world_size] processes runs the engines with its
own distribution context on its own copy of the model. *)

Section Group.
Context {A : Type}.

Definition engine_of (tp : TensorParallelMapping) (world_size : Z) (r : Z)
  : Engine :=
  {| mpu := {| get_tensor_parallel_world_size := world_size;
               get_tensor_parallel_rank := r |};
     tp_mapping := tp |}.

Definition parallelize_all (tp : TensorParallelMapping) (world_size : Z)
    (m : Model A) : list (result unit * Model A) :=
  (fun r => TensorParallelEngine1D.parallelize (engine_of tp world_size r) m)
    <$> Py.range world_size.

Definition deparallelize_all (fuel : nat) (tp : TensorParallelMapping)
    (world_size : Z) (ms : list (Model A))
  : option (list (result unit * Model A)) :=
  run_cluster fuel
    (imap (fun r m =>
             TensorDeparallelEngine1D.deparallelize
               (engine_of tp world_size (Z.of_nat r)) m) ms).

(** Parallelize on every rank and, when no rank failed, deparallelize. *)
Definition round_trip (fuel : nat) (tp : TensorParallelMapping)
    (world_size : Z) (m : Model A)
  : option (list (result unit * Model A)) :=
  let sharded := parallelize_all tp world_size m in
  if forallb (fun rm => match rm.1 with Ok _ => true | Raise _ => false end)
             sharded
  then deparallelize_all fuel tp world_size (snd <$> sharded)
  else None.

End Group.

(** ** Forward passes of the sharded layers

Token ids are a flat batch of integers; activations are matrices with
one row per input. Element arithmetic is a parameter: [zero] fills
masked rows, [add] is the sum of the reduction and of the bias, [mul]
the product inside [matmul]. *)

Section Forward.
Context {A : Type} (zero : A) (add mul : A -> A -> A).

(** [F.embedding(ids, weight)] with the default [max_norm=None]: one row
    of the table per id; an id outside the table raises [IndexError]. *)
Definition embedding_lookup (ids : list Z) (table : Tensor A)
  : result (Tensor A) :=
  (rows <- as_mat table ;;
   out <- rmapM (fun x =>
                   if (x <? 0) || (Z.of_nat (length rows) <=? x)
                   then Raise IndexError
                   else Py.index rows x) ids ;;
   Ok (Mat out))%res.

(** [output[input_mask, :] = 0.0] *)
Definition zero_masked (input_mask : list bool) (rows : list (list A))
  : list (list A) :=
  zip_with (fun (b : bool) (r : list A) => if b then (fun _ => zero) <$> r else r)
           input_mask rows.

(** Elementwise sum of two tensors of the same shape. *)
Definition tensor_add (t1 t2 : Tensor A) : result (Tensor A) :=
  if bool_decide (size t1 = size t2) then
    match t1, t2 with
    | Scal x, Scal y => Ok (Scal (add x y))
    | Vec v1, Vec v2 => Ok (Vec (zip_with add v1 v2))
    | Mat r1, Mat r2 => Ok (Mat (zip_with (zip_with add) r1 r2))
    | _, _ => Raise RuntimeError
    end
  else Raise RuntimeError.

Fixpoint tensor_sum (acc : Tensor A) (ts : list (Tensor A)) : result (Tensor A) :=
  match ts with
  | [] => Ok acc
  | t :: ts' => (acc' <- tensor_add acc t ;; tensor_sum acc' ts')%res
  end.

Local Open Scope coll_scope.

(** Modelled from the spec: [mpu.reduce(tensor)] of the distribution
    context, which is not part of the sources at hand: the tensors of all
    ranks summed, in rank order. *)
Definition mpu_reduce (t : Tensor A) : M A (Tensor A) :=
  ts <- collective OpReduce t ;;
  match ts with
  | [] => craise RuntimeError
  | t0 :: ts' => local (lift (tensor_sum t0 ts'))
  end.

(** Modelled from the spec: [mpu.broadcast(tensor)] of the distribution
    context, which is not part of the sources at hand: every rank
    continues with the tensor of the first rank. *)
Definition mpu_broadcast (t : Tensor A) : M A (Tensor A) :=
  ts <- collective OpBroadcast t ;;
  local (lift (Py.index ts 0)).

(** [self.mpu] of a sharded module *)
Definition self_mpu (self : nat) : L A MPU :=
  (v <- getattr self "mpu" ;;
   match v with
   | VMpu x => lret x
   | _ => lraise AttributeError
   end)%L.

Definition self_int (self : nat) (name : string) : L A Z :=
  (v <- getattr self name ;; lift (as_int v))%L.

Definition self_weight (self : nat) : L A (Tensor A) :=
  (md <- get_module self ;;
   w <- TensorParallelEngine1D.weight_ref md ;;
   pw <- get_param w ;;
   lret (data pw))%L.

(** [VocabParallelEmbedding.forward] *)
Definition VocabParallelEmbedding_forward (self : nat) (inputs : list Z)
  : M A (Tensor A) :=
  self_mpu <- local (self_mpu self) ;;
  let world_size := get_tensor_parallel_world_size self_mpu in
  weight <- local (self_weight self) ;;
  output_parallel <-
    (if 1 <? world_size then
       num_embeddings <- local (self_int self "num_embeddings") ;;
       indices <- local (lift (VocabRange._get_partitioned_vocab_range
                                 num_embeddings world_size
                                 (get_tensor_parallel_rank self_mpu))) ;;
       let vocab_start_index := indices.1 in
       let vocab_end_index := indices.2 in
       let input_mask :=
         (fun x => (x <? vocab_start_index) || (vocab_end_index <=? x))
           <$> inputs in
       let masked_input :=
         zip_with (fun (b : bool) (x : Z) => if b then 0 else x - vocab_start_index)
                  input_mask inputs in
       output_parallel <- local (lift (embedding_lookup masked_input weight)) ;;
       rows <- local (lift (as_mat output_parallel)) ;;
       cret (Mat (zero_masked input_mask rows))
     else
       let masked_input := inputs in
       local (lift (embedding_lookup masked_input weight))) ;;
  mpu_reduce output_parallel.

(** [torch.matmul] on two matrices *)
Definition dot (u v : list A) : A :=
  foldr add zero (zip_with mul u v).

Definition matmul (x w : Tensor A) : result (Tensor A) :=
  (xr <- as_mat x ;;
   wr <- as_mat w ;;
   if forallb (fun r => Nat.eqb (length r) (length wr)) xr then
     let wc := transpose wr in
     Ok (Mat ((fun r => dot r <$> wc) <$> xr))
   else Raise RuntimeError)%res.

Definition tensor_t (w : Tensor A) : result (Tensor A) :=
  (wr <- as_mat w ;; Ok (Mat (transpose wr)))%res.

(** [outputs += self.bias] *)
Definition add_bias (outputs bias_t : Tensor A) : result (Tensor A) :=
  (rows <- as_mat outputs ;;
   b <- as_vec bias_t ;;
   if forallb (fun r => Nat.eqb (length r) (length b)) rows
   then Ok (Mat ((fun r => zip_with add r b) <$> rows))
   else Raise RuntimeError)%res.

Definition local_matmul (self : nat) (inputs : Tensor A) : L A (Tensor A) :=
  (reversed <- getattr self "reversed" ;;
   weight <- self_weight self ;;
   if truthy reversed then lift (matmul inputs weight)
   else (wt <- lift (tensor_t weight) ;; lift (matmul inputs wt)))%L.

(** [if self.bias is not None: outputs += self.bias] *)
Definition maybe_add_bias (self : nat) (outputs : Tensor A) : L A (Tensor A) :=
  (md <- get_module self ;;
   match bias md with
   | Absent => lraise AttributeError
   | IsNone => lret outputs
   | Ref b => pb <- get_param b ;; lift (add_bias outputs (data pb))
   end)%L.

(** [ColumnParallelLinear.forward]; [mpu.gather] concatenates along the
    last dimension. *)
Definition ColumnParallelLinear_forward (self : nat) (inputs : Tensor A)
  : M A (Tensor A) :=
  self_mpu <- local (self_mpu self) ;;
  inputs <- mpu_broadcast inputs ;;
  outputs <- local (local_matmul self inputs) ;;
  gather_output <- local (getattr self "gather_output") ;;
  outputs <- (if truthy gather_output
              then mpu_gather self_mpu outputs (-1)
              else cret outputs) ;;
  local (maybe_add_bias self outputs).

(** [RowParallelLinear.forward] *)
Definition RowParallelLinear_forward (self : nat) (inputs : Tensor A)
  : M A (Tensor A) :=
  outputs <- local (local_matmul self inputs) ;;
  outputs <- mpu_reduce outputs ;;
  local (maybe_add_bias self outputs).

End Forward.


(** ** Closed forms used to state what the loops compute *)

Module Closed.

(** What the double loop of [_update_mp_arguments] does to the attributes
    of one module, for the integer operation [g] of the engine. *)
Definition rescale_attrs (g : Z -> Z) (names : list string)
    (a : gmap string Value) : gmap string Value :=
  foldl (fun a name =>
           match a !! name with
           | Some v =>
               match as_int v with
               | Ok h => <[name := VInt (g h)]> a
               | Raise _ => a
               end
           | None => a
           end) a names.

(** Every attribute that the loop will touch holds an integer. *)
Definition attrs_int {A : Type} (names : list string) (m : Model A) : Prop :=
  forall i nm md name v,
    named_modules m !! i = Some (nm, md) ->
    name ∈ names ->
    attrs md !! name = Some v ->
    exists h, as_int v = Ok h.

Definition is_ok {X : Type} (r : result X) : bool :=
  match r with
  | Ok _ => true
  | Raise _ => false
  end.

(** The same, as a check that can be run. *)
Definition attrs_intb {A : Type} (names : list string) (m : Model A) : bool :=
  forallb (fun nm : string * Module =>
             forallb (fun name =>
                        match attrs nm.2 !! name with
                        | Some v => is_ok (as_int v)
                        | None => true
                        end) names)
          (named_modules m).

(** The same change [f] made to every module of the model. *)
Definition map_modules {A : Type} (f : Module -> Module) (m : Model A)
  : Model A :=
  {| named_modules := (fun nm => (nm.1, f nm.2)) <$> named_modules m;
     input_embeddings := input_embeddings m;
     store := store m |}.

(** The rows that the shard owning the ids in [[lo, hi)] contributes for
    a batch of ids: the row of the full table for an id it owns, a row of
    [d] zeros otherwise. *)
Definition shard_rows {A : Type} (zero : A) (d : nat) (table : list (list A))
    (lo hi : Z) (inputs : list Z) : list (list A) :=
  (fun x => if (x <? lo) || (hi <=? x) then replicate d zero
            else default [] (table !! Z.to_nat x)) <$> inputs.

(** The part of an axis [l], cut in pieces of [s], that rank [r] of [W]
    holds when [F] projections are fused: pieces [r], [W + r], ...,
    one after the other. *)
Definition fused_pick {X : Type} (s F W r : nat) (l : list X) : list X :=
  concat ((fun i => chunk_piece s l (i * W + r)%nat) <$> seq 0 F).

(** The shard of [t] that rank [r] holds after slicing along [d]. *)
Definition shard {A : Type} (F W r : nat) (d : Z) (t : Tensor A) : Tensor A :=
  match t with
  | Scal x => Scal x
  | Vec v => Vec (fused_pick (length v / (F * W)) F W r v)
  | Mat rows =>
      if d =? 0
      then Mat (fused_pick (length rows / (F * W)) F W r rows)
      else Mat (fused_pick (ncols rows / (F * W)) F W r <$> rows)
  end.

(** All rows have the length of the first one. *)
Definition rectangular {A : Type} (rows : list (list A)) : bool :=
  forallb (fun row => Nat.eqb (length row) (ncols rows)) rows.

(** [t] can be cut along [d] in [F * W] pieces of one positive size, and
    a fused tensor ([F > 1]) is cut along its last dimension. *)
Definition sliceable {A : Type} (F W d : Z) (t : Tensor A) : bool :=
  (1 <=? F) && (1 <=? W) &&
  match t with
  | Scal _ => false
  | Vec v =>
      (d =? 0) && (1 <=? Z.of_nat (length v))
      && (Z.of_nat (length v) mod (F * W) =? 0)
  | Mat rows =>
      rectangular rows &&
      if d =? 0
      then (F =? 1) && (1 <=? Z.of_nat (length rows))
           && (Z.of_nat (length rows) mod W =? 0)
      else (d =? 1) && (1 <=? Z.of_nat (ncols rows))
           && (Z.of_nat (ncols rows) mod (F * W) =? 0)
  end.

(** The attribute [name] of the module at position [i]. *)
Definition attr_of {A : Type} (m : Model A) (i : nat) (name : string)
  : option Value :=
  match named_modules m !! i with
  | Some (_, md) => attrs md !! name
  | None => None
  end.

End Closed.

Module Spec.

(** Fused slicing as the specification words it: [F * W] contiguous
    chunks along the slicing dimension [d], rank [r] takes the chunks
    whose index is congruent to [r] modulo [W], and its [F] pieces are
    concatenated along [d]. *)
Definition fused_slice {A : Type} (t : Tensor A) (F W r d : Z)
  : result (Tensor A) :=
  (chunks <- chunk t (F * W) d ;;
   pieces <- rmapM (fun k => Py.index chunks (r + k * W)) (Py.range F) ;;
   cat pieces d)%res.

(** Feature dimensions of a weight, as the forward passes read it: a
    reversed weight is laid out [in, out] and multiplied as it is, any
    other is laid out [out, in] and transposed first. *)
Definition input_feature_dim {A : Type} (reversed : bool) (t : Tensor A)
  : result Z :=
  Py.index (size t) (if reversed then 0 else 1).

Definition output_feature_dim {A : Type} (reversed : bool) (t : Tensor A)
  : result Z :=
  Py.index (size t) (if reversed then 1 else 0).

End Spec.

(** ** Concrete models *)

Module Examples.

Definition mk_module (c : Class) (w b : Slot) (l : list (string * Value))
  : Module :=
  {| cls := c; weight := w; bias := b; attrs := list_to_map l |}.

Definition mk_param (t : Tensor Z) : Param Z :=
  {| data := t; tp_rank := None; is_cuda := false |}.

(** An [n] by [k] matrix whose entry at [(i, j)] is [i * k + j]. *)
Definition iota_mat (n k : Z) : Tensor Z :=
  Mat ((fun i => (fun j => i * k + j) <$> Py.range k) <$> Py.range n).

Definition no_mapping : TensorParallelMapping :=
  {| is_column_parallel := fun _ => false;
     is_row_parallel := fun _ => false;
     is_reversed_param := fun _ => false;
     get_combined_qkv_degree := fun _ _ => 1;
     update_attrs := ["num_heads"] |}.

(** A model without [get_input_embeddings] whose attention block has four
    heads. *)
Definition headless : Model Z :=
  {| named_modules :=
       [("", mk_module (OtherClass "Net") Absent Absent []);
        ("attn", mk_module (OtherClass "Attention") Absent Absent
                   [("num_heads", VInt 4)])];
     input_embeddings := None;
     store := ∅ |}.


(** The same with four heads. *)
Definition tied_even : Model Z :=
  {| named_modules :=
       [("", mk_module (OtherClass "LM") Absent Absent []);
        ("wte", mk_module Embedding (Ref 0%nat) Absent
                  [("num_embeddings", VInt 4)]);
        ("attn", mk_module (OtherClass "Attention") Absent Absent
                   [("num_heads", VInt 4)]);
        ("lm_head", mk_module Linear (Ref 0%nat) IsNone [])];
     input_embeddings := Some 1%nat;
     store := {[ 0%nat := mk_param (iota_mat 4 2) ]} |}.

(** A mapping table that also lists the tied head as column-parallel. *)
Definition head_in_mapping : TensorParallelMapping :=
  {| is_column_parallel := fun n => String.eqb n "lm_head";
     is_row_parallel := fun _ => false;
     is_reversed_param := fun _ => false;
     get_combined_qkv_degree := fun _ _ => 1;
     update_attrs := ["num_heads"] |}.

(** A plain [nn.Linear] layer, weight laid out [out, in] = [8, 4],
    sharded by rows of the product, and a fused projection of width
    twelve on a plain [nn.Linear], weight [12, 4]. *)
Definition linear_mapping : TensorParallelMapping :=
  {| is_column_parallel := fun n => String.eqb n "qkv";
     is_row_parallel := fun n => String.eqb n "dense";
     is_reversed_param := fun _ => false;
     get_combined_qkv_degree :=
       fun n _ => if String.eqb n "qkv" then 3 else 1;
     update_attrs := [] |}.

Definition linear_model : Model Z :=
  {| named_modules :=
       [("", mk_module (OtherClass "Net") Absent Absent []);
        ("wte", mk_module Embedding (Ref 0%nat) Absent
                  [("num_embeddings", VInt 4)]);
        ("dense", mk_module Linear (Ref 1%nat) IsNone
                    [("in_features", VInt 4); ("out_features", VInt 8)])];
     input_embeddings := Some 1%nat;
     store := {[ 0%nat := mk_param (iota_mat 4 2);
                 1%nat := mk_param (iota_mat 8 4) ]} |}.

(** The tied model as one process holds it after [parallelize] in a group
    of one. *)
Definition single_rank : Model Z :=
  (TensorParallelEngine1D.parallelize (engine_of no_mapping 1 0) tied_even).2.

(** The tied model as the two ranks of a group of two hold it. *)
Definition two_ranks : list (Model Z) :=
  snd <$> parallelize_all no_mapping 2 tied_even.

End Examples.

(** ** Properties of the engine, as stated for it *)

Module Claims.

(** The ranges of ranks [0 .. W-1] over a vocabulary of [V] entries are
    contiguous, do not overlap, cover [0, V) exactly, and all but the last
    have [ceil(V / W)] entries. *)
Definition is_partition (V W : Z) : Prop :=
  let range := VocabRange._get_partitioned_vocab_range V W in
  (forall r, 0 <= r < W -> exists lo hi, range r = Ok (lo, hi)) /\
  (forall r lo hi lo' hi',
      0 <= r -> r + 1 < W ->
      range r = Ok (lo, hi) -> range (r + 1) = Ok (lo', hi') -> hi = lo') /\
  (forall r r' lo hi lo' hi' x,
      0 <= r < W -> 0 <= r' < W ->
      range r = Ok (lo, hi) -> range r' = Ok (lo', hi') ->
      lo <= x < hi -> lo' <= x < hi' -> r = r') /\
  (forall x,
      (exists r lo hi, 0 <= r < W /\ range r = Ok (lo, hi) /\ lo <= x < hi)
      <-> 0 <= x < V) /\
  (forall r lo hi,
      0 <= r < W - 1 -> range r = Ok (lo, hi) -> hi - lo = Py.ceil_div V W).


(** Every weight and bias tensor and every rescaled attribute of [m'] is
    the one of [m]. *)
Definition restored {A : Type} (names : list string) (m m' : Model A) : Prop :=
  (forall p, data <$> store m' !! p = data <$> store m !! p) /\
  (forall i name, name ∈ names ->
     Closed.attr_of m' i name = Closed.attr_of m i name).

(** Parallelize on the [W] ranks and then deparallelize succeeds on every
    rank and restores the model. *)
Definition round_trip_exact {A : Type} (tp : TensorParallelMapping) (W : Z)
    (m : Model A) : Prop :=
  exists fuel results,
    round_trip fuel tp W m = Some results /\
    length results = Z.to_nat W /\
    forall rm, rm ∈ results ->
      rm.1 = Ok tt /\ restored (update_attrs tp) m rm.2.

(** An [AssertionError] of [parallelize] leaves the model as it was. *)
Definition error_before_mutation {A : Type} (self : Engine) (m : Model A)
  : Prop :=
  forall m',
    TensorParallelEngine1D.parallelize self m = (Raise AssertionError, m') ->
    m' = m.

(** After [parallelize], every module other than the input embedding that
    shares its weight object and is not of an embedding class is a
    [ColumnParallelLinear] with fusion degree one that gathers its
    output. *)
Definition tied_heads_gather {A : Type} (self : Engine) (m : Model A) : Prop :=
  forall m' e emb_name emb w i name md,
    TensorParallelEngine1D.parallelize self m = (Ok tt, m') ->
    input_embeddings m = Some e ->
    named_modules m !! e = Some (emb_name, emb) ->
    weight emb = Ref w ->
    named_modules m !! i = Some (name, md) ->
    weight md = Ref w ->
    i <> e ->
    isinstance_Embedding (cls md) = false ->
    exists md',
      named_modules m' !! i = Some (name, md') /\
      cls md' = ColumnParallelLinear /\
      attrs md' !! "fusion_degree" = Some (VInt 1) /\
      attrs md' !! "gather_output" = Some (VBool true).

(** In a group of one, the forward pass of the sharded embedding returns
    without a collective call. *)
Definition forward_without_collective {A : Type} (zero : A)
    (add : A -> A -> A) (self : nat) (inputs : list Z) (m : Model A) : Prop :=
  exists r, VocabParallelEmbedding_forward zero add self inputs m = Ret r.

End Claims.

(** ** What a rank-local computation may change *)

Module Logic.

(** Whatever its outcome, [c] keeps the accessor and the names of the
    modules, and relates every module to its former self by [R]. *)
Definition preserves {A X : Type} (R : nat -> Module -> Module -> Prop)
    (c : L A X) : Prop :=
  forall m r m',
    c m = (r, m') ->
    input_embeddings m' = input_embeddings m /\
    length (named_modules m') = length (named_modules m) /\
    forall i nm md,
      named_modules m !! i = Some (nm, md) ->
      exists md', named_modules m' !! i = Some (nm, md') /\ R i md md'.

(** Only attributes change. *)
Definition same_kind (i : nat) (md md' : Module) : Prop :=
  cls md' = cls md /\ weight md' = weight md /\ bias md' = bias md.

(** Only the module at [j] changes, and it keeps its tensors. *)
Definition only_at (j : nat) (i : nat) (md md' : Module) : Prop :=
  weight md' = weight md /\ bias md' = bias md /\ (i <> j -> md' = md).

(** What [parallelize] makes of a tied head: the module at [i]. *)
Definition gathering_column {A : Type} (self : Engine) (i : nat)
    (name : string) (m : Model A) : Prop :=
  exists md',
    named_modules m !! i = Some (name, md') /\
    cls md' = ColumnParallelLinear /\
    attrs md' !! "mpu" = Some (VMpu (mpu self)) /\
    attrs md' !! "fusion_degree" = Some (VInt 1) /\
    attrs md' !! "gather_output" = Some (VBool true).

End Logic.

(** ** Sharding and gathering, rank by rank

What the two engines make of a model whose tensors divide evenly, in
terms of the shards of [Closed.shard], and the collective calls that one
rank issues while it deparallelizes. *)

Module RoundTrip.

(** The attributes that the engines themselves write on a module. *)
Definition engine_names : list string :=
  ["mpu"; "reversed"; "fusion_degree"; "orig_module"; "gather_output";
   "in_features"; "out_features"; "nx"; "nf"; "num_embeddings"].

Inductive Kind : Type :=
| Column
| Row.

(** The branch that [_parallelize_modules] and [_deparallelize_modules]
    take for a module of that name. *)
Definition kind_of (tp : TensorParallelMapping) (nm : string) : option Kind :=
  if is_column_parallel tp nm then Some Column
  else if is_row_parallel tp nm then Some Row
  else None.

(** A module after [_update_mp_arguments] of the parallelize engine. *)
Definition rescaled (tp : TensorParallelMapping) (W : Z) (md : Module) : Module :=
  with_attrs md
    (Closed.rescale_attrs (fun h => h / W) (update_attrs tp) (attrs md)).

(** The fusion degree and the dimension that [_column_slice] and
    [_row_slice] hand to [_slice]. *)
Definition fusion_of (tp : TensorParallelMapping) (W : Z) (kd : Kind)
    (nm : string) (md : Module) : Z :=
  match kd with
  | Column => get_combined_qkv_degree tp nm (rescaled tp W md)
  | Row => 1
  end.

Definition slice_dim (tp : TensorParallelMapping) (kd : Kind) (nm : string) : Z :=
  let d := match kd with Column => 0 | Row => 1 end in
  if negb (is_reversed_param tp nm) then d else Z.abs (d - 1).

(** The objects that [_slice] cuts for one module, each with its fusion
    degree and dimension: the weight, and the bias of a column-parallel
    module. *)
Definition entries (tp : TensorParallelMapping) (W : Z) (nmd : string * Module)
  : list (nat * (Z * Z)) :=
  match kind_of tp nmd.1 with
  | None => []
  | Some kd =>
      let F := fusion_of tp W kd nmd.1 nmd.2 in
      match weight nmd.2 with
      | Ref p => [(p, (F, slice_dim tp kd nmd.1))]
      | _ => []
      end ++
      match kd, bias nmd.2 with
      | Column, Ref b => [(b, (F, 0))]
      | _, _ => []
      end
  end.

Definition plan (tp : TensorParallelMapping) (W : Z)
    (nms : list (string * Module)) : list (nat * (Z * Z)) :=
  concat (entries tp W <$> nms).

Section Views.
Context {A : Type}.

(** The tensor of the object [p], if there is one. *)
Definition dat (m : Model A) (p : nat) : option (Tensor A) :=
  data <$> store m !! p.

(** What rank [r] holds for the object [p] whose full tensor is [t], once
    the objects of [pl] are cut. *)
Definition expected (W : Z) (r : nat) (pl : list (nat * (Z * Z))) (p : nat)
    (t : Tensor A) : Tensor A :=
  match (list_to_map pl : gmap nat (Z * Z)) !! p with
  | Some (F, d) => Closed.shard (Z.to_nat F) (Z.to_nat W) r d t
  | None => t
  end.

(** The all-gather calls that bring the objects of [pl] back: for each,
    what every rank contributes. *)
Definition gathers (W : Z) (st : gmap nat (Param A))
    (pl : list (nat * (Z * Z))) : list (CollOp * (nat -> Tensor A)) :=
  omap (fun e : nat * (Z * Z) =>
          (fun pp : Param A =>
             (OpAllGather,
              fun r => Closed.shard (Z.to_nat e.2.1) (Z.to_nat W) r e.2.2
                         (data pp)))
            <$> st !! e.1) pl.

(** The calls as rank [r] of [n] sees them: what it sends and what it
    receives. *)
Definition responses (n : nat) (gs : list (CollOp * (nat -> Tensor A)))
    (r : nat) : list (CollOp * Tensor A * list (Tensor A)) :=
  (fun g => (g.1, g.2 r, g.2 <$> seq 0 n)) <$> gs.

(** The objects of a module to shard can be cut, its weight is a matrix
    and its bias exists. *)
Definition module_ready (tp : TensorParallelMapping) (W : Z)
    (st : gmap nat (Param A)) (nmd : string * Module) : bool :=
  match kind_of tp nmd.1 with
  | None => true
  | Some _ =>
      forallb (fun e : nat * (Z * Z) =>
                 match st !! e.1 with
                 | Some pp => Closed.sliceable e.2.1 W e.2.2 (data pp)
                 | None => false
                 end) (entries tp W nmd)
      && match weight nmd.2 with
         | Ref p =>
             match st !! p with
             | Some pp => dim (data pp) =? 2
             | None => false
             end
         | _ => true
         end
      && match bias nmd.2 with
         | Ref b => bool_decide (is_Some (st !! b))
         | _ => true
         end
  end.

(** The conditions under which the round trip is exact: a group of at
    least one rank; rescaled attributes that are named once, are not
    written by the engines and hold multiples of the group size; an input
    embedding whose table is a matrix with a multiple of the group size
    of rows; modules to shard whose tensors divide evenly; and no object
    cut twice. *)
Definition round_trip_ready (tp : TensorParallelMapping) (W : Z) (m : Model A)
  : bool :=
  (1 <=? W)
  && bool_decide (NoDup (update_attrs tp))
  && forallb (fun name => bool_decide (name ∉ engine_names)) (update_attrs tp)
  && forallb (fun nmd : string * Module =>
                forallb (fun name =>
                           match attrs nmd.2 !! name with
                           | Some (VInt h) => h mod W =? 0
                           | Some _ => false
                           | None => true
                           end) (update_attrs tp))
             (named_modules m)
  && match input_embeddings m with
     | Some e =>
         match named_modules m !! e with
         | Some (_, emb) =>
             match weight emb with
             | Ref w0 =>
                 bool_decide
                   (NoDup ((w0, (1, 0)) :: plan tp W (named_modules m)).*1)
                 && match store m !! w0 with
                    | Some p0 =>
                        Closed.sliceable 1 W 0 (data p0) && (dim (data p0) =? 2)
                    | None => false
                    end
                 && forallb (module_ready tp W (store m)) (named_modules m)
             | _ => false
             end
         | None => false
         end
     | None => false
     end.

End Views.

(** [Trace p tr x]: the program [p] issues the collective calls of [tr],
    in that order, and returns [x] when each call is answered as [tr]
    says. *)
Inductive Trace {A X : Type}
  : Prog A X -> list (CollOp * Tensor A * list (Tensor A)) -> X -> Prop :=
| Trace_ret (x : X) : Trace (Ret x) [] x
| Trace_coll (op : CollOp) (t : Tensor A) (k : list (Tensor A) -> Prog A X)
    (ts : list (Tensor A)) (tr : list (CollOp * Tensor A * list (Tensor A)))
    (x : X) :
    Trace (k ts) tr x -> Trace (Coll op t k) ((op, t, ts) :: tr) x.

(** The program after its first collective call is answered with [ts]. *)
Definition resume {A X : Type} (ts : list (Tensor A)) (p : Prog A X) : Prog A X :=
  match p with
  | Ret x => Ret x
  | Coll _ _ k => k ts
  end.

End RoundTrip.

(** ** What a rank holds between the two engines *)

Module Sharded.
Section Defs.
Context {A : Type}.
Variables (tp : TensorParallelMapping) (W : Z).

(** The objects that the module at position [k] has cut. *)
Definition entries_at (nms : list (string * Module)) (k : nat)
  : list (nat * (Z * Z)) :=
  match nms !! k with
  | Some nmd => RoundTrip.entries tp W nmd
  | None => []
  end.

(** The table of the input embedding, cut by rows, then the objects of
    the modules. *)
Definition full_plan (w0 : nat) (nms : list (string * Module))
  : list (nat * (Z * Z)) :=
  (w0, (1, 0)) :: RoundTrip.plan tp W nms.

(** A module keeps its tensors, and its attributes other than those the
    engines write are the rescaled ones. *)
Definition base (md md' : Module) : Prop :=
  weight md' = weight md /\
  bias md' = bias md /\
  forall name, name ∉ RoundTrip.engine_names ->
    attrs md' !! name = attrs (RoundTrip.rescaled tp W md) !! name.

(** The class that [_parallelize_modules] gives a module. *)
Definition parallel_class (kd : RoundTrip.Kind) : Class :=
  match kd with
  | RoundTrip.Column => ColumnParallelLinear
  | RoundTrip.Row => RowParallelLinear
  end.

(** A module that shares the table of the input embedding [e]: the input
    embedding has its class on record; another module of an embedding
    class is left as it is; any other one is a tied head, has its class
    on record and is a [ColumnParallelLinear]. *)
Definition orig_ok (e i : nat) (md md' : Module) : Prop :=
  if decide (i = e) then attrs md' !! "orig_module" = Some (VClass (cls md))
  else if isinstance_Embedding (cls md) then cls md' = cls md
  else attrs md' !! "orig_module" = Some (VClass (cls md)) /\
       cls md' = ColumnParallelLinear.

(** What [_slice] records on a module for [_merge], and the class that
    the module has then. *)
Definition sliced (kd : RoundTrip.Kind) (nm : string) (md md' : Module) : Prop :=
  attrs md' !! "fusion_degree"
  = Some (VInt (RoundTrip.fusion_of tp W kd nm md)) /\
  attrs md' !! "reversed" = Some (VBool (is_reversed_param tp nm)) /\
  attrs md' !! "orig_module" = Some (VClass (cls md)) /\
  cls md' = parallel_class kd.

(** What the forward pass of a sharded layer reads on its module: the
    distribution context of rank [r], the layout of the weight, and
    whether the output is gathered. *)
Definition layer_attrs (r : nat) (nm : string) (gather : bool) (md' : Module)
  : Prop :=
  attrs md' !! "mpu" = Some (VMpu (mpu (engine_of tp W (Z.of_nat r)))) /\
  attrs md' !! "reversed" = Some (VBool (is_reversed_param tp nm)) /\
  attrs md' !! "gather_output" = Some (VBool gather).

(** What [_parallelize_embedding] makes of the input embedding: its
    class, the distribution context of rank [r], and the number of
    embeddings as it was. *)
Definition embedding_attrs (r : nat) (md md' : Module) : Prop :=
  cls md' = VocabParallelEmbedding /\
  attrs md' !! "mpu" = Some (VMpu (mpu (engine_of tp W (Z.of_nat r)))) /\
  attrs md' !! "num_embeddings"
  = attrs (RoundTrip.rescaled tp W md) !! "num_embeddings".

(** A module has its tensors and its rescaled attributes back. *)
Definition back (md md' : Module) : Prop :=
  weight md' = weight md /\
  bias md' = bias md /\
  forall name, name ∈ update_attrs tp -> attrs md' !! name = attrs md !! name.

(** [m'] has as many modules as [m], and each one is of the class of
    the module of [m] at its position, has its name and points to the
    same weight and bias objects. *)
Definition same_modules (m m' : Model A) : Prop :=
  length (named_modules m') = length (named_modules m) /\
  forall i nm md,
    named_modules m !! i = Some (nm, md) ->
    exists md',
      named_modules m' !! i = Some (nm, md') /\
      cls md' = cls md /\ weight md' = weight md /\ bias md' = bias md.

(** Rank [r] holds, of every object of [m], the shard that [pl] says. *)
Definition holds (r : nat) (pl : list (nat * (Z * Z))) (m m' : Model A) : Prop :=
  forall p,
    RoundTrip.dat m' p = RoundTrip.expected W r pl p <$> RoundTrip.dat m p.

(** The model of rank [r] after [parallelize], against the model [m] it
    started from. *)
Definition after_parallelize (m : Model A) (e w0 r : nat) (m' : Model A) : Prop :=
  input_embeddings m' = Some e /\
  length (named_modules m') = length (named_modules m) /\
  (forall i nm md,
      named_modules m !! i = Some (nm, md) ->
      exists md',
        named_modules m' !! i = Some (nm, md') /\
        base md md' /\
        (weight md = Ref w0 -> orig_ok e i md md') /\
        (i = e -> embedding_attrs r md md') /\
        (forall kd, RoundTrip.kind_of tp nm = Some kd -> sliced kd nm md md') /\
        (weight md <> Ref w0 -> RoundTrip.kind_of tp nm = None ->
         cls md' = cls md) /\
        (forall kd, RoundTrip.kind_of tp nm = Some kd ->
                    layer_attrs r nm false md') /\
        (TensorParallelEngine1D.is_tied_head md w0 = true -> i <> e ->
         layer_attrs r nm true md')) /\
  holds r (full_plan w0 (named_modules m)) m m'.

End Defs.
End Sharded.

(** ** Outcomes of computations that succeed *)

Module Hoare.

(** The rank-local computation [c] succeeds from [m], with a result and a
    model that satisfy [Q]. *)
Definition wp {A X : Type} (c : L A X) (Q : X -> Model A -> Prop) (m : Model A)
  : Prop :=
  exists x m', c m = (Ok x, m') /\ Q x m'.

(** The same for a computation that communicates, answered as [tr]
    says. *)
Definition wpt {A X : Type} (c : M A X)
    (tr : list (CollOp * Tensor A * list (Tensor A)))
    (Q : X -> Model A -> Prop) (m : Model A) : Prop :=
  exists x m', RoundTrip.Trace (c m) tr (Ok x, m') /\ Q x m'.

End Hoare.

(** ** What a computation may change, whatever its outcome *)

Module Frame.

(** A module keeps its tensors and its attributes other than those named
    in [K], and is left as it is where [J] does not hold. *)
Definition touch (J : nat -> Prop) (K : list string) (i : nat)
    (md md' : Module) : Prop :=
  weight md' = weight md /\
  bias md' = bias md /\
  (forall name, name ∉ K -> attrs md' !! name = attrs md !! name) /\
  (~ J i -> md' = md).

(** A module keeps its class, its tensors and its attributes other than
    those named in [K]. *)
Definition keeps (K : list string) (md md' : Module) : Prop :=
  cls md' = cls md /\
  weight md' = weight md /\
  bias md' = bias md /\
  forall name, name ∉ K -> attrs md' !! name = attrs md !! name.

(** What [Logic.preserves] says of one run. *)
Definition related {A : Type} (R : nat -> Module -> Module -> Prop)
    (m m' : Model A) : Prop :=
  input_embeddings m' = input_embeddings m /\
  length (named_modules m') = length (named_modules m) /\
  forall i nm md,
    named_modules m !! i = Some (nm, md) ->
    exists md', named_modules m' !! i = Some (nm, md') /\ R i md md'.

End Frame.

(** ** A small decoder in the layout of GPT-2 *)

Module Sample.

(** The attention projection is fused three ways and column-parallel,
    the output projection is row-parallel; both are [Conv1D] layers,
    whose weights are laid out [in, out], so the table lists them as
    reversed. *)
Definition mapping : TensorParallelMapping :=
  {| is_column_parallel := fun n => String.eqb n "c_attn";
     is_row_parallel := fun n => String.eqb n "c_proj";
     is_reversed_param :=
       fun n => String.eqb n "c_attn" || String.eqb n "c_proj";
     get_combined_qkv_degree :=
       fun n _ => if String.eqb n "c_attn" then 3 else 1;
     update_attrs := ["num_heads"; "split_size"] |}.

(** An embedding of four tokens of width four, an attention block with
    two heads, and an output head tied to the embedding. *)
Definition model : Model Z :=
  {| named_modules :=
       [("", Examples.mk_module (OtherClass "LMHeadModel") Absent Absent []);
        ("wte", Examples.mk_module Embedding (Ref 0%nat) Absent
                  [("num_embeddings", VInt 4)]);
        ("attn", Examples.mk_module (OtherClass "Attention") Absent Absent
                   [("num_heads", VInt 2); ("split_size", VInt 4)]);
        ("c_attn", Examples.mk_module Conv1D (Ref 1%nat) (Ref 2%nat)
                     [("nx", VInt 4); ("nf", VInt 12)]);
        ("c_proj", Examples.mk_module Conv1D (Ref 3%nat) (Ref 4%nat)
                     [("nx", VInt 4); ("nf", VInt 4)]);
        ("lm_head", Examples.mk_module Linear (Ref 0%nat) IsNone [])];
     input_embeddings := Some 1%nat;
     store := {[ 0%nat := Examples.mk_param (Examples.iota_mat 4 4);
                 1%nat := Examples.mk_param (Examples.iota_mat 4 12);
                 2%nat := Examples.mk_param (Vec (Py.range 12));
                 3%nat := Examples.mk_param (Examples.iota_mat 4 4);
                 4%nat := Examples.mk_param (Vec (Py.range 4)) ]} |}.

(** The model as rank [r] of a group of two holds it after
    [parallelize]. *)
Definition rank (r : Z) : Model Z :=
  (TensorParallelEngine1D.parallelize (engine_of mapping 2 r) model).2.

End Sample.

(** ** The layer before it is sharded *)

Module Layer.
Section Defs.
Context {A : Type} (zero : A) (add mul : A -> A -> A).

(** What the forward passes compute when they hold the whole weight and
    bias and make no collective call: the product of the input with the
    weight, transposed unless the layout is reversed, plus the bias if
    there is one. *)
Definition output (reversed : bool) (x w : Tensor A) (b : option (Tensor A))
  : result (Tensor A) :=
  (outputs <- (if reversed then matmul zero add mul x w
               else (wt <- tensor_t w ;; matmul zero add mul x wt)) ;;
   match b with
   | Some bt => add_bias add outputs bt
   | None => Ok outputs
   end)%res.

(** The tensor of the weight of a module, if it has one. *)
Definition weight_of (m : Model A) (md : Module) : option (Tensor A) :=
  match weight md with
  | Ref w => data <$> store m !! w
  | _ => None
  end.

(** The bias of a module: [Some None] when the module has
    [bias = None]. *)
Definition bias_of (m : Model A) (md : Module) : option (option (Tensor A)) :=
  match bias md with
  | Absent => None
  | IsNone => Some None
  | Ref b => (fun pb => Some (data pb)) <$> store m !! b
  end.

(** The dimension along which a column-parallel weight is cut. *)
Definition column_dim (reversed : bool) : Z := if reversed then 1 else 0.

(** The dimension along which a row-parallel weight is cut. *)
Definition row_dim (reversed : bool) : Z := if reversed then 0 else 1.

End Defs.
End Layer.

(** ** A rescale list that names an attribute twice *)

Module Relisted.

(** A mapping table that shards nothing and lists [num_heads] twice among
    the attributes to rescale. *)
Definition mapping : TensorParallelMapping :=
  {| is_column_parallel := fun _ => false;
     is_row_parallel := fun _ => false;
     is_reversed_param := fun _ => false;
     get_combined_qkv_degree := fun _ _ => 1;
     update_attrs := ["num_heads"; "num_heads"] |}.

(** An attention block with six heads. *)
Definition model : Model Z :=
  {| named_modules :=
       [("attn", Examples.mk_module (OtherClass "Attention") Absent Absent
                   [("num_heads", VInt 6)])];
     input_embeddings := None;
     store := ∅ |}.

End Relisted.

(** * Arithmetic of ceilings *)

Lemma ceil_div_bounds (a b : Z) :
  0 < b -> b * (Py.ceil_div a b - 1) < a <= b * Py.ceil_div a b.
Proof.
  intros Hb. unfold Py.ceil_div.
  pose proof (Z.div_mod (a + b - 1) b ltac:(lia)) as Hdm.
  pose proof (Z.mod_pos_bound (a + b - 1) b Hb) as Hm.
  lia.
Qed.

Lemma ceil_div_pos (a b : Z) : 0 < a -> 0 < b -> 0 < Py.ceil_div a b.
Proof.
  intros Ha Hb. pose proof (ceil_div_bounds a b Hb). nia.
Qed.

Lemma ceil_div_nonneg (a b : Z) : 0 <= a -> 0 < b -> 0 <= Py.ceil_div a b.
Proof.
  intros Ha Hb. unfold Py.ceil_div. apply Z.div_pos; lia.
Qed.

Lemma ceil_div_unique (a b q : Z) :
  0 < b -> b * (q - 1) < a <= b * q -> Py.ceil_div a b = q.
Proof.
  intros Hb Hq. pose proof (ceil_div_bounds a b Hb). nia.
Qed.

Lemma ceil_div_exact (q b : Z) : 0 < b -> Py.ceil_div (q * b) b = q.
Proof. intros Hb. apply ceil_div_unique; nia. Qed.

(** The number of pieces [torch.chunk] makes of an axis of length [n]. *)
Lemma chunk_count_le (n chunks : Z) :
  0 <= n -> 0 < chunks -> 0 < chunk_count n chunks <= chunks.
Proof.
  intros Hn Hc. unfold chunk_count.
  fold (Py.ceil_div n chunks).
  destruct (Z.eqb_spec (Py.ceil_div n chunks) 0) as [E|E]; [lia|].
  pose proof (ceil_div_nonneg n chunks Hn Hc) as H0.
  set (c := Py.ceil_div n chunks) in *.
  fold (Py.ceil_div n c).
  pose proof (ceil_div_bounds n chunks Hc) as Hb. fold c in Hb.
  pose proof (ceil_div_bounds n c ltac:(lia)) as Hb2.
  split; [lia|]. apply Z.max_lub; [|lia]. nia.
Qed.

Lemma chunk_count_full (n chunks : Z) :
  0 < n -> 0 < chunks ->
  chunk_count n chunks = chunks <-> (chunks - 1) * Py.ceil_div n chunks < n.
Proof.
  intros Hn Hc. unfold chunk_count.
  fold (Py.ceil_div n chunks).
  pose proof (ceil_div_pos n chunks Hn Hc) as H0.
  set (c := Py.ceil_div n chunks) in *.
  destruct (Z.eqb_spec c 0) as [E|E]; [lia|].
  fold (Py.ceil_div n c).
  pose proof (ceil_div_bounds n chunks Hc) as Hb. fold c in Hb.
  pose proof (ceil_div_bounds n c ltac:(lia)) as Hb2.
  split.
  - intros E1. assert (Py.ceil_div n c = chunks \/ chunks = 1) by lia. nia.
  - intros Hlt. assert (Py.ceil_div n c = chunks) by nia. lia.
Qed.

(** * Python indexing *)

Lemma index_nonneg_Some {X : Type} (l : list X) (i : Z) (x : X) :
  0 <= i -> l !! Z.to_nat i = Some x -> Py.index l i = Ok x.
Proof.
  intros Hi Hl. unfold Py.index.
  apply lookup_lt_Some in Hl as Hlt.
  destruct (Z.ltb_spec i 0); [lia|].
  destruct (Z.ltb_spec i 0); [lia|].
  destruct (Z.leb_spec (Z.of_nat (length l)) i); [lia|].
  simpl. by rewrite Hl.
Qed.

Lemma index_nonneg_inv {X : Type} (l : list X) (i : Z) (x : X) :
  0 <= i -> Py.index l i = Ok x -> l !! Z.to_nat i = Some x.
Proof.
  intros Hi. unfold Py.index.
  destruct (Z.ltb_spec i 0); [lia|].
  destruct (_ || _); [done|].
  destruct (l !! Z.to_nat i); [|done]. by intros [= ->].
Qed.

Lemma index_out_of_range {X : Type} (l : list X) (i : Z) :
  Z.of_nat (length l) <= i -> Py.index l i = Raise IndexError.
Proof.
  intros Hi. unfold Py.index.
  destruct (Z.ltb_spec i 0); [lia|].
  destruct (Z.ltb_spec i 0); [lia|].
  destruct (Z.leb_spec (Z.of_nat (length l)) i); [done|lia].
Qed.

Lemma index_ok_iff {X : Type} (l : list X) (i : Z) :
  0 <= i -> (exists x, Py.index l i = Ok x) <-> i < Z.of_nat (length l).
Proof.
  intros Hi. split.
  - intros [x Hx]. apply index_nonneg_inv in Hx; [|done].
    apply lookup_lt_Some in Hx. lia.
  - intros Hlt. destruct (lookup_lt_is_Some_2 l (Z.to_nat i)) as [x Hx]; [lia|].
    exists x. by apply index_nonneg_Some.
Qed.

Lemma range_length (n : Z) : length (Py.range n) = Z.to_nat n.
Proof. unfold Py.range. by rewrite length_fmap, length_seq. Qed.

Lemma range_lookup (n : Z) (i : nat) :
  (i < Z.to_nat n)%nat -> Py.range n !! i = Some (Z.of_nat i).
Proof.
  intros Hi. unfold Py.range. rewrite list_lookup_fmap.
  rewrite lookup_seq_lt; done.
Qed.

Lemma sum_app (l1 l2 : list Z) : Py.sum (l1 ++ l2) = Py.sum l1 + Py.sum l2.
Proof. induction l1 as [|x l1 IH]; simpl; [done|]. unfold Py.sum in *. simpl. lia. Qed.

Lemma sum_replicate (n : nat) (c : Z) : Py.sum (replicate n c) = Z.of_nat n * c.
Proof. induction n as [|n IH]; [done|]. unfold Py.sum in *. simpl replicate. simpl foldr. lia. Qed.

(** * The cumulative summation loop computes prefix sums *)

Module VocabRangeFacts.
Import VocabRange.

Lemma cumsum_step_length (l : list Z) (i : nat) :
  length (cumsum_step l i) = length l.
Proof.
  unfold cumsum_step. destruct (l !! i), (l !! (i - 1)%nat); try done.
  by rewrite length_insert.
Qed.

Lemma cumsum_prefix (l : list Z) (k : nat) :
  (k < length l)%nat ->
  let l' := foldl cumsum_step l (seq 1 k) in
  length l' = length l /\
  (forall i, (i <= k)%nat -> l' !! i = Some (Py.sum (take (S i) l))) /\
  (forall i, (k < i)%nat -> l' !! i = l !! i).
Proof.
  induction k as [|k IH]; intros Hk; cbv zeta.
  - simpl. split; [done|]. split; [|done].
    intros i Hi. assert (i = 0%nat) as -> by lia.
    destruct l as [|x l]; [simpl in Hk; lia|]. simpl. unfold Py.sum. simpl.
    f_equal. lia.
  - destruct (IH ltac:(lia)) as (Hlen & Hpre & Hpost).
    rewrite seq_S, foldl_app. simpl.
    set (l1 := foldl cumsum_step l (seq 1 k)) in *.
    destruct (lookup_lt_is_Some_2 l (S k) Hk) as [x Hx].
    assert (Hstep : cumsum_step l1 (S k)
                    = <[S k := x + Py.sum (take (S k) l)]> l1).
    { unfold cumsum_step. replace (S k - 1)%nat with k by lia.
      rewrite (Hpost (S k)) by lia. rewrite (Hpre k) by lia.
      by rewrite Hx. }
    rewrite Hstep.
    split; [by rewrite length_insert|]. split.
    + intros i Hi. destruct (decide (i = S k)) as [->|Hne].
      * rewrite list_lookup_insert_eq by lia. f_equal.
        rewrite (take_S_r l (S k) x Hx), sum_app.
        unfold Py.sum at 3. simpl. lia.
      * rewrite list_lookup_insert_ne by done. apply Hpre. lia.
    + intros i Hi. rewrite list_lookup_insert_ne by lia. apply Hpost. lia.
Qed.

Lemma cumulative_summation_lookup (l : list Z) (i : nat) :
  (i < length l)%nat ->
  cumulative_summation l !! i = Some (Py.sum (take (S i) l)).
Proof.
  intros Hi. unfold cumulative_summation.
  destruct (cumsum_prefix l (length l - 1) ltac:(lia)) as (_ & Hpre & _).
  apply Hpre. lia.
Qed.

Lemma cumulative_summation_length (l : list Z) :
  length (cumulative_summation l) = length l.
Proof.
  destruct l as [|x l]; [done|].
  unfold cumulative_summation.
  destruct (cumsum_prefix (x :: l) (length (x :: l) - 1)) as (H & _).
  - simpl. lia.
  - done.
Qed.

(** The list of range bounds: [r * ceil(V / W)] for [r < W], then [V]. *)
Lemma partition_indices_spec (V W : Z) :
  1 <= W ->
  exists indices,
    partition_indices V W = Ok indices /\
    length indices = S (Z.to_nat W) /\
    (forall r, 0 <= r < W ->
               indices !! Z.to_nat r = Some (r * Py.ceil_div V W)) /\
    indices !! Z.to_nat W = Some V.
Proof.
  intros HW. unfold partition_indices.
  set (c := Py.ceil_div V W).
  assert (Hrep : (fun _ : Z => c) <$> Py.range W = replicate (Z.to_nat W) c).
  { unfold Py.range. rewrite <- list_fmap_compose.
    generalize 0%nat. induction (Z.to_nat W) as [|n IH]; intros s; simpl; [done|].
    by rewrite IH. }
  rewrite Hrep.
  destruct (Z.to_nat W) as [|n] eqn:En; [lia|].
  simpl replicate. cbv match. rewrite <- (replicate_S n c).
  rewrite length_replicate. replace (S n - 1)%nat with n by lia.
  set (l := 0 :: <[n:=V - Py.sum (take n (replicate (S n) c))]> (replicate (S n) c)).
  assert (Hl : l = 0 :: replicate n c ++ [V - Z.of_nat n * c]).
  { unfold l. f_equal. rewrite take_replicate, Nat.min_l by lia.
    rewrite sum_replicate.
    replace (S n) with (n + 1)%nat by lia. rewrite replicate_add. simpl.
    rewrite insert_app_r_alt; rewrite length_replicate; [|lia].
    by rewrite Nat.sub_diag. }
  exists (cumulative_summation l). split; [done|].
  assert (Hlen : length l = S (S n)).
  { rewrite Hl. simpl. rewrite length_app, length_replicate. simpl. lia. }
  split; [by rewrite cumulative_summation_length|].
  split.
  - intros r Hr. rewrite cumulative_summation_lookup by lia.
    f_equal. rewrite Hl. simpl take.
    rewrite take_app_le by (rewrite length_replicate; lia).
    rewrite take_replicate, Nat.min_l by lia.
    unfold Py.sum at 1. simpl. fold (Py.sum (replicate (Z.to_nat r) c)).
    rewrite sum_replicate, Z2Nat.id by lia. lia.
  - replace (Z.to_nat W) with (S n). rewrite cumulative_summation_lookup by lia.
    f_equal. rewrite take_ge by lia. rewrite Hl.
    unfold Py.sum at 1. simpl. fold (Py.sum (replicate n c ++ [V - Z.of_nat n * c])).
    rewrite sum_app, sum_replicate. unfold Py.sum. simpl.
    assert (Z.of_nat n = W - 1) as -> by lia. lia.
Qed.

Lemma vocab_range_closed_form (V W r : Z) :
  1 <= W -> 0 <= r < W ->
  _get_partitioned_vocab_range V W r =
    Ok (r * Py.ceil_div V W,
        if r =? W - 1 then V else (r + 1) * Py.ceil_div V W).
Proof.
  intros HW Hr. unfold _get_partitioned_vocab_range.
  destruct (partition_indices_spec V W HW) as (ind & -> & Hlen & Hlo & Hhi).
  simpl. rewrite (index_nonneg_Some ind r (r * Py.ceil_div V W)); [|lia|by apply Hlo].
  simpl. destruct (Z.eqb_spec r (W - 1)) as [->|Hne].
  - rewrite (index_nonneg_Some ind (W - 1 + 1) V); [done|lia|].
    replace (W - 1 + 1) with W by lia. done.
  - rewrite (index_nonneg_Some ind (r + 1) ((r + 1) * Py.ceil_div V W));
      [done|lia|]. apply Hlo. lia.
Qed.

End VocabRangeFacts.

(** * Vocabulary ranges *)

Import VocabRangeFacts.

Lemma is_partition_counterexample : ~ Claims.is_partition 5 4.
Proof.
  intros (_ & _ & _ & Hcover & _).
  assert (H : 0 <= 5 < 5); [|lia].
  apply Hcover. exists 2, 4, 6. split; [lia|]. split; [reflexivity|lia].
Qed.

(** C4, as the code has it: for a vocabulary of [V] entries and a group
    of [W] ranks, both at least one and below [2 ^ 53] (where the
    quotient that [math.ceil(V / W)] rounds is exact), the ranges of the
    ranks are contiguous, do not overlap, cover [0, V) and all but the
    last have [ceil(V / W)] entries exactly when
    [(W - 1) * ceil(V / W) <= V]. Otherwise the last range ends, at [V],
    before it starts, and a range before it reaches beyond [V]. *)
Theorem vocab_ranges_partition (V W : Z) :
  1 <= V < 2 ^ 53 -> 1 <= W < 2 ^ 53 ->
  (Claims.is_partition V W <-> (W - 1) * Py.ceil_div V W <= V) /\
  (V < (W - 1) * Py.ceil_div V W ->
   (exists lo,
      VocabRange._get_partitioned_vocab_range V W (W - 1) = Ok (lo, V) /\
      V < lo) /\
   (exists r lo hi,
      0 <= r < W - 1 /\
      VocabRange._get_partitioned_vocab_range V W r = Ok (lo, hi) /\
      V < hi)).
Proof.
  intros [HV _] [HW _].
  pose proof (ceil_div_pos V W ltac:(lia) ltac:(lia)) as Hc.
  pose proof (ceil_div_bounds V W ltac:(lia)) as Hcb.
  set (c := Py.ceil_div V W) in *.
  assert (Hcf : forall r, 0 <= r < W ->
            VocabRange._get_partitioned_vocab_range V W r
            = Ok (r * c, if r =? W - 1 then V else (r + 1) * c)).
  { intros r Hr. by apply vocab_range_closed_form. }
  split; [split|].
  - intros (_ & _ & _ & Hcover & _).
    destruct (Z.le_gt_cases ((W - 1) * c) V) as [|Hgt]; [done|exfalso].
    assert (H : 0 <= V < V); [|lia].
    apply Hcover.
    pose proof (Z.div_mod V c ltac:(lia)) as Hdm.
    pose proof (Z.mod_pos_bound V c ltac:(lia)) as Hm.
    assert (Hq : 0 <= V / c < W - 1) by (split; [apply Z.div_pos; lia|nia]).
    exists (V / c), (V / c * c), ((V / c + 1) * c).
    split; [lia|]. split; [|nia].
    rewrite Hcf by lia. destruct (Z.eqb_spec (V / c) (W - 1)); [lia|done].
  - intros Hle. unfold Claims.is_partition. cbv zeta.
    split; [|split; [|split; [|split]]].
    + intros r Hr. rewrite Hcf by done. eauto.
    + intros r lo hi lo' hi' Hr0 Hr1. rewrite !Hcf by lia.
      destruct (Z.eqb_spec r (W - 1)); [lia|].
      intros [= <- <-] [= <- _]. done.
    + intros r r' lo hi lo' hi' x Hr Hr'. rewrite !Hcf by lia.
      intros [= <- <-] [= <- <-].
      destruct (Z.eqb_spec r (W - 1)), (Z.eqb_spec r' (W - 1)); nia.
    + intros x. split.
      * intros (r & lo & hi & Hr & Hrange & Hx). rewrite Hcf in Hrange by done.
        injection Hrange as <- <-.
        destruct (Z.eqb_spec r (W - 1)); nia.
      * intros Hx.
        pose proof (Z.div_mod x c ltac:(lia)) as Hdm.
        pose proof (Z.mod_pos_bound x c ltac:(lia)) as Hm.
        assert (Hq : 0 <= x / c) by (apply Z.div_pos; lia).
        destruct (Z.lt_ge_cases (x / c) (W - 1)) as [Hlt|Hge].
        -- exists (x / c), (x / c * c), ((x / c + 1) * c).
           split; [lia|]. split; [|nia].
           rewrite Hcf by lia. destruct (Z.eqb_spec (x / c) (W - 1)); [lia|done].
        -- exists (W - 1), ((W - 1) * c), V.
           split; [lia|]. split; [|nia].
           rewrite Hcf by lia. by rewrite Z.eqb_refl.
    + intros r lo hi Hr. rewrite Hcf by lia.
      destruct (Z.eqb_spec r (W - 1)); [lia|].
      intros [= <- <-]. lia.
  - intros Hgt. assert (HW2 : 2 <= W) by nia. split.
    + exists ((W - 1) * c). split; [|lia].
      rewrite Hcf by lia. by rewrite Z.eqb_refl.
    + exists (W - 2), ((W - 2) * c), ((W - 1) * c).
      split; [lia|]. split; [|lia].
      rewrite Hcf by lia. destruct (Z.eqb_spec (W - 2) (W - 1)); [lia|].
      do 2 f_equal. lia.
Qed.

Lemma vocab_ranges_partition_witness :
  1 <= 50257 < 2 ^ 53 /\ 1 <= 4 < 2 ^ 53 /\
  (Claims.is_partition 50257 4 <-> (4 - 1) * Py.ceil_div 50257 4 <= 50257) /\
  (50257 < (4 - 1) * Py.ceil_div 50257 4 ->
   (exists lo,
      VocabRange._get_partitioned_vocab_range 50257 4 (4 - 1) = Ok (lo, 50257) /\
      50257 < lo) /\
   (exists r lo hi,
      0 <= r < 4 - 1 /\
      VocabRange._get_partitioned_vocab_range 50257 4 r = Ok (lo, hi) /\
      50257 < hi)).
Proof.
  split; [lia|]. split; [lia|]. apply (vocab_ranges_partition 50257 4); lia.
Defined.

(** * Chunks of the embedding table *)

Lemma chunk_axis_length {X : Type} (l : list X) (chunks : Z) :
  length (chunk_axis l chunks)
  = Z.to_nat (chunk_count (Z.of_nat (length l)) chunks).
Proof. unfold chunk_axis. by rewrite length_fmap, length_seq. Qed.

Lemma chunk_rows_ok {A : Type} (rows : list (list A)) (W : Z) :
  1 <= W -> chunk (Mat rows) W 0 = Ok (Mat <$> chunk_axis rows W).
Proof.
  intros HW. unfold chunk. destruct (Z.leb_spec W 0); [lia|]. reflexivity.
Qed.




(** * Reasoning about rank-local computations *)

Section LocalFacts.
Context {A : Type}.
Implicit Types (m : Model A) (md : Module).

Lemma lbind_ok {X Y : Type} (c : L A X) (f : X -> L A Y) m x m' :
  c m = (Ok x, m') -> lbind c f m = f x m'.
Proof. intros H. unfold lbind. by rewrite H. Qed.

Lemma lbind_raise {X Y : Type} (c : L A X) (f : X -> L A Y) m e m' :
  c m = (Raise e, m') -> lbind c f m = (Raise e, m').
Proof. intros H. unfold lbind. by rewrite H. Qed.

Lemma get_module_ok i m nm md :
  named_modules m !! i = Some (nm, md) -> get_module i m = (Ok md, m).
Proof. intros H. unfold get_module, lbind, get. by rewrite H. Qed.

Lemma module_name_ok i m nm md :
  named_modules m !! i = Some (nm, md) -> module_name i m = (Ok nm, m).
Proof. intros H. unfold module_name, lbind, get. by rewrite H. Qed.

Lemma modify_module_ok i f m :
  modify_module i f m = (Ok tt, upd_module i f m).
Proof. reflexivity. Qed.

Lemma setattr_ok i name v m :
  setattr i name v m
  = (Ok tt, upd_module i (fun md => with_attrs md (<[name := v]> (attrs md))) m).
Proof. reflexivity. Qed.

Lemma upd_module_lookup i f m nm md :
  named_modules m !! i = Some (nm, md) ->
  named_modules (upd_module i f m) !! i = Some (nm, f md).
Proof.
  intros H. unfold upd_module. simpl.
  rewrite list_lookup_alter_eq, H. done.
Qed.

Lemma upd_module_lookup_ne i j f m :
  i <> j -> named_modules (upd_module i f m) !! j = named_modules m !! j.
Proof. intros H. unfold upd_module. simpl. by rewrite list_lookup_alter_ne. Qed.

Lemma upd_module_length i f m :
  length (named_modules (upd_module i f m)) = length (named_modules m).
Proof. unfold upd_module. simpl. by rewrite length_alter. Qed.

Lemma upd_module_compose i f g m :
  upd_module i g (upd_module i f m) = upd_module i (g ∘ f) m.
Proof.
  unfold upd_module. simpl. f_equal.
  rewrite list_alter_alter_eq. apply list_alter_ext; [|done].
  intros [nm md] _. done.
Qed.

Lemma upd_module_ext i f g m :
  (forall nm md, named_modules m !! i = Some (nm, md) -> f md = g md) ->
  upd_module i f m = upd_module i g m.
Proof.
  intros H. unfold upd_module. f_equal.
  apply list_alter_ext; [|done].
  intros [nm md] Hl. simpl. f_equal. by eapply H.
Qed.

Lemma upd_module_id i f m :
  (forall nm md, named_modules m !! i = Some (nm, md) -> f md = md) ->
  upd_module i f m = m.
Proof.
  intros H. destruct m as [nms ie st]. unfold upd_module. simpl. f_equal.
  apply list_eq. intros j. destruct (decide (i = j)) as [<-|Hne].
  - rewrite list_lookup_alter_eq. destruct (nms !! i) as [[nm md]|] eqn:E; [|done].
    simpl. f_equal. f_equal. by eapply H.
  - by rewrite list_lookup_alter_ne.
Qed.

End LocalFacts.

(** * Loops over the modules of a model *)

Section Loops.
Context {A : Type}.
Implicit Types (m : Model A) (md : Module).

Lemma with_attrs_id md : with_attrs md (attrs md) = md.
Proof. by destruct md. Qed.

(** A loop whose body changes only the module it visits, by [F], changes
    every module by [F]. *)
Lemma map_modules_length (F : Module -> Module) m :
  length (named_modules (Closed.map_modules F m)) = length (named_modules m).
Proof. unfold Closed.map_modules. simpl. by rewrite length_fmap. Qed.

Lemma map_modules_lookup (F : Module -> Module) m i :
  named_modules (Closed.map_modules F m) !! i
  = (fun nm => (nm.1, F nm.2)) <$> named_modules m !! i.
Proof. unfold Closed.map_modules. simpl. by rewrite list_lookup_fmap. Qed.

Lemma for_each_module_ids (body : nat -> L A unit) (F : Module -> Module) m :
  (forall i nm md m',
      named_modules m !! i = Some (nm, md) ->
      named_modules m' !! i = Some (nm, md) ->
      body i m' = (Ok tt, upd_module i F m')) ->
  for_each (module_ids m) body m = (Ok tt, Closed.map_modules F m).
Proof.
  intros Hbody. unfold module_ids.
  pose proof (map_modules_length F m) as HlenF.
  pose proof (map_modules_lookup F m) as HlookF.
  set (n := length (named_modules m)) in *.
  set (mapped := named_modules (Closed.map_modules F m)) in *.
  assert (Hgen : forall j k m',
    (k + j = n)%nat ->
    input_embeddings m' = input_embeddings m ->
    store m' = store m ->
    named_modules m' = take k mapped ++ drop k (named_modules m) ->
    for_each (seq k j) body m' = (Ok tt, Closed.map_modules F m)).
  { induction j as [|j IH]; intros k m' Hkj Hie Hst Hnm.
    - simpl. unfold lret. f_equal.
      destruct m' as [nms' ie' st']. simpl in *.
      subst ie' st'. rewrite Hnm.
      rewrite drop_ge by (fold n; lia).
      rewrite take_ge by lia. rewrite app_nil_r. reflexivity.
    - simpl.
      destruct (lookup_lt_is_Some_2 (named_modules m) k) as [[nm md] Hk];
        [fold n; lia|].
      assert (Hk' : named_modules m' !! k = Some (nm, md)).
      { rewrite Hnm. rewrite lookup_app_r by (rewrite length_take; lia).
        rewrite length_take.
        replace (k - k `min` length mapped)%nat with 0%nat by lia.
        rewrite lookup_drop. by rewrite Nat.add_0_r. }
      erewrite lbind_ok; [|by eapply Hbody].
      apply IH; [lia|done|done|].
      unfold upd_module. simpl. rewrite Hnm.
      apply list_eq. intros i.
      destruct (decide (i = k)) as [->|Hne].
      + rewrite list_lookup_alter_eq.
        rewrite lookup_app_r by (rewrite length_take; lia).
        rewrite length_take.
        replace (k - k `min` length mapped)%nat with 0%nat by lia.
        rewrite lookup_drop, Nat.add_0_r, Hk. simpl.
        rewrite lookup_app_l by (rewrite length_take; lia).
        rewrite lookup_take_lt by lia.
        by rewrite HlookF, Hk.
      + rewrite list_lookup_alter_ne by done.
        destruct (decide (i < k)%nat).
        * rewrite !lookup_app_l by (rewrite length_take; lia).
          rewrite !lookup_take_lt by lia. done.
        * rewrite !lookup_app_r by (rewrite length_take; lia).
          rewrite !length_take.
          rewrite !lookup_drop. f_equal. lia. }
  apply Hgen; [lia|done|done|]. by rewrite take_0, drop_0.
Qed.

End Loops.

(** * Rescaling of configuration integers *)

Section Rescale.
Context {A : Type}.
Implicit Types (m : Model A) (md : Module).

Lemma rescale_attrs_cons g name names (a : gmap string Value) :
  Closed.rescale_attrs g (name :: names) a
  = Closed.rescale_attrs g names
      (match a !! name with
       | Some v => match as_int v with
                   | Ok h => <[name := VInt (g h)]> a
                   | Raise _ => a
                   end
       | None => a
       end).
Proof. reflexivity. Qed.

Lemma rescale_attrs_notin g names (a : gmap string Value) name :
  name ∉ names -> Closed.rescale_attrs g names a !! name = a !! name.
Proof.
  revert a. induction names as [|n ns IH]; intros a Hnotin; [done|].
  rewrite rescale_attrs_cons.
  apply not_elem_of_cons in Hnotin as [Hne Hns].
  rewrite IH by done.
  destruct (a !! n) as [v|]; [|done]. destruct (as_int v); [|done].
  by rewrite lookup_insert_ne.
Qed.

Lemma rescale_attrs_once g names (a : gmap string Value) name v h :
  NoDup names -> name ∈ names ->
  a !! name = Some v -> as_int v = Ok h ->
  Closed.rescale_attrs g names a !! name = Some (VInt (g h)).
Proof.
  revert a. induction names as [|n ns IH]; intros a Hnd Hin Ha Hv.
  - by apply elem_of_nil in Hin.
  - rewrite rescale_attrs_cons. apply NoDup_cons in Hnd as [Hn Hnd].
    apply elem_of_cons in Hin as [->|Hin].
    + rewrite rescale_attrs_notin by done. rewrite Ha, Hv.
      by rewrite lookup_insert_eq.
    + assert (n <> name) by (intros ->; done).
      apply IH; try done.
      destruct (a !! n) as [v'|]; [|done]. destruct (as_int v'); [|done].
      by rewrite lookup_insert_ne.
Qed.

(** The inner loop of [_update_mp_arguments] on one module, for either
    engine: [op] is [// world_size] or [* world_size]. *)
Lemma rescale_inner (op : Value -> result Value) (g : Z -> Z) names :
  (forall v h, as_int v = Ok h -> op v = Ok (VInt (g h))) ->
  forall i m nm md,
    named_modules m !! i = Some (nm, md) ->
    (forall name v, name ∈ names -> attrs md !! name = Some v ->
                    exists h, as_int v = Ok h) ->
    for_each names (fun elem_name =>
      md <- get_module i ;;
      if hasattr md elem_name then
        v <- getattr i elem_name ;;
        reduced_arg <- lift (op v) ;;
        setattr i elem_name reduced_arg
      else lret tt)%L m
    = (Ok tt,
       upd_module i
         (fun md => with_attrs md (Closed.rescale_attrs g names (attrs md))) m).
Proof.
  intros Hop. induction names as [|n ns IH]; intros i m nm md Hi Hint.
  - simpl. unfold lret. f_equal. symmetry. apply upd_module_id.
    intros. apply with_attrs_id.
  - cbn [for_each]. destruct (attrs md !! n) as [v|] eqn:Ev.
    + destruct (Hint n v ltac:(left) Ev) as [h Hh].
      erewrite lbind_ok; cycle 1.
      { erewrite lbind_ok; [|by eapply get_module_ok].
        unfold hasattr. rewrite Ev, bool_decide_eq_true_2 by eauto.
        erewrite lbind_ok; cycle 1.
        { unfold getattr. erewrite lbind_ok; [|by eapply get_module_ok].
          rewrite Ev. reflexivity. }
        erewrite lbind_ok; cycle 1.
        { unfold lift. rewrite (Hop v h Hh). reflexivity. }
        apply setattr_ok. }
      erewrite IH; cycle 1.
      { by apply upd_module_lookup. }
      { simpl. intros name v' Hin.
        destruct (decide (n = name)) as [->|Hne].
        - rewrite lookup_insert_eq. intros [= <-]. by exists (g h).
        - rewrite lookup_insert_ne by done. apply Hint. by right. }
      f_equal. rewrite upd_module_compose. apply upd_module_ext.
      intros nm' md' Hl. rewrite Hi in Hl. injection Hl as <- <-.
      unfold compose. by rewrite rescale_attrs_cons, Ev, Hh.
    + erewrite lbind_ok; cycle 1.
      { erewrite lbind_ok; [|by eapply get_module_ok].
        unfold hasattr. rewrite Ev.
        rewrite bool_decide_eq_false_2 by (intros [? ?]; done).
        reflexivity. }
      erewrite IH; cycle 1.
      { done. }
      { intros name v' Hin. apply Hint. by right. }
      f_equal. apply upd_module_ext.
      intros nm' md' Hl. rewrite Hi in Hl. injection Hl as <- <-.
      by rewrite rescale_attrs_cons, Ev.
Qed.

End Rescale.

Section RescaleEngines.
Context {A : Type}.
Implicit Types (m : Model A) (md : Module).

Lemma attrs_intb_spec names m :
  Closed.attrs_intb names m = true -> Closed.attrs_int names m.
Proof.
  unfold Closed.attrs_intb, Closed.attrs_int.
  rewrite forallb_forall. intros H i nm md name v Hi Hin Hv.
  specialize (H (nm, md)). rewrite <- list_elem_of_In in H.
  specialize (H ltac:(by eapply list_elem_of_lookup_2)).
  rewrite forallb_forall in H. specialize (H name).
  rewrite <- list_elem_of_In in H. specialize (H Hin). simpl in H.
  rewrite Hv in H. destruct (as_int v) as [h|]; [by exists h|done].
Qed.



Lemma parallel_update_mp_arguments_closed (self : Engine) m :
  let W := get_tensor_parallel_world_size (mpu self) in
  let names := update_attrs (tp_mapping self) in
  W <> 0 -> Closed.attrs_int names m ->
  TensorParallelEngine1D._update_mp_arguments self m
  = (Ok tt,
     Closed.map_modules
       (fun md => with_attrs md
                    (Closed.rescale_attrs (fun h => h / W) names (attrs md))) m).
Proof.
  intros W names HW Hint. unfold TensorParallelEngine1D._update_mp_arguments.
  erewrite lbind_ok; [|reflexivity].
  apply for_each_module_ids. intros i nm md m' Hi Hi'.
  apply (rescale_inner (fun v => py_floordiv v W)) with (nm := nm) (md := md); [|done|].
  - intros v h Hv. unfold py_floordiv. rewrite Hv. simpl.
    destruct (Z.eqb_spec W 0); [done|done].
  - intros name v Hin Hv. by eapply Hint.
Qed.

Lemma deparallel_update_mp_arguments_closed (self : Engine) m :
  let W := get_tensor_parallel_world_size (mpu self) in
  let names := update_attrs (tp_mapping self) in
  Closed.attrs_int names m ->
  TensorDeparallelEngine1D._update_mp_arguments self m
  = (Ok tt,
     Closed.map_modules
       (fun md => with_attrs md
                    (Closed.rescale_attrs (fun h => h * W) names (attrs md))) m).
Proof.
  intros W names Hint. unfold TensorDeparallelEngine1D._update_mp_arguments.
  erewrite lbind_ok; [|reflexivity].
  apply for_each_module_ids. intros i nm md m' Hi Hi'.
  apply (rescale_inner (fun v => py_mul v W)) with (nm := nm) (md := md); [|done|].
  - intros v h Hv. unfold py_mul. by rewrite Hv.
  - intros name v Hin Hv. by eapply Hint.
Qed.


Lemma floor_round_trip (h W : Z) : W <> 0 -> h / W * W = h <-> h mod W = 0.
Proof.
  intros HW. pose proof (Z.div_mod h W HW). lia.
Qed.

End RescaleEngines.


(** * Lockstep runs *)

Section RunFacts.
Context {A X : Type}.
Implicit Types (ps : list (Prog A X)).



End RunFacts.


Import Examples.

(** * The fused slice of a plain linear layer *)

(** C2, at a column-parallel [nn.Linear] (not reversed, slicing dimension
    0) with a fused weight of shape [12, 4], fusion degree 3 and two ranks:
    rank 0 is given chunks 0, 2 and 4, but side by side along the last
    dimension, a [2, 12] tensor, where the specification concatenates them
    along the slicing dimension into a [6, 4] tensor. *)
Lemma fused_slice_of_linear_is_side_by_side :
  TensorParallelEngine1D.slice_tensor (iota_mat 12 4) 3 2 0 0
  = Ok (Mat [[0; 1; 2; 3; 16; 17; 18; 19; 32; 33; 34; 35];
             [4; 5; 6; 7; 20; 21; 22; 23; 36; 37; 38; 39]]) /\
  Spec.fused_slice (iota_mat 12 4) 3 2 0 0
  = Ok (Mat [[0; 1; 2; 3]; [4; 5; 6; 7]; [16; 17; 18; 19];
             [20; 21; 22; 23]; [32; 33; 34; 35]; [36; 37; 38; 39]]) /\
  TensorParallelEngine1D.slice_tensor (iota_mat 12 4) 3 2 0 0
  <> Spec.fused_slice (iota_mat 12 4) 3 2 0 0.
Proof. split; [|split]; [reflexivity|reflexivity|]. vm_compute. discriminate. Qed.

(** * Feature counts of a plain linear layer *)

(** C8, at a row-parallel [nn.Linear] with weight [out, in] = [8, 4] on
    two ranks: the slice is [8, 2], so the layer now has two input and
    eight output features, but [in_features] is set to 8 and
    [out_features] to 2. *)
Lemma feature_counts_of_linear_are_swapped :
  exists m' p,
    TensorParallelEngine1D.parallelize (engine_of linear_mapping 2 0) linear_model
    = (Ok tt, m') /\
    store m' !! 1%nat = Some p /\
    size (data p) = [8; 2] /\
    Closed.attr_of m' 2 "reversed" = Some (VBool false) /\
    Spec.input_feature_dim false (data p) = Ok 2 /\
    Spec.output_feature_dim false (data p) = Ok 8 /\
    Closed.attr_of m' 2 "in_features" = Some (VInt 8) /\
    Closed.attr_of m' 2 "out_features" = Some (VInt 2).
Proof.
  eexists _, _. split; [vm_compute; reflexivity|].
  split; [vm_compute; reflexivity|].
  repeat split; vm_compute; reflexivity.
Qed.

(** * Counterexamples *)


Lemma assertion_after_rescale :
  ~ Claims.error_before_mutation (engine_of no_mapping 2 0) headless.
Proof.
  intros H.
  assert (Hrun : exists m',
    TensorParallelEngine1D.parallelize (engine_of no_mapping 2 0) headless
    = (Raise AssertionError, m') /\
    Closed.attr_of m' 1 "num_heads" = Some (VInt 2)).
  { eexists. split; vm_compute; reflexivity. }
  destruct Hrun as (m' & Hrun & Hattr).
  rewrite (H m' Hrun) in Hattr. vm_compute in Hattr. discriminate.
Qed.

Lemma tied_head_in_mapping_does_not_gather :
  ~ Claims.tied_heads_gather (engine_of head_in_mapping 2 0) tied_even.
Proof.
  intros H.
  assert (Hrun : exists m',
    TensorParallelEngine1D.parallelize (engine_of head_in_mapping 2 0) tied_even
    = (Ok tt, m') /\
    Closed.attr_of m' 3 "gather_output" = Some (VBool false)).
  { eexists. split; vm_compute; reflexivity. }
  destruct Hrun as (m' & Hrun & Hattr).
  destruct (H m' 1%nat "wte" _ 0%nat 3%nat "lm_head" _ Hrun
              eq_refl eq_refl eq_refl eq_refl eq_refl ltac:(lia) eq_refl)
    as (md' & Hmd' & _ & _ & Hg).
  unfold Closed.attr_of in Hattr. rewrite Hmd' in Hattr. congruence.
Qed.

(** * Inversion of successful rank-local runs *)

Section Inversion.
Context {A : Type}.
Implicit Types (m : Model A) (md : Module).

Lemma lbind_ok_inv {X Y : Type} (c : L A X) (f : X -> L A Y) m y m' :
  lbind c f m = (Ok y, m') ->
  exists x m1, c m = (Ok x, m1) /\ f x m1 = (Ok y, m').
Proof.
  unfold lbind. destruct (c m) as [[x|e] m1]; [eauto|done].
Qed.

Lemma for_each_cons_inv {X : Type} (x : X) xs (body : X -> L A unit) m m' :
  for_each (x :: xs) body m = (Ok tt, m') ->
  exists m1, body x m = (Ok tt, m1) /\ for_each xs body m1 = (Ok tt, m').
Proof.
  simpl. intros H. apply lbind_ok_inv in H as ([] & m1 & H1 & H2). eauto.
Qed.

Lemma for_each_app_inv {X : Type} xs ys (body : X -> L A unit) m m' :
  for_each (xs ++ ys) body m = (Ok tt, m') ->
  exists m1, for_each xs body m = (Ok tt, m1) /\
             for_each ys body m1 = (Ok tt, m').
Proof.
  revert m. induction xs as [|x xs IH]; intros m H.
  - exists m. done.
  - simpl app in H. apply for_each_cons_inv in H as (m1 & H1 & H2).
    apply IH in H2 as (m2 & H2 & H3). exists m2. split; [|done].
    simpl. by erewrite lbind_ok.
Qed.

(** An invariant of every successful iteration holds after the loop. *)
Lemma for_each_invariant {X : Type} (I : Model A -> Prop) xs
    (body : X -> L A unit) m m' :
  (forall x m0 m1, x ∈ xs -> I m0 -> body x m0 = (Ok tt, m1) -> I m1) ->
  I m -> for_each xs body m = (Ok tt, m') -> I m'.
Proof.
  revert m. induction xs as [|x xs IH]; intros m Hbody Hm H.
  - simpl in H. injection H as <-. done.
  - apply for_each_cons_inv in H as (m1 & H1 & H2).
    eapply IH; [|by eapply Hbody; [left|..]|done].
    intros y m0 m2 Hy. apply Hbody. by right.
Qed.

(** A loop over positions where only the visit of [i] matters for the
    module at [i]: the other visits leave what is known about it intact. *)
Lemma for_each_visit (P Q : Model A -> Prop) (i n : nat)
    (body : nat -> L A unit) m m' :
  (i < n)%nat ->
  (forall j m0 m1, j <> i -> P m0 -> body j m0 = (Ok tt, m1) -> P m1) ->
  (forall j m0 m1, j <> i -> Q m0 -> body j m0 = (Ok tt, m1) -> Q m1) ->
  (forall m0 m1, P m0 -> body i m0 = (Ok tt, m1) -> Q m1) ->
  P m -> for_each (seq 0 n) body m = (Ok tt, m') -> Q m'.
Proof.
  intros Hi HP HQ HPQ Hm H.
  replace n with (i + (1 + (n - i - 1)))%nat in H by lia.
  rewrite seq_app in H. apply for_each_app_inv in H as (m1 & H1 & H2).
  rewrite seq_app in H2. apply for_each_app_inv in H2 as (m2 & H2 & H3).
  simpl in H2. apply lbind_ok_inv in H2 as ([] & m3 & H2 & H4).
  injection H4 as <-.
  assert (P m1).
  { eapply (for_each_invariant P); [|done|done].
    intros j m0 m4 Hj. apply HP. apply elem_of_seq in Hj. lia. }
  assert (Q m3) by by eapply HPQ.
  eapply (for_each_invariant Q); [|done|done].
  intros j m0 m4 Hj. apply HQ. apply elem_of_seq in Hj. lia.
Qed.

End Inversion.

(** * Frames *)

Section Preserves.
Context {A : Type}.
Context (R : nat -> Module -> Module -> Prop).
Context (R_refl : forall i md, R i md md).
Context (R_trans : forall i md1 md2 md3, R i md1 md2 -> R i md2 md3 -> R i md1 md3).
Implicit Types (m : Model A) (md : Module).

Lemma preserves_pure {X : Type} (c : L A X) :
  (forall m, (c m).2 = m) -> Logic.preserves R c.
Proof.
  intros Hc m r m' H. specialize (Hc m). rewrite H in Hc. simpl in Hc. subst m'.
  split; [done|]. split; [done|]. eauto.
Qed.

Lemma preserves_lret {X : Type} (x : X) : Logic.preserves R (lret (A := A) x).
Proof. by apply preserves_pure. Qed.

Lemma preserves_lraise {X : Type} e : Logic.preserves R (lraise (A := A) (X := X) e).
Proof. by apply preserves_pure. Qed.

Lemma preserves_lift {X : Type} (r : result X) : Logic.preserves R (lift (A := A) r).
Proof. by apply preserves_pure. Qed.

Lemma preserves_get : Logic.preserves R (get (A := A)).
Proof. by apply preserves_pure. Qed.

Lemma preserves_get_module i : Logic.preserves R (get_module (A := A) i).
Proof.
  apply preserves_pure. intros m. unfold get_module, lbind, get. simpl.
  by destruct (named_modules m !! i) as [[? ?]|].
Qed.

Lemma preserves_module_name i : Logic.preserves R (module_name (A := A) i).
Proof.
  apply preserves_pure. intros m. unfold module_name, lbind, get. simpl.
  by destruct (named_modules m !! i) as [[? ?]|].
Qed.

Lemma preserves_getattr i name : Logic.preserves R (getattr (A := A) i name).
Proof.
  apply preserves_pure. intros m.
  cbv [getattr lbind get_module get lret lraise].
  destruct (named_modules m !! i) as [[? ?]|]; [|done].
  by destruct (attrs _ !! name).
Qed.

Lemma preserves_get_param p : Logic.preserves R (get_param (A := A) p).
Proof.
  apply preserves_pure. intros m. unfold get_param, lbind, get. simpl.
  by destruct (store m !! p).
Qed.

Lemma preserves_modify_param p f : Logic.preserves R (modify_param (A := A) p f).
Proof.
  intros m r m' H. injection H as <- <-. simpl. eauto.
Qed.

Lemma preserves_put_store (st : Model A -> gmap nat (Param A)) :
  Logic.preserves R
    (lbind get (fun m => put {| named_modules := named_modules m;
                                 input_embeddings := input_embeddings m;
                                 store := st m |})).
Proof. intros m r m' H. injection H as <- <-. simpl. eauto. Qed.

Lemma preserves_modify_module j f :
  (forall md, R j md (f md)) -> Logic.preserves R (modify_module (A := A) j f).
Proof.
  intros Hf m r m' H. injection H as <- <-.
  split; [done|]. split; [apply upd_module_length|].
  intros i nm md Hi. destruct (decide (j = i)) as [->|Hne].
  - exists (f md). split; [by apply upd_module_lookup|done].
  - exists md. split; [by rewrite upd_module_lookup_ne|done].
Qed.

Lemma preserves_lbind {X Y : Type} (c : L A X) (f : X -> L A Y) :
  Logic.preserves R c -> (forall x, Logic.preserves R (f x)) ->
  Logic.preserves R (lbind c f).
Proof.
  intros Hc Hf m r m' H. unfold lbind in H.
  destruct (c m) as [[x|e] m1] eqn:E.
  - destruct (Hc _ _ _ E) as (Hie & Hlen & Hmods).
    destruct (Hf x _ _ _ H) as (Hie' & Hlen' & Hmods').
    split; [congruence|]. split; [congruence|].
    intros i nm md Hi. destruct (Hmods _ _ _ Hi) as (md1 & Hi1 & HR1).
    destruct (Hmods' _ _ _ Hi1) as (md2 & Hi2 & HR2).
    exists md2. split; [done|]. by eapply R_trans.
  - injection H as <- <-. by eapply Hc.
Qed.

Lemma preserves_for_each {X : Type} (xs : list X) (body : X -> L A unit) :
  (forall x, Logic.preserves R (body x)) ->
  Logic.preserves R (for_each xs body).
Proof.
  intros Hbody. induction xs as [|x xs IH]; simpl.
  - apply preserves_lret.
  - apply preserves_lbind; [apply Hbody|]. intros _. apply IH.
Qed.

End Preserves.

Ltac preserves_step :=
  match goal with
  | |- forall _, _ => intro
  | |- Logic.preserves _ (lbind _ _) => apply preserves_lbind; try assumption
  | |- Logic.preserves _ (for_each _ _) => apply preserves_for_each; try assumption
  | |- Logic.preserves _ (lret _) => apply preserves_lret; assumption
  | |- Logic.preserves _ (lraise _) => apply preserves_lraise; assumption
  | |- Logic.preserves _ (lift _) => apply preserves_lift; assumption
  | |- Logic.preserves _ get => apply preserves_get; assumption
  | |- Logic.preserves _ (get_module _) => apply preserves_get_module; assumption
  | |- Logic.preserves _ (module_name _) => apply preserves_module_name; assumption
  | |- Logic.preserves _ (getattr _ _) => apply preserves_getattr; assumption
  | |- Logic.preserves _ (get_param _) => apply preserves_get_param; assumption
  | |- Logic.preserves _ (modify_param _ _) => apply preserves_modify_param; assumption
  | |- Logic.preserves _ (if ?b then _ else _) => destruct b
  | |- Logic.preserves _ (match ?x with _ => _ end) => destruct x
  end.

Section Frames.
Context {A : Type}.
Implicit Types (m : Model A) (md : Module).

Lemma same_kind_refl i md : Logic.same_kind i md md.
Proof. done. Qed.

Lemma same_kind_trans i md1 md2 md3 :
  Logic.same_kind i md1 md2 -> Logic.same_kind i md2 md3 ->
  Logic.same_kind i md1 md3.
Proof. unfold Logic.same_kind. intros (?&?&?) (?&?&?). repeat split; congruence. Qed.

Lemma only_at_refl j i md : Logic.only_at j i md md.
Proof. done. Qed.

Lemma only_at_trans j i md1 md2 md3 :
  Logic.only_at j i md1 md2 -> Logic.only_at j i md2 md3 ->
  Logic.only_at j i md1 md3.
Proof.
  unfold Logic.only_at. intros (?&?&H1) (?&?&H2).
  repeat split; try congruence. intros Hne. rewrite H2, H1; done.
Qed.

Lemma only_at_setattr j name v :
  Logic.preserves (A := A) (Logic.only_at j) (setattr j name v).
Proof.
  apply preserves_modify_module; [apply only_at_refl|]. intros md. by split.
Qed.

Lemma only_at_set_class j c :
  Logic.preserves (A := A) (Logic.only_at j) (set_class j c).
Proof.
  apply preserves_modify_module; [apply only_at_refl|]. intros md. by split.
Qed.

Lemma only_at_update_module_arguments j kwargs :
  Logic.preserves (A := A) (Logic.only_at j) (update_module_arguments j kwargs).
Proof.
  apply preserves_for_each;
    [apply only_at_refl|apply only_at_trans|intros; apply only_at_setattr].
Qed.

Lemma same_kind_setattr j name v :
  Logic.preserves (A := A) Logic.same_kind (setattr j name v).
Proof.
  apply preserves_modify_module; [apply same_kind_refl|]. intros md. by split.
Qed.

Lemma same_kind_parallel_update (self : Engine) :
  Logic.preserves (A := A) Logic.same_kind
    (TensorParallelEngine1D._update_mp_arguments self).
Proof.
  pose proof same_kind_refl. pose proof same_kind_trans.
  unfold TensorParallelEngine1D._update_mp_arguments.
  repeat first [apply same_kind_setattr | preserves_step].
Qed.

Lemma only_at_slice (self : Engine) j reversed fusion_degree slice_bias d :
  Logic.preserves (A := A) (Logic.only_at j)
    (TensorParallelEngine1D._slice self j reversed fusion_degree slice_bias d).
Proof.
  pose proof (only_at_refl j). pose proof (only_at_trans j).
  unfold TensorParallelEngine1D._slice, set_data, set_tp_rank.
  repeat first [apply only_at_update_module_arguments | preserves_step].
Qed.

Lemma only_at_parallelize_modules_body (self : Engine) j :
  Logic.preserves (A := A) (Logic.only_at j)
    (param_name <- module_name j ;;
     md <- get_module j ;;
     if is_column_parallel (tp_mapping self) param_name then
       TensorParallelEngine1D._column_slice self j
         (get_combined_qkv_degree (tp_mapping self) param_name md)
         (is_reversed_param (tp_mapping self) param_name) ;;
       set_class j ColumnParallelLinear
     else if is_row_parallel (tp_mapping self) param_name then
       TensorParallelEngine1D._row_slice self j 1
         (is_reversed_param (tp_mapping self) param_name) ;;
       set_class j RowParallelLinear
     else lret tt)%L.
Proof.
  pose proof (only_at_refl j). pose proof (only_at_trans j).
  unfold TensorParallelEngine1D._column_slice, TensorParallelEngine1D._row_slice.
  repeat first [apply only_at_slice | apply only_at_set_class | preserves_step].
Qed.

Lemma only_at_tied_body (self : Engine) (w j : nat) :
  Logic.preserves (A := A) (Logic.only_at j)
    (name <- module_name j ;;
     md <- get_module j ;;
     if TensorParallelEngine1D.is_tied_head md w then
       update_module_arguments j
         [("mpu", VMpu (mpu self));
          ("reversed", VBool (is_reversed_param (tp_mapping self) name));
          ("fusion_degree", VInt 1);
          ("orig_module", VClass (cls md));
          ("gather_output", VBool true)] ;;
       set_class j ColumnParallelLinear
     else lret tt)%L.
Proof.
  pose proof (only_at_refl j). pose proof (only_at_trans j).
  repeat first [apply only_at_update_module_arguments
               | apply only_at_set_class | preserves_step].
Qed.

End Frames.

(** C3, as the code has it: without [get_input_embeddings] the assertion
    is raised by [_parallelize_embedding], after [_update_mp_arguments] has
    rescaled the configuration integers and before anything else is
    touched: the model at the error is the original one with its rescaled
    attributes divided by the world size. *)
Theorem assertion_follows_rescale {A : Type} (self : Engine) (m : Model A) :
  let W := get_tensor_parallel_world_size (mpu self) in
  let names := update_attrs (tp_mapping self) in
  W <> 0 -> Closed.attrs_intb names m = true ->
  input_embeddings m = None ->
  TensorParallelEngine1D.parallelize self m
  = (Raise AssertionError,
     Closed.map_modules
       (fun md => with_attrs md
                    (Closed.rescale_attrs (fun h => h / W) names (attrs md))) m).
Proof.
  intros W names HW Hint Hnone. apply attrs_intb_spec in Hint.
  unfold TensorParallelEngine1D.parallelize.
  erewrite lbind_ok; [|by apply parallel_update_mp_arguments_closed].
  apply lbind_raise.
  unfold TensorParallelEngine1D._parallelize_embedding.
  erewrite lbind_ok; [|reflexivity]. simpl. by rewrite Hnone.
Qed.

(** * Tied output heads *)

Ltac attr_lookup :=
  repeat first [ rewrite lookup_insert_eq
               | rewrite lookup_insert_ne by discriminate ];
  try reflexivity; try assumption.

Section Tied.
Context {A : Type}.
Implicit Types (m : Model A) (md : Module).

Lemma preserves_lookup_ne {X : Type} (c : L A X) j i m r m' :
  Logic.preserves (Logic.only_at j) c -> c m = (r, m') -> i <> j ->
  named_modules m' !! i = named_modules m !! i.
Proof.
  intros Hc H Hne. destruct (Hc _ _ _ H) as (_ & Hlen & Hmods).
  destruct (named_modules m !! i) as [[nm md]|] eqn:E.
  - destruct (Hmods _ _ _ E) as (md' & -> & _ & _ & Heq). by rewrite Heq.
  - apply lookup_ge_None. apply lookup_ge_None in E. lia.
Qed.

Lemma gathering_column_frame {X : Type} (self : Engine) (c : L A X) j i name
    m r m' :
  Logic.preserves (Logic.only_at j) c -> c m = (r, m') -> i <> j ->
  Logic.gathering_column self i name m -> Logic.gathering_column self i name m'.
Proof.
  intros Hc H Hne (md' & Hmd' & HQ). exists md'. split; [|done].
  by rewrite (preserves_lookup_ne c j i m r m').
Qed.

Lemma tied_head_after_embedding (self : Engine) m m2 e emb_name emb w i name md :
  TensorParallelEngine1D._parallelize_embedding self m = (Ok tt, m2) ->
  input_embeddings m = Some e ->
  named_modules m !! e = Some (emb_name, emb) ->
  weight emb = Ref w ->
  named_modules m !! i = Some (name, md) ->
  weight md = Ref w ->
  i <> e ->
  isinstance_Embedding (cls md) = false ->
  Logic.gathering_column self i name m2.
Proof.
  intros Hrun Hie He Hw Hi Hwi Hne Hcls.
  unfold TensorParallelEngine1D._parallelize_embedding in Hrun.
  apply lbind_ok_inv in Hrun as (m0 & m1 & Hget & Hrun).
  injection Hget as <- <-. rewrite Hie in Hrun.
  apply lbind_ok_inv in Hrun as (emb' & m1 & Hget & Hrun).
  rewrite (get_module_ok _ _ _ _ He) in Hget. injection Hget as <- <-.
  apply lbind_ok_inv in Hrun as (w' & m1 & Hget & Hrun).
  unfold TensorParallelEngine1D.weight_ref in Hget. rewrite Hw in Hget.
  injection Hget as <- <-.
  apply lbind_ok_inv in Hrun as (pw & m1 & Hget & Hrun).
  assert (m1 = m) as ->.
  { unfold get_param, lbind, get in Hget. destruct (store m !! w); by inversion Hget. }
  clear Hget.
  apply lbind_ok_inv in Hrun as (cws & m1 & Hget & Hrun).
  assert (m1 = m) as -> by (by inversion Hget). clear Hget.
  apply lbind_ok_inv in Hrun as (cw & m1 & Hget & Hrun).
  assert (m1 = m) as -> by (by inversion Hget). clear Hget.
  apply lbind_ok_inv in Hrun as ([] & m1 & H1 & Hrun).
  apply lbind_ok_inv in Hrun as ([] & m2' & H2 & Hrun).
  apply lbind_ok_inv in Hrun as ([] & m3 & H3 & Hrun).
  apply lbind_ok_inv in Hrun as ([] & m4 & H4 & Hrun).
  (* the module at [i] is still the original one when the loop starts *)
  assert (Hi4 : named_modules m4 !! i = Some (name, md)).
  { rewrite (preserves_lookup_ne _ e i m3 _ m4 (only_at_set_class e _) H4 Hne).
    rewrite (preserves_lookup_ne _ e i m2' _ m3
               (only_at_update_module_arguments e _) H3 Hne).
    injection H2 as <-. injection H1 as <-. done. }
  assert (Hlt : (i < length (named_modules m))%nat) by by eapply lookup_lt_Some.
  revert Hrun. unfold module_ids.
  apply (for_each_visit
           (fun m0 => named_modules m0 !! i = Some (name, md))
           (Logic.gathering_column self i name) i); [done| | | |done].
  - intros j m0 m5 Hj HP Hbody.
    by rewrite (preserves_lookup_ne _ j i m0 _ m5 (only_at_tied_body self w j) Hbody).
  - intros j m0 m5 Hj HQ Hbody.
    by eapply (gathering_column_frame self _ j); [apply (only_at_tied_body self w j)|..].
  - intros m0 m5 HP Hbody.
    erewrite lbind_ok in Hbody; [|by eapply module_name_ok].
    erewrite lbind_ok in Hbody; [|by eapply get_module_ok].
    unfold TensorParallelEngine1D.is_tied_head in Hbody.
    rewrite bool_decide_eq_true_2 in Hbody by done.
    rewrite Hcls in Hbody.
    assert (HV : isinstance_VocabParallelEmbedding (cls md) = false).
    { by destruct (cls md). }
    rewrite HV in Hbody. simpl in Hbody. injection Hbody as <-.
    eexists. split.
    { unfold upd_module. simpl. rewrite !list_lookup_alter_eq, HP. reflexivity. }
    simpl. repeat split; attr_lookup.
Qed.

End Tied.

Section CollFacts.
Context {A : Type}.
Implicit Types (m : Model A).

Lemma cbind_local_ok {X Y : Type} (c : L A X) (f : X -> M A Y) m x m1 :
  c m = (Ok x, m1) -> cbind (local c) f m = f x m1.
Proof. intros H. unfold cbind, local. simpl. by rewrite H. Qed.

Lemma cbind_local_raise {X Y : Type} (c : L A X) (f : X -> M A Y) m e m1 :
  c m = (Raise e, m1) -> cbind (local c) f m = Ret (Raise e, m1).
Proof. intros H. unfold cbind, local. simpl. by rewrite H. Qed.

Lemma getattr_ok i name m nm md v :
  named_modules m !! i = Some (nm, md) -> attrs md !! name = Some v ->
  getattr i name m = (Ok v, m).
Proof.
  intros Hi Hv. unfold getattr. erewrite lbind_ok; [|by eapply get_module_ok].
  by rewrite Hv.
Qed.

End CollFacts.

(** C9, as the code has it: a tied output head that the mapping table does
    not list as column- or row-parallel is, after [parallelize], a
    [ColumnParallelLinear] with fusion degree one and [gather_output] set,
    and its forward pass, once the input is broadcast and multiplied with
    the local shard, issues an all-gather of the local product. *)
Theorem tied_head_outside_mapping_gathers {A : Type} (self : Engine)
    (m m' : Model A) e emb_name emb w i name md :
  TensorParallelEngine1D.parallelize self m = (Ok tt, m') ->
  input_embeddings m = Some e ->
  named_modules m !! e = Some (emb_name, emb) ->
  weight emb = Ref w ->
  named_modules m !! i = Some (name, md) ->
  weight md = Ref w ->
  i <> e ->
  isinstance_Embedding (cls md) = false ->
  is_column_parallel (tp_mapping self) name = false ->
  is_row_parallel (tp_mapping self) name = false ->
  exists md',
    named_modules m' !! i = Some (name, md') /\
    cls md' = ColumnParallelLinear /\
    attrs md' !! "fusion_degree" = Some (VInt 1) /\
    attrs md' !! "gather_output" = Some (VBool true) /\
    forall (zero : A) (add mul : A -> A -> A) (inputs : Tensor A),
    exists k,
      ColumnParallelLinear_forward zero add mul i inputs m'
      = Coll OpBroadcast inputs k /\
      forall bs x y,
        Py.index bs 0 = Ok x ->
        local_matmul zero add mul i x m' = (Ok y, m') ->
        exists k', k bs = Coll OpAllGather y k'.
Proof.
  intros Hrun Hie He Hw Hi Hwi Hne Hcls Hcol Hrow.
  unfold TensorParallelEngine1D.parallelize in Hrun.
  apply lbind_ok_inv in Hrun as ([] & m1 & H1 & Hrun).
  apply lbind_ok_inv in Hrun as ([] & m2 & H2 & Hrun).
  apply lbind_ok_inv in Hrun as ([] & m3 & H3 & Hrun).
  apply lbind_ok_inv in Hrun as ([] & m4 & H4 & H5).
  (* rescaling keeps classes and tensors *)
  destruct (same_kind_parallel_update self _ _ _ H1) as (Hie1 & _ & Hmods1).
  destruct (Hmods1 _ _ _ He) as (emb1 & He1 & _ & Hw1 & _).
  destruct (Hmods1 _ _ _ Hi) as (md1 & Hi1 & Hcls1 & Hwi1 & _).
  assert (HQ2 : Logic.gathering_column self i name m2).
  { apply (tied_head_after_embedding self m1 m2 e emb_name emb1 w i name md1);
      try done; congruence. }
  (* the column and row loop does not visit the head *)
  assert (HQ3 : Logic.gathering_column self i name m3).
  { unfold TensorParallelEngine1D._parallelize_modules in H3.
    apply lbind_ok_inv in H3 as (m0 & m2' & Hget & H3).
    injection Hget as <- <-. revert H3. unfold module_ids.
    assert (Hlt : (i < length (named_modules m2))%nat).
    { destruct HQ2 as (? & ? & _). by eapply lookup_lt_Some. }
    apply (for_each_visit (Logic.gathering_column self i name)
             (Logic.gathering_column self i name) i); [done| | | |done].
    - intros j m0 m5 Hj HQ Hbody.
      by eapply (gathering_column_frame self _ j);
        [apply (only_at_parallelize_modules_body self j)|..].
    - intros j m0 m5 Hj HQ Hbody.
      by eapply (gathering_column_frame self _ j);
        [apply (only_at_parallelize_modules_body self j)|..].
    - intros m0 m5 HQ Hbody. destruct HQ as (md0 & Hmd0 & HQ).
      erewrite lbind_ok in Hbody; [|by eapply module_name_ok].
      erewrite lbind_ok in Hbody; [|by eapply get_module_ok].
      rewrite Hcol, Hrow in Hbody. injection Hbody as <-. by exists md0. }
  assert (HQ4 : Logic.gathering_column self i name m4).
  { injection H4 as <-. done. }
  assert (HQ5 : Logic.gathering_column self i name m').
  { destruct HQ4 as (md4 & Hmd4 & Hc4 & Hm4 & Hf4 & Hg4).
    simpl in H5. injection H5 as <-.
    destruct (decide (i = 0%nat)) as [->|Hne0].
    - eexists. split; [by apply upd_module_lookup|].
      simpl. repeat split; attr_lookup.
    - exists md4. split; [by rewrite upd_module_lookup_ne|done]. }
  destruct HQ5 as (md' & Hmd' & Hc & Hm & Hf & Hg).
  exists md'. do 4 (split; [done|]).
  intros zero add mul inputs. eexists. split.
  - unfold ColumnParallelLinear_forward.
    erewrite cbind_local_ok; cycle 1.
    { unfold self_mpu. erewrite lbind_ok; [|by eapply getattr_ok]. reflexivity. }
    reflexivity.
  - intros bs x y Hbs Hy. cbn beta. unfold mpu_broadcast, cbind at 1 2, collective.
    cbn [prog_bind]. rewrite Hbs.
    unfold local at 1, lift. cbn [prog_bind].
    unfold local at 1. rewrite Hy. cbn [prog_bind].
    unfold local at 1. rewrite (getattr_ok _ _ _ _ _ _ Hmd' Hg). cbn [prog_bind].
    simpl truthy. cbv iota.
    unfold mpu_gather, dist_all_gather, cbind, collective. cbn [prog_bind].
    eexists. reflexivity.
Qed.

(** * The sharded embedding in a group of one *)

Lemma single_rank_forward_calls_reduce :
  ~ Claims.forward_without_collective 0 Z.add 1 [0; 3; 1] Examples.single_rank.
Proof. intros [r Hr]. vm_compute in Hr. discriminate. Qed.

Section ForwardFacts.
Context {A : Type} (zero : A) (add mul : A -> A -> A).
Implicit Types (m : Model A) (md : Module).

Lemma self_mpu_ok i m nm md mp :
  named_modules m !! i = Some (nm, md) ->
  attrs md !! "mpu" = Some (VMpu mp) ->
  self_mpu i m = (Ok mp, m).
Proof.
  intros Hi Hmp. unfold self_mpu.
  erewrite lbind_ok; [|by eapply getattr_ok]. reflexivity.
Qed.

Lemma get_param_ok p m x :
  store m !! p = Some x -> get_param p m = (Ok x, m).
Proof. intros H. unfold get_param, lbind, get. by rewrite H. Qed.

Lemma self_weight_ok i m nm md w p :
  named_modules m !! i = Some (nm, md) ->
  weight md = Ref w -> store m !! w = Some p ->
  self_weight i m = (Ok (data p), m).
Proof.
  intros Hi Hw Hp. unfold self_weight.
  erewrite lbind_ok; [|by eapply get_module_ok].
  unfold TensorParallelEngine1D.weight_ref. rewrite Hw.
  erewrite lbind_ok; [|reflexivity].
  erewrite lbind_ok; [|by eapply get_param_ok]. reflexivity.
Qed.

End ForwardFacts.

(** C6, as the code has it: in a group of one the sharded embedding looks
    the ids up unmasked, exactly as the unsharded embedding does, and still
    hands the result to [mpu.reduce]; the reduction over the single rank
    returns it unchanged. An id outside the table raises before the call. *)
Theorem single_rank_forward {A : Type} (zero : A) (add : A -> A -> A)
    (i : nat) (inputs : list Z) (m : Model A) nm md mp w p :
  named_modules m !! i = Some (nm, md) ->
  attrs md !! "mpu" = Some (VMpu mp) ->
  get_tensor_parallel_world_size mp = 1 ->
  weight md = Ref w ->
  store m !! w = Some p ->
  match embedding_lookup inputs (data p) with
  | Ok out =>
      (exists k,
          VocabParallelEmbedding_forward zero add i inputs m
          = Coll OpReduce out k) /\
      run_cluster 1 [VocabParallelEmbedding_forward zero add i inputs m]
      = Some [(Ok out, m)]
  | Raise e =>
      VocabParallelEmbedding_forward zero add i inputs m = Ret (Raise e, m)
  end.
Proof.
  intros Hi Hmp HW Hw Hp.
  unfold VocabParallelEmbedding_forward.
  erewrite cbind_local_ok; [|by eapply self_mpu_ok].
  erewrite cbind_local_ok; [|by eapply self_weight_ok].
  rewrite HW. simpl (1 <? 1). cbv iota.
  destruct (embedding_lookup inputs (data p)) as [out|err] eqn:E.
  - split.
    + eexists. unfold cbind at 1, local, lift. cbn [prog_bind].
      unfold mpu_reduce, cbind, collective. cbn [prog_bind]. reflexivity.
    + unfold cbind at 1, local, lift. cbn [prog_bind].
      unfold mpu_reduce, cbind, collective. cbn [prog_bind]. reflexivity.
  - unfold cbind at 1, local, lift. cbn [prog_bind]. reflexivity.
Qed.

(** * The sharded embedding in a group of several ranks *)

Section Lookup.
Context {A : Type}.

Lemma rmapM_ok {X Y : Type} (f : X -> result Y) (g : X -> Y) (l : list X) :
  Forall (fun x => f x = Ok (g x)) l -> rmapM f l = Ok (g <$> l).
Proof.
  induction 1 as [|x l Hx _ IH]; [done|]. simpl. by rewrite Hx, IH.
Qed.

Lemma embedding_lookup_ok (ids : list Z) (rows : list (list A)) :
  Forall (fun x => 0 <= x < Z.of_nat (length rows)) ids ->
  embedding_lookup ids (Mat rows)
  = Ok (Mat ((fun x => default [] (rows !! Z.to_nat x)) <$> ids)).
Proof.
  intros Hids. unfold embedding_lookup. simpl.
  rewrite (rmapM_ok _ (fun x => default [] (rows !! Z.to_nat x))); [done|].
  eapply Forall_impl; [exact Hids|]. intros x Hx. simpl in Hx |- *.
  destruct (Z.ltb_spec x 0); [lia|].
  destruct (Z.leb_spec (Z.of_nat (length rows)) x); [lia|]. simpl.
  destruct (lookup_lt_is_Some_2 rows (Z.to_nat x)) as [row Hrow]; [lia|].
  rewrite Hrow. simpl. by apply index_nonneg_Some.
Qed.

Lemma chunk_piece_lookup {X : Type} (c : nat) (l : list X) (r j : nat) :
  (j < c)%nat -> chunk_piece c l r !! j = l !! (r * c + j)%nat.
Proof.
  intros Hj. unfold chunk_piece. rewrite lookup_take_lt by done.
  by rewrite lookup_drop.
Qed.

Lemma chunk_piece_length {X : Type} (c : nat) (l : list X) (r : nat) :
  length (chunk_piece c l r) = (c `min` (length l - r * c))%nat.
Proof. unfold chunk_piece. by rewrite length_take, length_drop. Qed.

Lemma chunk_axis_lookup {X : Type} (l : list X) (chunks : Z) (r : nat) :
  (r < Z.to_nat (chunk_count (Z.of_nat (length l)) chunks))%nat ->
  chunk_axis l chunks !! r
  = Some (chunk_piece (Z.to_nat (Py.ceil_div (Z.of_nat (length l)) chunks)) l r).
Proof.
  intros Hr. unfold chunk_axis. rewrite list_lookup_fmap.
  rewrite lookup_seq_lt by done. reflexivity.
Qed.

End Lookup.

Section ShardForward.
Context {A : Type} (zero : A) (add : A -> A -> A).
Implicit Types (m : Model A) (md : Module).

Lemma cbind_ret_ok {X Y : Type} (c : M A X) (f : X -> M A Y) m x m1 :
  c m = Ret (Ok x, m1) -> cbind c f m = f x m1.
Proof. intros H. unfold cbind. by rewrite H. Qed.

Lemma self_int_ok i name m nm md h :
  named_modules m !! i = Some (nm, md) ->
  attrs md !! name = Some (VInt h) ->
  self_int i name m = (Ok h, m).
Proof.
  intros Hi Hv. unfold self_int.
  erewrite lbind_ok; [|by eapply getattr_ok]. reflexivity.
Qed.

Lemma zip_with_fmap_same {X Y Z' : Type} (F : Y -> X -> Z') (f : X -> Y)
    (l : list X) :
  zip_with F (f <$> l) l = (fun x => F (f x) x) <$> l.
Proof. induction l as [|x l IH]; [done|]. csimpl. by rewrite IH. Qed.

Lemma zip_with_fmap_both {X Y Y' Z' : Type} (F : Y -> Y' -> Z') (f : X -> Y)
    (g : X -> Y') (l : list X) :
  zip_with F (f <$> l) (g <$> l) = (fun x => F (f x) (g x)) <$> l.
Proof. induction l as [|x l IH]; [done|]. csimpl. by rewrite IH. Qed.

(** The program of one rank: it hands [mpu.reduce] the rows it owns and
    zeros elsewhere. *)
Lemma shard_forward (W V r : Z) (d : nat) (table : list (list A))
    (inputs : list Z) (e : nat) m nm md w p :
  1 < W -> 0 <= r < W ->
  Z.of_nat (length table) = V ->
  (W - 1) * Py.ceil_div V W < V ->
  Forall (fun row => length row = d) table ->
  Forall (fun x => 0 <= x < V) inputs ->
  named_modules m !! e = Some (nm, md) ->
  attrs md !! "mpu"
  = Some (VMpu {| get_tensor_parallel_world_size := W;
                  get_tensor_parallel_rank := r |}) ->
  attrs md !! "num_embeddings" = Some (VInt V) ->
  weight md = Ref w ->
  store m !! w = Some p ->
  data p = Mat (chunk_piece (Z.to_nat (Py.ceil_div V W)) table (Z.to_nat r)) ->
  VocabParallelEmbedding_forward zero add e inputs m
  = mpu_reduce add
      (Mat (Closed.shard_rows zero d table
              (r * Py.ceil_div V W)
              (if r =? W - 1 then V else (r + 1) * Py.ceil_div V W)
              inputs)) m.
Proof.
  intros HW Hr HV Hfull Hwf Hin He Hmpu Hnum Hw Hp Hdata.
  assert (HVpos : 0 < V).
  { pose proof (ceil_div_nonneg V W ltac:(lia) ltac:(lia)). nia. }
  pose proof (ceil_div_pos V W ltac:(lia) ltac:(lia)) as Hc.
  pose proof (ceil_div_bounds V W ltac:(lia)) as Hcb.
  set (c := Py.ceil_div V W) in *.
  set (lo := r * c). set (hi := if r =? W - 1 then V else (r + 1) * c).
  assert (Hlohi : lo < hi /\ hi <= V /\ hi - lo <= c).
  { unfold lo, hi. destruct (Z.eqb_spec r (W - 1)); nia. }
  unfold VocabParallelEmbedding_forward.
  erewrite cbind_local_ok; [|by eapply self_mpu_ok].
  erewrite cbind_local_ok; [|by eapply self_weight_ok].
  cbn [get_tensor_parallel_world_size get_tensor_parallel_rank].
  destruct (Z.ltb_spec 1 W); [|lia].
  apply cbind_ret_ok.
  erewrite cbind_local_ok; [|by eapply self_int_ok].
  erewrite cbind_local_ok; cycle 1.
  { unfold lift. rewrite VocabRangeFacts.vocab_range_closed_form by lia.
    reflexivity. }
  cbn [fst snd]. fold c lo hi.
  set (mask := fun x => (x <? lo) || (hi <=? x)).
  rewrite (zip_with_fmap_same (fun (b : bool) x => if b then 0 else x - lo) mask).
  rewrite Hdata.
  erewrite cbind_local_ok; cycle 1.
  { unfold lift. rewrite embedding_lookup_ok; [reflexivity|].
    apply Forall_fmap. eapply Forall_impl; [exact Hin|].
    intros x Hx. simpl in Hx |- *. rewrite chunk_piece_length.
    unfold mask.
    destruct (Z.ltb_spec x lo), (Z.leb_spec hi x); simpl; lia. }
  erewrite cbind_local_ok; [|reflexivity].
  unfold cret. apply (f_equal (fun rows => Ret (Ok (Mat rows), m))).
  unfold zero_masked, Closed.shard_rows.
  rewrite <- list_fmap_compose.
  rewrite zip_with_fmap_both.
  apply Forall_fmap_ext_1. eapply Forall_impl; [exact Hin|].
  intros x Hx. simpl in Hx |- *. fold (mask x).
  destruct (mask x) eqn:Emask.
  - rewrite chunk_piece_lookup by lia. simpl.
    rewrite Nat.add_0_r.
    destruct (lookup_lt_is_Some_2 table (Z.to_nat r * Z.to_nat c))
      as [row Hrow]; [nia|].
    rewrite Hrow. simpl.
    rewrite Forall_forall in Hwf.
    rewrite <- (Hwf row) by (by eapply list_elem_of_lookup_2).
    by apply const_fmap.
  - unfold mask in Emask.
    destruct (Z.ltb_spec x lo), (Z.leb_spec hi x); try done.
    rewrite chunk_piece_lookup by lia. do 2 f_equal. unfold lo in *. nia.
Qed.

End ShardForward.

Section ReduceRun.
Context {A : Type} (add : A -> A -> A).
Implicit Types (m : Model A).

Lemma mapM_imap_Some {X Y Z' : Type} (f : Y -> option Z') (g : nat -> X -> Y)
    (h : nat -> X -> Z') (l : list X) :
  (forall i x, l !! i = Some x -> f (g i x) = Some (h i x)) ->
  mapM f (imap g l) = Some (imap h l).
Proof.
  intros H. apply mapM_Some_2. apply Forall2_same_length_lookup.
  split; [by rewrite !length_imap|].
  intros i y z. rewrite !list_lookup_imap.
  destruct (l !! i) as [x|] eqn:E; [|done]. simpl.
  intros [= <-] [= <-]. by apply H.
Qed.

(** One collective step of a group whose ranks all call [mpu.reduce]. *)
Lemma run_reduce (T : nat -> Tensor A) (ms : list (Model A)) :
  ms <> [] ->
  run_cluster 1 (imap (fun r m => mpu_reduce add (T r) m) ms)
  = Some ((fun m => (tensor_sum add (T 0%nat) (T <$> seq 1 (length ms - 1)), m))
            <$> ms).
Proof.
  intros Hne. destruct ms as [|m0 ms]; [done|]. clear Hne.
  set (ms1 := m0 :: ms).
  assert (Hnret : mapM as_ret (imap (fun r m => mpu_reduce add (T r) m) ms1) = None).
  { reflexivity. }
  cbn [run_cluster]. rewrite Hnret.
  set (k := fun (m : Model A) (ts : list (Tensor A)) =>
              match ts with
              | [] => craise RuntimeError
              | t0 :: ts' => local (lift (tensor_sum add t0 ts'))
              end m : Prog A (result (Tensor A) * Model A)).
  rewrite (mapM_imap_Some as_coll _ (fun r m => (OpReduce, T r, k m))); cycle 1.
  { intros i x _. reflexivity. }
  assert (Hops : same_op ((fun c : CollOp * Tensor A * _ => c.1.1)
                   <$> imap (fun r m => (OpReduce, T r, k m)) ms1) = true).
  { unfold ms1. simpl. apply forallb_forall. intros op Hop.
    apply list_elem_of_In, list_elem_of_fmap in Hop as (c & -> & Hc).
    apply list_elem_of_lookup in Hc as [i Hc].
    rewrite list_lookup_imap in Hc.
    destruct (ms !! i); [|done]. injection Hc as <-. by apply bool_decide_eq_true_2. }
  rewrite Hops.
  assert (Hts : (fun c : CollOp * Tensor A * _ => c.1.2)
                  <$> imap (fun r m => (OpReduce, T r, k m)) ms1
                = T <$> seq 0 (length ms1)).
  { rewrite fmap_imap. apply list_eq. intros i.
    rewrite list_lookup_imap, list_lookup_fmap.
    destruct (ms1 !! i) as [x|] eqn:E.
    - rewrite lookup_seq_lt by (by eapply lookup_lt_Some). done.
    - rewrite lookup_seq_ge; [done|]. by apply lookup_ge_None. }
  rewrite Hts. rewrite fmap_imap.
  match goal with
  | |- match ?x with Some _ => _ | None => _ end = Some ?y =>
      assert (Hx : x = Some y); [|by rewrite Hx]
  end.
  apply mapM_Some_2. apply Forall2_same_length_lookup.
  split; [by rewrite length_imap, length_fmap|].
  intros i p r. rewrite list_lookup_imap, list_lookup_fmap.
  destruct (ms1 !! i) as [x|]; [|done]. simpl. intros [= <-] [= <-].
  unfold k, ms1. cbn [length].
  replace (length ms - 0)%nat with (length ms) by lia.
  reflexivity.
Qed.

End ReduceRun.

Section ShardSum.
Context {A : Type} (zero : A) (add : A -> A -> A).
Context (add_zero_l : forall x, add zero x = x).
Context (add_zero_r : forall x, add x zero = x).
Context (d : nat) (table : list (list A)) (V : Z).
Context (HV : Z.of_nat (length table) = V).
Context (Hwf : Forall (fun row => length row = d) table).

Lemma table_row_length (x : Z) :
  0 <= x < V -> length (default [] (table !! Z.to_nat x)) = d.
Proof.
  intros Hx. destruct (lookup_lt_is_Some_2 table (Z.to_nat x)) as [row Hrow];
    [lia|].
  rewrite Hrow. simpl. rewrite Forall_forall in Hwf. apply Hwf.
  by eapply list_elem_of_lookup_2.
Qed.

Lemma shard_rows_size (lo hi : Z) (inputs : list Z) :
  Forall (fun x => 0 <= x < V) inputs ->
  size (Mat (Closed.shard_rows zero d table lo hi inputs))
  = [Z.of_nat (length inputs);
     Z.of_nat (match inputs with [] => 0 | _ => d end)].
Proof.
  intros Hin. unfold Closed.shard_rows. simpl. rewrite length_fmap.
  destruct Hin as [|x inputs Hx _]; [done|]. simpl.
  destruct (_ || _); [by rewrite length_replicate|].
  by rewrite table_row_length.
Qed.

Lemma row_add_zeros_r (row : list A) :
  length row = d -> zip_with add row (replicate d zero) = row.
Proof.
  intros Hlen. rewrite zip_with_replicate_r_eq by done.
  rewrite <- (list_fmap_id row) at 2. apply list_fmap_ext.
  intros i x _. apply add_zero_r.
Qed.

Lemma row_add_zeros_l (row : list A) :
  length row = d -> zip_with add (replicate d zero) row = row.
Proof.
  intros Hlen. rewrite zip_with_replicate_l by lia.
  rewrite <- (list_fmap_id row) at 2. apply list_fmap_ext.
  intros i x _. apply add_zero_l.
Qed.

(** Adding the contribution of the next range to the sum of the ranges
    below it. *)
Lemma shard_rows_add (b b' : Z) (inputs : list Z) :
  0 <= b <= b' ->
  Forall (fun x => 0 <= x < V) inputs ->
  tensor_add add (Mat (Closed.shard_rows zero d table 0 b inputs))
                 (Mat (Closed.shard_rows zero d table b b' inputs))
  = Ok (Mat (Closed.shard_rows zero d table 0 b' inputs)).
Proof.
  intros Hb Hin. unfold tensor_add.
  rewrite !shard_rows_size by done.
  rewrite bool_decide_eq_true_2 by done.
  f_equal. f_equal. unfold Closed.shard_rows.
  rewrite zip_with_fmap_both. apply Forall_fmap_ext_1.
  eapply Forall_impl; [exact Hin|]. intros x Hx. simpl in Hx |- *.
  pose proof (table_row_length x Hx) as Hlen.
  destruct (Z.ltb_spec x 0); [lia|]. simpl.
  destruct (Z.leb_spec b x), (Z.leb_spec b' x), (Z.ltb_spec x b);
    simpl; try lia.
  - by rewrite zip_with_replicate, add_zero_l.
  - by apply row_add_zeros_l.
  - by apply row_add_zeros_r.
Qed.

Lemma shard_rows_all (inputs : list Z) :
  Forall (fun x => 0 <= x < V) inputs ->
  Closed.shard_rows zero d table 0 V inputs
  = (fun x => default [] (table !! Z.to_nat x)) <$> inputs.
Proof.
  intros Hin. unfold Closed.shard_rows. apply Forall_fmap_ext_1.
  eapply Forall_impl; [exact Hin|]. intros x Hx. simpl in Hx |- *.
  destruct (Z.ltb_spec x 0), (Z.leb_spec V x); simpl; try lia. done.
Qed.

(** Summing the contributions of consecutive ranges. *)
Lemma shard_rows_sum (bound : nat -> Z) (inputs : list Z) (k j : nat) :
  Forall (fun x => 0 <= x < V) inputs ->
  (forall i, (i <= k + j)%nat -> 0 <= bound i) ->
  (forall i, (i < k + j)%nat -> bound i <= bound (S i)) ->
  tensor_sum add (Mat (Closed.shard_rows zero d table 0 (bound k) inputs))
    ((fun i => Mat (Closed.shard_rows zero d table (bound i) (bound (S i)) inputs))
       <$> seq k j)
  = Ok (Mat (Closed.shard_rows zero d table 0 (bound (k + j)%nat) inputs)).
Proof.
  intros Hin. revert k. induction j as [|j IH]; intros k Hpos Hmono.
  - simpl. by rewrite Nat.add_0_r.
  - simpl. rewrite shard_rows_add; [|split; [apply Hpos|apply Hmono]; lia|done].
    simpl. rewrite IH.
    + by replace (S k + j)%nat with (k + S j)%nat by lia.
    + intros i Hi. apply Hpos. lia.
    + intros i Hi. apply Hmono. lia.
Qed.

End ShardSum.

(** C5: in a group of [W > 1] ranks whose embedding modules hold the
    chunks of the table, the forward passes, run together on a batch of ids
    within the vocabulary, return on every rank what the lookup in the full
    table returns: the sum of the masked per-shard outputs is the unsharded
    output. Zero is neutral for the addition of elements. *)
Theorem sharded_embedding_sum {A : Type} (zero : A) (add : A -> A -> A)
    (W V : Z) (d : nat) (table : list (list A)) (inputs : list Z) (e : nat)
    (ms : list (Model A)) (chunks : list (Tensor A)) :
  (forall x, add zero x = x) ->
  (forall x, add x zero = x) ->
  1 < W -> 1 <= V ->
  Z.of_nat (length table) = V ->
  Forall (fun row => length row = d) table ->
  Forall (fun x => 0 <= x < V) inputs ->
  chunk (Mat table) W 0 = Ok chunks ->
  Z.of_nat (length ms) = W ->
  (forall r m, ms !! r = Some m ->
     exists nm md w p,
       named_modules m !! e = Some (nm, md) /\
       attrs md !! "mpu"
       = Some (VMpu {| get_tensor_parallel_world_size := W;
                       get_tensor_parallel_rank := Z.of_nat r |}) /\
       attrs md !! "num_embeddings" = Some (VInt V) /\
       weight md = Ref w /\
       store m !! w = Some p /\
       Py.index chunks (Z.of_nat r) = Ok (data p)) ->
  exists out,
    embedding_lookup inputs (Mat table) = Ok out /\
    run_cluster 1
      ((fun m => VocabParallelEmbedding_forward zero add e inputs m) <$> ms)
    = Some ((fun m => (Ok out, m)) <$> ms).
Proof.
  intros Hl Hr HW HV1 HV Hwf Hin Hchunk Hlen Hranks.
  rewrite chunk_rows_ok in Hchunk by lia. injection Hchunk as <-.
  pose proof (chunk_count_le V W ltac:(lia) ltac:(lia)) as Hcnt.
  set (c := Py.ceil_div V W).
  (* the last rank has a chunk, so there are [W] of them *)
  assert (Hfull : (W - 1) * c < V).
  { apply chunk_count_full; [lia|lia|].
    destruct (lookup_lt_is_Some_2 ms (Z.to_nat (W - 1))) as [m Hm]; [lia|].
    destruct (Hranks _ _ Hm) as (nm & md & w & p & _ & _ & _ & _ & _ & Hidx).
    assert (Hlt : Z.of_nat (Z.to_nat (W - 1))
                  < Z.of_nat (length (Mat <$> chunk_axis table W))).
    { apply index_ok_iff; [lia|eauto]. }
    rewrite length_fmap, chunk_axis_length, HV in Hlt. lia. }
  assert (Hcount : chunk_count V W = W).
  { apply chunk_count_full; [lia|lia|done]. }
  pose proof (ceil_div_pos V W ltac:(lia) ltac:(lia)) as Hc. fold c in Hc.
  set (bound := fun i : nat => if Z.of_nat i <? W then Z.of_nat i * c else V).
  set (T := fun r : nat =>
              Mat (Closed.shard_rows zero d table (bound r) (bound (S r)) inputs)).
  assert (Hprogs :
    (fun m => VocabParallelEmbedding_forward zero add e inputs m) <$> ms
    = imap (fun r m => mpu_reduce add (T r) m) ms).
  { apply list_eq. intros r. rewrite list_lookup_fmap, list_lookup_imap.
    destruct (ms !! r) as [m|] eqn:Hm; [|done]. simpl. f_equal.
    apply lookup_lt_Some in Hm as Hrlt.
    destruct (Hranks _ _ Hm) as (nm & md & w & p & He & Hmpu & Hnum & Hw & Hp & Hidx).
    apply index_nonneg_inv in Hidx; [|lia].
    rewrite Nat2Z.id, list_lookup_fmap, chunk_axis_lookup in Hidx
      by (rewrite HV, Hcount; lia).
    injection Hidx as Hdata. rewrite HV in Hdata. fold c in Hdata.
    rewrite (shard_forward zero add W V (Z.of_nat r) d table inputs e m nm md w p);
      try done; try lia.
    - unfold T, bound. fold c.
      destruct (Z.ltb_spec (Z.of_nat r) W); [|lia].
      destruct (Z.eqb_spec (Z.of_nat r) (W - 1)),
               (Z.ltb_spec (Z.of_nat (S r)) W); try lia; [done|].
      by replace (Z.of_nat (S r)) with (Z.of_nat r + 1) by lia.
    - by rewrite Nat2Z.id. }
  rewrite Hprogs. rewrite run_reduce by (intros ->; simpl in Hlen; lia).
  assert (Hsum : tensor_sum add (T 0%nat) (T <$> seq 1 (length ms - 1))
                 = Ok (Mat ((fun x => default [] (table !! Z.to_nat x)) <$> inputs))).
  { unfold T.
    assert (Hb0 : bound 0%nat = 0).
    { unfold bound. destruct (Z.ltb_spec (Z.of_nat 0) W); lia. }
    rewrite Hb0.
    rewrite (shard_rows_sum zero add Hl Hr d table V HV Hwf bound inputs 1
               (length ms - 1)); try done.
    - replace (1 + (length ms - 1))%nat with (length ms) by lia.
      assert (HbW : bound (length ms) = V).
      { unfold bound. destruct (Z.ltb_spec (Z.of_nat (length ms)) W); lia. }
      rewrite HbW. by rewrite (shard_rows_all zero d table V).
    - intros i _. unfold bound. destruct (Z.ltb_spec (Z.of_nat i) W); nia.
    - intros i Hi. unfold bound.
      destruct (Z.ltb_spec (Z.of_nat i) W), (Z.ltb_spec (Z.of_nat (S i)) W);
        try nia. }
  rewrite Hsum. eexists. split; [|reflexivity].
  apply embedding_lookup_ok. by rewrite HV.
Qed.

Lemma sharded_embedding_sum_witness :
  exists out,
    embedding_lookup [0; 3; 1; 2] (Examples.iota_mat 4 2) = Ok out /\
    run_cluster 1
      ((fun m => VocabParallelEmbedding_forward 0 Z.add 1 [0; 3; 1; 2] m)
         <$> Examples.two_ranks)
    = Some ((fun m => (Ok out, m)) <$> Examples.two_ranks).
Proof.
  apply (sharded_embedding_sum 0 Z.add 2 4 2 [[0; 1]; [2; 3]; [4; 5]; [6; 7]]
           [0; 3; 1; 2] 1 Examples.two_ranks
           [Mat [[0; 1]; [2; 3]]; Mat [[4; 5]; [6; 7]]]).
  - intros x. lia.
  - intros x. lia.
  - lia.
  - lia.
  - reflexivity.
  - repeat constructor.
  - repeat constructor; lia.
  - reflexivity.
  - reflexivity.
  - intros r m Hm.
    destruct r as [|[|r]]; [| |done]; vm_compute in Hm; injection Hm as <-;
      do 4 eexists; repeat split; vm_compute; reflexivity.
Defined.

(** * The theorems at concrete models *)


Lemma assertion_follows_rescale_witness :
  TensorParallelEngine1D.parallelize (engine_of Examples.no_mapping 2 0)
    Examples.headless
  = (Raise AssertionError,
     Closed.map_modules
       (fun md => with_attrs md
                    (Closed.rescale_attrs (fun h => h / 2) ["num_heads"] (attrs md)))
       Examples.headless).
Proof.
  apply (assertion_follows_rescale (engine_of Examples.no_mapping 2 0)
           Examples.headless).
  - simpl. lia.
  - reflexivity.
  - reflexivity.
Defined.

Lemma tied_head_outside_mapping_gathers_witness :
  exists md',
    named_modules
      (TensorParallelEngine1D.parallelize (engine_of Examples.no_mapping 2 0)
         Examples.tied_even).2 !! 3%nat = Some ("lm_head", md') /\
    cls md' = ColumnParallelLinear /\
    attrs md' !! "fusion_degree" = Some (VInt 1) /\
    attrs md' !! "gather_output" = Some (VBool true) /\
    forall (zero : Z) (add mul : Z -> Z -> Z) (inputs : Tensor Z),
    exists k,
      ColumnParallelLinear_forward zero add mul 3 inputs
        (TensorParallelEngine1D.parallelize (engine_of Examples.no_mapping 2 0)
           Examples.tied_even).2
      = Coll OpBroadcast inputs k /\
      forall bs x y,
        Py.index bs 0 = Ok x ->
        local_matmul zero add mul 3 x
          (TensorParallelEngine1D.parallelize (engine_of Examples.no_mapping 2 0)
             Examples.tied_even).2
        = (Ok y,
           (TensorParallelEngine1D.parallelize (engine_of Examples.no_mapping 2 0)
              Examples.tied_even).2) ->
        exists k', k bs = Coll OpAllGather y k'.
Proof.
  apply (tied_head_outside_mapping_gathers (engine_of Examples.no_mapping 2 0)
           Examples.tied_even _ 1%nat "wte"
           (Examples.mk_module Embedding (Ref 0%nat) Absent
              [("num_embeddings", VInt 4)])
           0%nat 3%nat "lm_head"
           (Examples.mk_module Linear (Ref 0%nat) IsNone [])).
  - vm_compute. reflexivity.
  - reflexivity.
  - reflexivity.
  - reflexivity.
  - reflexivity.
  - reflexivity.
  - lia.
  - reflexivity.
  - reflexivity.
  - reflexivity.
Defined.

Lemma single_rank_forward_witness :
  (exists k,
      VocabParallelEmbedding_forward 0 Z.add 1 [0; 3; 1] Examples.single_rank
      = Coll OpReduce (Mat [[0; 1]; [6; 7]; [2; 3]]) k) /\
  run_cluster 1
    [VocabParallelEmbedding_forward 0 Z.add 1 [0; 3; 1] Examples.single_rank]
  = Some [(Ok (Mat [[0; 1]; [6; 7]; [2; 3]]), Examples.single_rank)].
Proof.
  pose proof (single_rank_forward 0 Z.add 1 [0; 3; 1] Examples.single_rank
                "wte"
                (Examples.mk_module VocabParallelEmbedding (Ref 0%nat) Absent
                   [("num_embeddings", VInt 4);
                    ("mpu", VMpu {| get_tensor_parallel_world_size := 1;
                                    get_tensor_parallel_rank := 0 |});
                    ("orig_module", VClass Embedding)])
                {| get_tensor_parallel_world_size := 1;
                   get_tensor_parallel_rank := 0 |}
                0%nat
                {| data := Examples.iota_mat 4 2; tp_rank := Some 0;
                   is_cuda := false |}) as H.
  apply H; vm_compute; reflexivity.
Defined.

(** * Chunks of an axis that divides evenly *)

Section Pieces.
Context {X : Type}.
Implicit Types (l : list X) (s K : nat).

Lemma chunk_piece_S s l i :
  chunk_piece s l (S i) = chunk_piece s (drop s l) i.
Proof.
  unfold chunk_piece. rewrite drop_drop. do 2 f_equal; lia.
Qed.

Lemma chunk_piece_full_length s l i K :
  length l = (K * s)%nat -> (i < K)%nat -> length (chunk_piece s l i) = s.
Proof. intros Hl Hi. rewrite chunk_piece_length. nia. Qed.

Lemma concat_chunk_pieces s l K :
  length l = (K * s)%nat ->
  concat (chunk_piece s l <$> seq 0 K) = l.
Proof.
  revert l. induction K as [|K IH]; intros l Hl.
  - simpl. symmetry. apply nil_length_inv. lia.
  - cbn [seq fmap list_fmap concat]. rewrite <- fmap_S_seq, <- list_fmap_compose.
    rewrite (list_fmap_ext _ (chunk_piece s (drop s l)) (seq 0 K)); cycle 1.
    { intros i x _. apply chunk_piece_S. }
    rewrite IH by (rewrite length_drop; lia).
    unfold chunk_piece. simpl. rewrite drop_0. apply take_drop.
Qed.

Lemma chunk_piece_concat s (ps : list (list X)) i p :
  Forall (fun q => length q = s) ps ->
  ps !! i = Some p ->
  chunk_piece s (concat ps) i = p.
Proof.
  intros Hall. revert i. induction Hall as [|q ps Hq Hall IH]; intros i Hi; [done|].
  destruct i as [|i].
  - injection Hi as ->. unfold chunk_piece. simpl. rewrite drop_0.
    rewrite take_app_length'; done.
  - rewrite chunk_piece_S. simpl. rewrite drop_app_length'; [|done]. by apply IH.
Qed.

Lemma chunk_axis_even l (K s : nat) :
  (1 <= K)%nat -> (1 <= s)%nat -> length l = (K * s)%nat ->
  chunk_axis l (Z.of_nat K) = chunk_piece s l <$> seq 0 K.
Proof.
  intros HK Hs Hl. unfold chunk_axis. rewrite Hl.
  fold (Py.ceil_div (Z.of_nat (K * s)) (Z.of_nat K)).
  assert (Hc : Py.ceil_div (Z.of_nat (K * s)) (Z.of_nat K) = Z.of_nat s).
  { apply ceil_div_unique; nia. }
  rewrite Hc, Nat2Z.id.
  assert (Hn : chunk_count (Z.of_nat (K * s)) (Z.of_nat K) = Z.of_nat K).
  { unfold chunk_count. fold (Py.ceil_div (Z.of_nat (K * s)) (Z.of_nat K)).
    rewrite Hc. destruct (Z.eqb_spec (Z.of_nat s) 0); [lia|].
    fold (Py.ceil_div (Z.of_nat (K * s)) (Z.of_nat s)).
    rewrite (ceil_div_unique _ _ (Z.of_nat K)) by nia. lia. }
  by rewrite Hn, Nat2Z.id.
Qed.

End Pieces.

(** * Regrouping of chunks *)

Section Regroup.
Context {Y : Type}.

Lemma chunk_piece_fmap_seq (g : nat -> Y) (W n i : nat) :
  (i * W + W <= n)%nat ->
  chunk_piece W (g <$> seq 0 n) i = (fun r => g (i * W + r)%nat) <$> seq 0 W.
Proof.
  intros Hi. unfold chunk_piece.
  rewrite <- fmap_drop, <- fmap_take, drop_seq, take_seq.
  replace (W `min` (n - i * W))%nat with W by lia.
  replace (0 + i * W)%nat with (i * W + 0)%nat by lia.
  rewrite <- (fmap_add_seq (i * W) 0), <- list_fmap_compose. done.
Qed.

Lemma zip_star_groups (h : nat -> nat -> Y) (a F W : nat) :
  (1 <= F)%nat ->
  Py.zip_star ((fun i => h i <$> seq 0 W) <$> seq a F)
  = (fun r => (fun i => h i r) <$> seq a F) <$> seq 0 W.
Proof.
  intros HF. revert a. induction F as [|F IH]; intros a; [lia|].
  destruct F as [|F].
  - simpl. rewrite <- list_fmap_compose. done.
  - change (seq a (S (S F))) with (a :: seq (S a) (S F)).
    rewrite fmap_cons.
    assert (Hstep : forall (g : list Y) gs,
               gs <> [] -> Py.zip_star (g :: gs) = zip_with cons g (Py.zip_star gs)).
    { intros g gs Hne. destruct gs; done. }
    rewrite Hstep by done. rewrite IH by lia.
    rewrite zip_with_fmap_both. done.
Qed.

(** [append_chunks] adds one chunk to each slot. *)
Lemma foldl_alter_lookup {Z' : Type} (f : Z' -> Y -> Y) (cs : list Z')
    (acc : list Y) (k j : nat) :
  foldl (fun acc ic => alter (f ic.2) ic.1 acc) acc
        (imap (fun i c => ((k + i)%nat, c)) cs) !! j
  = match cs !! (j - k)%nat with
    | Some c => if decide (k <= j)%nat then f c <$> acc !! j else acc !! j
    | None => acc !! j
    end.
Proof.
  revert acc k. induction cs as [|c cs IH]; intros acc k.
  - simpl. by destruct (j - k)%nat.
  - cbn [imap foldl]. rewrite Nat.add_0_r.
    rewrite (imap_ext _ (fun i c0 => ((S k + i)%nat, c0))); cycle 1.
    { intros i x _. simpl. f_equal. lia. }
    rewrite IH. simpl fst. simpl snd.
    destruct (decide (k <= j)%nat) as [Hkj|Hkj].
    + destruct (decide (j = k)) as [->|Hne].
      * rewrite Nat.sub_diag. simpl.
        replace (k - S k)%nat with 0%nat by lia.
        rewrite list_lookup_alter_eq.
        destruct (cs !! 0%nat); [|done].
        destruct (decide (S k <= k)%nat); [lia|done].
      * replace (j - k)%nat with (S (j - S k)) by lia. simpl.
        rewrite list_lookup_alter_ne by done.
        destruct (cs !! (j - S k)%nat); [|done].
        destruct (decide (S k <= j)%nat); [done|lia].
    + rewrite list_lookup_alter_ne by lia.
      replace (j - S k)%nat with 0%nat by lia.
      replace (j - k)%nat with 0%nat by lia. simpl.
      destruct (cs !! 0%nat); [|done].
      destruct (decide (S k <= j)%nat); [lia|done].
Qed.

End Regroup.

Section Transpose.
Context {A : Type}.

Lemma append_chunks_lookup (acc : list (list (Tensor A))) (cs : list (Tensor A))
    (j : nat) :
  TensorDeparallelEngine1D.append_chunks acc cs !! j
  = match cs !! j with
    | Some c => (fun val => val ++ [c]) <$> acc !! j
    | None => acc !! j
    end.
Proof.
  unfold TensorDeparallelEngine1D.append_chunks.
  rewrite (imap_ext _ (fun i c => ((0 + i)%nat, c)) cs) by done.
  rewrite (foldl_alter_lookup (fun c val => val ++ [c])).
  rewrite Nat.sub_0_r. destruct (cs !! j); [|done].
  destruct (decide (0 <= j)%nat); [done|lia].
Qed.

Lemma foldl_append_chunks (G : nat -> nat -> Tensor A) (F W : nat) :
  foldl TensorDeparallelEngine1D.append_chunks (replicate F [])
        ((fun r => (fun i => G i r) <$> seq 0 F) <$> seq 0 W)
  = (fun i => (fun r => G i r) <$> seq 0 W) <$> seq 0 F.
Proof.
  induction W as [|W IH].
  - simpl. apply list_eq. intros j. rewrite list_lookup_fmap.
    destruct (decide (j < F)%nat).
    + rewrite lookup_replicate_2, lookup_seq_lt by lia. done.
    + rewrite (proj1 (lookup_replicate_None F [] j)), lookup_seq_ge by lia. done.
  - rewrite seq_S, fmap_app, foldl_app, IH. simpl.
    apply list_eq. intros j. rewrite append_chunks_lookup, !list_lookup_fmap.
    destruct (decide (j < F)%nat).
    + rewrite lookup_seq_lt by lia. simpl. by rewrite fmap_app.
    + rewrite lookup_seq_ge by lia. done.
Qed.

End Transpose.

(** * [torch.chunk] and [torch.cat] on even pieces *)

Section ChunkCat.
Context {A : Type}.
Implicit Types (v : list A) (rows : list (list A)).

Lemma even_split (K s : nat) :
  (1 <= K)%nat -> (1 <= s)%nat ->
  Z.to_nat ((Z.of_nat (K * s) + Z.of_nat K - 1) / Z.of_nat K) = s /\
  Z.to_nat (chunk_count (Z.of_nat (K * s)) (Z.of_nat K)) = K.
Proof.
  intros HK Hs.
  fold (Py.ceil_div (Z.of_nat (K * s)) (Z.of_nat K)).
  assert (Hc : Py.ceil_div (Z.of_nat (K * s)) (Z.of_nat K) = Z.of_nat s).
  { apply ceil_div_unique; nia. }
  rewrite Hc, Nat2Z.id. split; [done|].
  unfold chunk_count. fold (Py.ceil_div (Z.of_nat (K * s)) (Z.of_nat K)).
  rewrite Hc. destruct (Z.eqb_spec (Z.of_nat s) 0); [lia|].
  fold (Py.ceil_div (Z.of_nat (K * s)) (Z.of_nat s)).
  rewrite (ceil_div_unique _ _ (Z.of_nat K)) by nia. lia.
Qed.

Lemma chunk_vec v (K s : nat) :
  (1 <= K)%nat -> (1 <= s)%nat -> length v = (K * s)%nat ->
  chunk (Vec v) (Z.of_nat K) 0
  = Ok ((fun j => Vec (chunk_piece s v j)) <$> seq 0 K).
Proof.
  intros HK Hs Hl. unfold chunk.
  destruct (Z.leb_spec (Z.of_nat K) 0); [lia|]. simpl.
  rewrite (chunk_axis_even v K s) by done. by rewrite <- list_fmap_compose.
Qed.

Lemma chunk_mat_rows rows (K s : nat) :
  (1 <= K)%nat -> (1 <= s)%nat -> length rows = (K * s)%nat ->
  chunk (Mat rows) (Z.of_nat K) 0
  = Ok ((fun j => Mat (chunk_piece s rows j)) <$> seq 0 K).
Proof.
  intros HK Hs Hl. unfold chunk.
  destruct (Z.leb_spec (Z.of_nat K) 0); [lia|]. simpl.
  rewrite (chunk_axis_even rows K s) by done. by rewrite <- list_fmap_compose.
Qed.

Lemma chunk_mat_cols rows (K s : nat) :
  (1 <= K)%nat -> (1 <= s)%nat -> ncols rows = (K * s)%nat ->
  chunk (Mat rows) (Z.of_nat K) 1
  = Ok ((fun j => Mat ((fun row => chunk_piece s row j) <$> rows)) <$> seq 0 K).
Proof.
  intros HK Hs Hl. unfold chunk.
  destruct (Z.leb_spec (Z.of_nat K) 0); [lia|]. simpl.
  unfold chunk_cols. rewrite Hl.
  destruct (even_split K s HK Hs) as [-> ->].
  by rewrite <- list_fmap_compose.
Qed.

Lemma all_equal_seq (f : nat -> nat) (K n : nat) :
  (forall i, (i < K)%nat -> f i = n) -> all_equal (f <$> seq 0 K) = true.
Proof.
  intros Hf. destruct K as [|K]; [done|].
  cbn [seq fmap list_fmap all_equal]. apply forallb_forall. intros x Hx.
  apply list_elem_of_In, list_elem_of_fmap in Hx as (i & -> & Hi).
  apply elem_of_seq in Hi. rewrite !Hf by lia. apply Nat.eqb_refl.
Qed.

Lemma rmapM_fmap_ok {X Y : Type} (f : Y -> result X) (g : nat -> Y)
    (h : nat -> X) (l : list nat) :
  (forall i, i ∈ l -> f (g i) = Ok (h i)) ->
  rmapM f (g <$> l) = Ok (h <$> l).
Proof.
  induction l as [|i l IH]; intros Hl; [done|]. csimpl.
  rewrite Hl by left. simpl. rewrite IH; [done|].
  intros j Hj. apply Hl. by right.
Qed.

Lemma cat_vecs (p : nat -> list A) (K : nat) (d : Z) :
  (1 <= K)%nat -> d = 0 \/ d = -1 ->
  cat ((fun i => Vec (p i)) <$> seq 0 K) d = Ok (Vec (concat (p <$> seq 0 K))).
Proof.
  intros HK Hd. destruct K as [|K]; [lia|].
  set (ts := (fun i => Vec (p i)) <$> seq 0 (S K)).
  assert (Hcat : cat ts d
                 = rbind (wrap_dim (Vec ([] : list A)) d) (fun _ =>
                     rbind (rmapM as_vec ts) (fun vs => Ok (Vec (concat vs)))))
    by reflexivity.
  assert (Hw : wrap_dim (Vec ([] : list A)) d = Ok 0%nat).
  { destruct Hd as [-> | ->]; reflexivity. }
  rewrite Hcat, Hw. unfold ts.
  rewrite (rmapM_fmap_ok as_vec _ p) by done. reflexivity.
Qed.

Lemma cat_mats_rows (q : nat -> list (list A)) (K n : nat) :
  (1 <= K)%nat -> (forall i, (i < K)%nat -> ncols (q i) = n) ->
  cat ((fun i => Mat (q i)) <$> seq 0 K) 0 = Ok (Mat (concat (q <$> seq 0 K))).
Proof.
  intros HK Hn. destruct K as [|K]; [lia|].
  set (ts := (fun i => Mat (q i)) <$> seq 0 (S K)).
  assert (Hcat : cat ts 0
                 = rbind (rmapM as_mat ts) (fun ms =>
                     if all_equal (ncols <$> ms) then Ok (Mat (concat ms))
                     else Raise RuntimeError))
    by reflexivity.
  rewrite Hcat. unfold ts.
  rewrite (rmapM_fmap_ok as_mat _ q) by done. cbn [rbind].
  rewrite <- list_fmap_compose.
  rewrite (all_equal_seq (ncols ∘ q) (S K) n); [done|].
  intros i Hi. by apply Hn.
Qed.

Lemma cat_mats_cols (q : nat -> list (list A)) (K n : nat) (d : Z) :
  (1 <= K)%nat -> d = 1 \/ d = -1 ->
  (forall i, (i < K)%nat -> length (q i) = n) ->
  cat ((fun i => Mat (q i)) <$> seq 0 K) d
  = Ok (Mat (hcat n (q <$> seq 0 K))).
Proof.
  intros HK Hd Hn. destruct K as [|K]; [lia|].
  set (ts := (fun i => Mat (q i)) <$> seq 0 (S K)).
  assert (Hcat : cat ts d
                 = rbind (wrap_dim (Mat ([] : list (list A))) d) (fun k =>
                     rbind (rmapM as_mat ts) (fun ms =>
                       match k with
                       | O => if all_equal (ncols <$> ms) then Ok (Mat (concat ms))
                              else Raise RuntimeError
                       | _ => if all_equal (length <$> ms)
                              then Ok (Mat (hcat (length (default [] (head ms))) ms))
                              else Raise RuntimeError
                       end)))
    by reflexivity.
  assert (Hw : wrap_dim (Mat ([] : list (list A))) d = Ok 1%nat).
  { destruct Hd as [-> | ->]; reflexivity. }
  rewrite Hcat, Hw. unfold ts.
  rewrite (rmapM_fmap_ok as_mat _ q) by done. cbn [rbind].
  rewrite <- list_fmap_compose.
  rewrite (all_equal_seq (length ∘ q) (S K) n) by (intros i Hi; by apply Hn).
  replace (length (default [] (head (q <$> seq 0 (S K))))) with n; [done|].
  simpl. symmetry. apply Hn. lia.
Qed.

Lemma hcat_fmap (f : nat -> list A -> list A) (idx : list nat) rows :
  hcat (length rows) ((fun i => f i <$> rows) <$> idx)
  = (fun row => concat ((fun i => f i row) <$> idx)) <$> rows.
Proof.
  unfold hcat. induction idx as [|i idx IH].
  - simpl. symmetry. by apply const_fmap.
  - csimpl. rewrite IH. by rewrite zip_with_fmap_both.
Qed.

End ChunkCat.

(** * The slice of one rank *)

Section Slice.
Context {A : Type}.
Implicit Types (v : list A) (rows : list (list A)) (t : Tensor A).

Lemma index_fmap_seq {Y : Type} (g : nat -> Y) (n r : nat) :
  (r < n)%nat -> Py.index (g <$> seq 0 n) (Z.of_nat r) = Ok (g r).
Proof.
  intros Hr. apply index_nonneg_Some; [lia|].
  rewrite Nat2Z.id, list_lookup_fmap, lookup_seq_lt by done. done.
Qed.

Lemma deconstruct_ok (g T : nat -> Tensor A) (F W : nat) :
  (1 <= F)%nat -> (1 <= W)%nat ->
  (forall r, (r < W)%nat ->
     cat ((fun i => g (i * W + r)%nat) <$> seq 0 F) (-1) = Ok (T r)) ->
  TensorParallelEngine1D._deconstruct_combined_qkv
    (g <$> seq 0 (F * W)) (Z.of_nat W)
  = Ok (T <$> seq 0 W).
Proof.
  intros HF HW Hcat. unfold TensorParallelEngine1D._deconstruct_combined_qkv.
  destruct (Z.eqb_spec (Z.of_nat W) 0); [lia|].
  rewrite length_fmap, length_seq.
  assert (Hranks : (Z.of_nat (F * W) + Z.of_nat W - 1) / Z.of_nat W = Z.of_nat F).
  { apply (ceil_div_unique (Z.of_nat (F * W)) (Z.of_nat W)); nia. }
  rewrite Hranks. unfold Py.range. rewrite Nat2Z.id, <- list_fmap_compose.
  rewrite (list_fmap_ext _ (fun i => (fun r => g (i * W + r)%nat) <$> seq 0 W)
             (seq 0 F)); cycle 1.
  { intros k i Hi. apply lookup_seq in Hi as [-> Hi]. simpl.
    unfold Py.slice.
    replace (Z.to_nat ((Z.of_nat k + 1) * Z.of_nat W)
             - Z.to_nat (Z.of_nat k * Z.of_nat W))%nat with W by nia.
    replace (Z.to_nat (Z.of_nat k * Z.of_nat W)) with (k * W)%nat by nia.
    apply (chunk_piece_fmap_seq g W (F * W) k). nia. }
  rewrite (zip_star_groups (fun i r => g (i * W + r)%nat) 0 F W) by done.
  apply rmapM_fmap_ok. intros r Hr. apply elem_of_seq in Hr. apply Hcat. lia.
Qed.

Lemma slice_tensor_from_chunks t (g T : nat -> Tensor A) (F W r : nat) (d : Z) :
  (1 <= F)%nat -> (1 <= W)%nat -> (r < W)%nat ->
  chunk t (Z.of_nat F * Z.of_nat W) d = Ok (g <$> seq 0 (F * W)) ->
  (F = 1%nat -> T r = g r) ->
  ((1 < F)%nat -> forall r', (r' < W)%nat ->
     cat ((fun i => g (i * W + r')%nat) <$> seq 0 F) (-1) = Ok (T r')) ->
  TensorParallelEngine1D.slice_tensor t (Z.of_nat F) (Z.of_nat W) (Z.of_nat r) d
  = Ok (T r).
Proof.
  intros HF HW Hr Hchunk H1 HFused.
  unfold TensorParallelEngine1D.slice_tensor. rewrite Hchunk. cbn [rbind].
  destruct (Z.ltb_spec 1 (Z.of_nat F)) as [Hlt|Hge].
  - rewrite (deconstruct_ok g T) by (try done; apply HFused; lia). cbn [rbind].
    by apply index_fmap_seq.
  - cbn [rbind]. assert (F = 1%nat) as -> by lia.
    rewrite H1 by done. apply index_fmap_seq. lia.
Qed.

Lemma fused_pick_one {X : Type} (s W r : nat) (l : list X) :
  Closed.fused_pick s 1 W r l = chunk_piece s l r.
Proof. unfold Closed.fused_pick. simpl. by rewrite app_nil_r. Qed.

Lemma slice_vec v (F W r s : nat) :
  (1 <= F)%nat -> (1 <= W)%nat -> (r < W)%nat -> (1 <= s)%nat ->
  length v = (F * W * s)%nat ->
  TensorParallelEngine1D.slice_tensor (Vec v) (Z.of_nat F) (Z.of_nat W)
    (Z.of_nat r) 0
  = Ok (Vec (Closed.fused_pick s F W r v)).
Proof.
  intros HF HW Hr Hs Hl.
  apply (slice_tensor_from_chunks (Vec v) (fun j => Vec (chunk_piece s v j))
           (fun r => Vec (Closed.fused_pick s F W r v))); try done.
  - rewrite <- Nat2Z.inj_mul. apply chunk_vec; [nia|done|done].
  - intros ->. by rewrite fused_pick_one.
  - intros _ r' Hr'.
    rewrite (cat_vecs (fun i => chunk_piece s v (i * W + r')%nat)) by (try lia; auto).
    done.
Qed.

Lemma slice_mat_rows rows (W r s : nat) :
  (1 <= W)%nat -> (r < W)%nat -> (1 <= s)%nat ->
  length rows = (W * s)%nat ->
  TensorParallelEngine1D.slice_tensor (Mat rows) 1 (Z.of_nat W) (Z.of_nat r) 0
  = Ok (Mat (Closed.fused_pick s 1 W r rows)).
Proof.
  intros HW Hr Hs Hl.
  apply (slice_tensor_from_chunks (Mat rows) (fun j => Mat (chunk_piece s rows j))
           (fun r => Mat (Closed.fused_pick s 1 W r rows)) 1 W r 0); try done.
  - rewrite <- Nat2Z.inj_mul. apply chunk_mat_rows; [lia|done|lia].
  - intros _. by rewrite fused_pick_one.
  - lia.
Qed.

Lemma slice_mat_cols rows (F W r s : nat) :
  (1 <= F)%nat -> (1 <= W)%nat -> (r < W)%nat -> (1 <= s)%nat ->
  ncols rows = (F * W * s)%nat ->
  TensorParallelEngine1D.slice_tensor (Mat rows) (Z.of_nat F) (Z.of_nat W)
    (Z.of_nat r) 1
  = Ok (Mat (Closed.fused_pick s F W r <$> rows)).
Proof.
  intros HF HW Hr Hs Hl.
  apply (slice_tensor_from_chunks (Mat rows)
           (fun j => Mat ((fun row => chunk_piece s row j) <$> rows))
           (fun r => Mat (Closed.fused_pick s F W r <$> rows))); try done.
  - rewrite <- Nat2Z.inj_mul. apply chunk_mat_cols; [nia|done|done].
  - intros ->. f_equal. apply list_fmap_ext. intros i row _.
    by rewrite fused_pick_one.
  - intros _ r' Hr'.
    rewrite (cat_mats_cols
               (fun i => (fun row => chunk_piece s row (i * W + r')%nat) <$> rows)
               F (length rows)); [|lia|auto|intros; by rewrite length_fmap].
    rewrite (hcat_fmap (fun i row => chunk_piece s row (i * W + r')%nat)). done.
Qed.

End Slice.

(** * Gathering the slices of all ranks *)

Section Blocks.
Context {X : Type}.

Lemma concat_blocks (g : nat -> list X) (F W : nat) :
  concat ((fun i => concat ((fun r => g (i * W + r)%nat) <$> seq 0 W)) <$> seq 0 F)
  = concat (g <$> seq 0 (F * W)).
Proof.
  induction F as [|F IH]; [done|].
  rewrite seq_S, fmap_app, concat_app, IH. simpl.
  replace (W + F * W)%nat with (F * W + W)%nat by lia.
  rewrite seq_app, fmap_app, concat_app, app_nil_r. f_equal.
  replace (0 + F * W)%nat with (F * W + 0)%nat by lia.
  by rewrite <- (fmap_add_seq (F * W) 0), <- list_fmap_compose.
Qed.

Lemma fused_pick_length (s F W r : nat) (l : list X) :
  (r < W)%nat -> length l = (F * W * s)%nat ->
  length (Closed.fused_pick s F W r l) = (F * s)%nat.
Proof.
  intros Hr Hl. unfold Closed.fused_pick.
  assert (Hgen : forall n, (n <= F)%nat ->
            length (concat ((fun i => chunk_piece s l (i * W + r)%nat) <$> seq 0 n))
            = (n * s)%nat).
  { induction n as [|n IH]; intros Hn; [done|].
    rewrite seq_S, fmap_app, concat_app, length_app, IH by lia. simpl.
    rewrite app_nil_r, (chunk_piece_full_length s l _ (F * W)); [lia|lia|nia]. }
  by apply Hgen.
Qed.

Lemma fused_pick_piece (s F W r i : nat) (l : list X) :
  (r < W)%nat -> (i < F)%nat -> length l = (F * W * s)%nat ->
  chunk_piece s (Closed.fused_pick s F W r l) i = chunk_piece s l (i * W + r)%nat.
Proof.
  intros Hr Hi Hl. unfold Closed.fused_pick. apply chunk_piece_concat.
  - apply Forall_fmap, Forall_forall. intros k Hk. apply elem_of_seq in Hk. simpl.
    apply (chunk_piece_full_length s l _ (F * W)); [lia|nia].
  - rewrite list_lookup_fmap, lookup_seq_lt by done. done.
Qed.

Lemma concat_fused_pieces (s F W : nat) (l : list X) :
  length l = (F * W * s)%nat ->
  concat ((fun i => concat ((fun r => chunk_piece s l (i * W + r)%nat) <$> seq 0 W))
            <$> seq 0 F)
  = l.
Proof.
  intros Hl. rewrite (concat_blocks (chunk_piece s l)).
  by apply concat_chunk_pieces.
Qed.

End Blocks.

Section Rect.
Context {A : Type}.
Implicit Types (rows : list (list A)).

Lemma rectangular_spec rows :
  Closed.rectangular rows = true ->
  Forall (fun row => length row = ncols rows) rows.
Proof.
  unfold Closed.rectangular. rewrite forallb_forall, Forall_forall.
  intros H row Hrow. apply Nat.eqb_eq, H. by apply list_elem_of_In.
Qed.

Lemma ncols_piece rows (s K r : nat) :
  Closed.rectangular rows = true ->
  (1 <= s)%nat -> (r < K)%nat -> length rows = (K * s)%nat ->
  ncols (chunk_piece s rows r) = ncols rows.
Proof.
  intros Hrect Hs Hr Hl. apply rectangular_spec in Hrect.
  destruct (chunk_piece s rows r) as [|row piece] eqn:E.
  - apply (f_equal length) in E.
    rewrite (chunk_piece_full_length s rows r K) in E by done. simpl in E. lia.
  - simpl. rewrite Forall_forall in Hrect. apply Hrect.
    assert (Hin : row ∈ chunk_piece s rows r) by (rewrite E; left).
    unfold chunk_piece in Hin.
    apply list_elem_of_lookup in Hin as [i Hi].
    apply lookup_take_Some in Hi as [Hi _]. rewrite lookup_drop in Hi.
    by eapply list_elem_of_lookup_2.
Qed.

Lemma ncols_fmap_fused rows (s F W r : nat) :
  Closed.rectangular rows = true ->
  (1 <= length rows)%nat -> (r < W)%nat -> ncols rows = (F * W * s)%nat ->
  ncols (Closed.fused_pick s F W r <$> rows) = (F * s)%nat.
Proof.
  intros Hrect Hrows Hr Hn. apply rectangular_spec in Hrect.
  destruct rows as [|row rows]; [simpl in Hrows; lia|].
  simpl. apply fused_pick_length; [done|].
  apply Forall_cons in Hrect as [Hrow _]. simpl in Hn. congruence.
Qed.

End Rect.

Section Merge.
Context {A : Type}.
Implicit Types (v : list A) (rows : list (list A)).

(** [_reconstruct_combined_qkv] from what its three steps give. *)
Lemma reconstruct_from (Tt : nat -> Tensor A) (G : nat -> nat -> Tensor A)
    (B : nat -> Tensor A) (F W : nat) (d : Z) (res : Tensor A) :
  (forall r, (r < W)%nat ->
     chunk (Tt r) (Z.of_nat F) d = Ok ((fun i => G i r) <$> seq 0 F)) ->
  (forall i, (i < F)%nat ->
     cat ((fun r => G i r) <$> seq 0 W) d = Ok (B i)) ->
  cat (B <$> seq 0 F) d = Ok res ->
  TensorDeparallelEngine1D._reconstruct_combined_qkv (Tt <$> seq 0 W)
    (Z.of_nat F) d
  = Ok res.
Proof.
  intros Hchunk Hcat Hfinal.
  unfold TensorDeparallelEngine1D._reconstruct_combined_qkv.
  rewrite (rmapM_fmap_ok _ Tt (fun r => (fun i => G i r) <$> seq 0 F)); cycle 1.
  { intros r Hr. apply elem_of_seq in Hr. apply Hchunk. lia. }
  cbn [rbind].
  assert (Hinit : (fun _ : Z => ([] : list (Tensor A))) <$> Py.range (Z.of_nat F)
                  = replicate F []).
  { unfold Py.range. rewrite Nat2Z.id, <- list_fmap_compose.
    rewrite (const_fmap _ (seq 0 F) []) by done. by rewrite length_seq. }
  rewrite Hinit, foldl_append_chunks.
  rewrite (rmapM_fmap_ok _ (fun i => (fun r => G i r) <$> seq 0 W) B); cycle 1.
  { intros i Hi. apply elem_of_seq in Hi. apply Hcat. lia. }
  done.
Qed.

Lemma merge_vec v (F W s : nat) :
  (1 <= F)%nat -> (1 <= W)%nat -> (1 <= s)%nat ->
  length v = (F * W * s)%nat ->
  TensorDeparallelEngine1D.merge_tensors
    ((fun r => Vec (Closed.fused_pick s F W r v)) <$> seq 0 W)
    (VInt (Z.of_nat F)) 0
  = Ok (Vec v).
Proof.
  intros HF HW Hs Hl. unfold TensorDeparallelEngine1D.merge_tensors.
  cbn [as_int rbind].
  destruct (Z.ltb_spec 1 (Z.of_nat F)) as [Hlt|Hge].
  - apply (reconstruct_from _
             (fun i r => Vec (chunk_piece s v (i * W + r)%nat))
             (fun i => Vec (concat ((fun r => chunk_piece s v (i * W + r)%nat)
                                      <$> seq 0 W)))).
    + intros r Hr.
      rewrite (chunk_vec _ F s) by (try done; by apply fused_pick_length).
      f_equal. apply list_fmap_ext. intros k i Hi.
      apply lookup_seq in Hi as [-> Hi]. simpl.
      by rewrite fused_pick_piece.
    + intros i Hi.
      by rewrite (cat_vecs (fun r => chunk_piece s v (i * W + r)%nat)) by auto.
    + rewrite (cat_vecs (fun i => concat ((fun r => chunk_piece s v (i * W + r)%nat)
                                            <$> seq 0 W))) by auto.
      by rewrite concat_fused_pieces.
  - assert (F = 1%nat) as -> by lia.
    rewrite (cat_vecs (fun r => Closed.fused_pick s 1 W r v)) by auto.
    do 2 f_equal.
    rewrite (list_fmap_ext _ (chunk_piece s v) (seq 0 W)); cycle 1.
    { intros k r _. apply fused_pick_one. }
    apply concat_chunk_pieces. lia.
Qed.

Lemma merge_mat_rows rows (W s : nat) :
  Closed.rectangular rows = true ->
  (1 <= W)%nat -> (1 <= s)%nat ->
  length rows = (W * s)%nat ->
  TensorDeparallelEngine1D.merge_tensors
    ((fun r => Mat (Closed.fused_pick s 1 W r rows)) <$> seq 0 W) (VInt 1) 0
  = Ok (Mat rows).
Proof.
  intros Hrect HW Hs Hl. unfold TensorDeparallelEngine1D.merge_tensors.
  cbn [as_int rbind]. simpl (1 <? 1). cbv iota.
  rewrite (cat_mats_rows (fun r => Closed.fused_pick s 1 W r rows) W (ncols rows));
    [|done|].
  - do 2 f_equal.
    rewrite (list_fmap_ext _ (chunk_piece s rows) (seq 0 W)); cycle 1.
    { intros k r _. apply fused_pick_one. }
    by apply concat_chunk_pieces.
  - intros r Hr. rewrite fused_pick_one. by apply (ncols_piece rows s W).
Qed.

Lemma merge_mat_cols rows (F W s : nat) :
  Closed.rectangular rows = true ->
  (1 <= F)%nat -> (1 <= W)%nat -> (1 <= s)%nat ->
  (1 <= length rows)%nat ->
  ncols rows = (F * W * s)%nat ->
  TensorDeparallelEngine1D.merge_tensors
    ((fun r => Mat (Closed.fused_pick s F W r <$> rows)) <$> seq 0 W)
    (VInt (Z.of_nat F)) 1
  = Ok (Mat rows).
Proof.
  intros Hrect HF HW Hs Hrows Hn.
  pose proof (rectangular_spec rows Hrect) as Hall.
  rewrite Hn in Hall. rewrite Forall_forall in Hall.
  unfold TensorDeparallelEngine1D.merge_tensors. cbn [as_int rbind].
  destruct (Z.ltb_spec 1 (Z.of_nat F)) as [Hlt|Hge].
  - apply (reconstruct_from _
             (fun i r => Mat ((fun row => chunk_piece s row (i * W + r)%nat) <$> rows))
             (fun i => Mat ((fun row =>
                               concat ((fun r => chunk_piece s row (i * W + r)%nat)
                                         <$> seq 0 W)) <$> rows))).
    + intros r Hr.
      rewrite (chunk_mat_cols _ F s) by (try done; by apply ncols_fmap_fused).
      f_equal. apply list_fmap_ext. intros k i Hi.
      apply lookup_seq in Hi as [-> Hi]. simpl. f_equal.
      rewrite <- list_fmap_compose. apply list_fmap_ext. intros j row Hrow. simpl.
      apply fused_pick_piece; [done|done|].
      apply Hall. by eapply list_elem_of_lookup_2.
    + intros i Hi.
      rewrite (cat_mats_cols
                 (fun r => (fun row => chunk_piece s row (i * W + r)%nat) <$> rows)
                 W (length rows)); [|done|auto|intros; by rewrite length_fmap].
      by rewrite (hcat_fmap (fun r row => chunk_piece s row (i * W + r)%nat)).
    + rewrite (cat_mats_cols
                 (fun i => (fun row =>
                              concat ((fun r => chunk_piece s row (i * W + r)%nat)
                                        <$> seq 0 W)) <$> rows)
                 F (length rows)); [|done|auto|intros; by rewrite length_fmap].
      rewrite (hcat_fmap
                 (fun i row => concat ((fun r => chunk_piece s row (i * W + r)%nat)
                                         <$> seq 0 W))).
      do 2 f_equal. rewrite <- (list_fmap_id rows) at 2.
      apply list_fmap_ext. intros j row Hrow. simpl.
      apply concat_fused_pieces. apply Hall. by eapply list_elem_of_lookup_2.
  - assert (F = 1%nat) as -> by lia.
    rewrite (cat_mats_cols (fun r => Closed.fused_pick s 1 W r <$> rows)
               W (length rows)); [|done|auto|intros; by rewrite length_fmap].
    rewrite (hcat_fmap (fun r row => Closed.fused_pick s 1 W r row)).
    do 2 f_equal. rewrite <- (list_fmap_id rows) at 2.
    apply list_fmap_ext. intros j row Hrow. simpl.
    rewrite (list_fmap_ext _ (chunk_piece s row) (seq 0 W)); cycle 1.
    { intros k r _. apply fused_pick_one. }
    apply concat_chunk_pieces.
    rewrite (Hall row) by (by eapply list_elem_of_lookup_2). lia.
Qed.

End Merge.

(** * Slicing and gathering a tensor that divides evenly *)

Section Shards.
Context {A : Type}.
Implicit Types (t : Tensor A).

(** What [sliceable] says about the shape. *)
Lemma sliceable_inv (F W d : Z) t :
  Closed.sliceable F W d t = true ->
  1 <= F /\ 1 <= W /\
  match t with
  | Scal _ => False
  | Vec v =>
      d = 0 /\
      exists s, (1 <= s)%nat /\ length v = (Z.to_nat F * Z.to_nat W * s)%nat
  | Mat rows =>
      Closed.rectangular rows = true /\
      ((d = 0 /\ F = 1 /\
        exists s, (1 <= s)%nat /\ length rows = (Z.to_nat W * s)%nat) \/
       (d = 1 /\ (1 <= length rows)%nat /\
        exists s, (1 <= s)%nat /\
                  ncols rows = (Z.to_nat F * Z.to_nat W * s)%nat))
  end.
Proof.
  unfold Closed.sliceable. intros H.
  apply andb_prop in H as [H Ht]. apply andb_prop in H as [HF HW].
  apply Z.leb_le in HF, HW. split; [done|]. split; [done|].
  assert (Hdiv : forall n K : Z, 1 <= n -> 1 <= K -> n mod K = 0 ->
            exists s, (1 <= s)%nat /\ Z.to_nat n = (Z.to_nat K * s)%nat).
  { intros n K Hn HK Hmod. exists (Z.to_nat (n / K)).
    pose proof (Z.div_mod n K ltac:(lia)) as Hdm. rewrite Hmod in Hdm.
    assert (1 <= n / K) by nia. split; [lia|]. nia. }
  destruct t as [x|v|rows]; [done| |].
  - apply andb_prop in Ht as [Ht Hmod]. apply andb_prop in Ht as [Hd Hlen].
    apply Z.eqb_eq in Hd, Hmod. apply Z.leb_le in Hlen. split; [done|].
    destruct (Hdiv _ (F * W) Hlen ltac:(nia) Hmod) as (s & Hs & Heq).
    exists s. split; [done|]. rewrite Nat2Z.id in Heq. nia.
  - apply andb_prop in Ht as [Hrect Ht]. split; [done|].
    destruct (Z.eqb_spec d 0) as [->|Hd].
    + left. apply andb_prop in Ht as [Ht Hmod]. apply andb_prop in Ht as [HF1 Hlen].
      apply Z.eqb_eq in HF1, Hmod. apply Z.leb_le in Hlen.
      do 2 (split; [done|]).
      destruct (Hdiv _ W Hlen HW Hmod) as (s & Hs & Heq).
      exists s. split; [done|]. by rewrite Nat2Z.id in Heq.
    + right. apply andb_prop in Ht as [Ht Hmod]. apply andb_prop in Ht as [Hd1 Hlen].
      apply Z.eqb_eq in Hd1, Hmod. apply Z.leb_le in Hlen. split; [done|].
      split; [destruct rows; simpl in *; lia|].
      destruct (Hdiv _ (F * W) Hlen ltac:(nia) Hmod) as (s & Hs & Heq).
      exists s. split; [done|]. rewrite Nat2Z.id in Heq. nia.
Qed.

Lemma div_exact (K s : nat) : (1 <= K)%nat -> (K * s / K = s)%nat.
Proof. intros HK. rewrite Nat.mul_comm. apply Nat.div_mul. lia. Qed.

(** The code's slice is the shard. *)
Lemma slice_tensor_shard (F W d r : Z) t :
  Closed.sliceable F W d t = true -> 0 <= r < W ->
  TensorParallelEngine1D.slice_tensor t F W r d
  = Ok (Closed.shard (Z.to_nat F) (Z.to_nat W) (Z.to_nat r) d t).
Proof.
  intros Hs Hr. apply sliceable_inv in Hs as (HF & HW & Ht).
  rewrite <- (Z2Nat.id F), <- (Z2Nat.id W), <- (Z2Nat.id r) by lia.
  rewrite !Nat2Z.id.
  set (Fn := Z.to_nat F) in *. set (Wn := Z.to_nat W) in *. set (rn := Z.to_nat r).
  assert (HFn : (1 <= Fn)%nat) by lia. assert (HWn : (1 <= Wn)%nat) by lia.
  assert (Hrn : (rn < Wn)%nat) by lia.
  destruct t as [x|v|rows]; [done| |].
  - destruct Ht as (-> & s & Hs & Hl). simpl.
    rewrite Hl, <- Nat.mul_assoc, Nat.mul_assoc, div_exact by nia.
    by apply slice_vec.
  - destruct Ht as (Hrect & [(-> & HF1 & s & Hs & Hl) | (-> & Hrows & s & Hs & Hl)]).
    + assert (Fn = 1%nat) as -> by lia. simpl.
      rewrite Nat.add_0_r, Hl, div_exact by done.
      by apply slice_mat_rows.
    + simpl. rewrite Hl, div_exact by nia. by apply slice_mat_cols.
Qed.

(** Gathering the shards of all ranks gives the tensor back. *)
Lemma merge_tensors_shard (F W d : Z) t :
  Closed.sliceable F W d t = true ->
  TensorDeparallelEngine1D.merge_tensors
    ((fun r => Closed.shard (Z.to_nat F) (Z.to_nat W) r d t)
       <$> seq 0 (Z.to_nat W))
    (VInt F) d
  = Ok t.
Proof.
  intros Hs. apply sliceable_inv in Hs as (HF & HW & Ht).
  replace (VInt F) with (VInt (Z.of_nat (Z.to_nat F))) by (f_equal; lia).
  set (Fn := Z.to_nat F) in *. set (Wn := Z.to_nat W) in *.
  assert (HFn : (1 <= Fn)%nat) by lia. assert (HWn : (1 <= Wn)%nat) by lia.
  destruct t as [x|v|rows]; [done| |].
  - destruct Ht as (-> & s & Hs & Hl). simpl.
    rewrite Hl, div_exact by nia. by apply merge_vec.
  - destruct Ht as (Hrect & [(-> & HF1 & s & Hs & Hl) | (-> & Hrows & s & Hs & Hl)]).
    + assert (Fn = 1%nat) as -> by lia. simpl.
      rewrite Nat.add_0_r, Hl, div_exact by done.
      by apply merge_mat_rows.
    + simpl. rewrite Hl, div_exact by nia. by apply merge_mat_cols.
Qed.

(** All ranks hold shards of one shape, which has the rank of the
    tensor. *)
Lemma shard_size (F W d : Z) t (r r' : nat) :
  Closed.sliceable F W d t = true ->
  (r < Z.to_nat W)%nat -> (r' < Z.to_nat W)%nat ->
  size (Closed.shard (Z.to_nat F) (Z.to_nat W) r d t)
  = size (Closed.shard (Z.to_nat F) (Z.to_nat W) r' d t).
Proof.
  intros Hs Hr Hr'. apply sliceable_inv in Hs as (HF & HW & Ht).
  set (Fn := Z.to_nat F) in *. set (Wn := Z.to_nat W) in *.
  destruct t as [x|v|rows]; [done| |].
  - destruct Ht as (-> & s & Hs & Hl). simpl.
    rewrite Hl, div_exact by nia.
    by rewrite !(fused_pick_length s Fn Wn).
  - destruct Ht as (Hrect & [(-> & HF1 & s & Hs & Hl) | (-> & Hrows & s & Hs & Hl)]).
    + assert (Fn = 1%nat) as -> by lia. simpl.
      rewrite Nat.add_0_r, Hl, div_exact by lia.
      rewrite !fused_pick_one.
      rewrite !(chunk_piece_full_length s rows _ Wn) by done.
      by rewrite !(ncols_piece rows s Wn).
    + simpl. rewrite Hl, div_exact by nia.
      rewrite !length_fmap. by rewrite !(ncols_fmap_fused rows s Fn Wn).
Qed.

Lemma shard_dim (F W : nat) (d : Z) t (r : nat) :
  dim (Closed.shard F W r d t) = dim t.
Proof. destruct t; simpl; [done|done|]. by destruct (d =? 0). Qed.

End Shards.

(** * Ranks in lockstep *)

Section Traces.
Context {A : Type}.
Implicit Types (m : Model A).

Lemma trace_ret_inv {X : Type} (p : Prog A X) x :
  RoundTrip.Trace p [] x -> p = Ret x.
Proof. by inversion 1. Qed.

Lemma trace_coll_inv {X : Type} (p : Prog A X) op t ts tr x :
  RoundTrip.Trace p ((op, t, ts) :: tr) x ->
  exists k, p = Coll op t k /\ RoundTrip.Trace (k ts) tr x.
Proof. inversion 1; subst. eauto. Qed.

Lemma trace_functional {X : Type} (p : Prog A X) tr x x' :
  RoundTrip.Trace p tr x -> RoundTrip.Trace p tr x' -> x = x'.
Proof.
  intros H. revert x'. induction H as [x|op t k ts tr x H IH]; intros x' H'.
  - apply trace_ret_inv in H'. by injection H'.
  - apply trace_coll_inv in H' as (k' & Hk & H'). injection Hk as <-. by apply IH.
Qed.

Lemma trace_bind {X Y : Type} (p : Prog A X) (g : X -> Prog A Y) tr1 tr2 x y :
  RoundTrip.Trace p tr1 x -> RoundTrip.Trace (g x) tr2 y ->
  RoundTrip.Trace (prog_bind p g) (tr1 ++ tr2) y.
Proof.
  intros H Hg. induction H as [x|op t k ts tr x H IH]; [done|].
  simpl. constructor. by apply IH.
Qed.

(** Ranks whose traces are the views of one sequence of calls run to
    completion together. *)
Lemma run_traces {X : Type} (gs : list (CollOp * (nat -> Tensor A)))
    (P : nat -> Prog A X) (n : nat) :
  (1 <= n)%nat ->
  (forall r, (r < n)%nat ->
     exists x, RoundTrip.Trace (P r) (RoundTrip.responses n gs r) x) ->
  exists xs,
    run_cluster (length gs) (P <$> seq 0 n) = Some xs /\
    length xs = n /\
    forall r x, xs !! r = Some x ->
      RoundTrip.Trace (P r) (RoundTrip.responses n gs r) x.
Proof.
  intros Hn. revert P. induction gs as [|[op g] gs IH]; intros P HP.
  - assert (Hret : forall r, (r < n)%nat -> exists x, P r = Ret x).
    { intros r Hr. destruct (HP r Hr) as [x Hx]. exists x.
      by apply trace_ret_inv. }
    assert (Hsome : is_Some (mapM as_ret (P <$> seq 0 n))).
    { apply mapM_is_Some. apply Forall_fmap, Forall_forall. intros r Hr.
      apply elem_of_seq in Hr. destruct (Hret r ltac:(lia)) as [x Hx].
      unfold compose. rewrite Hx. by eexists. }
    destruct Hsome as [xs Hxs]. exists xs.
    assert (Hrun : run_cluster (length (@nil (CollOp * (nat -> Tensor A))))
                     (P <$> seq 0 n) = Some xs).
    { simpl. by rewrite Hxs. }
    split; [done|]. apply mapM_Some_1 in Hxs.
    pose proof (Forall2_length _ _ _ Hxs) as Hlen.
    rewrite length_fmap, length_seq in Hlen. split; [done|].
    intros r x Hx.
    assert (Hr : (r < n)%nat) by (apply lookup_lt_Some in Hx; lia).
    assert (HPr : (P <$> seq 0 n) !! r = Some (P r)).
    { by rewrite list_lookup_fmap, lookup_seq_lt. }
    pose proof (Forall2_lookup_lr _ _ _ _ _ _ Hxs HPr Hx) as Heq.
    destruct (P r) as [x'|]; [|done]. simpl in Heq. injection Heq as ->.
    constructor.
  - set (ts := g <$> seq 0 n).
    assert (Hcoll : forall r, (r < n)%nat ->
              exists k, P r = Coll op (g r) k /\
                exists x, RoundTrip.Trace (k ts) (RoundTrip.responses n gs r) x).
    { intros r Hr. destruct (HP r Hr) as [x Hx].
      apply trace_coll_inv in Hx as (k & Hk & Hx). eauto. }
    assert (Hnone : mapM as_ret (P <$> seq 0 n) = None).
    { apply mapM_None. apply Exists_exists. exists (P 0%nat). split.
      - apply list_elem_of_fmap. exists 0%nat. split; [done|].
        apply elem_of_seq. lia.
      - destruct (Hcoll 0%nat ltac:(lia)) as (k & -> & _). done. }
    assert (Hsome : is_Some (mapM as_coll (P <$> seq 0 n))).
    { apply mapM_is_Some. apply Forall_fmap, Forall_forall. intros r Hr.
      apply elem_of_seq in Hr. destruct (Hcoll r ltac:(lia)) as (k & Hk & _).
      unfold compose. rewrite Hk. by eexists. }
    destruct Hsome as [cs Hcs].
    pose proof (mapM_Some_1 _ _ _ Hcs) as Hall.
    pose proof (Forall2_length _ _ _ Hall) as Hlen.
    rewrite length_fmap, length_seq in Hlen.
    assert (Hcs_r : forall r c, cs !! r = Some c ->
              (r < n)%nat /\ as_coll (P r) = Some c).
    { intros r c Hc.
      assert (Hr : (r < n)%nat) by (apply lookup_lt_Some in Hc; lia).
      split; [done|].
      assert (HPr : (P <$> seq 0 n) !! r = Some (P r)).
      { by rewrite list_lookup_fmap, lookup_seq_lt. }
      exact (Forall2_lookup_lr _ _ _ _ _ _ Hall HPr Hc). }
    assert (Hops : same_op ((fun c => c.1.1) <$> cs) = true).
    { destruct cs as [|c0 cs0]; [done|]. simpl.
      destruct (Hcs_r 0%nat c0 ltac:(done)) as [_ H0].
      destruct (Hcoll 0%nat ltac:(lia)) as (k0 & Hk0 & _).
      rewrite Hk0 in H0. injection H0 as <-. simpl.
      apply forallb_forall. intros op' Hin. apply list_elem_of_In in Hin.
      apply list_elem_of_fmap in Hin as (c & -> & Hc).
      apply list_elem_of_lookup in Hc as [r Hc].
      destruct (Hcs_r (S r) c ltac:(done)) as [Hr Hc'].
      destruct (Hcoll (S r) Hr) as (k & Hk & _). rewrite Hk in Hc'.
      injection Hc' as <-. simpl. by apply bool_decide_eq_true_2. }
    assert (Hts : (fun c => c.1.2) <$> cs = ts).
    { apply list_eq. intros r. unfold ts.
      rewrite !list_lookup_fmap.
      destruct (cs !! r) as [c|] eqn:Ec.
      - destruct (Hcs_r r c Ec) as [Hr Hc].
        destruct (Hcoll r Hr) as (k & Hk & _). rewrite Hk in Hc.
        injection Hc as <-. rewrite lookup_seq_lt by done. done.
      - apply lookup_ge_None in Ec. rewrite lookup_seq_ge by lia. done. }
    assert (Hnext : (fun c => c.2 ts) <$> cs
                    = (fun r => RoundTrip.resume ts (P r)) <$> seq 0 n).
    { apply list_eq. intros r. rewrite !list_lookup_fmap.
      destruct (cs !! r) as [c|] eqn:Ec.
      - destruct (Hcs_r r c Ec) as [Hr Hc].
        destruct (Hcoll r Hr) as (k & Hk & _). rewrite Hk in Hc.
        injection Hc as <-. rewrite lookup_seq_lt by done. simpl.
        by rewrite Hk.
      - apply lookup_ge_None in Ec. rewrite lookup_seq_ge by lia. done. }
    destruct (IH (fun r => RoundTrip.resume ts (P r))) as (xs & Hrun & Hxl & Hxs).
    { intros r Hr. destruct (Hcoll r Hr) as (k & -> & x & Hx). by exists x. }
    exists xs. split; [|split; [done|]].
    + cbn [length run_cluster]. rewrite Hnone, Hcs, Hops.
      cbv zeta. by rewrite Hts, Hnext.
    + intros r x Hx.
      assert (Hr : (r < n)%nat) by (apply lookup_lt_Some in Hx; lia).
      specialize (Hxs r x Hx). destruct (Hcoll r Hr) as (k & Hk & _).
      rewrite Hk in Hxs |- *. simpl in Hxs. by constructor.
Qed.

(** ** Traces of computations on a model *)

Lemma trace_local {X : Type} (c : L A X) m x :
  c m = x -> RoundTrip.Trace (local c m) [] x.
Proof. intros <-. constructor. Qed.

Lemma trace_cbind {X Y : Type} (c : M A X) (f : X -> M A Y) m tr1 tr2 v m1 y :
  RoundTrip.Trace (c m) tr1 (Ok v, m1) ->
  RoundTrip.Trace (f v m1) tr2 y ->
  RoundTrip.Trace (cbind c f m) (tr1 ++ tr2) y.
Proof. intros H1 H2. unfold cbind. by eapply trace_bind. Qed.

Lemma trace_all_gather {Y : Type} (W : Z) (t : Tensor A) ts
    (f : list (Tensor A) -> M A Y) m tr y :
  Z.of_nat (length ts) = W ->
  Forall (fun t' => size t = size t') ts ->
  RoundTrip.Trace (f ts m) tr y ->
  RoundTrip.Trace (cbind (dist_all_gather W t) f m)
    ((OpAllGather, t, ts) :: tr) y.
Proof.
  intros Hlen Hshape H. unfold cbind, dist_all_gather, cbind, collective.
  simpl. constructor. simpl.
  rewrite bool_decide_eq_true_2 by done.
  assert (Hall : forallb (same_shape t) ts = true).
  { apply forallb_forall. intros t' Hin. apply list_elem_of_In in Hin.
    rewrite Forall_forall in Hshape. unfold same_shape.
    apply bool_decide_eq_true_2. by apply Hshape. }
  rewrite Hall. simpl. done.
Qed.

Lemma trace_mpu_gather {Y : Type} (mp : MPU) (t : Tensor A) (d : Z) ts g
    (f : Tensor A -> M A Y) m tr y :
  Z.of_nat (length ts) = get_tensor_parallel_world_size mp ->
  Forall (fun t' => size t = size t') ts ->
  cat ts d = Ok g ->
  RoundTrip.Trace (f g m) tr y ->
  RoundTrip.Trace (cbind (mpu_gather mp t d) f m)
    ((OpAllGather, t, ts) :: tr) y.
Proof.
  intros Hlen Hshape Hcat H.
  unfold cbind, mpu_gather, cbind, dist_all_gather, cbind, collective.
  simpl. constructor. simpl.
  rewrite bool_decide_eq_true_2 by done.
  assert (Hall : forallb (same_shape t) ts = true).
  { apply forallb_forall. intros t' Hin. apply list_elem_of_In in Hin.
    rewrite Forall_forall in Hshape. unfold same_shape.
    apply bool_decide_eq_true_2. by apply Hshape. }
  rewrite Hall. simpl. unfold local, lift. simpl. rewrite Hcat. done.
Qed.

(** A loop whose visits keep an invariant, with the calls of each
    visit. *)
Lemma cfor_each_trace (body : nat -> M A unit) (I : nat -> Model A -> Prop)
    (tr : nat -> list (CollOp * Tensor A * list (Tensor A))) (a n : nat) m :
  (forall k m0, (a <= k < a + n)%nat -> I k m0 ->
     exists m1, RoundTrip.Trace (body k m0) (tr k) (Ok tt, m1) /\ I (S k) m1) ->
  I a m ->
  exists m',
    RoundTrip.Trace (cfor_each (seq a n) body m) (concat (tr <$> seq a n))
      (Ok tt, m') /\
    I (a + n)%nat m'.
Proof.
  revert a m. induction n as [|n IH]; intros a m Hbody Hm.
  - exists m. rewrite Nat.add_0_r. split; [constructor|done].
  - destruct (Hbody a m ltac:(lia) Hm) as (m1 & H1 & HI1).
    destruct (IH (S a) m1) as (m' & H2 & HI2); [|done|].
    { intros k m0 Hk. apply Hbody. lia. }
    exists m'. split.
    + cbn [seq cfor_each fmap list_fmap concat]. by eapply trace_cbind.
    + by replace (a + S n)%nat with (S a + n)%nat by lia.
Qed.

(** The same for a rank-local loop. *)
Lemma for_each_seq_inv (body : nat -> L A unit) (I : nat -> Model A -> Prop)
    (a n : nat) m :
  (forall k m0, (a <= k < a + n)%nat -> I k m0 ->
     exists m1, body k m0 = (Ok tt, m1) /\ I (S k) m1) ->
  I a m ->
  exists m', for_each (seq a n) body m = (Ok tt, m') /\ I (a + n)%nat m'.
Proof.
  revert a m. induction n as [|n IH]; intros a m Hbody Hm.
  - exists m. rewrite Nat.add_0_r. done.
  - destruct (Hbody a m ltac:(lia) Hm) as (m1 & H1 & HI1).
    destruct (IH (S a) m1) as (m' & H2 & HI2); [|done|].
    { intros k m0 Hk. apply Hbody. lia. }
    exists m'. split.
    + cbn [seq for_each]. by erewrite lbind_ok.
    + by replace (a + S n)%nat with (S a + n)%nat by lia.
Qed.

End Traces.

(** * What one rank holds of a tensor, and what the group gets back *)

Section Blocks.
Context {X : Type}.

Lemma lookup_concat_uniform (s : nat) (bs : list (list X)) (i j : nat) :
  Forall (fun b => length b = s) bs -> (j < s)%nat ->
  concat bs !! (i * s + j)%nat = bs !! i ≫= (fun b => b !! j).
Proof.
  intros Hall Hj. revert i. induction Hall as [|b bs Hb Hall IH]; intros i.
  - by rewrite lookup_nil.
  - destruct i as [|i]; simpl.
    + rewrite lookup_app_l by lia. done.
    + rewrite lookup_app_r by lia.
      replace (s + i * s + j - length b)%nat with (i * s + j)%nat by lia.
      apply IH.
Qed.

Lemma fused_pick_lookup (s F W r : nat) (l : list X) (i j : nat) :
  (r < W)%nat -> length l = (F * W * s)%nat -> (i < F)%nat -> (j < s)%nat ->
  Closed.fused_pick s F W r l !! (i * s + j)%nat
  = l !! ((i * W + r) * s + j)%nat.
Proof.
  intros Hr Hl Hi Hj. unfold Closed.fused_pick.
  rewrite (lookup_concat_uniform s); [|..|done].
  - rewrite list_lookup_fmap, lookup_seq_lt by done. simpl.
    by apply chunk_piece_lookup.
  - apply Forall_fmap, Forall_forall. intros k Hk. apply elem_of_seq in Hk.
    simpl. apply (chunk_piece_full_length s l _ (F * W)); [lia|nia].
Qed.

End Blocks.

(** X1: when a tensor can be cut evenly ([Closed.sliceable]: positive
    fusion degree and group size, a non-empty dimension that [F * W]
    divides, rows of one length, and a fused matrix cut along its last
    dimension), the slice that [_slice] computes exists for every rank,
    and what [_merge] computes from the slices of all ranks, in rank
    order, is the tensor itself. *)
Theorem slice_then_merge_restores {A : Type} (F W d : Z) (t : Tensor A) :
  Closed.sliceable F W d t = true ->
  exists shards,
    rmapM (fun r => TensorParallelEngine1D.slice_tensor t F W r d) (Py.range W)
    = Ok shards /\
    length shards = Z.to_nat W /\
    TensorDeparallelEngine1D.merge_tensors shards (VInt F) d = Ok t.
Proof.
  intros Hs. pose proof (sliceable_inv F W d t Hs) as (HF & HW & _).
  exists ((fun r => Closed.shard (Z.to_nat F) (Z.to_nat W) r d t)
            <$> seq 0 (Z.to_nat W)).
  split; [|split].
  - unfold Py.range. apply rmapM_fmap_ok. intros i Hi. apply elem_of_seq in Hi.
    rewrite slice_tensor_shard by (try done; lia). by rewrite Nat2Z.id.
  - by rewrite length_fmap, length_seq.
  - by apply merge_tensors_shard.
Qed.

Lemma slice_then_merge_restores_witness :
  exists shards,
    rmapM (fun r => TensorParallelEngine1D.slice_tensor
                      (Examples.iota_mat 2 12) 3 2 r 1) (Py.range 2)
    = Ok shards /\
    length shards = Z.to_nat 2 /\
    TensorDeparallelEngine1D.merge_tensors shards (VInt 3) 1
    = Ok (Examples.iota_mat 2 12).
Proof.
  apply (slice_then_merge_restores 3 2 1 (Examples.iota_mat 2 12)).
  reflexivity.
Defined.

(** X2: the slice of a rank has the shape of the tensor with the extent
    of the slicing dimension divided by the group size, the same for
    every rank: the shape from which [_slice] sets [in_features] and
    [out_features]. *)
Theorem slice_divides_one_dimension {A : Type} (F W d r : Z) (t s : Tensor A) :
  Closed.sliceable F W d t = true ->
  0 <= r < W ->
  TensorParallelEngine1D.slice_tensor t F W r d = Ok s ->
  size s = alter (fun n => n / W) (Z.to_nat d) (size t).
Proof.
  intros Hs Hr Hslice. rewrite slice_tensor_shard in Hslice by done.
  injection Hslice as <-.
  apply sliceable_inv in Hs as (HF & HW & Ht).
  set (Fn := Z.to_nat F) in *. set (Wn := Z.to_nat W) in *.
  assert (HWz : W = Z.of_nat Wn) by lia.
  assert (Hrn : (Z.to_nat r < Wn)%nat) by lia.
  destruct t as [x|v|rows]; [done| |].
  - destruct Ht as (-> & s' & Hs' & Hl). simpl.
    rewrite Hl, div_exact by nia.
    rewrite (fused_pick_length s' Fn Wn) by done.
    f_equal. rewrite HWz. apply Z.div_unique_exact; nia.
  - destruct Ht as (Hrect & [(-> & HF1 & s' & Hs' & Hl) | (-> & Hrows & s' & Hs' & Hl)]).
    + assert (Fn = 1%nat) as -> by lia. simpl.
      rewrite Nat.add_0_r, Hl, div_exact by lia.
      rewrite fused_pick_one.
      rewrite (chunk_piece_full_length s' rows _ Wn) by done.
      rewrite (ncols_piece rows s' Wn) by done.
      f_equal. rewrite HWz. apply Z.div_unique_exact; nia.
    + simpl. rewrite Hl, div_exact by nia.
      rewrite length_fmap, (ncols_fmap_fused rows s' Fn Wn) by done.
      do 2 f_equal. rewrite HWz. apply Z.div_unique_exact; nia.
Qed.

Lemma slice_divides_one_dimension_witness :
  size (Mat [[2; 3; 6; 7; 10; 11]; [14; 15; 18; 19; 22; 23]])
  = alter (fun n => n / 2) (Z.to_nat 1) (size (Examples.iota_mat 2 12)).
Proof.
  apply (slice_divides_one_dimension 3 2 1 1 (Examples.iota_mat 2 12)
           (Mat [[2; 3; 6; 7; 10; 11]; [14; 15; 18; 19; 22; 23]])).
  - reflexivity.
  - lia.
  - reflexivity.
Defined.

(** X3: of a fused bias of [F] projections cut for [W] ranks in pieces of
    [s] entries, rank [r] holds, for each projection [i] in order, the
    [s] entries of the piece [i * W + r]: entry [i * s + j] of its slice
    is entry [(i * W + r) * s + j] of the bias. *)
Theorem fused_bias_slice_entries {A : Type} (F W r : Z) (v sl : list A)
    (i j : nat) :
  Closed.sliceable F W 0 (Vec v) = true ->
  0 <= r < W ->
  TensorParallelEngine1D.slice_tensor (Vec v) F W r 0 = Ok (Vec sl) ->
  let s := (length v / (Z.to_nat F * Z.to_nat W))%nat in
  (i < Z.to_nat F)%nat -> (j < s)%nat ->
  sl !! (i * s + j)%nat = v !! ((i * Z.to_nat W + Z.to_nat r) * s + j)%nat.
Proof.
  intros Hs Hr Hslice s Hi Hj. rewrite slice_tensor_shard in Hslice by done.
  simpl in Hslice. injection Hslice as <-. fold s.
  apply sliceable_inv in Hs as (HF & HW & _ & s' & Hs' & Hl).
  assert (s = s') as Hss.
  { unfold s. rewrite Hl. apply div_exact. nia. }
  rewrite Hss in *. apply fused_pick_lookup; [lia|done|done|done].
Qed.

Lemma fused_bias_slice_entries_witness :
  [2; 3; 6; 7; 10; 11] !! (2 * (12 / (Z.to_nat 3 * Z.to_nat 2)) + 1)%nat
  = [0; 1; 2; 3; 4; 5; 6; 7; 8; 9; 10; 11]
      !! ((2 * Z.to_nat 2 + Z.to_nat 1) * (12 / (Z.to_nat 3 * Z.to_nat 2)) + 1)%nat.
Proof.
  apply (fused_bias_slice_entries 3 2 1
           [0; 1; 2; 3; 4; 5; 6; 7; 8; 9; 10; 11] [2; 3; 6; 7; 10; 11] 2 1).
  - reflexivity.
  - lia.
  - reflexivity.
  - simpl. lia.
  - simpl. lia.
Defined.

(** * Rules for computations that succeed *)

Section Rules.
Context {A : Type}.
Implicit Types (m : Model A) (md : Module).

Lemma wp_conseq {X : Type} (c : L A X) (Q Q' : X -> Model A -> Prop) m :
  Hoare.wp c Q m -> (forall x m', Q x m' -> Q' x m') -> Hoare.wp c Q' m.
Proof. intros (x & m' & Hc & HQ) H. exists x, m'. auto. Qed.

Lemma wp_bind {X Y : Type} (c : L A X) (f : X -> L A Y) Q m :
  Hoare.wp c (fun x m1 => Hoare.wp (f x) Q m1) m -> Hoare.wp (lbind c f) Q m.
Proof.
  intros (x & m1 & Hc & y & m' & Hf & HQ). exists y, m'. split; [|done].
  by rewrite (lbind_ok _ _ _ _ _ Hc).
Qed.

Lemma wp_ret {X : Type} (x : X) (Q : X -> Model A -> Prop) m :
  Q x m -> Hoare.wp (lret x) Q m.
Proof. intros HQ. by exists x, m. Qed.

Lemma wp_lift {X : Type} (r : result X) x (Q : X -> Model A -> Prop) m :
  r = Ok x -> Q x m -> Hoare.wp (lift r) Q m.
Proof. intros -> HQ. by exists x, m. Qed.

Lemma wp_get (Q : Model A -> Model A -> Prop) m :
  Q m m -> Hoare.wp get Q m.
Proof. intros HQ. by exists m, m. Qed.

Lemma wp_get_module i nm md (Q : Module -> Model A -> Prop) m :
  named_modules m !! i = Some (nm, md) -> Q md m -> Hoare.wp (get_module i) Q m.
Proof. intros H HQ. exists md, m. split; [by eapply get_module_ok|done]. Qed.

Lemma wp_module_name i nm md (Q : string -> Model A -> Prop) m :
  named_modules m !! i = Some (nm, md) -> Q nm m -> Hoare.wp (module_name i) Q m.
Proof. intros H HQ. exists nm, m. split; [by eapply module_name_ok|done]. Qed.

Lemma wp_getattr i name nm md v (Q : Value -> Model A -> Prop) m :
  named_modules m !! i = Some (nm, md) -> attrs md !! name = Some v ->
  Q v m -> Hoare.wp (getattr i name) Q m.
Proof. intros H Hv HQ. exists v, m. split; [by eapply getattr_ok|done]. Qed.

Lemma wp_modify_module i f (Q : unit -> Model A -> Prop) m :
  Q tt (upd_module i f m) -> Hoare.wp (modify_module i f) Q m.
Proof. intros HQ. by exists tt, (upd_module i f m). Qed.

Lemma wp_get_param p x (Q : Param A -> Model A -> Prop) m :
  store m !! p = Some x -> Q x m -> Hoare.wp (get_param p) Q m.
Proof.
  intros H HQ. exists x, m. split; [|done].
  unfold get_param, lbind, get. by rewrite H.
Qed.

Lemma wp_modify_param p f (Q : unit -> Model A -> Prop) m :
  Q tt (upd_param p f m) -> Hoare.wp (modify_param p f) Q m.
Proof. intros HQ. by exists tt, (upd_param p f m). Qed.

Lemma wp_put m0 (Q : unit -> Model A -> Prop) m :
  Q tt m0 -> Hoare.wp (put m0) Q m.
Proof. intros HQ. by exists tt, m0. Qed.

Lemma wp_for_each_seq (body : nat -> L A unit) (I : nat -> Model A -> Prop)
    (a n : nat) m :
  (forall k m0, (a <= k < a + n)%nat -> I k m0 ->
     Hoare.wp (body k) (fun _ m1 => I (S k) m1) m0) ->
  I a m ->
  Hoare.wp (for_each (seq a n) body) (fun _ m' => I (a + n)%nat m') m.
Proof.
  intros Hbody Hm.
  destruct (for_each_seq_inv body I a n m) as (m' & Hrun & HI); [|done|].
  - intros k m0 Hk HI. destruct (Hbody k m0 Hk HI) as ([] & m1 & H1 & HI1). eauto.
  - by exists tt, m'.
Qed.

(** ** With collectives *)

Lemma wpt_conseq {X : Type} (c : M A X) tr (Q Q' : X -> Model A -> Prop) m :
  Hoare.wpt c tr Q m -> (forall x m', Q x m' -> Q' x m') -> Hoare.wpt c tr Q' m.
Proof. intros (x & m' & Hc & HQ) H. exists x, m'. auto. Qed.

Lemma wpt_bind {X Y : Type} (c : M A X) (f : X -> M A Y) tr1 tr2 Q m :
  Hoare.wpt c tr1 (fun x m1 => Hoare.wpt (f x) tr2 Q m1) m ->
  Hoare.wpt (cbind c f) (tr1 ++ tr2) Q m.
Proof.
  intros (x & m1 & Hc & y & m' & Hf & HQ). exists y, m'. split; [|done].
  by eapply trace_cbind.
Qed.

Lemma wpt_bind_local {X Y : Type} (c : L A X) (f : X -> M A Y) tr Q m :
  Hoare.wp c (fun x m1 => Hoare.wpt (f x) tr Q m1) m ->
  Hoare.wpt (cbind (local c) f) tr Q m.
Proof.
  intros (x & m1 & Hc & y & m' & Hf & HQ). exists y, m'. split; [|done].
  by rewrite (cbind_local_ok _ _ _ _ _ Hc).
Qed.

Lemma wpt_local {X : Type} (c : L A X) (Q : X -> Model A -> Prop) m :
  Hoare.wp c Q m -> Hoare.wpt (local c) [] Q m.
Proof.
  intros (x & m' & Hc & HQ). exists x, m'. split; [|done]. by apply trace_local.
Qed.

Lemma wpt_cret {X : Type} (x : X) (Q : X -> Model A -> Prop) m :
  Q x m -> Hoare.wpt (cret x) [] Q m.
Proof. intros HQ. exists x, m. split; [constructor|done]. Qed.

Lemma wpt_bind_all_gather {Y : Type} (W : Z) (t : Tensor A) ts
    (f : list (Tensor A) -> M A Y) tr Q m :
  Z.of_nat (length ts) = W ->
  Forall (fun t' => size t = size t') ts ->
  Hoare.wpt (f ts) tr Q m ->
  Hoare.wpt (cbind (dist_all_gather W t) f) ((OpAllGather, t, ts) :: tr) Q m.
Proof.
  intros Hlen Hshape (y & m' & Hf & HQ). exists y, m'. split; [|done].
  by apply trace_all_gather.
Qed.

Lemma wpt_bind_mpu_gather {Y : Type} (mp : MPU) (t : Tensor A) (d : Z) ts g
    (f : Tensor A -> M A Y) tr Q m :
  Z.of_nat (length ts) = get_tensor_parallel_world_size mp ->
  Forall (fun t' => size t = size t') ts ->
  cat ts d = Ok g ->
  Hoare.wpt (f g) tr Q m ->
  Hoare.wpt (cbind (mpu_gather mp t d) f) ((OpAllGather, t, ts) :: tr) Q m.
Proof.
  intros Hlen Hshape Hcat (y & m' & Hf & HQ). exists y, m'. split; [|done].
  by eapply trace_mpu_gather.
Qed.

Lemma wpt_cfor_each_seq (body : nat -> M A unit) (I : nat -> Model A -> Prop)
    (tr : nat -> list (CollOp * Tensor A * list (Tensor A))) (a n : nat) m :
  (forall k m0, (a <= k < a + n)%nat -> I k m0 ->
     Hoare.wpt (body k) (tr k) (fun _ m1 => I (S k) m1) m0) ->
  I a m ->
  Hoare.wpt (cfor_each (seq a n) body) (concat (tr <$> seq a n))
    (fun _ m' => I (a + n)%nat m') m.
Proof.
  intros Hbody Hm.
  destruct (cfor_each_trace body I tr a n m) as (m' & Hrun & HI); [|done|].
  - intros k m0 Hk HI. destruct (Hbody k m0 Hk HI) as ([] & m1 & H1 & HI1). eauto.
  - by exists tt, m'.
Qed.

(** ** Reading a changed model *)

Lemma dat_upd_module i f m p :
  RoundTrip.dat (upd_module i f m) p = RoundTrip.dat m p.
Proof. reflexivity. Qed.

Lemma dat_upd_param_ne p f m q :
  p <> q -> RoundTrip.dat (upd_param p f m) q = RoundTrip.dat m q.
Proof.
  intros Hne. unfold RoundTrip.dat, upd_param. simpl.
  by rewrite lookup_alter_ne.
Qed.

Lemma dat_upd_param_same p f m q :
  (forall x, data (f x) = data x) ->
  RoundTrip.dat (upd_param p f m) q = RoundTrip.dat m q.
Proof.
  intros Hf. destruct (decide (p = q)) as [->|Hne]; [|by apply dat_upd_param_ne].
  unfold RoundTrip.dat, upd_param. simpl. rewrite lookup_alter_eq.
  destruct (store m !! q) as [x|]; [|done]. simpl. by rewrite Hf.
Qed.

Lemma dat_set_data p t m :
  RoundTrip.dat
    (upd_param p (fun x => {| data := t; tp_rank := tp_rank x;
                              is_cuda := is_cuda x |}) m) p
  = (fun _ => t) <$> RoundTrip.dat m p.
Proof.
  unfold RoundTrip.dat, upd_param. simpl. rewrite lookup_alter_eq.
  by destruct (store m !! p).
Qed.

Lemma dat_Some m p t :
  RoundTrip.dat m p = Some t <-> exists x, store m !! p = Some x /\ data x = t.
Proof.
  unfold RoundTrip.dat. rewrite fmap_Some. split; intros (x & ? & ?); eauto.
Qed.

End Rules.

(** One step of a rank-local computation. *)
Ltac wp_step :=
  lazymatch goal with
  | |- Hoare.wp (lbind _ _) _ _ => apply wp_bind
  | |- Hoare.wp (lret _) _ _ => apply wp_ret
  | |- Hoare.wp get _ _ => apply wp_get
  | |- Hoare.wp (modify_module _ _) _ _ => apply wp_modify_module
  | |- Hoare.wp (setattr _ _ _) _ _ => apply wp_modify_module
  | |- Hoare.wp (set_class _ _) _ _ => apply wp_modify_module
  | |- Hoare.wp (modify_param _ _) _ _ => apply wp_modify_param
  | |- Hoare.wp (set_data _ _) _ _ => apply wp_modify_param
  | |- Hoare.wp (set_tp_rank _ _) _ _ => apply wp_modify_param
  | |- Hoare.wp (to_cuda _) _ _ => apply wp_modify_param
  | |- Hoare.wp (put _) _ _ => apply wp_put
  | |- Hoare.wp (update_module_arguments _ _) _ _ =>
      unfold update_module_arguments; cbn [for_each fst snd]
  end.

(** * The plan of the cuts *)

Section Plan.
Context {A : Type}.
Implicit Types (m : Model A) (pl : list (nat * (Z * Z))) (t : Tensor A).

Lemma expected_nil W r p t : RoundTrip.expected W r [] p t = t.
Proof. unfold RoundTrip.expected. simpl. by rewrite lookup_empty. Qed.

Lemma expected_not_in W r pl p t :
  p ∉ pl.*1 -> RoundTrip.expected W r pl p t = t.
Proof.
  intros H. unfold RoundTrip.expected.
  by rewrite (not_elem_of_list_to_map_1 (M := gmap nat) pl p H).
Qed.

Lemma expected_in W r pl p F d t :
  NoDup pl.*1 -> (p, (F, d)) ∈ pl ->
  RoundTrip.expected W r pl p t
  = Closed.shard (Z.to_nat F) (Z.to_nat W) r d t.
Proof.
  intros Hnd Hin. unfold RoundTrip.expected.
  by rewrite (elem_of_list_to_map_1 (M := gmap nat) pl p (F, d) Hnd Hin).
Qed.

Lemma expected_app_l W r pl1 pl2 p t :
  p ∉ pl2.*1 ->
  RoundTrip.expected W r (pl1 ++ pl2) p t = RoundTrip.expected W r pl1 p t.
Proof.
  intros H. unfold RoundTrip.expected. rewrite list_to_map_app.
  rewrite lookup_union_l; [done|]. by apply not_elem_of_list_to_map_1.
Qed.

Lemma expected_app_r W r pl1 pl2 p t :
  p ∉ pl1.*1 ->
  RoundTrip.expected W r (pl1 ++ pl2) p t = RoundTrip.expected W r pl2 p t.
Proof.
  intros H. unfold RoundTrip.expected. rewrite list_to_map_app.
  rewrite lookup_union_r; [done|]. by apply not_elem_of_list_to_map_1.
Qed.

(** Cutting the objects of [pl2] after those of [pl1], when no object is
    in both. *)
Lemma holds_app W r pl1 pl2 m m1 m2 :
  Sharded.holds W r pl1 m m1 ->
  (forall p, RoundTrip.dat m2 p
             = RoundTrip.expected W r pl2 p <$> RoundTrip.dat m1 p) ->
  (forall p, p ∈ pl1.*1 -> p ∉ pl2.*1) ->
  Sharded.holds W r (pl1 ++ pl2) m m2.
Proof.
  intros H1 H2 Hdisj p. rewrite H2, H1. destruct (RoundTrip.dat m p) as [t|]; [|done].
  simpl. f_equal. destruct (decide (p ∈ pl1.*1)) as [Hin|Hout].
  - rewrite (expected_not_in W r pl2) by auto.
    by rewrite expected_app_l by auto.
  - rewrite (expected_not_in W r pl1) by done.
    by rewrite expected_app_r.
Qed.

(** Bringing back the objects of [pl1], the first ones of the plan. *)
Lemma holds_drop W r pl1 pl2 m m1 m2 :
  Sharded.holds W r (pl1 ++ pl2) m m1 ->
  NoDup (pl1 ++ pl2).*1 ->
  (forall p, p ∈ pl1.*1 -> RoundTrip.dat m2 p = RoundTrip.dat m p) ->
  (forall p, p ∉ pl1.*1 -> RoundTrip.dat m2 p = RoundTrip.dat m1 p) ->
  Sharded.holds W r pl2 m m2.
Proof.
  intros H1 Hnd Hin Hout p. rewrite fmap_app in Hnd.
  apply NoDup_app in Hnd as (_ & Hdisj & _).
  destruct (decide (p ∈ pl1.*1)) as [Hp|Hp].
  - rewrite Hin by done. destruct (RoundTrip.dat m p) as [t|]; [|done].
    simpl. by rewrite expected_not_in by auto.
  - rewrite Hout, H1 by done. destruct (RoundTrip.dat m p) as [t|]; [|done].
    simpl. by rewrite expected_app_r.
Qed.

Lemma holds_nil W r m m' :
  Sharded.holds W r [] m m' ->
  forall p, data <$> store m' !! p = data <$> store m !! p.
Proof.
  intros H p. specialize (H p). unfold RoundTrip.dat in H. rewrite H.
  destruct (store m !! p) as [x|]; [|done]. simpl. by rewrite expected_nil.
Qed.

Lemma holds_frame W r pl m m1 m2 :
  Sharded.holds W r pl m m1 ->
  (forall p, RoundTrip.dat m2 p = RoundTrip.dat m1 p) ->
  Sharded.holds W r pl m m2.
Proof. intros H1 H2 p. by rewrite H2. Qed.

Context (tp : TensorParallelMapping) (W : Z).
Implicit Types (nms : list (string * Module)).

Lemma plan_app nms1 nms2 :
  RoundTrip.plan tp W (nms1 ++ nms2)
  = RoundTrip.plan tp W nms1 ++ RoundTrip.plan tp W nms2.
Proof. unfold RoundTrip.plan. by rewrite fmap_app, concat_app. Qed.

Lemma plan_take_S nms k nmd :
  nms !! k = Some nmd ->
  RoundTrip.plan tp W (take (S k) nms)
  = RoundTrip.plan tp W (take k nms) ++ RoundTrip.entries tp W nmd.
Proof.
  intros H. rewrite (take_S_r _ _ _ H), plan_app. f_equal.
  unfold RoundTrip.plan. simpl. by rewrite app_nil_r.
Qed.

Lemma plan_drop nms k nmd :
  nms !! k = Some nmd ->
  RoundTrip.plan tp W (drop k nms)
  = RoundTrip.entries tp W nmd ++ RoundTrip.plan tp W (drop (S k) nms).
Proof. intros H. by rewrite (drop_S _ _ _ H). Qed.

Lemma plan_split nms k nmd :
  nms !! k = Some nmd ->
  RoundTrip.plan tp W nms
  = RoundTrip.plan tp W (take k nms)
    ++ RoundTrip.entries tp W nmd ++ RoundTrip.plan tp W (drop (S k) nms).
Proof.
  intros H. rewrite <- (take_drop_middle _ _ _ H) at 1.
  by rewrite plan_app.
Qed.

Lemma plan_concat nms :
  RoundTrip.plan tp W nms
  = concat (Sharded.entries_at tp W nms <$> seq 0 (length nms)).
Proof.
  unfold RoundTrip.plan. f_equal. apply list_eq. intros k.
  rewrite !list_lookup_fmap. unfold Sharded.entries_at.
  destruct (nms !! k) as [nmd|] eqn:E.
  - rewrite lookup_seq_lt by (by eapply lookup_lt_Some). simpl. by rewrite E.
  - apply lookup_ge_None in E. by rewrite lookup_seq_ge by lia.
Qed.

Lemma gathers_app (st : gmap nat (Param A)) pl1 pl2 :
  RoundTrip.gathers W st (pl1 ++ pl2)
  = RoundTrip.gathers W st pl1 ++ RoundTrip.gathers W st pl2.
Proof. unfold RoundTrip.gathers. apply omap_app. Qed.

Lemma gathers_concat (st : gmap nat (Param A)) (pls : list (list (nat * (Z * Z)))) :
  RoundTrip.gathers W st (concat pls)
  = concat (RoundTrip.gathers W st <$> pls).
Proof.
  induction pls as [|pl pls IH]; [done|].
  simpl. by rewrite gathers_app, IH.
Qed.

Lemma responses_app n (gs1 gs2 : list (CollOp * (nat -> Tensor A))) r :
  RoundTrip.responses n (gs1 ++ gs2) r
  = RoundTrip.responses n gs1 r ++ RoundTrip.responses n gs2 r.
Proof. unfold RoundTrip.responses. apply fmap_app. Qed.

Lemma responses_concat n (gss : list (list (CollOp * (nat -> Tensor A)))) r :
  RoundTrip.responses n (concat gss) r
  = concat ((fun gs => RoundTrip.responses n gs r) <$> gss).
Proof.
  induction gss as [|gs gss IH]; [done|].
  simpl. by rewrite responses_app, IH.
Qed.

End Plan.

(** * Shapes *)

Section Shapes.
Context {A : Type}.

Lemma size_of_matrix (t : Tensor A) :
  dim t = 2 ->
  exists a b, Py.index (size t) 0 = Ok a /\ Py.index (size t) 1 = Ok b.
Proof. destruct t; try done. intros _. by eexists _, _. Qed.

Lemma sliceable_dim (F W d : Z) (t : Tensor A) :
  Closed.sliceable F W d t = true -> (1 <=? dim t) = true.
Proof.
  intros H. apply sliceable_inv in H as (_ & _ & H). by destruct t.
Qed.

Lemma rbind_ok_inv {X Y : Type} (x : result X) (f : X -> result Y) y :
  rbind x f = Ok y -> exists a, x = Ok a /\ f a = Ok y.
Proof. destruct x as [a|]; [eauto|done]. Qed.

(** The rows of the embedding table that a rank keeps. *)
Lemma chunk_index_shard (W r : Z) (t : Tensor A) :
  Closed.sliceable 1 W 0 t = true -> 0 <= r < W ->
  exists chunks,
    chunk t W 0 = Ok chunks /\
    Py.index chunks r = Ok (Closed.shard 1 (Z.to_nat W) (Z.to_nat r) 0 t).
Proof.
  intros Hs Hr. pose proof (slice_tensor_shard 1 W 0 r t Hs Hr) as H.
  unfold TensorParallelEngine1D.slice_tensor in H.
  rewrite Z.mul_1_l in H.
  apply rbind_ok_inv in H as (chunks & Hc & H). exists chunks. split; [done|].
  simpl in H. done.
Qed.

End Shapes.

(** * Frames of the engines *)

Section Touch.
Context {A : Type}.
Context (J : nat -> Prop) (K : list string).
Implicit Types (m : Model A) (md : Module).

Lemma touch_refl i md : Frame.touch J K i md md.
Proof. by repeat split. Qed.

Lemma touch_trans i md1 md2 md3 :
  Frame.touch J K i md1 md2 -> Frame.touch J K i md2 md3 ->
  Frame.touch J K i md1 md3.
Proof.
  intros (Hw1 & Hb1 & Ha1 & He1) (Hw2 & Hb2 & Ha2 & He2).
  split; [congruence|]. split; [congruence|]. split.
  - intros name Hn. by rewrite Ha2, Ha1.
  - intros HJ. by rewrite He2, He1.
Qed.

Lemma touch_setattr j name v :
  J j -> name ∈ K ->
  Logic.preserves (A := A) (Frame.touch J K) (setattr j name v).
Proof.
  intros HJ Hin. apply preserves_modify_module; [apply touch_refl|].
  intros md. split; [done|]. split; [done|]. split; [|done].
  intros name' Hn. simpl. rewrite lookup_insert_ne; [done|].
  intros ->. done.
Qed.

Lemma touch_set_class j c :
  J j -> Logic.preserves (A := A) (Frame.touch J K) (set_class j c).
Proof.
  intros HJ. apply preserves_modify_module; [apply touch_refl|].
  intros md. by repeat split.
Qed.

Lemma touch_update_module_arguments j kwargs :
  J j -> Forall (fun kv : string * Value => kv.1 ∈ K) kwargs ->
  Logic.preserves (A := A) (Frame.touch J K) (update_module_arguments j kwargs).
Proof.
  intros HJ Hall. unfold update_module_arguments.
  induction Hall as [|kv kwargs Hkv Hall IH]; simpl.
  - apply preserves_lret. apply touch_refl.
  - apply preserves_lbind; [apply touch_trans| |].
    + by apply touch_setattr.
    + intros _. apply IH.
Qed.

Lemma touch_restore_class j :
  J j ->
  Logic.preserves (A := A) (Frame.touch J K)
    (TensorDeparallelEngine1D.restore_class j).
Proof.
  intros HJ. pose proof touch_refl. pose proof touch_trans.
  unfold TensorDeparallelEngine1D.restore_class.
  repeat first [by apply touch_set_class | preserves_step].
Qed.

Lemma touch_weaken (J' : nat -> Prop) (K' : list string) i md md' :
  (forall i, J i -> J' i) -> K ⊆ K' ->
  Frame.touch J K i md md' -> Frame.touch J' K' i md md'.
Proof.
  intros HJ HK (Hw & Hb & Ha & He). split; [done|]. split; [done|]. split.
  - intros name Hn. apply Ha. intros Hin. apply Hn. by apply HK.
  - intros Hi. apply He. auto.
Qed.

End Touch.

Section Related.
Context {A : Type}.
Implicit Types (m : Model A) (md : Module).

Lemma preserves_related {X : Type} R (c : L A X) m r m' :
  Logic.preserves R c -> c m = (r, m') -> Frame.related R m m'.
Proof. intros Hc H. exact (Hc m r m' H). Qed.

(** A computation that succeeds also keeps what it keeps whatever its
    outcome. *)
Lemma wp_frame {X : Type} R (c : L A X) (Q : X -> Model A -> Prop) m :
  Logic.preserves R c -> Hoare.wp c Q m ->
  Hoare.wp c (fun x m' => Q x m' /\ Frame.related R m m') m.
Proof.
  intros Hc (x & m' & Hrun & HQ). exists x, m'. split; [done|]. split; [done|].
  by eapply preserves_related.
Qed.

Lemma related_lookup_ne (J : nat -> Prop) K m m' i :
  Frame.related (Frame.touch J K) m m' -> ~ J i ->
  named_modules m' !! i = named_modules m !! i.
Proof.
  intros (_ & Hlen & Hmods) Hi.
  destruct (named_modules m !! i) as [[nm md]|] eqn:E.
  - destruct (Hmods _ _ _ E) as (md' & -> & _ & _ & _ & Heq). by rewrite Heq.
  - apply lookup_ge_None. apply lookup_ge_None in E. lia.
Qed.

End Related.

(** The frame of a computation, one step at a time. *)
Ltac touch_auto :=
  repeat first
    [ apply touch_refl
    | apply touch_trans
    | apply touch_update_module_arguments;
        [done | repeat constructor; simpl; set_solver]
    | apply touch_set_class; done
    | apply touch_restore_class; done
    | apply touch_setattr; [done | set_solver]
    | apply preserves_put_store
    | preserves_step ].

Section EngineFrames.
Context {A : Type}.
Implicit Types (m : Model A) (md : Module).

Lemma touch_slice (self : Engine) j reversed fusion_degree slice_bias d :
  Logic.preserves (A := A) (Frame.touch (eq j) RoundTrip.engine_names)
    (TensorParallelEngine1D._slice self j reversed fusion_degree slice_bias d).
Proof.
  pose proof (touch_refl (eq j) RoundTrip.engine_names).
  pose proof (touch_trans (eq j) RoundTrip.engine_names).
  unfold TensorParallelEngine1D._slice, set_data, set_tp_rank.
  touch_auto.
Qed.

End EngineFrames.

(** * [_slice] on tensors that divide evenly *)

Ltac wp_go :=
  cbv beta zeta;
  lazymatch goal with
  | |- Hoare.wp (lbind _ _) _ _ => apply wp_bind; cbv beta zeta; wp_step
  | _ => wp_step
  end.

Ltac not_in_names :=
  let H := fresh in
  intros H;
  repeat (apply elem_of_cons in H as [H|H]; [discriminate H|]);
  by apply elem_of_nil in H.

Section Slice.
Context {A : Type}.
Variables (W : Z) (r : nat).
Hypothesis Hr : (r < Z.to_nat W)%nat.
Implicit Types (m : Model A) (md : Module).

Lemma fmap_expected_nil p (x : option (Tensor A)) :
  RoundTrip.expected W r [] p <$> x = x.
Proof. destruct x as [t|]; [|done]. simpl. by rewrite expected_nil. Qed.

Lemma expected_singleton_eq p F d (t : Tensor A) :
  RoundTrip.expected W r [(p, (F, d))] p t
  = Closed.shard (Z.to_nat F) (Z.to_nat W) r d t.
Proof. unfold RoundTrip.expected. simpl. by rewrite lookup_insert_eq. Qed.

Lemma expected_singleton_ne p q F d (t : Tensor A) :
  q <> p -> RoundTrip.expected W r [(q, (F, d))] p t = t.
Proof.
  intros Hne. unfold RoundTrip.expected. simpl.
  by rewrite lookup_insert_ne, lookup_empty.
Qed.

Lemma wp_slice_weight (i : nat) (F d : Z) (sl : Slot) m :
  (forall w, sl = Ref w ->
     exists pp, store m !! w = Some pp /\
                Closed.sliceable F W d (data pp) = true /\
                dim (data pp) = 2) ->
  Hoare.wp
    (match sl with
     | Ref w =>
         pw <- get_param w ;;
         (if 1 <=? dim (data pw) then
            t <- lift (TensorParallelEngine1D.slice_tensor (data pw) F W
                         (Z.of_nat r) d) ;;
            set_data w t
          else lret tt) ;;
         set_tp_rank w (Z.of_nat r) ;;
         pw <- get_param w ;;
         in_features <- lift (Py.index (size (data pw)) 0) ;;
         out_features <- lift (Py.index (size (data pw)) 1) ;;
         update_module_arguments i
           [("in_features", VInt in_features);
            ("out_features", VInt out_features)]
     | _ => lret tt
     end)%L
    (fun _ m1 =>
       (forall p,
          RoundTrip.dat m1 p
          = RoundTrip.expected W r
              (match sl with Ref w => [(w, (F, d))] | _ => [] end) p
            <$> RoundTrip.dat m p) /\
       Frame.related (Frame.touch (eq i) ["in_features"; "out_features"]) m m1)
    m.
Proof.
  intros Hsl. apply wp_frame.
  { pose proof (touch_refl (eq i) ["in_features"; "out_features"]).
    pose proof (touch_trans (eq i) ["in_features"; "out_features"]).
    unfold set_data, set_tp_rank. touch_auto. }
  destruct sl as [| |w].
  - apply wp_ret. intros p. by rewrite fmap_expected_nil.
  - apply wp_ret. intros p. by rewrite fmap_expected_nil.
  - destruct (Hsl w eq_refl) as (pp & Hpp & Hs & Hdim).
    apply wp_bind. eapply wp_get_param; [exact Hpp|]. cbv beta.
    rewrite Hdim. change (1 <=? 2) with true. cbv iota.
    apply wp_bind. apply wp_bind.
    eapply wp_lift; [apply slice_tensor_shard; [exact Hs|lia]|].
    rewrite Nat2Z.id.
    set (sh := Closed.shard (Z.to_nat F) (Z.to_nat W) r d (data pp)).
    wp_go. wp_go.
    apply wp_bind. eapply wp_get_param.
    { cbn [store upd_param]. rewrite !lookup_alter_eq, Hpp. reflexivity. }
    cbv beta. cbn [data].
    destruct (size_of_matrix sh) as (a & b & Ha & Hb).
    { unfold sh. by rewrite shard_dim. }
    apply wp_bind. eapply wp_lift; [exact Ha|].
    apply wp_bind. eapply wp_lift; [exact Hb|].
    cbv beta. wp_step. wp_go. wp_go. wp_go.
    intros p. rewrite !dat_upd_module.
    destruct (decide (w = p)) as [<-|Hne].
    + rewrite dat_upd_param_same by done. rewrite dat_set_data.
      unfold RoundTrip.dat. rewrite Hpp. simpl.
      by rewrite expected_singleton_eq.
    + rewrite !dat_upd_param_ne by done.
      destruct (RoundTrip.dat m p) as [t|]; [|done]. simpl.
      by rewrite expected_singleton_ne.
Qed.

Lemma wp_slice_bias (sb : bool) (F : Z) (sl : Slot) m :
  (forall b, sl = Ref b ->
     exists pb, store m !! b = Some pb /\
                (sb = true -> Closed.sliceable F W 0 (data pb) = true)) ->
  Hoare.wp
    (match sl with
     | Ref b =>
         pb <- get_param b ;;
         (if sb && (1 <=? dim (data pb)) then
            t <- lift (TensorParallelEngine1D.slice_tensor (data pb) F W
                         (Z.of_nat r) 0) ;;
            set_data b t
          else lret tt) ;;
         set_tp_rank b (Z.of_nat r)
     | _ => lret tt
     end)%L
    (fun _ m1 =>
       named_modules m1 = named_modules m /\
       input_embeddings m1 = input_embeddings m /\
       forall p,
         RoundTrip.dat m1 p
         = RoundTrip.expected W r
             (if sb then match sl with Ref b => [(b, (F, 0))] | _ => [] end
              else []) p
           <$> RoundTrip.dat m p)
    m.
Proof.
  intros Hsl. destruct sl as [| |b].
  - apply wp_ret. do 2 (split; [done|]). intros p.
    destruct sb; by rewrite fmap_expected_nil.
  - apply wp_ret. do 2 (split; [done|]). intros p.
    destruct sb; by rewrite fmap_expected_nil.
  - destruct (Hsl b eq_refl) as (pb & Hpb & Hs).
    apply wp_bind. eapply wp_get_param; [exact Hpb|]. cbv beta.
    destruct sb.
    + specialize (Hs eq_refl). rewrite (sliceable_dim _ _ _ _ Hs). cbn [andb].
      apply wp_bind. apply wp_bind.
      eapply wp_lift; [apply slice_tensor_shard; [exact Hs|lia]|].
      rewrite Nat2Z.id. wp_go. wp_go.
      do 2 (split; [done|]). intros p.
      destruct (decide (b = p)) as [<-|Hne].
      * rewrite dat_upd_param_same by done. rewrite dat_set_data.
        unfold RoundTrip.dat. rewrite Hpb. simpl.
        by rewrite expected_singleton_eq.
      * rewrite !dat_upd_param_ne by done.
        destruct (RoundTrip.dat m p) as [t|]; [|done]. simpl.
        by rewrite expected_singleton_ne.
    + cbn [andb]. wp_go. wp_go.
      do 2 (split; [done|]). intros p.
      rewrite dat_upd_param_same by done. by rewrite fmap_expected_nil.
Qed.

Lemma wp_slice (tp : TensorParallelMapping) (i : nat) (rev : bool) (F : Z)
    (sb : bool) (d : Z) nm md m :
  let d' := if negb rev then d else Z.abs (d - 1) in
  let pl := match weight md with Ref w => [(w, (F, d'))] | _ => [] end
            ++ (if sb then match bias md with Ref b => [(b, (F, 0))] | _ => [] end
                else []) in
  named_modules m !! i = Some (nm, md) ->
  NoDup pl.*1 ->
  (forall w, weight md = Ref w ->
     exists pp, store m !! w = Some pp /\
                Closed.sliceable F W d' (data pp) = true /\
                dim (data pp) = 2) ->
  (forall b, bias md = Ref b ->
     exists pb, store m !! b = Some pb /\
                (sb = true -> Closed.sliceable F W 0 (data pb) = true)) ->
  Hoare.wp
    (TensorParallelEngine1D._slice (engine_of tp W (Z.of_nat r)) i rev F sb d)
    (fun _ m1 =>
       (exists md1,
          named_modules m1 !! i = Some (nm, md1) /\
          attrs md1 !! "fusion_degree" = Some (VInt F) /\
          attrs md1 !! "reversed" = Some (VBool rev) /\
          attrs md1 !! "orig_module" = Some (VClass (cls md)) /\
          attrs md1 !! "mpu"
          = Some (VMpu (mpu (engine_of tp W (Z.of_nat r)))) /\
          attrs md1 !! "gather_output" = Some (VBool false)) /\
       Sharded.holds W r pl m m1)
    m.
Proof.
  intros d' pl Hi Hnd Hw Hb.
  unfold TensorParallelEngine1D._slice. cbv zeta.
  cbn [mpu engine_of get_tensor_parallel_world_size get_tensor_parallel_rank].
  apply wp_bind. eapply wp_get_module; [exact Hi|]. cbv beta.
  apply wp_bind. wp_step. wp_go. wp_go. wp_go. wp_go. wp_go. wp_go.
  match goal with |- Hoare.wp _ _ ?m0 => set (ma := m0) end.
  assert (Hia : exists mda,
             named_modules ma !! i = Some (nm, mda) /\
             weight mda = weight md /\ bias mda = bias md /\
             attrs mda !! "fusion_degree" = Some (VInt F) /\
             attrs mda !! "reversed" = Some (VBool rev) /\
             attrs mda !! "orig_module" = Some (VClass (cls md)) /\
             attrs mda !! "mpu"
             = Some (VMpu (mpu (engine_of tp W (Z.of_nat r)))) /\
             attrs mda !! "gather_output" = Some (VBool false)).
  { unfold ma. eexists. split.
    { cbn [named_modules upd_module]. rewrite !list_lookup_alter_eq, Hi.
      reflexivity. }
    simpl. repeat split; attr_lookup. }
  destruct Hia as (mda & Hia & Hwa & Hba & HaF & Harev & Haorig & Hampu & Hag).
  apply wp_bind. eapply wp_conseq.
  { apply (wp_slice_weight i F d' (weight md) ma). exact Hw. }
  intros _ mb (Hdat_b & Hrel_b). cbv beta.
  destruct Hrel_b as (Hie_b & Hlen_b & Hmods_b).
  destruct (Hmods_b _ _ _ Hia) as (mdb & Hib & Hwb & Hbb & Hab & _).
  eapply wp_conseq.
  { apply (wp_slice_bias sb F (bias md) mb).
    intros b Hbias. destruct (Hb b Hbias) as (pb & Hpb & Hsb).
    pose proof (Hdat_b b) as Hdb. unfold RoundTrip.dat at 2 in Hdb.
    change (store ma) with (store m) in Hdb. rewrite Hpb in Hdb. simpl in Hdb.
    apply dat_Some in Hdb as (pb' & Hpb' & Hdata). exists pb'. split; [done|].
    intros ->. specialize (Hsb eq_refl). rewrite Hdata.
    destruct (weight md) as [| |w] eqn:Ew.
    - by rewrite expected_nil.
    - by rewrite expected_nil.
    - rewrite expected_singleton_ne; [done|].
      unfold pl in Hnd. rewrite ?Ew, Hbias in Hnd. simpl in Hnd.
      apply NoDup_cons in Hnd as [Hnd _]. intros ->. apply Hnd. left. }
  intros _ mc (Hmods_c & Hie_c & Hdat_c). cbv beta. split.
  - exists mdb. rewrite Hmods_c. split; [done|].
    rewrite !Hab by not_in_names. done.
  - apply (holds_app W r _ _ m mb mc).
    + intros p. apply Hdat_b.
    + exact Hdat_c.
    + intros p Hp1 Hp2. unfold pl in Hnd. rewrite fmap_app in Hnd.
      apply NoDup_app in Hnd as (_ & Hdisj & _). by apply (Hdisj p).
Qed.

End Slice.

(** * What a rank holds after [parallelize] *)

Ltac in_names := apply (bool_decide_unpack _); vm_compute; exact I.

Section Stable.
Context {A : Type} (tp : TensorParallelMapping) (W : Z).
Implicit Types (m : Model A) (md : Module).

Lemma base_rescaled md : Sharded.base tp W md (RoundTrip.rescaled tp W md).
Proof. by repeat split. Qed.

Lemma base_touch J K i md md1 md2 :
  K ⊆ RoundTrip.engine_names ->
  Sharded.base tp W md md1 -> Frame.touch J K i md1 md2 ->
  Sharded.base tp W md md2.
Proof.
  intros HK (Hw & Hb & Ha) (Hw' & Hb' & Ha' & _).
  split; [congruence|]. split; [congruence|].
  intros name Hn. rewrite Ha', Ha; [done|done|].
  intros Hin. apply Hn. by apply HK.
Qed.

Lemma base_keeps K md md1 md2 :
  K ⊆ RoundTrip.engine_names ->
  Sharded.base tp W md md1 -> Frame.keeps K md1 md2 ->
  Sharded.base tp W md md2.
Proof.
  intros HK (Hw & Hb & Ha) (_ & Hw' & Hb' & Ha').
  split; [congruence|]. split; [congruence|].
  intros name Hn. rewrite Ha', Ha; [done|done|].
  intros Hin. apply Hn. by apply HK.
Qed.

Lemma orig_ok_keeps K e i md md1 md2 :
  "orig_module" ∉ K ->
  Sharded.orig_ok e i md md1 -> Frame.keeps K md1 md2 ->
  Sharded.orig_ok e i md md2.
Proof.
  intros HK Hok (Hc & _ & _ & Ha). unfold Sharded.orig_ok in *.
  destruct (decide (i = e)); [by rewrite Ha|].
  destruct (isinstance_Embedding (cls md)); [congruence|].
  destruct Hok as [Ho Hcl]. split; [by rewrite Ha|congruence].
Qed.

Lemma sliced_keeps K kd nm md md1 md2 :
  "fusion_degree" ∉ K -> "reversed" ∉ K -> "orig_module" ∉ K ->
  Sharded.sliced tp W kd nm md md1 -> Frame.keeps K md1 md2 ->
  Sharded.sliced tp W kd nm md md2.
Proof.
  intros H1 H2 H3 (HF & Hrev & Hc & Hcl) (Hcl' & _ & _ & Ha).
  split; [by rewrite Ha|]. split; [by rewrite Ha|].
  split; [by rewrite Ha|congruence].
Qed.

Lemma layer_attrs_keeps K r nm g md1 md2 :
  "reversed" ∉ K -> "gather_output" ∉ K ->
  (attrs md1 !! "mpu" = Some (VMpu (mpu (engine_of tp W (Z.of_nat r)))) ->
   attrs md2 !! "mpu" = Some (VMpu (mpu (engine_of tp W (Z.of_nat r))))) ->
  Sharded.layer_attrs tp W r nm g md1 -> Frame.keeps K md1 md2 ->
  Sharded.layer_attrs tp W r nm g md2.
Proof.
  intros H1 H2 Hmpu (Hm & Hrev & Hg) (_ & _ & _ & Ha).
  split; [by apply Hmpu|]. split; by rewrite Ha.
Qed.

Lemma embedding_attrs_keeps K r md md1 md2 :
  "num_embeddings" ∉ K ->
  (attrs md1 !! "mpu" = Some (VMpu (mpu (engine_of tp W (Z.of_nat r)))) ->
   attrs md2 !! "mpu" = Some (VMpu (mpu (engine_of tp W (Z.of_nat r))))) ->
  Sharded.embedding_attrs tp W r md md1 -> Frame.keeps K md1 md2 ->
  Sharded.embedding_attrs tp W r md md2.
Proof.
  intros H1 Hmpu (Hc & Hm & Hn) (Hc' & _ & _ & Ha).
  split; [congruence|]. split; [by apply Hmpu|]. by rewrite Ha.
Qed.

Lemma keeps_refl K md : Frame.keeps K md md.
Proof. by repeat split. Qed.

Lemma upd_attr_keeps j n v m i nm md :
  named_modules m !! i = Some (nm, md) ->
  exists md',
    named_modules
      (upd_module j (fun md => with_attrs md (<[n := v]> (attrs md))) m) !! i
    = Some (nm, md') /\
    Frame.keeps [n] md md' /\
    (attrs md !! n = Some v -> attrs md' !! n = Some v).
Proof.
  intros Hi. destruct (decide (j = i)) as [->|Hne].
  - eexists. split; [by apply upd_module_lookup|]. split.
    + split; [done|]. split; [done|]. split; [done|].
      intros name Hn. simpl. rewrite lookup_insert_ne; [done|].
      intros ->. apply Hn. left.
    + intros _. simpl. by rewrite lookup_insert_eq.
  - exists md. split; [by rewrite upd_module_lookup_ne|].
    split; [apply keeps_refl|done].
Qed.

End Stable.

Section Bodies.
Context {A : Type}.
Implicit Types (m : Model A) (md : Module).

(** One visit of the loop over the tied heads. *)
Lemma wp_tied_body (self : Engine) (w k : nat) nm md m :
  named_modules m !! k = Some (nm, md) ->
  Hoare.wp
    (name <- module_name k ;;
     md <- get_module k ;;
     if TensorParallelEngine1D.is_tied_head md w then
       update_module_arguments k
         [("mpu", VMpu (mpu self));
          ("reversed", VBool (is_reversed_param (tp_mapping self) name));
          ("fusion_degree", VInt 1);
          ("orig_module", VClass (cls md));
          ("gather_output", VBool true)] ;;
       set_class k ColumnParallelLinear
     else lret tt)%L
    (fun _ m1 =>
       (store m1 = store m /\
        (if TensorParallelEngine1D.is_tied_head md w
         then exists md1,
             named_modules m1 !! k = Some (nm, md1) /\
             attrs md1 !! "orig_module" = Some (VClass (cls md)) /\
             cls md1 = ColumnParallelLinear /\
             attrs md1 !! "mpu" = Some (VMpu (mpu self)) /\
             attrs md1 !! "reversed"
             = Some (VBool (is_reversed_param (tp_mapping self) nm)) /\
             attrs md1 !! "gather_output" = Some (VBool true)
         else m1 = m)) /\
       Frame.related (Frame.touch (eq k) RoundTrip.engine_names) m m1)
    m.
Proof.
  intros Hk. apply wp_frame.
  { pose proof (touch_refl (eq k) RoundTrip.engine_names).
    pose proof (touch_trans (eq k) RoundTrip.engine_names).
    touch_auto. }
  apply wp_bind. eapply wp_module_name; [exact Hk|]. cbv beta.
  apply wp_bind. eapply wp_get_module; [exact Hk|]. cbv beta.
  destruct (TensorParallelEngine1D.is_tied_head md w).
  - apply wp_bind. wp_step. wp_go. wp_go. wp_go. wp_go. wp_go. wp_go. wp_go.
    split; [done|]. eexists. split.
    { cbn [named_modules upd_module]. rewrite !list_lookup_alter_eq, Hk.
      reflexivity. }
    simpl. split; [attr_lookup|]. split; [done|]. repeat split; attr_lookup.
  - by apply wp_ret.
Qed.

End Bodies.

Section Parallelize.
Context {A : Type}.
Variables (tp : TensorParallelMapping) (W : Z) (m : Model A).
Variables (e : nat) (en : string) (emb : Module) (w0 : nat) (p0 : Param A).
Variable (r : nat).
Hypothesis HW : 1 <= W.
Hypothesis Hr : (r < Z.to_nat W)%nat.
Hypothesis Hint : Closed.attrs_int (update_attrs tp) m.
Hypothesis He : input_embeddings m = Some e.
Hypothesis Hemb : named_modules m !! e = Some (en, emb).
Hypothesis Hw0 : weight emb = Ref w0.
Hypothesis Hplan : NoDup (Sharded.full_plan tp W w0 (named_modules m)).*1.
Hypothesis Hp0 : store m !! w0 = Some p0.
Hypothesis Htable : Closed.sliceable 1 W 0 (data p0) = true.
Hypothesis Hready :
  forall i nmd, named_modules m !! i = Some nmd ->
    RoundTrip.module_ready tp W (store m) nmd = true.
Implicit Types (md : Module).

Lemma entries_in_plan i nmd x :
  named_modules m !! i = Some nmd -> x ∈ RoundTrip.entries tp W nmd ->
  x ∈ RoundTrip.plan tp W (named_modules m).
Proof.
  intros Hi Hx. rewrite (plan_split tp W _ _ _ Hi).
  apply elem_of_app. right. apply elem_of_app. by left.
Qed.

Lemma sharded_not_tied i nm md kd :
  named_modules m !! i = Some (nm, md) ->
  RoundTrip.kind_of tp nm = Some kd -> weight md <> Ref w0.
Proof.
  intros Hi Hkd Hw. unfold Sharded.full_plan in Hplan. simpl in Hplan.
  apply NoDup_cons in Hplan as [Hnot _]. apply Hnot.
  apply list_elem_of_fmap.
  exists (w0, (RoundTrip.fusion_of tp W kd nm md, RoundTrip.slice_dim tp kd nm)).
  split; [done|]. apply (entries_in_plan i (nm, md)); [done|].
  unfold RoundTrip.entries. simpl. rewrite Hkd, Hw.
  apply elem_of_app. left. left.
Qed.

Lemma ready_entries i nm md p F d :
  named_modules m !! i = Some (nm, md) ->
  (p, (F, d)) ∈ RoundTrip.entries tp W (nm, md) ->
  exists pp, store m !! p = Some pp /\ Closed.sliceable F W d (data pp) = true.
Proof.
  intros Hi Hin. pose proof (Hready _ _ Hi) as H.
  unfold RoundTrip.module_ready in H.
  destruct (RoundTrip.kind_of tp (nm, md).1) as [kd|] eqn:Ekd.
  - apply andb_prop in H as [H _]. apply andb_prop in H as [H _].
    rewrite forallb_forall in H. specialize (H (p, (F, d))).
    rewrite <- list_elem_of_In in H. specialize (H Hin). simpl in H.
    destruct (store m !! p) as [pp|]; [|done]. by exists pp.
  - unfold RoundTrip.entries in Hin. rewrite Ekd in Hin.
    by apply elem_of_nil in Hin.
Qed.

Lemma ready_weight i nm md kd w :
  named_modules m !! i = Some (nm, md) ->
  RoundTrip.kind_of tp nm = Some kd -> weight md = Ref w ->
  exists pp, store m !! w = Some pp /\ dim (data pp) = 2.
Proof.
  intros Hi Hkd Hw. pose proof (Hready _ _ Hi) as H.
  unfold RoundTrip.module_ready in H. simpl in H. rewrite Hkd, Hw in H.
  apply andb_prop in H as [H _]. apply andb_prop in H as [_ H].
  destruct (store m !! w) as [pp|]; [|done]. exists pp. split; [done|].
  by apply Z.eqb_eq.
Qed.

Lemma ready_bias i nm md kd b :
  named_modules m !! i = Some (nm, md) ->
  RoundTrip.kind_of tp nm = Some kd -> bias md = Ref b ->
  is_Some (store m !! b).
Proof.
  intros Hi Hkd Hb. pose proof (Hready _ _ Hi) as H.
  unfold RoundTrip.module_ready in H. simpl in H. rewrite Hkd, Hb in H.
  apply andb_prop in H as [_ H]. by apply bool_decide_eq_true_1 in H.
Qed.

(** The objects of the modules before [k] and of the module at [k] are
    different objects, and none is the table of the embedding. *)
Lemma plan_prefix_disjoint k nmd p :
  named_modules m !! k = Some nmd ->
  p ∈ ((w0, (1, 0)) :: RoundTrip.plan tp W (take k (named_modules m))).*1 ->
  p ∉ (RoundTrip.entries tp W nmd).*1.
Proof.
  intros Hk Hp Hq. unfold Sharded.full_plan in Hplan.
  rewrite (plan_split tp W _ _ _ Hk) in Hplan.
  rewrite app_assoc, app_comm_cons, fmap_app in Hplan.
  apply NoDup_app in Hplan as (Hnd & _ & _).
  rewrite app_comm_cons, fmap_app in Hnd.
  apply NoDup_app in Hnd as (_ & Hdisj & _).
  by apply (Hdisj p).
Qed.

Lemma entries_nodup k nmd :
  named_modules m !! k = Some nmd -> NoDup (RoundTrip.entries tp W nmd).*1.
Proof.
  intros Hk. unfold Sharded.full_plan in Hplan.
  rewrite (plan_split tp W _ _ _ Hk) in Hplan.
  rewrite app_assoc, app_comm_cons, fmap_app in Hplan.
  apply NoDup_app in Hplan as (Hnd & _ & _).
  rewrite app_comm_cons, fmap_app in Hnd.
  by apply NoDup_app in Hnd as (_ & _ & Hnd).
Qed.

Notation self := (engine_of tp W (Z.of_nat r)).
Notation R := (RoundTrip.rescaled tp W).
Notation m1 := (Closed.map_modules (RoundTrip.rescaled tp W) m).

Lemma par_rescale :
  TensorParallelEngine1D._update_mp_arguments self m = (Ok tt, m1).
Proof.
  apply (parallel_update_mp_arguments_closed self m); [simpl; lia|done].
Qed.

(** After [_parallelize_embedding]. *)
Lemma par_embedding :
  Hoare.wp (TensorParallelEngine1D._parallelize_embedding self)
    (fun _ m2 =>
       input_embeddings m2 = Some e /\
       length (named_modules m2) = length (named_modules m) /\
       (forall i nm md,
           named_modules m !! i = Some (nm, md) ->
           exists md',
             named_modules m2 !! i = Some (nm, md') /\
             Sharded.base tp W md md' /\
             (weight md <> Ref w0 -> md' = R md) /\
             (weight md = Ref w0 -> Sharded.orig_ok e i md md') /\
             (i = e -> Sharded.embedding_attrs tp W r md md') /\
             (TensorParallelEngine1D.is_tied_head md w0 = true -> i <> e ->
              Sharded.layer_attrs tp W r nm true md')) /\
       Sharded.holds W r [(w0, (1, 0))] m m2)
    m1.
Proof.
  unfold TensorParallelEngine1D._parallelize_embedding.
  apply wp_bind. apply wp_get. cbv beta.
  cbn [input_embeddings Closed.map_modules]. rewrite He. cbv zeta.
  assert (He1 : named_modules m1 !! e = Some (en, R emb)).
  { by rewrite map_modules_lookup, Hemb. }
  apply wp_bind. eapply wp_get_module; [exact He1|]. cbv beta.
  apply wp_bind. unfold TensorParallelEngine1D.weight_ref.
  cbn [weight RoundTrip.rescaled with_attrs]. rewrite Hw0.
  apply wp_ret. cbv beta.
  apply wp_bind. eapply wp_get_param; [exact Hp0|]. cbv beta.
  destruct (chunk_index_shard W (Z.of_nat r) (data p0) Htable ltac:(lia))
    as (chunks & Hchunks & Hindex).
  rewrite Nat2Z.id in Hindex.
  apply wp_bind. eapply wp_lift; [exact Hchunks|]. cbv beta.
  apply wp_bind. eapply wp_lift; [exact Hindex|]. cbv beta.
  set (sh := Closed.shard 1 (Z.to_nat W) r 0 (data p0)).
  wp_go. wp_go.
  apply wp_bind. wp_step. wp_go. wp_go. wp_go. wp_go.
  match goal with |- Hoare.wp _ _ ?m0 => set (ma := m0) end.
  set (N := length (named_modules m)).
  (* the state before the loop *)
  assert (Hie_a : input_embeddings ma = Some e) by exact He.
  assert (Hlen_a : length (named_modules ma) = N).
  { unfold ma. cbn [named_modules upd_module upd_param].
    rewrite !length_alter. apply map_modules_length. }
  assert (Hdat_a : Sharded.holds W r [(w0, (1, 0))] m ma).
  { intros p. unfold ma. rewrite !dat_upd_module.
    destruct (decide (w0 = p)) as [<-|Hne].
    - rewrite dat_upd_param_same by done. rewrite dat_set_data.
      unfold RoundTrip.dat. cbn [store Closed.map_modules]. rewrite Hp0. simpl.
      by rewrite expected_singleton_eq.
    - rewrite !dat_upd_param_ne by done. unfold RoundTrip.dat.
      cbn [store Closed.map_modules].
      destruct (store m !! p) as [x|]; [|done]. simpl.
      by rewrite expected_singleton_ne. }
  assert (Hmods_a : forall i nm md,
             named_modules m !! i = Some (nm, md) ->
             exists md',
               named_modules ma !! i = Some (nm, md') /\
               Sharded.base tp W md md' /\
               (i <> e -> md' = R md) /\
               (i = e -> Sharded.orig_ok e i md md' /\
                         Sharded.embedding_attrs tp W r md md')).
  { intros i nm md Hi. unfold ma. cbn [named_modules upd_module upd_param].
    destruct (decide (i = e)) as [->|Hne].
    - rewrite Hi in Hemb. injection Hemb as -> ->.
      rewrite !list_lookup_alter_eq, map_modules_lookup, Hi.
      eexists. split; [reflexivity|]. simpl. split; [|split; [done|]].
      + split; [done|]. split; [done|]. intros name Hn. simpl.
        rewrite !lookup_insert_ne; [done|..]; intros <-; apply Hn; in_names.
      + intros _. split.
        * unfold Sharded.orig_ok.
          rewrite decide_True by done. simpl. attr_lookup.
        * split; [done|]. simpl. split; attr_lookup.
    - rewrite !list_lookup_alter_ne by done. rewrite map_modules_lookup, Hi.
      eexists. split; [reflexivity|]. simpl.
      split; [apply base_rescaled|]. split; [done|]. done. }
  clearbody ma.
  unfold module_ids. rewrite map_modules_length. fold N.
  set (I := fun (k : nat) (m' : Model A) =>
    input_embeddings m' = Some e /\
    length (named_modules m') = N /\
    Sharded.holds W r [(w0, (1, 0))] m m' /\
    forall i nm md,
      named_modules m !! i = Some (nm, md) ->
      exists md',
        named_modules m' !! i = Some (nm, md') /\
        Sharded.base tp W md md' /\
        (weight md <> Ref w0 -> md' = R md) /\
        ((k <= i)%nat -> i <> e -> md' = R md) /\
        (i = e -> Sharded.embedding_attrs tp W r md md') /\
        (weight md = Ref w0 -> (i < k)%nat \/ i = e ->
         Sharded.orig_ok e i md md') /\
        (TensorParallelEngine1D.is_tied_head md w0 = true -> i <> e ->
         (i < k)%nat -> Sharded.layer_attrs tp W r nm true md')).
  eapply wp_conseq.
  { apply (wp_for_each_seq _ I 0 N).
    - intros k m0 Hk (Hie0 & Hlen0 & Hdat0 & Hmods0). cbv beta.
      destruct (lookup_lt_is_Some_2 (named_modules m) k) as [[nm md] Hkm];
        [fold N; lia|].
      destruct (Hmods0 _ _ _ Hkm)
        as (mdk & Hk0 & Hbase & Hfresh & Hunv & Hcle & Hok & Hlay).
      assert (Hnot_e : TensorParallelEngine1D.is_tied_head mdk w0 = true ->
                k <> e).
      { intros Et ->. unfold TensorParallelEngine1D.is_tied_head in Et.
        destruct (Hcle eq_refl) as [Hce _]. rewrite Hce in Et. simpl in Et.
        by rewrite andb_false_r in Et. }
      eapply wp_conseq; [apply (wp_tied_body self w0 k nm mdk m0 Hk0)|].
      intros _ m' ((Hst & Htied) & Hrel). cbv beta.
      destruct Hrel as (Hie' & Hlen' & Hmods').
      split; [congruence|]. split; [congruence|]. split.
      { intros p. unfold RoundTrip.dat. rewrite Hst. apply Hdat0. }
      intros i nm' md' Hi.
      destruct (Hmods0 _ _ _ Hi)
        as (mdi & Hi0 & Hbase_i & Hfresh_i & Hunv_i & Hcle_i & Hok_i & Hlay_i).
      destruct (Hmods' _ _ _ Hi0) as (mdi' & Hi' & Htouch).
      exists mdi'. split; [done|].
      split; [by eapply base_touch|].
      destruct (decide (k = i)) as [<-|Hne].
      + rewrite Hkm in Hi. injection Hi as <- <-.
        rewrite Hk0 in Hi0. injection Hi0 as <-.
        destruct (TensorParallelEngine1D.is_tied_head mdk w0) eqn:Et.
        * destruct Htied as (md1 & Hk1 & Horig & Hcl1 & Hampu & Harev & Hag).
          rewrite Hi' in Hk1. injection Hk1 as <-.
          pose proof (Hnot_e eq_refl) as Hke.
          pose proof (Hunv ltac:(lia) Hke) as Hmdk. subst mdk.
          unfold TensorParallelEngine1D.is_tied_head in Et.
          cbn [weight cls RoundTrip.rescaled with_attrs] in Et, Horig.
          apply andb_prop in Et as [Et _]. apply andb_prop in Et as [Et Hni].
          apply bool_decide_eq_true_1 in Et.
          split; [done|]. split; [lia|]. split; [done|]. split.
          { intros _ _.
            unfold Sharded.orig_ok. rewrite decide_False by done.
            destruct (isinstance_Embedding (cls md)); [done|]. by split. }
          intros _ _ _. by split.
        * subst m'. rewrite Hk0 in Hi'. injection Hi' as <-.
          split; [done|]. split; [lia|]. split; [done|]. split.
          { intros Hw _.
            destruct (decide (k = e)) as [Hke|Hke];
              [apply Hok; [done|by right]|].
            unfold Sharded.orig_ok. rewrite decide_False by done.
            rewrite (Hunv ltac:(lia) Hke) in Et |- *.
            unfold TensorParallelEngine1D.is_tied_head in Et.
            cbn [weight cls RoundTrip.rescaled with_attrs] in Et |- *.
            rewrite bool_decide_eq_true_2 in Et by done.
            destruct (isinstance_Embedding (cls md)) eqn:Ee; [done|].
            by destruct (cls md). }
          intros Ht Hke _. rewrite (Hunv ltac:(lia) Hke) in Et.
          change (TensorParallelEngine1D.is_tied_head md w0 = false) in Et.
          congruence.
      + destruct Htouch as (_ & _ & _ & Heq). rewrite (Heq Hne).
        split; [done|]. split; [intros; apply Hunv_i; [lia|done]|].
        split; [done|]. split.
        { intros Hw Hlt. apply Hok_i; [done|]. lia. }
        intros Ht Hie Hlt. apply Hlay_i; [done|done|lia].
    - split; [done|]. split; [done|]. split; [done|].
      intros i nm md Hi. destruct (Hmods_a _ _ _ Hi) as (md' & Hi' & Hb & Hne & Heq).
      exists md'. split; [done|]. split; [done|]. split.
      { intros Hw. apply Hne. intros ->. rewrite Hi in Hemb.
        injection Hemb as -> ->. done. }
      split; [auto|]. split; [intros Hie; by apply Heq|]. split.
      { intros Hw [Hlt|Hie]; [lia|by apply Heq]. }
      intros _ _ Hlt. lia. }
  intros _ m' (Hie' & Hlen' & Hdat' & Hmods'). cbv beta.
  split; [done|]. split; [done|]. split; [|done].
  intros i nm md Hi.
  destruct (Hmods' _ _ _ Hi)
    as (md' & Hi' & Hb & Hfresh & _ & Hcle & Hok & Hlay).
  assert (Hlt : (i < 0 + N)%nat).
  { simpl. apply lookup_lt_Some in Hi. by fold N in Hi. }
  exists md'. split; [done|]. split; [done|]. split; [done|].
  split; [|split; [done|]].
  - intros Hw. apply Hok; [done|]. by left.
  - intros Ht Hie. by apply Hlay.
Qed.


Lemma wp_of_run {X : Type} (c : L A X) (Q : X -> Model A -> Prop) m0 x m' :
  c m0 = (Ok x, m') -> Q x m' -> Hoare.wp c Q m0.
Proof. intros Hrun HQ. by exists x, m'. Qed.

(** One visit of the loop of [_parallelize_modules], at a module that no
    earlier visit has changed. *)
Lemma wp_modules_body k nm md mdk m0 :
  named_modules m !! k = Some (nm, md) ->
  named_modules m0 !! k = Some (nm, mdk) ->
  (RoundTrip.kind_of tp nm <> None -> mdk = R md) ->
  (forall p, p ∈ (RoundTrip.entries tp W (nm, md)).*1 ->
     RoundTrip.dat m0 p = RoundTrip.dat m p) ->
  (forall p, is_Some (store m !! p) -> is_Some (store m0 !! p)) ->
  Hoare.wp
    (param_name <- module_name k ;;
     md <- get_module k ;;
     if is_column_parallel (tp_mapping self) param_name then
       TensorParallelEngine1D._column_slice self k
         (get_combined_qkv_degree (tp_mapping self) param_name md)
         (is_reversed_param (tp_mapping self) param_name) ;;
       set_class k ColumnParallelLinear
     else if is_row_parallel (tp_mapping self) param_name then
       TensorParallelEngine1D._row_slice self k 1
         (is_reversed_param (tp_mapping self) param_name) ;;
       set_class k RowParallelLinear
     else lret tt)%L
    (fun _ m' =>
       ((RoundTrip.kind_of tp nm = None -> m' = m0) /\
        (forall kd, RoundTrip.kind_of tp nm = Some kd ->
           exists md1, named_modules m' !! k = Some (nm, md1) /\
                       Sharded.sliced tp W kd nm md md1 /\
                       Sharded.layer_attrs tp W r nm false md1) /\
        (forall p,
           RoundTrip.dat m' p
           = RoundTrip.expected W r (RoundTrip.entries tp W (nm, md)) p
             <$> RoundTrip.dat m0 p)) /\
       Frame.related (Frame.touch (eq k) RoundTrip.engine_names) m0 m')
    m0.
Proof.
  intros Hk Hk0 Hfresh Hdat Hstore. apply wp_frame.
  { pose proof (touch_refl (eq k) RoundTrip.engine_names).
    pose proof (touch_trans (eq k) RoundTrip.engine_names).
    unfold TensorParallelEngine1D._column_slice, TensorParallelEngine1D._row_slice.
    repeat first [apply touch_slice | apply touch_set_class; done | preserves_step]. }
  apply wp_bind. eapply wp_module_name; [exact Hk0|]. cbv beta.
  apply wp_bind. eapply wp_get_module; [exact Hk0|]. cbv beta.
  cbn [tp_mapping engine_of].
  assert (Hparam : forall p F d,
            (p, (F, d)) ∈ RoundTrip.entries tp W (nm, md) ->
            exists pp, store m0 !! p = Some pp /\
                       Closed.sliceable F W d (data pp) = true /\
                       (forall pp0, store m !! p = Some pp0 -> data pp = data pp0)).
  { intros p F d Hin. destruct (ready_entries k nm md p F d Hk Hin) as (pp0 & Hpp0 & Hs).
    assert (Hp : p ∈ (RoundTrip.entries tp W (nm, md)).*1).
    { apply list_elem_of_fmap. by exists (p, (F, d)). }
    pose proof (Hdat p Hp) as Hd. unfold RoundTrip.dat at 2 in Hd.
    rewrite Hpp0 in Hd. simpl in Hd.
    apply dat_Some in Hd as (pp & Hpp & Hdata). exists pp. split; [done|].
    split; [by rewrite Hdata|]. intros pp1 Hpp1. congruence. }
  destruct (is_column_parallel tp nm) eqn:Ecol;
    [|destruct (is_row_parallel tp nm) eqn:Erow].
  - (* column-parallel *)
    assert (Hkind : RoundTrip.kind_of tp nm = Some RoundTrip.Column).
    { unfold RoundTrip.kind_of. by rewrite Ecol. }
    assert (mdk = R md) as -> by (apply Hfresh; by rewrite Hkind).
    set (F := get_combined_qkv_degree tp nm (R md)).
    set (rev := is_reversed_param tp nm).
    assert (Hent : RoundTrip.entries tp W (nm, md)
                   = match weight (R md) with
                     | Ref w => [(w, (F, if negb rev then 0 else Z.abs (0 - 1)))]
                     | _ => []
                     end
                     ++ (if true
                         then match bias (R md) with
                              | Ref b => [(b, (F, 0))]
                              | _ => []
                              end
                         else [])).
    { unfold RoundTrip.entries. simpl. rewrite Hkind. reflexivity. }
    unfold TensorParallelEngine1D._column_slice.
    apply wp_bind. eapply wp_conseq.
    { apply (wp_slice W r Hr tp k rev F true 0 nm (R md) m0 Hk0).
      - rewrite <- Hent. by eapply entries_nodup.
      - intros w Hw. simpl in Hw.
        destruct (Hparam w F (if negb rev then 0 else Z.abs (0 - 1)))
          as (pp & Hpp & Hs & Hdata).
        { rewrite Hent. simpl. rewrite Hw. apply elem_of_app. left. left. }
        exists pp. split; [done|]. split; [done|].
        destruct (ready_weight k nm md _ w Hk Hkind Hw) as (pp0 & Hpp0 & Hdim).
        by rewrite (Hdata pp0 Hpp0).
      - intros b Hb. simpl in Hb.
        destruct (Hparam b F 0) as (pb & Hpb & Hs & _).
        { rewrite Hent. simpl. rewrite Hb. apply elem_of_app. right. left. }
        exists pb. split; [done|]. done. }
    intros _ ms ((md1 & Hk1 & HaF & Harev & Haorig & Hampu & Hag) & Hholds).
    cbv beta.
    wp_step. split; [intros Hnone; congruence|]. split.
    + intros kd Hkd. rewrite Hkind in Hkd. injection Hkd as <-.
      eexists. split; [by apply upd_module_lookup|]. split.
      * split; [exact HaF|]. split; [exact Harev|]. split; [exact Haorig|done].
      * split; [exact Hampu|]. split; [exact Harev|exact Hag].
    + intros p. rewrite dat_upd_module, Hent. apply Hholds.
  - (* row-parallel *)
    assert (Hkind : RoundTrip.kind_of tp nm = Some RoundTrip.Row).
    { unfold RoundTrip.kind_of. by rewrite Ecol, Erow. }
    assert (mdk = R md) as -> by (apply Hfresh; by rewrite Hkind).
    set (rev := is_reversed_param tp nm).
    assert (Hent : RoundTrip.entries tp W (nm, md)
                   = match weight (R md) with
                     | Ref w => [(w, (1, if negb rev then 1 else Z.abs (1 - 1)))]
                     | _ => []
                     end
                     ++ (if false
                         then match bias (R md) with
                              | Ref b => [(b, (1, 0))]
                              | _ => []
                              end
                         else [])).
    { unfold RoundTrip.entries. simpl. rewrite Hkind. reflexivity. }
    unfold TensorParallelEngine1D._row_slice.
    apply wp_bind. eapply wp_conseq.
    { apply (wp_slice W r Hr tp k rev 1 false 1 nm (R md) m0 Hk0).
      - rewrite <- Hent. by eapply entries_nodup.
      - intros w Hw. simpl in Hw.
        destruct (Hparam w 1 (if negb rev then 1 else Z.abs (1 - 1)))
          as (pp & Hpp & Hs & Hdata).
        { rewrite Hent. simpl. rewrite Hw. apply elem_of_app. left. left. }
        exists pp. split; [done|]. split; [done|].
        destruct (ready_weight k nm md _ w Hk Hkind Hw) as (pp0 & Hpp0 & Hdim).
        by rewrite (Hdata pp0 Hpp0).
      - intros b Hb. simpl in Hb.
        destruct (Hstore b (ready_bias k nm md _ b Hk Hkind Hb)) as [pb Hpb].
        exists pb. split; [done|]. done. }
    intros _ ms ((md1 & Hk1 & HaF & Harev & Haorig & Hampu & Hag) & Hholds).
    cbv beta.
    wp_step. split; [intros Hnone; congruence|]. split.
    + intros kd Hkd. rewrite Hkind in Hkd. injection Hkd as <-.
      eexists. split; [by apply upd_module_lookup|]. split.
      * split; [exact HaF|]. split; [exact Harev|]. split; [exact Haorig|done].
      * split; [exact Hampu|]. split; [exact Harev|exact Hag].
    + intros p. rewrite dat_upd_module, Hent. apply Hholds.
  - (* neither *)
    assert (Hkind : RoundTrip.kind_of tp nm = None).
    { unfold RoundTrip.kind_of. by rewrite Ecol, Erow. }
    apply wp_ret. split; [done|]. split; [intros kd Hkd; congruence|].
    intros p. unfold RoundTrip.entries. simpl. rewrite Hkind.
    by rewrite fmap_expected_nil.
Qed.

(** After [_parallelize_modules]. *)
Lemma par_modules m2 :
  input_embeddings m2 = Some e ->
  length (named_modules m2) = length (named_modules m) ->
  (forall i nm md,
      named_modules m !! i = Some (nm, md) ->
      exists md',
        named_modules m2 !! i = Some (nm, md') /\
        Sharded.base tp W md md' /\
        (weight md <> Ref w0 -> md' = R md) /\
        (weight md = Ref w0 -> Sharded.orig_ok e i md md') /\
        (i = e -> Sharded.embedding_attrs tp W r md md') /\
        (TensorParallelEngine1D.is_tied_head md w0 = true -> i <> e ->
         Sharded.layer_attrs tp W r nm true md')) ->
  Sharded.holds W r [(w0, (1, 0))] m m2 ->
  Hoare.wp (TensorParallelEngine1D._parallelize_modules self)
    (fun _ m3 => Sharded.after_parallelize tp W m e w0 r m3) m2.
Proof.
  intros Hie2 Hlen2 Hmods2 Hdat2.
  unfold TensorParallelEngine1D._parallelize_modules.
  apply wp_bind. apply wp_get. cbv beta.
  unfold module_ids. rewrite Hlen2.
  set (N := length (named_modules m)).
  set (I := fun (k : nat) (m' : Model A) =>
    input_embeddings m' = Some e /\
    length (named_modules m') = N /\
    Sharded.holds W r
      ((w0, (1, 0)) :: RoundTrip.plan tp W (take k (named_modules m))) m m' /\
    forall i nm md,
      named_modules m !! i = Some (nm, md) ->
      exists md',
        named_modules m' !! i = Some (nm, md') /\
        Sharded.base tp W md md' /\
        (weight md = Ref w0 -> Sharded.orig_ok e i md md') /\
        (i = e -> Sharded.embedding_attrs tp W r md md') /\
        ((k <= i)%nat -> weight md <> Ref w0 -> md' = R md) /\
        ((i < k)%nat -> forall kd, RoundTrip.kind_of tp nm = Some kd ->
                                   Sharded.sliced tp W kd nm md md' /\
                                   Sharded.layer_attrs tp W r nm false md') /\
        (weight md <> Ref w0 -> RoundTrip.kind_of tp nm = None ->
         cls md' = cls md) /\
        (TensorParallelEngine1D.is_tied_head md w0 = true -> i <> e ->
         Sharded.layer_attrs tp W r nm true md')).
  eapply wp_conseq.
  { apply (wp_for_each_seq _ I 0 N).
    - intros k m0 Hk (Hie0 & Hlen0 & Hdat0 & Hmods0). cbv beta.
      destruct (lookup_lt_is_Some_2 (named_modules m) k) as [[nm md] Hkm];
        [fold N; lia|].
      destruct (Hmods0 _ _ _ Hkm)
        as (mdk & Hk0 & Hbase & Hok & Hcle & Hunv & _ & Hcls & Hlay).
      assert (Hout : forall p, p ∈ (RoundTrip.entries tp W (nm, md)).*1 ->
                p ∉ ((w0, (1, 0))
                       :: RoundTrip.plan tp W (take k (named_modules m))).*1).
      { intros p Hp Hq. by eapply plan_prefix_disjoint. }
      eapply wp_conseq.
      { apply (wp_modules_body k nm md mdk m0 Hkm Hk0).
        - intros Hkind. apply Hunv; [lia|].
          destruct (RoundTrip.kind_of tp nm) as [kd|] eqn:Ekd; [|done].
          by eapply sharded_not_tied.
        - intros p Hp. rewrite (Hdat0 p).
          destruct (RoundTrip.dat m p) as [t|]; [|done]. simpl.
          by rewrite expected_not_in by auto.
        - intros p [x Hx]. pose proof (Hdat0 p) as Hd.
          unfold RoundTrip.dat in Hd. rewrite Hx in Hd.
          destruct (store m0 !! p); [by eexists|done]. }
      intros _ m' ((Hnone & Hsl & Hdat') & Hrel). cbv beta.
      destruct Hrel as (Hie' & Hlen' & Hmods').
      split; [congruence|]. split; [congruence|]. split.
      { rewrite (plan_take_S tp W _ _ _ Hkm), app_comm_cons.
        apply (holds_app W r _ _ m m0 m'); [done|done|].
        intros p Hp Hq. by apply (Hout p). }
      intros i nm' md' Hi.
      destruct (Hmods0 _ _ _ Hi)
        as (mdi & Hi0 & Hbase_i & Hok_i & Hcle_i & Hunv_i & Hsl_i & Hcls_i
            & Hlay_i).
      destruct (Hmods' _ _ _ Hi0) as (mdi' & Hi' & Htouch).
      exists mdi'. split; [done|].
      split; [by eapply base_touch|].
      destruct (decide (k = i)) as [<-|Hne].
      + rewrite Hkm in Hi. injection Hi as <- <-.
        rewrite Hk0 in Hi0. injection Hi0 as <-.
        destruct (RoundTrip.kind_of tp nm) as [kd|] eqn:Ekd.
        * pose proof (sharded_not_tied k nm md kd Hkm Ekd) as Hnw.
          split; [done|]. split.
          { intros ->. rewrite Hkm in Hemb. injection Hemb as -> ->. done. }
          split; [lia|]. split; [|split; [done|]].
          { intros _ kd' Hkd'. injection Hkd' as <-.
            destruct (Hsl kd eq_refl) as (md1 & Hk1 & Hsliced).
            rewrite Hi' in Hk1. by injection Hk1 as <-. }
          intros Ht _. unfold TensorParallelEngine1D.is_tied_head in Ht.
          rewrite bool_decide_eq_false_2 in Ht by done. done.
        * rewrite (Hnone eq_refl) in Hi'. rewrite Hk0 in Hi'. injection Hi' as <-.
          split; [done|]. split; [done|]. split; [lia|].
          split; [|done]. intros _ kd' Hkd'. done.
      + destruct Htouch as (_ & _ & _ & Heq). rewrite (Heq Hne).
        split; [done|]. split; [done|].
        split; [intros; apply Hunv_i; [lia|done]|].
        split; [|done]. intros Hlt. apply Hsl_i. lia.
    - split; [done|]. split; [done|]. split; [by rewrite take_0|].
      intros i nm md Hi.
      destruct (Hmods2 _ _ _ Hi)
        as (md' & Hi' & Hb & Hfresh & Hok & Hcle & Hlay).
      exists md'. split; [done|]. split; [done|]. split; [done|].
      split; [done|]. split; [auto|]. split; [intros Hlt; lia|].
      split; [|done]. intros Hw _. by rewrite (Hfresh Hw). }
  intros _ m' (Hie' & Hlen' & Hdat' & Hmods'). cbv beta.
  split; [done|]. split; [done|]. split.
  - intros i nm md Hi.
    destruct (Hmods' _ _ _ Hi)
      as (md' & Hi' & Hb & Hok & Hcle & _ & Hsl & Hcls & Hlay).
    assert (Hlt : (i < 0 + N)%nat).
    { simpl. apply lookup_lt_Some in Hi. by fold N in Hi. }
    exists md'. split; [done|]. split; [done|]. split; [done|].
    split; [done|]. split; [|split; [done|split; [|done]]].
    + intros kd Hkd. by destruct (Hsl Hlt kd Hkd).
    + intros kd Hkd. by destruct (Hsl Hlt kd Hkd).
  - unfold Sharded.full_plan. simpl in Hdat'. fold N in Hdat'.
    by rewrite take_ge in Hdat' by (fold N; lia).
Qed.

(** What rank [r] holds after [parallelize]. *)
Lemma par_all :
  Hoare.wp (TensorParallelEngine1D.parallelize self)
    (fun _ m' => Sharded.after_parallelize tp W m e w0 r m') m.
Proof.
  unfold TensorParallelEngine1D.parallelize.
  apply wp_bind. eapply wp_of_run; [apply par_rescale|].
  apply wp_bind. eapply wp_conseq; [apply par_embedding|].
  intros _ m2 (Hie2 & Hlen2 & Hmods2 & Hdat2). cbv beta.
  apply wp_bind. eapply wp_conseq; [by apply par_modules|].
  intros _ m3 (Hie3 & Hlen3 & Hmods3 & Hdat3). cbv beta.
  unfold TensorParallelEngine1D._postprocess. cbv zeta.
  apply wp_bind. apply wp_bind. apply wp_get. cbv beta. apply wp_put.
  wp_step. wp_go. wp_go.
  match goal with
  | |- Sharded.after_parallelize _ _ _ _ _ _ (upd_module _ _ ?m0) => set (m4 := m0)
  end.
  split; [done|]. split; [by rewrite upd_module_length|]. split.
  - intros i nm md Hi.
    destruct (Hmods3 _ _ _ Hi)
      as (md3 & Hi3 & Hb & Hok & Hcle & Hsl & Hcls & Hlf & Hlt).
    destruct (upd_attr_keeps 0%nat "mpu"
                (VMpu (mpu self)) m4 i nm md3 Hi3)
      as (md' & Hi' & Hkeeps & Hsame).
    exists md'. split; [exact Hi'|].
    split; [eapply base_keeps; [|exact Hb|exact Hkeeps]|].
    { intros x Hx. apply list_elem_of_singleton in Hx. subst x. in_names. }
    pose proof Hkeeps as (Hcl' & _).
    split; [|split; [|split; [|split; [|split]]]].
    + intros Hw. eapply orig_ok_keeps; [|by apply Hok|exact Hkeeps]. not_in_names.
    + intros Hie.
      eapply embedding_attrs_keeps;
        [|exact Hsame|by apply Hcle|exact Hkeeps]. not_in_names.
    + intros kd Hkd.
      eapply sliced_keeps; [..|by apply Hsl|exact Hkeeps]; not_in_names.
    + intros Hw Hkd. rewrite Hcl'. by apply Hcls.
    + intros kd Hkd.
      eapply layer_attrs_keeps;
        [| |exact Hsame|by eapply Hlf|exact Hkeeps]; not_in_names.
    + intros Ht Hie.
      eapply layer_attrs_keeps;
        [| |exact Hsame|by apply Hlt|exact Hkeeps]; not_in_names.
  - apply (holds_frame W r _ m m3); [done|].
    intros p. rewrite dat_upd_module. unfold m4, RoundTrip.dat. cbn [store].
    rewrite lookup_fmap. destruct (store m3 !! p) as [x|]; [|done]. simpl.
    by destruct (is_cuda x).
Qed.

End Parallelize.

(** * [_merge] on the shards of a group *)

Ltac wpt_go :=
  cbv beta zeta;
  lazymatch goal with
  | |- Hoare.wpt (cbind (local _) _) _ _ _ => apply wpt_bind_local; cbv beta zeta
  | |- Hoare.wpt (local _) _ _ _ => apply wpt_local; cbv beta zeta
  | |- Hoare.wpt (cret _) _ _ _ => apply wpt_cret
  end.

Section Merge.
Context {A : Type}.
Variables (W : Z) (r : nat).
Hypothesis HW : 1 <= W.
Hypothesis Hr : (r < Z.to_nat W)%nat.
Implicit Types (m : Model A) (md : Module).
Variable (st0 : gmap nat (Param A)).

Lemma wpt_bind_ret {X Y : Type} (c : M A X) (f : X -> M A Y) tr Q m x m1 :
  c m = Ret (Ok x, m1) -> Hoare.wpt (f x) tr Q m1 ->
  Hoare.wpt (cbind c f) tr Q m.
Proof.
  intros Hc (y & m' & Hf & HQ). exists y, m'. split; [|done].
  by rewrite (cbind_ret_ok _ _ _ _ _ Hc).
Qed.

Lemma ensure_cuda_run p x m :
  store m !! p = Some x ->
  exists m1 x1,
    TensorDeparallelEngine1D.ensure_cuda p m = Ret (Ok tt, m1) /\
    named_modules m1 = named_modules m /\
    input_embeddings m1 = input_embeddings m /\
    store m1 !! p = Some x1 /\
    data x1 = data x /\
    forall q, RoundTrip.dat m1 q = RoundTrip.dat m q.
Proof.
  intros Hx. unfold TensorDeparallelEngine1D.ensure_cuda.
  rewrite (cbind_local_ok _ _ _ _ _ (get_param_ok p m x Hx)).
  destruct (is_cuda x).
  - exists m, x. by repeat split.
  - eexists _, _. split; [reflexivity|]. split; [done|]. split; [done|].
    split; [|split].
    + cbn [store upd_param]. by rewrite lookup_alter_eq, Hx.
    + done.
    + intros q. by apply dat_upd_param_same.
Qed.

Lemma responses_gathers_nil n :
  RoundTrip.responses n (RoundTrip.gathers W (A := A) ∅ []) r = [].
Proof. done. Qed.

Lemma responses_gathers_one n p F d pp0 :
  st0 !! p = Some pp0 ->
  RoundTrip.responses n (RoundTrip.gathers W st0 [(p, (F, d))]) r
  = [(OpAllGather,
      Closed.shard (Z.to_nat F) (Z.to_nat W) r d (data pp0),
      (fun r' => Closed.shard (Z.to_nat F) (Z.to_nat W) r' d (data pp0))
        <$> seq 0 n)].
Proof.
  intros H. unfold RoundTrip.responses, RoundTrip.gathers. simpl.
  by rewrite H.
Qed.

(** What a rank sends and what comes back have one shape. *)
Lemma gathered_shapes (F d : Z) (t : Tensor A) :
  Closed.sliceable F W d t = true ->
  Z.of_nat (length ((fun r' => Closed.shard (Z.to_nat F) (Z.to_nat W) r' d t)
                      <$> seq 0 (Z.to_nat W))) = W /\
  Forall (fun t' => size (Closed.shard (Z.to_nat F) (Z.to_nat W) r d t) = size t')
    ((fun r' => Closed.shard (Z.to_nat F) (Z.to_nat W) r' d t)
       <$> seq 0 (Z.to_nat W)).
Proof.
  intros Hs. split.
  - rewrite length_fmap, length_seq. lia.
  - apply Forall_fmap, Forall_forall. intros r' Hr'. apply elem_of_seq in Hr'.
    simpl. apply shard_size; [done|done|lia].
Qed.

Notation merge_names := ["mpu"; "in_features"; "out_features"; "nx"; "nf"].

Lemma wpt_merge_weight (i : nat) (F d : Z) (sl : Slot) m :
  (forall w, sl = Ref w ->
     exists pp0 pp,
       st0 !! w = Some pp0 /\ store m !! w = Some pp /\
       Closed.sliceable F W d (data pp0) = true /\
       dim (data pp0) = 2 /\
       data pp = Closed.shard (Z.to_nat F) (Z.to_nat W) r d (data pp0)) ->
  Hoare.wpt
    (match sl with
     | Ref w =>
         pw <- local (get_param w) ;;
         if 1 <=? dim (data pw) then
           TensorDeparallelEngine1D.ensure_cuda w ;;
           pw <- local (get_param w) ;;
           tensor_list <- dist_all_gather W (data pw) ;;
           output <- local (lift (TensorDeparallelEngine1D.merge_tensors
                                    tensor_list (VInt F) d)) ;;
           local (set_data w output) ;;
           size0 <- local (lift (Py.index (size output) 0)) ;;
           size1 <- local (lift (Py.index (size output) 1)) ;;
           local (update_module_arguments i
                    [("in_features", VInt size0);
                     ("out_features", VInt size1);
                     ("nx", VInt size0);
                     ("nf", VInt size1)])
         else cret tt
     | _ => cret tt
     end)%M
    (RoundTrip.responses (Z.to_nat W)
       (RoundTrip.gathers W st0
          (match sl with Ref w => [(w, (F, d))] | _ => [] end)) r)
    (fun _ m1 =>
       input_embeddings m1 = input_embeddings m /\
       (exists g, named_modules m1 = named_modules (upd_module i g m) /\
                  forall md, Frame.keeps merge_names md (g md)) /\
       (forall p, p ∈ (match sl with Ref w => [(w, (F, d))] | _ => [] end).*1 ->
                  RoundTrip.dat m1 p = data <$> st0 !! p) /\
       (forall p, p ∉ (match sl with Ref w => [(w, (F, d))] | _ => [] end).*1 ->
                  RoundTrip.dat m1 p = RoundTrip.dat m p))
    m.
Proof.
  intros Hsl.
  assert (Hid : forall m0 : Model A,
            input_embeddings m0 = input_embeddings m0 /\
            (exists g, named_modules m0 = named_modules (upd_module i g m0) /\
                       forall md, Frame.keeps merge_names md (g md))).
  { intros m0. split; [done|]. exists (fun md => md). split; [|intros; apply keeps_refl].
    by rewrite upd_module_id. }
  destruct sl as [| |w].
  - apply wpt_cret. destruct (Hid m) as [? ?]. repeat split; try done.
    intros p Hp. by apply elem_of_nil in Hp.
  - apply wpt_cret. destruct (Hid m) as [? ?]. repeat split; try done.
    intros p Hp. by apply elem_of_nil in Hp.
  - destruct (Hsl w eq_refl) as (pp0 & pp & Hst0 & Hpp & Hs & Hdim & Hdata).
    rewrite (responses_gathers_one _ w F d pp0 Hst0).
    set (t := data pp0) in *.
    apply wpt_bind_local. eapply wp_get_param; [exact Hpp|]. cbv beta.
    rewrite Hdata, shard_dim, Hdim. change (1 <=? 2) with true. cbv iota.
    destruct (ensure_cuda_run w pp m Hpp) as (m1 & x1 & Hrun & Hnm1 & Hie1 & Hx1 & Hdx1 & Hdat1).
    eapply wpt_bind_ret; [exact Hrun|].
    apply wpt_bind_local. eapply wp_get_param; [exact Hx1|]. cbv beta.
    rewrite Hdx1, Hdata.
    destruct (gathered_shapes F d t Hs) as [Hlen Hshape].
    apply wpt_bind_all_gather; [exact Hlen|exact Hshape|].
    apply wpt_bind_local. eapply wp_lift; [by apply merge_tensors_shard|].
    cbv beta. apply wpt_bind_local. wp_step. cbv beta.
    destruct (size_of_matrix t Hdim) as (a & b & Ha & Hb).
    apply wpt_bind_local. eapply wp_lift; [exact Ha|]. cbv beta.
    apply wpt_bind_local. eapply wp_lift; [exact Hb|]. cbv beta.
    apply wpt_local. wp_step. wp_go. wp_go. wp_go. wp_go. wp_go.
    split; [exact Hie1|]. split; [|split].
    + eexists. split.
      * cbn [named_modules upd_module upd_param]. rewrite Hnm1.
        rewrite !list_alter_alter_eq. apply list_alter_ext; [|done].
        intros [nm md] _. simpl. f_equal.
      * intros md. split; [done|]. split; [done|]. split; [done|].
        intros name Hn. simpl.
        rewrite !lookup_insert_ne; [done|..]; intros <-; apply Hn; in_names.
    + intros p Hp. apply list_elem_of_singleton in Hp. simpl in Hp. subst p.
      rewrite !dat_upd_module, dat_set_data, Hdat1.
      unfold RoundTrip.dat. by rewrite Hpp, Hst0.
    + intros p Hp. rewrite !dat_upd_module.
      rewrite dat_upd_param_ne, Hdat1; [done|].
      intros <-. apply Hp. simpl. left.
Qed.

Lemma wpt_merge_bias (mb : bool) (F : Z) (sl : Slot) m :
  (forall b, sl = Ref b ->
     exists pb, store m !! b = Some pb /\
       (mb = true ->
        exists pb0, st0 !! b = Some pb0 /\
          Closed.sliceable F W 0 (data pb0) = true /\
          data pb = Closed.shard (Z.to_nat F) (Z.to_nat W) r 0 (data pb0))) ->
  Hoare.wpt
    (match sl with
     | Ref b =>
         pb <- local (get_param b) ;;
         if mb && (1 <=? dim (data pb)) then
           TensorDeparallelEngine1D.ensure_cuda b ;;
           pb <- local (get_param b) ;;
           tensor_list <- dist_all_gather W (data pb) ;;
           output <- local (lift (TensorDeparallelEngine1D.merge_tensors
                                    tensor_list (VInt F) 0)) ;;
           local (set_data b output)
         else cret tt
     | _ => cret tt
     end)%M
    (RoundTrip.responses (Z.to_nat W)
       (RoundTrip.gathers W st0
          (if mb then match sl with Ref b => [(b, (F, 0))] | _ => [] end
           else [])) r)
    (fun _ m1 =>
       input_embeddings m1 = input_embeddings m /\
       named_modules m1 = named_modules m /\
       (forall p,
          p ∈ (if mb then match sl with Ref b => [(b, (F, 0))] | _ => [] end
               else []).*1 ->
          RoundTrip.dat m1 p = data <$> st0 !! p) /\
       (forall p,
          p ∉ (if mb then match sl with Ref b => [(b, (F, 0))] | _ => [] end
               else []).*1 ->
          RoundTrip.dat m1 p = RoundTrip.dat m p))
    m.
Proof.
  intros Hsl. destruct sl as [| |b].
  - destruct mb; apply wpt_cret; repeat split; try done;
      intros p Hp; by apply elem_of_nil in Hp.
  - destruct mb; apply wpt_cret; repeat split; try done;
      intros p Hp; by apply elem_of_nil in Hp.
  - destruct (Hsl b eq_refl) as (pb & Hpb & Hmb). destruct mb.
    + destruct (Hmb eq_refl) as (pb0 & Hst0 & Hs & Hdata).
      rewrite (responses_gathers_one _ b F 0 pb0 Hst0).
      set (t := data pb0) in *.
      apply wpt_bind_local. eapply wp_get_param; [exact Hpb|]. cbv beta.
      rewrite Hdata, shard_dim, (sliceable_dim _ _ _ _ Hs). cbn [andb].
      destruct (ensure_cuda_run b pb m Hpb) as (m1 & x1 & Hrun & Hnm1 & Hie1 & Hx1 & Hdx1 & Hdat1).
      eapply wpt_bind_ret; [exact Hrun|].
      apply wpt_bind_local. eapply wp_get_param; [exact Hx1|]. cbv beta.
      rewrite Hdx1, Hdata.
      destruct (gathered_shapes F 0 t Hs) as [Hlen Hshape].
      apply wpt_bind_all_gather; [exact Hlen|exact Hshape|].
      apply wpt_bind_local. eapply wp_lift; [by apply merge_tensors_shard|].
      cbv beta. apply wpt_local. wp_step.
      split; [exact Hie1|]. split; [exact Hnm1|]. split.
      * intros p Hp. apply list_elem_of_singleton in Hp. simpl in Hp. subst p.
        rewrite dat_set_data, Hdat1. unfold RoundTrip.dat. by rewrite Hpb, Hst0.
      * intros p Hp. rewrite dat_upd_param_ne, Hdat1; [done|].
        intros <-. apply Hp. simpl. left.
    + apply wpt_bind_local. eapply wp_get_param; [exact Hpb|]. cbv beta.
      cbn [andb]. apply wpt_cret. repeat split; try done.
      intros p Hp. by apply elem_of_nil in Hp.
Qed.

End Merge.

(** * Bringing a module back *)

Section Keeps.
Context {A : Type}.
Implicit Types (m : Model A) (md : Module).

Lemma keeps_trans K md1 md2 md3 :
  Frame.keeps K md1 md2 -> Frame.keeps K md2 md3 -> Frame.keeps K md1 md3.
Proof.
  intros (Hc1 & Hw1 & Hb1 & Ha1) (Hc2 & Hw2 & Hb2 & Ha2).
  split; [congruence|]. split; [congruence|]. split; [congruence|].
  intros name Hn. by rewrite Ha2, Ha1.
Qed.

Lemma rescale_attrs_none g names (a : gmap string Value) name :
  a !! name = None -> Closed.rescale_attrs g names a !! name = None.
Proof.
  revert a. induction names as [|n ns IH]; intros a Ha; [done|].
  rewrite rescale_attrs_cons. apply IH.
  destruct (a !! n) as [v|] eqn:E; [|done].
  destruct (as_int v); [|done].
  rewrite lookup_insert_ne; [done|]. intros ->. congruence.
Qed.

Lemma keeps_rescale g names md :
  Frame.keeps names md
    (with_attrs md (Closed.rescale_attrs g names (attrs md))).
Proof.
  split; [done|]. split; [done|]. split; [done|].
  intros name Hn. simpl. by apply rescale_attrs_notin.
Qed.

End Keeps.

Section MergeAll.
Context {A : Type}.
Variables (W : Z) (r : nat).
Hypothesis HW : 1 <= W.
Hypothesis Hr : (r < Z.to_nat W)%nat.
Variable (st0 : gmap nat (Param A)).
Variable (tp : TensorParallelMapping).
Implicit Types (m : Model A) (md : Module).

Notation self := (engine_of tp W (Z.of_nat r)).
Notation merge_names := ["mpu"; "in_features"; "out_features"; "nx"; "nf"].

(** [_merge], then the class is restored: [_column_merge] and
    [_row_merge]. *)
Lemma wpt_merge_restore (i : nat) (rev : bool) (F : Z) (mb : bool) (d : Z)
    nm md (c : Class) m :
  let d' := if negb rev then d else Z.abs (d - 1) in
  let pl := match weight md with Ref w => [(w, (F, d'))] | _ => [] end
            ++ (if mb then match bias md with Ref b => [(b, (F, 0))] | _ => [] end
                else []) in
  named_modules m !! i = Some (nm, md) ->
  NoDup pl.*1 ->
  (forall p F' d'', (p, (F', d'')) ∈ pl ->
     exists pp0 pp,
       st0 !! p = Some pp0 /\ store m !! p = Some pp /\
       Closed.sliceable F' W d'' (data pp0) = true /\
       data pp = Closed.shard (Z.to_nat F') (Z.to_nat W) r d'' (data pp0)) ->
  (forall w, weight md = Ref w ->
     exists pp0, st0 !! w = Some pp0 /\ dim (data pp0) = 2) ->
  (forall b, bias md = Ref b -> is_Some (store m !! b)) ->
  attrs md !! "orig_module" = Some (VClass c) ->
  Hoare.wpt
    (TensorDeparallelEngine1D._merge self i (VBool rev) (VInt F) mb d ;;
     local (TensorDeparallelEngine1D.restore_class i))%M
    (RoundTrip.responses (Z.to_nat W) (RoundTrip.gathers W st0 pl) r)
    (fun _ m1 =>
       input_embeddings m1 = input_embeddings m /\
       length (named_modules m1) = length (named_modules m) /\
       (forall j, j <> i -> named_modules m1 !! j = named_modules m !! j) /\
       (exists md1,
          named_modules m1 !! i = Some (nm, md1) /\
          cls md1 = c /\
          weight md1 = weight md /\ bias md1 = bias md /\
          forall name, name ∉ merge_names ->
                       attrs md1 !! name = attrs md !! name) /\
       (forall p, p ∈ pl.*1 -> RoundTrip.dat m1 p = data <$> st0 !! p) /\
       (forall p, p ∉ pl.*1 -> RoundTrip.dat m1 p = RoundTrip.dat m p))
    m.
Proof.
  intros d' pl Hi Hnd Hpl Hdim Hbias Horig.
  rewrite <- (app_nil_r (RoundTrip.responses _ _ _)).
  apply wpt_bind.
  unfold TensorDeparallelEngine1D._merge. cbv zeta.
  cbn [truthy mpu engine_of get_tensor_parallel_world_size].
  fold d'.
  apply wpt_bind_local. wp_step. wp_go. wp_go.
  set (g1 := fun md0 : Module => with_attrs md0 (<["mpu" := VNone]> (attrs md0))).
  assert (Hia : named_modules (upd_module i g1 m) !! i = Some (nm, g1 md)).
  { by apply upd_module_lookup. }
  apply wpt_bind_local. eapply wp_get_module; [exact Hia|]. cbv beta.
  cbn [weight bias with_attrs g1].
  unfold pl. rewrite gathers_app, responses_app.
  apply wpt_bind. eapply wpt_conseq.
  { apply (wpt_merge_weight W r HW Hr st0 i F d' (weight md) (upd_module i g1 m)).
    intros w Hw. destruct (Hdim w Hw) as (pp0 & Hst0 & Hd).
    destruct (Hpl w F d') as (pp0' & pp & Hst0' & Hpp & Hs & Hdata).
    { unfold pl. rewrite Hw. apply elem_of_app. left. left. }
    rewrite Hst0 in Hst0'. injection Hst0' as <-.
    exists pp0, pp. done. }
  intros _ mw (Hie_w & (g & Hnm_w & Hg) & Hin_w & Hout_w). cbv beta.
  eapply wpt_conseq.
  { apply (wpt_merge_bias W r HW Hr st0 mb F (bias md) mw).
    intros b Hb. destruct (Hbias b Hb) as [pb0 Hpb0].
    assert (Hsome : is_Some (store mw !! b)).
    { destruct (decide (b ∈ (match weight md with
                             | Ref w => [(w, (F, d'))]
                             | _ => []
                             end).*1)) as [Hbw|Hbw].
      - pose proof (Hin_w b Hbw) as Hd. destruct (weight md) as [| |w] eqn:Ew;
          try (by apply elem_of_nil in Hbw).
        apply list_elem_of_singleton in Hbw. simpl in Hbw. subst b.
        destruct (Hdim w eq_refl) as (pp0 & Hst0 & _).
        rewrite Hst0 in Hd. apply dat_Some in Hd as (x & Hx & _). by eexists.
      - pose proof (Hout_w b Hbw) as Hd. rewrite dat_upd_module in Hd.
        unfold RoundTrip.dat in Hd at 2. rewrite Hpb0 in Hd.
        apply dat_Some in Hd as (x & Hx & _). by eexists. }
    destruct Hsome as [pb Hpb]. exists pb. split; [done|].
    intros ->. destruct (Hpl b F 0) as (pb0' & pb' & Hst0 & Hpb' & Hs & Hdata).
    { unfold pl. rewrite Hb. apply elem_of_app. right. left. }
    exists pb0'. split; [done|]. split; [done|].
    assert (Hbw : b ∉ (match weight md with
                       | Ref w => [(w, (F, d'))]
                       | _ => []
                       end).*1).
    { unfold pl in Hnd. rewrite Hb, fmap_app in Hnd.
      apply NoDup_app in Hnd as (_ & Hdisj & _). intros Hbw.
      apply (Hdisj b Hbw). simpl. left. }
    pose proof (Hout_w b Hbw) as Hd. rewrite dat_upd_module in Hd.
    unfold RoundTrip.dat in Hd. rewrite Hpb, Hpb' in Hd. simpl in Hd.
    injection Hd as ->. done. }
  intros _ mc (Hie_c & Hnm_c & Hin_c & Hout_c). cbv beta.
  assert (Hic : named_modules mc !! i = Some (nm, g (g1 md))).
  { rewrite Hnm_c, Hnm_w. by apply upd_module_lookup. }
  assert (Hattr : forall name, name ∉ merge_names ->
            attrs (g (g1 md)) !! name = attrs md !! name).
  { intros name Hn. destruct (Hg (g1 md)) as (_ & _ & _ & Ha).
    rewrite Ha by done. unfold g1. simpl. rewrite lookup_insert_ne; [done|].
    intros <-. apply Hn. in_names. }
  apply wpt_local. unfold TensorDeparallelEngine1D.restore_class.
  apply wp_bind. eapply wp_get_module; [exact Hic|]. cbv beta.
  rewrite Hattr by not_in_names. rewrite Horig. wp_step.
  split; [cbn [input_embeddings upd_module]; by rewrite Hie_c, Hie_w|]. split.
  { rewrite upd_module_length, Hnm_c, Hnm_w, !upd_module_length. done. }
  split.
  { intros j Hj. rewrite upd_module_lookup_ne by done.
    rewrite Hnm_c, Hnm_w. by rewrite !upd_module_lookup_ne by done. }
  split.
  { eexists. split; [by apply upd_module_lookup|]. simpl.
    destruct (Hg (g1 md)) as (_ & Hw & Hb & _).
    split; [done|].
    split; [by rewrite Hw|]. split; [by rewrite Hb|]. exact Hattr. }
  split.
  - intros p Hp. rewrite dat_upd_module. unfold pl in Hp.
    rewrite fmap_app in Hp. apply elem_of_app in Hp as [Hp|Hp].
    + assert (Hpb : p ∉ (if mb
                         then match bias md with
                              | Ref b => [(b, (F, 0))]
                              | _ => []
                              end
                         else []).*1).
      { unfold pl in Hnd. rewrite fmap_app in Hnd.
        apply NoDup_app in Hnd as (_ & Hdisj & _). by apply Hdisj. }
      rewrite (Hout_c p Hpb). by apply Hin_w.
    + by apply Hin_c.
  - intros p Hp. rewrite dat_upd_module. unfold pl in Hp.
    rewrite fmap_app in Hp. apply not_elem_of_app in Hp as [Hp1 Hp2].
    rewrite (Hout_c p Hp2), (Hout_w p Hp1). by rewrite dat_upd_module.
Qed.

End MergeAll.

(** * What [deparallelize] makes of the shards *)

Section Untie.
Context {A : Type}.
Implicit Types (m : Model A) (md : Module).

(** One visit of the loop that restores the tied heads. *)
Lemma wp_untie_body (e w k : nat) nm md en mde v (c : Class) m :
  named_modules m !! k = Some (nm, md) ->
  named_modules m !! e = Some (en, mde) ->
  attrs mde !! "num_embeddings" = Some v ->
  (TensorParallelEngine1D.is_tied_head md w = true ->
   attrs md !! "orig_module" = Some (VClass c)) ->
  Hoare.wp
    (md <- get_module k ;;
     if TensorParallelEngine1D.is_tied_head md w then
       num_embeddings <- getattr e "num_embeddings" ;;
       update_module_arguments k
         [("mpu", VNone); ("out_features", num_embeddings)] ;;
       TensorDeparallelEngine1D.restore_class k
     else lret tt)%L
    (fun _ m1 =>
       (store m1 = store m /\
        (if TensorParallelEngine1D.is_tied_head md w
         then exists md1, named_modules m1 !! k = Some (nm, md1) /\ cls md1 = c
         else m1 = m)) /\
       Frame.related (Frame.touch (eq k) ["mpu"; "out_features"]) m m1)
    m.
Proof.
  intros Hk He Hnum Horig. apply wp_frame.
  { pose proof (touch_refl (eq k) ["mpu"; "out_features"]).
    pose proof (touch_trans (eq k) ["mpu"; "out_features"]).
    touch_auto. }
  apply wp_bind. eapply wp_get_module; [exact Hk|]. cbv beta.
  destruct (TensorParallelEngine1D.is_tied_head md w) eqn:Et.
  - pose proof (Horig eq_refl) as Hc.
    apply wp_bind. eapply wp_getattr; [exact He|exact Hnum|]. cbv beta.
    apply wp_bind. wp_step. wp_go. wp_go. wp_go.
    unfold TensorDeparallelEngine1D.restore_class.
    apply wp_bind. eapply wp_get_module.
    { apply upd_module_lookup. apply upd_module_lookup. exact Hk. }
    cbv beta. cbn [attrs with_attrs].
    rewrite !lookup_insert_ne by discriminate. rewrite Hc.
    wp_step. split; [done|]. eexists. split.
    { cbn [named_modules upd_module]. rewrite !list_lookup_alter_eq, Hk.
      reflexivity. }
    done.
  - by apply wp_ret.
Qed.

End Untie.

Section Deparallelize.
Context {A : Type}.
Variables (tp : TensorParallelMapping) (W : Z) (m : Model A).
Variables (e : nat) (en : string) (emb : Module) (w0 : nat) (p0 : Param A).
Variable (r : nat).
Hypothesis HW : 1 <= W.
Hypothesis Hr : (r < Z.to_nat W)%nat.
Hypothesis Hnodup : NoDup (update_attrs tp).
Hypothesis Hengine :
  forall name, name ∈ update_attrs tp -> name ∉ RoundTrip.engine_names.
Hypothesis Hdiv :
  forall i nm md name v,
    named_modules m !! i = Some (nm, md) ->
    name ∈ update_attrs tp ->
    attrs md !! name = Some v ->
    exists h, v = VInt h /\ h mod W = 0.
Hypothesis He : input_embeddings m = Some e.
Hypothesis Hemb : named_modules m !! e = Some (en, emb).
Hypothesis Hw0 : weight emb = Ref w0.
Hypothesis Hplan : NoDup (Sharded.full_plan tp W w0 (named_modules m)).*1.
Hypothesis Hp0 : store m !! w0 = Some p0.
Hypothesis Htable : Closed.sliceable 1 W 0 (data p0) = true.
Hypothesis Htable2 : dim (data p0) = 2.
Hypothesis Hready :
  forall i nmd, named_modules m !! i = Some nmd ->
    RoundTrip.module_ready tp W (store m) nmd = true.
Implicit Types (md : Module).

Notation self := (engine_of tp W (Z.of_nat r)).
Notation names := (update_attrs tp).
Notation merge_names := ["mpu"; "in_features"; "out_features"; "nx"; "nf"].
Notation n := (Z.to_nat W).
Notation R' :=
  (fun md : Module =>
     with_attrs md (Closed.rescale_attrs (fun h => h * W) (update_attrs tp)
                      (attrs md))).

Lemma attrs_int_of_div : Closed.attrs_int names m.
Proof.
  intros i nm md name v Hi Hin Hv.
  destruct (Hdiv i nm md name v Hi Hin Hv) as (h & -> & _). by exists h.
Qed.

Lemma names_not_engine K name :
  K ⊆ RoundTrip.engine_names -> name ∈ names -> name ∉ K.
Proof. intros HK Hin HinK. apply (Hengine name Hin). by apply HK. Qed.

Lemma merge_names_engine : merge_names ⊆ RoundTrip.engine_names.
Proof.
  intros x Hx. repeat (apply elem_of_cons in Hx as [->|Hx]; [in_names|]).
  by apply elem_of_nil in Hx.
Qed.

Lemma back_keeps K md md1 md2 :
  K ⊆ RoundTrip.engine_names ->
  Sharded.back tp md md1 ->
  weight md2 = weight md1 -> bias md2 = bias md1 ->
  (forall name, name ∉ K -> attrs md2 !! name = attrs md1 !! name) ->
  Sharded.back tp md md2.
Proof.
  intros HK (Hw & Hb & Ha) Hw' Hb' Ha'.
  split; [congruence|]. split; [congruence|].
  intros name Hn. rewrite Ha', Ha; [done|done|]. by apply names_not_engine.
Qed.

Lemma plan_suffix_nodup k :
  NoDup (RoundTrip.plan tp W (drop k (named_modules m))).*1.
Proof.
  unfold Sharded.full_plan in Hplan. simpl in Hplan.
  apply NoDup_cons in Hplan as [_ Hnd].
  rewrite <- (take_drop k (named_modules m)) in Hnd.
  rewrite plan_app, fmap_app in Hnd. by apply NoDup_app in Hnd as (_ & _ & Hnd).
Qed.

(** After [_update_mp_arguments] of the deparallelize engine. *)
Lemma dep_rescale m_r :
  Sharded.after_parallelize tp W m e w0 r m_r ->
  TensorDeparallelEngine1D._update_mp_arguments self m_r
  = (Ok tt, Closed.map_modules R' m_r) /\
  forall i nm md,
    named_modules m !! i = Some (nm, md) ->
    exists md',
      named_modules (Closed.map_modules R' m_r) !! i = Some (nm, md') /\
      Sharded.back tp md md' /\
      (weight md = Ref w0 -> Sharded.orig_ok e i md md') /\
      (forall kd, RoundTrip.kind_of tp nm = Some kd ->
                  Sharded.sliced tp W kd nm md md') /\
      (weight md <> Ref w0 -> RoundTrip.kind_of tp nm = None ->
       cls md' = cls md).
Proof.
  intros (Hie & Hlen & Hmods & Hdat).
  assert (Hattr : forall i nm md md' name,
            named_modules m !! i = Some (nm, md) ->
            Sharded.base tp W md md' -> name ∈ names ->
            attrs md' !! name
            = match attrs md !! name with
              | Some (VInt h) => Some (VInt (h / W))
              | _ => None
              end).
  { intros i nm md md' name Hi (_ & _ & Ha) Hin.
    rewrite Ha by (by apply Hengine). unfold RoundTrip.rescaled. simpl.
    destruct (attrs md !! name) as [v|] eqn:Ev.
    - destruct (Hdiv i nm md name v Hi Hin Ev) as (h & -> & _).
      by apply (rescale_attrs_once (fun h0 => h0 / W) names (attrs md) name
                  (VInt h) h).
    - by apply rescale_attrs_none. }
  split.
  - apply (deparallel_update_mp_arguments_closed self m_r).
    intros i nm md' name v Hi' Hin Hv.
    assert (Hlt : (i < length (named_modules m))%nat).
    { rewrite <- Hlen. by eapply lookup_lt_Some. }
    destruct (lookup_lt_is_Some_2 _ _ Hlt) as [[nm0 md] Hi].
    destruct (Hmods _ _ _ Hi) as (md'' & Hi'' & Hbase & _).
    rewrite Hi' in Hi''. injection Hi'' as <- <-.
    rewrite (Hattr i nm md md' name Hi Hbase Hin) in Hv.
    destruct (attrs md !! name) as [[h| | | |]|]; try done.
    injection Hv as <-. by eexists.
  - intros i nm md Hi.
    destruct (Hmods _ _ _ Hi)
      as (md' & Hi' & Hbase & Hok & _ & Hsl & Hcls & _).
    exists (R' md'). split; [by rewrite map_modules_lookup, Hi'|].
    pose proof (keeps_rescale (fun h => h * W) names md') as Hkeeps.
    split; [|split; [|split; [|exact Hcls]]].
    + destruct Hbase as (Hw & Hb & Ha). split; [done|]. split; [done|].
      intros name Hin. simpl.
      pose proof (Hattr i nm md md' name Hi (conj Hw (conj Hb Ha)) Hin) as Hv.
      destruct (attrs md !! name) as [v|] eqn:Ev.
      * destruct (Hdiv i nm md name v Hi Hin Ev) as (h & -> & Hmod).
        rewrite (rescale_attrs_once (fun h0 => h0 * W) names (attrs md') name
                   (VInt (h / W)) (h / W)); try done.
        do 2 f_equal. apply floor_round_trip; [lia|done].
      * by apply rescale_attrs_none.
    + intros Hw. eapply orig_ok_keeps; [|by apply Hok|exact Hkeeps].
      intros Hin. apply (Hengine _ Hin). in_names.
    + intros kd Hkd.
      eapply sliced_keeps; [..|by apply Hsl|exact Hkeeps];
        intros Hin; apply (Hengine _ Hin); in_names.
Qed.

Lemma expected_head (pl : list (nat * (Z * Z))) p F d (t : Tensor A) :
  RoundTrip.expected W r ((p, (F, d)) :: pl) p t
  = Closed.shard (Z.to_nat F) (Z.to_nat W) r d t.
Proof. unfold RoundTrip.expected. simpl. by rewrite lookup_insert_eq. Qed.

(** After [_deparallelize_embedding]. *)
Lemma dep_embedding ms :
  input_embeddings ms = Some e ->
  length (named_modules ms) = length (named_modules m) ->
  Sharded.holds W r (Sharded.full_plan tp W w0 (named_modules m)) m ms ->
  (forall i nm md,
      named_modules m !! i = Some (nm, md) ->
      exists md',
        named_modules ms !! i = Some (nm, md') /\
        Sharded.back tp md md' /\
        (weight md = Ref w0 -> Sharded.orig_ok e i md md') /\
        (forall kd, RoundTrip.kind_of tp nm = Some kd ->
                    Sharded.sliced tp W kd nm md md') /\
        (weight md <> Ref w0 -> RoundTrip.kind_of tp nm = None ->
         cls md' = cls md)) ->
  Hoare.wpt (TensorDeparallelEngine1D._deparallelize_embedding self)
    (RoundTrip.responses n (RoundTrip.gathers W (store m) [(w0, (1, 0))]) r)
    (fun _ m2 =>
       length (named_modules m2) = length (named_modules m) /\
       Sharded.holds W r (RoundTrip.plan tp W (named_modules m)) m m2 /\
       forall i nm md,
         named_modules m !! i = Some (nm, md) ->
         exists md',
           named_modules m2 !! i = Some (nm, md') /\
           Sharded.back tp md md' /\
           (forall kd, RoundTrip.kind_of tp nm = Some kd ->
                       Sharded.sliced tp W kd nm md md') /\
           (RoundTrip.kind_of tp nm = None -> cls md' = cls md))
    ms.
Proof.
  intros Hie_s Hlen_s Hdat_s Hmods_s.
  unfold TensorDeparallelEngine1D._deparallelize_embedding.
  rewrite (responses_gathers_one W r (store m) _ w0 1 0 p0 Hp0).
  apply wpt_bind_local. apply wp_get. cbv beta. rewrite Hie_s.
  destruct (Hmods_s e en emb Hemb) as (mde & He_s & Hback_e & Hok_e & _).
  apply wpt_bind_local. eapply wp_get_module; [exact He_s|]. cbv beta.
  apply wpt_bind_local. unfold TensorParallelEngine1D.weight_ref.
  destruct Hback_e as (Hwe & Hbe & Hae). rewrite Hwe, Hw0. apply wp_ret.
  assert (Hpp : exists pp, store ms !! w0 = Some pp /\
                  data pp = Closed.shard (Z.to_nat 1) n r 0 (data p0)).
  { pose proof (Hdat_s w0) as Hd. unfold Sharded.full_plan in Hd.
    unfold RoundTrip.dat in Hd at 2. rewrite Hp0 in Hd. simpl in Hd.
    rewrite expected_head in Hd. apply dat_Some in Hd as (pp & Hpp & Hdata).
    by exists pp. }
  destruct Hpp as (pp & Hpp & Hdata).
  destruct (ensure_cuda_run w0 pp ms Hpp)
    as (m1 & x1 & Hrun & Hnm1 & Hie1 & Hx1 & Hdx1 & Hdat1).
  eapply wpt_bind_ret; [exact Hrun|].
  apply wpt_bind_local. eapply wp_get_param; [exact Hx1|]. cbv beta.
  rewrite Hdx1, Hdata.
  destruct (gathered_shapes W r HW Hr 1 0 (data p0) Htable) as [Hlen Hshape].
  eapply wpt_bind_mpu_gather;
    [exact Hlen|exact Hshape|exact (merge_tensors_shard 1 W 0 (data p0) Htable)|].
  apply wpt_bind_local. wp_step. cbv beta.
  destruct (size_of_matrix (data p0) Htable2) as (a & b & Ha & _).
  apply wpt_bind_local. eapply wp_lift; [exact Ha|]. cbv beta.
  apply wpt_bind_local. wp_step. wp_go. wp_go. wp_go.
  pose proof (Hok_e Hw0) as Hc. unfold Sharded.orig_ok in Hc.
  rewrite decide_True in Hc by done.
  apply wpt_bind_local. unfold TensorDeparallelEngine1D.restore_class.
  apply wp_bind. eapply wp_get_module.
  { apply upd_module_lookup. apply upd_module_lookup.
    cbn [named_modules upd_param]. rewrite Hnm1. exact He_s. }
  cbv beta. cbn [attrs with_attrs].
  rewrite !lookup_insert_ne by discriminate. rewrite Hc. wp_step.
  match goal with |- Hoare.wpt _ _ _ ?m0 => set (mb := m0) end.
  set (N := length (named_modules m)).
  (* the state before the loop *)
  assert (Hnm_b : forall i, i <> e -> named_modules mb !! i = named_modules ms !! i).
  { intros i Hi. unfold mb. rewrite !upd_module_lookup_ne by done.
    cbn [named_modules upd_param]. by rewrite Hnm1. }
  assert (He_b : exists mdb,
             named_modules mb !! e = Some (en, mdb) /\
             cls mdb = cls emb /\
             weight mdb = weight mde /\ bias mdb = bias mde /\
             attrs mdb !! "num_embeddings" = Some (VInt a) /\
             forall name, name ∉ ["mpu"; "num_embeddings"] ->
                          attrs mdb !! name = attrs mde !! name).
  { unfold mb. eexists. split.
    { apply upd_module_lookup. apply upd_module_lookup. apply upd_module_lookup.
      cbn [named_modules upd_param]. rewrite Hnm1. exact He_s. }
    simpl. split; [done|]. split; [done|]. split; [done|].
    split; [by rewrite lookup_insert_eq|].
    intros name Hn. rewrite !lookup_insert_ne; [done|..];
      intros <-; apply Hn; in_names. }
  destruct He_b as (mdb & He_b & Hcb & Hwb & Hbb & Hnum_b & Hab).
  assert (Hlen_b : length (named_modules mb) = N).
  { unfold mb. rewrite !upd_module_length. cbn [named_modules upd_param].
    by rewrite Hnm1. }
  assert (Hdat_b : Sharded.holds W r (RoundTrip.plan tp W (named_modules m)) m mb).
  { apply (holds_drop W r [(w0, (1, 0))] _ m ms mb).
    - exact Hdat_s.
    - exact Hplan.
    - intros p Hp. apply list_elem_of_singleton in Hp. simpl in Hp. subst p.
      unfold mb. rewrite !dat_upd_module, dat_set_data, Hdat1.
      unfold RoundTrip.dat. by rewrite Hpp, Hp0.
    - intros p Hp. unfold mb. rewrite !dat_upd_module.
      rewrite dat_upd_param_ne, Hdat1; [done|].
      intros <-. apply Hp. simpl. left. }
  clearbody mb.
  apply wpt_local. unfold module_ids. rewrite Hlen_s. fold N.
  set (I := fun (k : nat) (m' : Model A) =>
    length (named_modules m') = N /\
    (forall p, RoundTrip.dat m' p = RoundTrip.dat mb p) /\
    (exists mde' v, named_modules m' !! e = Some (en, mde') /\
                    attrs mde' !! "num_embeddings" = Some v) /\
    forall i nm md,
      named_modules m !! i = Some (nm, md) ->
      exists md',
        named_modules m' !! i = Some (nm, md') /\
        Sharded.back tp md md' /\
        (forall kd, RoundTrip.kind_of tp nm = Some kd ->
                    Sharded.sliced tp W kd nm md md') /\
        ((k <= i)%nat \/ i = e -> weight md = Ref w0 ->
         Sharded.orig_ok e i md md') /\
        ((i < k)%nat \/ i = e -> weight md = Ref w0 -> cls md' = cls md) /\
        (weight md <> Ref w0 -> RoundTrip.kind_of tp nm = None ->
         cls md' = cls md)).
  eapply wp_conseq.
  { apply (wp_for_each_seq _ I 0 N).
    - intros k m0 Hk (Hlen0 & Hdat0 & (mde0 & v0 & He0 & Hnum0) & Hmods0). cbv beta.
      destruct (lookup_lt_is_Some_2 (named_modules m) k) as [[nm md] Hkm];
        [fold N; lia|].
      destruct (Hmods0 _ _ _ Hkm)
        as (mdk & Hk0 & Hback & Hsl & Hok & Hdone & Hcls).
      assert (Hwk : weight mdk = weight md) by (by destruct Hback).
      assert (Htied : TensorParallelEngine1D.is_tied_head mdk w0 = true ->
                weight md = Ref w0 /\
                attrs mdk !! "orig_module" = Some (VClass (cls md))).
      { intros Et. unfold TensorParallelEngine1D.is_tied_head in Et.
        apply andb_prop in Et as [Et _]. apply andb_prop in Et as [Et Hni].
        apply bool_decide_eq_true_1 in Et.
        assert (Hw : weight md = Ref w0) by congruence. split; [done|].
        pose proof (Hok ltac:(lia) Hw) as Ho. unfold Sharded.orig_ok in Ho.
        destruct (decide (k = e)); [done|].
        destruct (isinstance_Embedding (cls md)) eqn:Ee.
        - rewrite Ho, Ee in Hni. done.
        - by destruct Ho. }
      assert (Hloose : TensorParallelEngine1D.is_tied_head mdk w0 = false ->
                weight md = Ref w0 -> cls mdk = cls md).
      { intros Et Hw. destruct (decide (k = e)) as [Hke|Hke].
        { apply Hdone; [by right|done]. }
        pose proof (Hok ltac:(lia) Hw) as Ho. unfold Sharded.orig_ok in Ho.
        rewrite decide_False in Ho by done.
        destruct (isinstance_Embedding (cls md)); [done|].
        destruct Ho as [_ Hcl].
        unfold TensorParallelEngine1D.is_tied_head in Et.
        rewrite Hcl, Hwk, Hw in Et.
        by rewrite bool_decide_eq_true_2 in Et. }
      eapply wp_conseq.
      { apply (wp_untie_body e w0 k nm mdk en mde0 v0 (cls md) m0 Hk0 He0 Hnum0).
        intros Et. by apply Htied. }
      intros _ m' ((Hst & Hsame) & Hrel). cbv beta.
      destruct Hrel as (Hie' & Hlen' & Hmods').
      split; [congruence|]. split.
      { intros p. unfold RoundTrip.dat. rewrite Hst. apply Hdat0. }
      split.
      { destruct (Hmods' _ _ _ He0) as (mde' & He' & _ & _ & Ha' & _).
        exists mde', v0. split; [done|]. rewrite Ha'; [done|]. not_in_names. }
      intros i nm' md' Hi.
      destruct (Hmods0 _ _ _ Hi)
        as (mdi & Hi0 & Hback_i & Hsl_i & Hok_i & Hdone_i & Hcls_i).
      destruct (Hmods' _ _ _ Hi0) as (mdi' & Hi' & Htouch).
      exists mdi'. split; [done|].
      destruct Htouch as (Hw' & Hb' & Ha' & Heq).
      split.
      { eapply (back_keeps ["mpu"; "out_features"]); [|exact Hback_i|done|done|done].
        intros x Hx. repeat (apply elem_of_cons in Hx as [->|Hx]; [in_names|]).
        by apply elem_of_nil in Hx. }
      destruct (decide (k = i)) as [<-|Hne].
      + rewrite Hkm in Hi. injection Hi as <- <-.
        rewrite Hk0 in Hi0. injection Hi0 as <-.
        destruct (TensorParallelEngine1D.is_tied_head mdk w0) eqn:Et.
        * destruct (Htied eq_refl) as [Hw Horig].
          destruct Hsame as (md1 & Hk1 & Hcl1).
          rewrite Hi' in Hk1. injection Hk1 as <-.
          split.
          { intros kd Hkd.
            by destruct (sharded_not_tied tp W m w0 Hplan k nm md kd Hkm Hkd). }
          split.
          { intros [Hle|Hke] _; [lia|]. unfold Sharded.orig_ok.
            rewrite decide_True by done. rewrite Ha'; [done|]. not_in_names. }
          split; [done|]. intros Hnw. done.
        * rewrite Hsame in Hi'. rewrite Hk0 in Hi'. injection Hi' as <-.
          split; [done|]. split.
          { intros [Hle|Hke]; [lia|]. apply Hok. by right. }
          split; [|done]. intros _ Hw. by apply Hloose.
      + rewrite (Heq Hne). split; [done|]. split.
        { intros [Hle|Hie]; apply Hok_i; [left; lia|by right]. }
        split; [|done].
        intros [Hlt|Hie]; apply Hdone_i; [left; lia|by right].
    - split; [done|]. split; [done|]. split; [by exists mdb, (VInt a)|].
      intros i nm md Hi.
      destruct (Hmods_s _ _ _ Hi) as (md' & Hi' & Hback & Hok & Hsl & Hcls).
      destruct (decide (i = e)) as [->|Hne].
      + pose proof Hemb as Hemb'. rewrite Hi in Hemb'. injection Hemb' as -> ->.
        rewrite He_s in Hi'. injection Hi' as <-.
        exists mdb. split; [done|]. split; [|split; [|split; [|split]]].
        * eapply (back_keeps ["mpu"; "num_embeddings"]);
            [|exact Hback|done|done|done].
          intros x Hx. repeat (apply elem_of_cons in Hx as [->|Hx]; [in_names|]).
          by apply elem_of_nil in Hx.
        * intros kd Hkd.
          by destruct (sharded_not_tied tp W m w0 Hplan e en emb kd Hi Hkd).
        * intros _ _. unfold Sharded.orig_ok. rewrite decide_True by done.
          rewrite Hab; [done|]. not_in_names.
        * intros _ _. exact Hcb.
        * intros Hnw. done.
      + exists md'. rewrite (Hnm_b i Hne). split; [done|]. split; [done|].
        split; [done|]. split; [intros _ Hw; by apply Hok|].
        split; [|done]. intros [Hlt|Hie]; [lia|done]. }
  intros _ m' (Hlen' & Hdat' & _ & Hmods'). cbv beta.
  split; [done|]. split.
  { apply (holds_frame W r _ m mb); done. }
  intros i nm md Hi.
  destruct (Hmods' _ _ _ Hi) as (md' & Hi' & Hback & Hsl & _ & Hdone & Hcls).
  exists md'. split; [done|]. split; [done|]. split; [done|].
  intros Hkd. destruct (decide (weight md = Ref w0)) as [Hw|Hw].
  - apply Hdone; [|done]. left. apply lookup_lt_Some in Hi. fold N in Hi. lia.
  - by apply Hcls.
Qed.

(** [_merge] and the restored class, for a module of the plan. *)
Lemma wpt_dep_merge k nm md mdk m0 kd (mb : bool) (d : Z) :
  let F := RoundTrip.fusion_of tp W kd nm md in
  let rev := is_reversed_param tp nm in
  named_modules m !! k = Some (nm, md) ->
  named_modules m0 !! k = Some (nm, mdk) ->
  Sharded.back tp md mdk ->
  RoundTrip.kind_of tp nm = Some kd ->
  attrs mdk !! "orig_module" = Some (VClass (cls md)) ->
  Sharded.holds W r (RoundTrip.plan tp W (drop k (named_modules m))) m m0 ->
  RoundTrip.entries tp W (nm, md)
  = match weight mdk with
    | Ref w => [(w, (F, if negb rev then d else Z.abs (d - 1)))]
    | _ => []
    end
    ++ (if mb then match bias mdk with Ref b => [(b, (F, 0))] | _ => [] end
        else []) ->
  Hoare.wpt
    (TensorDeparallelEngine1D._merge self k (VBool rev) (VInt F) mb d ;;
     local (TensorDeparallelEngine1D.restore_class k))%M
    (RoundTrip.responses n
       (RoundTrip.gathers W (store m) (RoundTrip.entries tp W (nm, md))) r)
    (fun _ m1 =>
       length (named_modules m1) = length (named_modules m0) /\
       (forall j, j <> k -> named_modules m1 !! j = named_modules m0 !! j) /\
       (exists md1, named_modules m1 !! k = Some (nm, md1) /\
                    Sharded.back tp md md1 /\ cls md1 = cls md) /\
       Sharded.holds W r (RoundTrip.plan tp W (drop (S k) (named_modules m)))
         m m1)
    m0.
Proof.
  intros F rev Hk Hk0 Hback Hkind Horig Hholds Hent.
  pose proof (plan_drop tp W (named_modules m) k (nm, md) Hk) as Hdrop.
  pose proof (plan_suffix_nodup k) as Hnd. rewrite Hdrop in Hnd.
  rewrite Hdrop in Hholds.
  assert (Hnd_e : NoDup (RoundTrip.entries tp W (nm, md)).*1).
  { by eapply entries_nodup. }
  assert (Hparam : forall p F' d',
            (p, (F', d')) ∈ RoundTrip.entries tp W (nm, md) ->
            exists pp0 pp,
              store m !! p = Some pp0 /\ store m0 !! p = Some pp /\
              Closed.sliceable F' W d' (data pp0) = true /\
              data pp = Closed.shard (Z.to_nat F') n r d' (data pp0)).
  { intros p F' d' Hin.
    destruct (ready_entries tp W m Hready k nm md p F' d' Hk Hin)
      as (pp0 & Hpp0 & Hs).
    pose proof (Hholds p) as Hd. unfold RoundTrip.dat in Hd at 2.
    rewrite Hpp0 in Hd. cbn [fmap option_fmap option_map] in Hd.
    rewrite (expected_in W r _ p F' d') in Hd;
      [|done|by apply elem_of_app; left].
    apply dat_Some in Hd as (pp & Hpp & Hdata). by exists pp0, pp. }
  destruct Hback as (Hwk & Hbk & Hak).
  eapply wpt_conseq.
  { rewrite Hent.
    apply (wpt_merge_restore W r HW Hr (store m) tp k rev F mb d nm mdk
             (cls md) m0 Hk0).
    - by rewrite <- Hent.
    - intros p F' d' Hin. rewrite <- Hent in Hin. by apply Hparam.
    - intros w Hw. rewrite Hwk in Hw.
      by apply (ready_weight tp W m Hready k nm md kd w Hk Hkind Hw).
    - intros b Hb. rewrite Hbk in Hb.
      destruct (ready_bias tp W m Hready k nm md kd b Hk Hkind Hb) as [pb0 Hpb0].
      pose proof (Hholds b) as Hd. unfold RoundTrip.dat in Hd at 2.
      rewrite Hpb0 in Hd. cbn [fmap option_fmap option_map] in Hd.
      apply dat_Some in Hd as (pb & Hpb & _). by exists pb.
    - exact Horig. }
  intros _ m1
    (_ & Hlen1 & Hne1 & (md1 & Hk1 & Hc1 & Hw1 & Hb1 & Ha1) & Hin1 & Hout1).
  cbv beta. rewrite <- Hent in Hin1, Hout1.
  split; [done|]. split; [done|]. split.
  { exists md1. split; [done|]. split; [|done].
    eapply (back_keeps merge_names);
      [exact merge_names_engine|by split|done|done|done]. }
  apply (holds_drop W r (RoundTrip.entries tp W (nm, md)) _ m m0 m1); try done.
Qed.

(** One visit of the loop of [_deparallelize_modules]. *)
Lemma wpt_dep_body k nm md mdk m0 :
  named_modules m !! k = Some (nm, md) ->
  named_modules m0 !! k = Some (nm, mdk) ->
  Sharded.back tp md mdk ->
  (forall kd, RoundTrip.kind_of tp nm = Some kd ->
              Sharded.sliced tp W kd nm md mdk) ->
  (RoundTrip.kind_of tp nm = None -> cls mdk = cls md) ->
  Sharded.holds W r (RoundTrip.plan tp W (drop k (named_modules m))) m m0 ->
  Hoare.wpt
    (param_name <- local (module_name k) ;;
     if is_column_parallel (tp_mapping self) param_name then
       fusion_degree <- local (getattr k "fusion_degree") ;;
       reversed <- local (getattr k "reversed") ;;
       TensorDeparallelEngine1D._column_merge self k fusion_degree reversed
     else if is_row_parallel (tp_mapping self) param_name then
       fusion_degree <- local (getattr k "fusion_degree") ;;
       reversed <- local (getattr k "reversed") ;;
       TensorDeparallelEngine1D._row_merge self k fusion_degree reversed
     else cret tt)%M
    (RoundTrip.responses n
       (RoundTrip.gathers W (store m) (RoundTrip.entries tp W (nm, md))) r)
    (fun _ m1 =>
       length (named_modules m1) = length (named_modules m0) /\
       (forall j, j <> k -> named_modules m1 !! j = named_modules m0 !! j) /\
       (exists md1, named_modules m1 !! k = Some (nm, md1) /\
                    Sharded.back tp md md1 /\ cls md1 = cls md) /\
       Sharded.holds W r (RoundTrip.plan tp W (drop (S k) (named_modules m)))
         m m1)
    m0.
Proof.
  intros Hk Hk0 Hback Hsl Hcls Hholds.
  apply wpt_bind_local. eapply wp_module_name; [exact Hk0|]. cbv beta.
  cbn [tp_mapping engine_of].
  destruct (is_column_parallel tp nm) eqn:Ecol;
    [|destruct (is_row_parallel tp nm) eqn:Erow].
  - assert (Hkind : RoundTrip.kind_of tp nm = Some RoundTrip.Column).
    { unfold RoundTrip.kind_of. by rewrite Ecol. }
    destruct (Hsl _ Hkind) as (HaF & Harev & Horig & _).
    apply wpt_bind_local. eapply wp_getattr; [exact Hk0|exact HaF|]. cbv beta.
    apply wpt_bind_local. eapply wp_getattr; [exact Hk0|exact Harev|]. cbv beta.
    unfold TensorDeparallelEngine1D._column_merge.
    apply (wpt_dep_merge k nm md mdk m0 RoundTrip.Column true 0); try done.
    unfold RoundTrip.entries. simpl. rewrite Hkind.
    destruct Hback as (Hwk & Hbk & _). rewrite ?Hwk, ?Hbk. reflexivity.
  - assert (Hkind : RoundTrip.kind_of tp nm = Some RoundTrip.Row).
    { unfold RoundTrip.kind_of. by rewrite Ecol, Erow. }
    destruct (Hsl _ Hkind) as (HaF & Harev & Horig & _).
    apply wpt_bind_local. eapply wp_getattr; [exact Hk0|exact HaF|]. cbv beta.
    apply wpt_bind_local. eapply wp_getattr; [exact Hk0|exact Harev|]. cbv beta.
    unfold TensorDeparallelEngine1D._row_merge.
    apply (wpt_dep_merge k nm md mdk m0 RoundTrip.Row false 1); try done.
    unfold RoundTrip.entries. simpl. rewrite Hkind.
    destruct Hback as (Hwk & Hbk & _). rewrite ?Hwk, ?Hbk. reflexivity.
  - assert (Hent : RoundTrip.entries tp W (nm, md) = []).
    { unfold RoundTrip.entries, RoundTrip.kind_of. simpl. by rewrite Ecol, Erow. }
    assert (Hkind : RoundTrip.kind_of tp nm = None).
    { unfold RoundTrip.kind_of. by rewrite Ecol, Erow. }
    rewrite Hent. apply wpt_cret.
    split; [done|]. split; [done|]. split; [exists mdk; by auto|].
    rewrite (plan_drop tp W (named_modules m) k (nm, md) Hk), Hent in Hholds.
    exact Hholds.
Qed.

(** After [_deparallelize_modules]. *)
Lemma dep_modules m2 :
  length (named_modules m2) = length (named_modules m) ->
  Sharded.holds W r (RoundTrip.plan tp W (named_modules m)) m m2 ->
  (forall i nm md,
      named_modules m !! i = Some (nm, md) ->
      exists md',
        named_modules m2 !! i = Some (nm, md') /\
        Sharded.back tp md md' /\
        (forall kd, RoundTrip.kind_of tp nm = Some kd ->
                    Sharded.sliced tp W kd nm md md') /\
        (RoundTrip.kind_of tp nm = None -> cls md' = cls md)) ->
  Hoare.wpt (TensorDeparallelEngine1D._deparallelize_modules self)
    (RoundTrip.responses n
       (RoundTrip.gathers W (store m) (RoundTrip.plan tp W (named_modules m))) r)
    (fun _ m3 =>
       length (named_modules m3) = length (named_modules m) /\
       (forall p, RoundTrip.dat m3 p = RoundTrip.dat m p) /\
       forall i nm md,
         named_modules m !! i = Some (nm, md) ->
         exists md', named_modules m3 !! i = Some (nm, md') /\
                     Sharded.back tp md md' /\ cls md' = cls md)
    m2.
Proof.
  intros Hlen2 Hdat2 Hmods2.
  unfold TensorDeparallelEngine1D._deparallelize_modules.
  apply wpt_bind_local. apply wp_get. cbv beta.
  unfold module_ids. rewrite Hlen2.
  set (N := length (named_modules m)).
  rewrite plan_concat, gathers_concat, responses_concat. fold N.
  rewrite <- !list_fmap_compose.
  set (I := fun (k : nat) (m' : Model A) =>
    length (named_modules m') = N /\
    Sharded.holds W r (RoundTrip.plan tp W (drop k (named_modules m))) m m' /\
    forall i nm md,
      named_modules m !! i = Some (nm, md) ->
      exists md',
        named_modules m' !! i = Some (nm, md') /\
        Sharded.back tp md md' /\
        ((k <= i)%nat ->
         forall kd, RoundTrip.kind_of tp nm = Some kd ->
                    Sharded.sliced tp W kd nm md md') /\
        (RoundTrip.kind_of tp nm = None \/ (i < k)%nat -> cls md' = cls md)).
  eapply wpt_conseq.
  { apply (wpt_cfor_each_seq _ I
             (fun k => RoundTrip.responses n
                         (RoundTrip.gathers W (store m)
                            (Sharded.entries_at tp W (named_modules m) k)) r)
             0 N).
    - intros k m0 Hk (Hlen0 & Hholds0 & Hmods0). cbv beta.
      destruct (lookup_lt_is_Some_2 (named_modules m) k) as [[nm md] Hkm];
        [fold N; lia|].
      destruct (Hmods0 _ _ _ Hkm) as (mdk & Hk0 & Hback & Hsl & Hcls).
      unfold Sharded.entries_at. rewrite Hkm.
      eapply wpt_conseq.
      { apply (wpt_dep_body k nm md mdk m0 Hkm Hk0 Hback); [| |exact Hholds0].
        - intros kd Hkd. by apply Hsl.
        - intros Hkd. apply Hcls. by left. }
      intros _ m1 (Hlen1 & Hne1 & (md1 & Hk1 & Hback1 & Hcls1) & Hholds1).
      cbv beta.
      split; [congruence|]. split; [done|].
      intros i nm' md' Hi. destruct (decide (i = k)) as [->|Hne].
      + rewrite Hkm in Hi. injection Hi as <- <-.
        exists md1. split; [done|]. split; [done|]. split; [intros; lia|done].
      + destruct (Hmods0 _ _ _ Hi) as (mdi & Hi0 & Hback_i & Hsl_i & Hcls_i).
        exists mdi. rewrite (Hne1 i Hne). split; [done|]. split; [done|].
        split; [intros Hle; apply Hsl_i; lia|].
        intros [Hkd|Hlt]; apply Hcls_i; [by left|right; lia].
    - split; [done|]. split; [by rewrite drop_0|].
      intros i nm md Hi.
      destruct (Hmods2 _ _ _ Hi) as (md' & Hi' & Hback & Hsl & Hcls).
      exists md'. split; [done|]. split; [done|]. split; [intros _; exact Hsl|].
      intros [Hkd|Hlt]; [by apply Hcls|lia]. }
  intros _ m3 (Hlen3 & Hholds3 & Hmods3). cbv beta.
  split; [done|]. split.
  - intros p. pose proof (Hholds3 p) as Hd. simpl in Hd. unfold N in Hd.
    rewrite drop_all in Hd. rewrite Hd.
    destruct (RoundTrip.dat m p) as [t|]; [|done]. simpl.
    by rewrite expected_nil.
  - intros i nm md Hi.
    destruct (Hmods3 _ _ _ Hi) as (md' & Hi' & Hback & _ & Hcls).
    exists md'. split; [done|]. split; [done|]. apply Hcls. right.
    apply lookup_lt_Some in Hi. fold N in Hi. lia.
Qed.

(** What [deparallelize] makes of the model that [parallelize] left on
    rank [r], when the other ranks contribute their shards. *)
Lemma dep_all m_r :
  Sharded.after_parallelize tp W m e w0 r m_r ->
  Hoare.wpt (TensorDeparallelEngine1D.deparallelize self)
    (RoundTrip.responses n
       (RoundTrip.gathers W (store m)
          (Sharded.full_plan tp W w0 (named_modules m))) r)
    (fun _ m' => Claims.restored names m m' /\ Sharded.same_modules m m')
    m_r.
Proof.
  intros Hafter. destruct (dep_rescale m_r Hafter) as [Hrun Hmods].
  destruct Hafter as (Hie & Hlen & _ & Hdat).
  unfold TensorDeparallelEngine1D.deparallelize.
  apply wpt_bind_local. eapply wp_of_run; [exact Hrun|]. cbv beta.
  change (Sharded.full_plan tp W w0 (named_modules m))
    with ([(w0, (1, 0))] ++ RoundTrip.plan tp W (named_modules m)).
  rewrite gathers_app, responses_app.
  apply wpt_bind. eapply wpt_conseq.
  { apply dep_embedding.
    - exact Hie.
    - by rewrite map_modules_length.
    - exact Hdat.
    - exact Hmods. }
  intros _ m2 (Hlen2 & Hdat2 & Hmods2). cbv beta.
  rewrite <- (app_nil_r (RoundTrip.responses _ _ _)).
  apply wpt_bind. eapply wpt_conseq.
  { by apply dep_modules. }
  intros _ m3 (Hlen3 & Hdat3 & Hmods3). cbv beta.
  apply wpt_local. wp_step. wp_go. wp_go.
  split; [split|].
  - intros p. apply (Hdat3 p).
  - intros i name Hin. unfold Closed.attr_of.
    cbn [named_modules upd_module].
    destruct (named_modules m !! i) as [[nm md]|] eqn:Hi.
    + destruct (Hmods3 _ _ _ Hi) as (md' & Hi' & (_ & _ & Ha) & _).
      destruct (decide (i = 0%nat)) as [->|Hne].
      * rewrite list_lookup_alter_eq, Hi'. simpl.
        rewrite lookup_insert_ne; [by apply Ha|].
        intros <-. apply (Hengine _ Hin). in_names.
      * rewrite list_lookup_alter_ne by done. rewrite Hi'. by apply Ha.
    + apply lookup_ge_None in Hi. rewrite <- Hlen3 in Hi.
      apply lookup_ge_None in Hi.
      destruct (decide (i = 0%nat)) as [->|Hne].
      * by rewrite list_lookup_alter_eq, Hi.
      * rewrite list_lookup_alter_ne by done. by rewrite Hi.
  - split; [by rewrite upd_module_length|]. intros i nm md Hi.
    destruct (Hmods3 _ _ _ Hi) as (md' & Hi' & (Hw & Hb & _) & Hcls).
    cbn [named_modules upd_module].
    destruct (decide (i = 0%nat)) as [->|Hne].
    + rewrite list_lookup_alter_eq, Hi'. eexists. split; [reflexivity|]. done.
    + rewrite list_lookup_alter_ne by done. by exists md'.
Qed.

End Deparallelize.

(** * The round trip of a model that divides evenly *)

Section Ready.
Context {A : Type}.
Implicit Types (m : Model A) (md : Module).

Lemma forallb_elem_of {X : Type} (f : X -> bool) (l : list X) x :
  forallb f l = true -> x ∈ l -> f x = true.
Proof.
  intros H Hx. induction Hx as [x l|x y l _ IH]; simpl in H;
    apply andb_prop in H as [H1 H2]; [done|by apply IH].
Qed.

(** What [round_trip_ready] checks. *)
Lemma round_trip_ready_inv tp W m :
  RoundTrip.round_trip_ready tp W m = true ->
  1 <= W /\
  NoDup (update_attrs tp) /\
  (forall name, name ∈ update_attrs tp -> name ∉ RoundTrip.engine_names) /\
  (forall i nm md name v,
      named_modules m !! i = Some (nm, md) ->
      name ∈ update_attrs tp ->
      attrs md !! name = Some v ->
      exists h, v = VInt h /\ h mod W = 0) /\
  exists e en emb w0 p0,
    input_embeddings m = Some e /\
    named_modules m !! e = Some (en, emb) /\
    weight emb = Ref w0 /\
    NoDup (Sharded.full_plan tp W w0 (named_modules m)).*1 /\
    store m !! w0 = Some p0 /\
    Closed.sliceable 1 W 0 (data p0) = true /\
    dim (data p0) = 2 /\
    forall i nmd, named_modules m !! i = Some nmd ->
      RoundTrip.module_ready tp W (store m) nmd = true.
Proof.
  unfold RoundTrip.round_trip_ready. intros H.
  apply andb_prop in H as [H Hemb]. apply andb_prop in H as [H Hdiv].
  apply andb_prop in H as [H Heng]. apply andb_prop in H as [HW Hnd].
  split; [lia|]. split; [by apply bool_decide_eq_true_1 in Hnd|]. split.
  { intros name Hin.
    apply (forallb_elem_of _ _ name) in Heng; [|done].
    by apply bool_decide_eq_true_1 in Heng. }
  split.
  { intros i nm md name v Hi Hin Hv.
    apply (forallb_elem_of _ _ (nm, md)) in Hdiv;
      [|by eapply list_elem_of_lookup_2].
    apply (forallb_elem_of _ _ name) in Hdiv; [|done]. simpl in Hdiv.
    rewrite Hv in Hdiv. destruct v as [h| | | |]; try done.
    exists h. split; [done|lia]. }
  destruct (input_embeddings m) as [e|]; [|done].
  destruct (named_modules m !! e) as [[en emb]|] eqn:He; [|done].
  destruct (weight emb) as [| |w0] eqn:Hw0; try done.
  apply andb_prop in Hemb as [Hemb Hmods]. apply andb_prop in Hemb as [Hplan Htab].
  destruct (store m !! w0) as [p0|] eqn:Hp0; [|done].
  apply andb_prop in Htab as [Hs Hd].
  exists e, en, emb, w0, p0. repeat split; try done.
  - by apply bool_decide_eq_true_1 in Hplan.
  - lia.
  - intros i nmd Hi. apply (forallb_elem_of _ _ nmd) in Hmods; [done|].
    by eapply list_elem_of_lookup_2.
Qed.

Lemma parallelize_all_seq tp W m :
  parallelize_all tp W m
  = (fun r : nat =>
       TensorParallelEngine1D.parallelize (engine_of tp W (Z.of_nat r)) m)
      <$> seq 0 (Z.to_nat W).
Proof. unfold parallelize_all, Py.range. by rewrite <- list_fmap_compose. Qed.

Lemma imap_fmap_seq {X Y : Type} (f : nat -> X -> Y) (g : nat -> X) (n : nat) :
  imap f (g <$> seq 0 n) = (fun r => f r (g r)) <$> seq 0 n.
Proof.
  apply list_eq. intros i. rewrite list_lookup_imap, !list_lookup_fmap.
  destruct (decide (i < n)%nat) as [Hi|Hi].
  - by rewrite lookup_seq_lt.
  - by rewrite lookup_seq_ge by lia.
Qed.

Lemma gathers_length W (st : gmap nat (Param A)) pl :
  (forall p, p ∈ pl.*1 -> is_Some (st !! p)) ->
  length (RoundTrip.gathers W st pl) = length pl.
Proof.
  unfold RoundTrip.gathers. induction pl as [|[p Fd] pl IH]; intros H; [done|].
  simpl. destruct (H p) as [pp Hpp]; [simpl; left|].
  rewrite Hpp. simpl. f_equal. apply IH. intros q Hq. apply H. simpl. by right.
Qed.

(** Parallelize and then deparallelize on one rank of a group whose
    other ranks do the same. *)
Lemma ready_rank tp W m e en emb w0 (r : nat) :
  RoundTrip.round_trip_ready tp W m = true ->
  (r < Z.to_nat W)%nat ->
  input_embeddings m = Some e ->
  named_modules m !! e = Some (en, emb) ->
  weight emb = Ref w0 ->
  exists m_r m',
    TensorParallelEngine1D.parallelize (engine_of tp W (Z.of_nat r)) m
    = (Ok tt, m_r) /\
    Sharded.after_parallelize tp W m e w0 r m_r /\
    RoundTrip.Trace
      (TensorDeparallelEngine1D.deparallelize (engine_of tp W (Z.of_nat r)) m_r)
      (RoundTrip.responses (Z.to_nat W)
         (RoundTrip.gathers W (store m)
            (Sharded.full_plan tp W w0 (named_modules m))) r)
      (Ok tt, m') /\
    Claims.restored (update_attrs tp) m m' /\
    Sharded.same_modules m m'.
Proof.
  intros Hready Hr He Hemb Hw0.
  destruct (round_trip_ready_inv tp W m Hready)
    as (HW & Hnd & Heng & Hdiv & e' & en' & emb' & w0' & p0 & He' & Hemb' & Hw0'
        & Hplan & Hp0 & Htab & Htab2 & Hmods).
  rewrite He in He'. injection He' as <-.
  rewrite Hemb in Hemb'. injection Hemb' as <- <-.
  rewrite Hw0 in Hw0'. injection Hw0' as <-.
  assert (Hint : Closed.attrs_int (update_attrs tp) m).
  { intros i nm md name v Hi Hin Hv.
    destruct (Hdiv i nm md name v Hi Hin Hv) as (h & -> & _). by exists h. }
  destruct (par_all tp W m e en emb w0 p0 r HW Hr Hint He Hemb Hw0 Hplan Hp0
              Htab Hmods) as ([] & m_r & Hrun & Hafter).
  destruct (dep_all tp W m e en emb w0 p0 r HW Hr Hnd Heng Hdiv Hemb Hw0 Hplan
              Hp0 Htab Htab2 Hmods m_r Hafter)
    as ([] & m' & Htr & Hback & Hsame).
  by exists m_r, m'.
Qed.

Lemma plan_elem tp W (nms : list (string * Module)) x :
  x ∈ RoundTrip.plan tp W nms ->
  exists i nmd, nms !! i = Some nmd /\ x ∈ RoundTrip.entries tp W nmd.
Proof.
  unfold RoundTrip.plan. induction nms as [|nmd nms IH]; simpl; intros Hx.
  - by apply elem_of_nil in Hx.
  - apply elem_of_app in Hx as [Hx|Hx].
    + by exists 0%nat, nmd.
    + destruct (IH Hx) as (i & nmd' & Hi & Hin). by exists (S i), nmd'.
Qed.

(** Every object of the plan of a ready model exists. *)
Lemma ready_plan_objects tp W m e en emb w0 :
  RoundTrip.round_trip_ready tp W m = true ->
  input_embeddings m = Some e ->
  named_modules m !! e = Some (en, emb) ->
  weight emb = Ref w0 ->
  forall p, p ∈ (Sharded.full_plan tp W w0 (named_modules m)).*1 ->
            is_Some (store m !! p).
Proof.
  intros Hready He Hemb Hw0 p Hp.
  destruct (round_trip_ready_inv tp W m Hready)
    as (HW & Hnd & Heng & Hdiv & e' & en' & emb' & w0' & p0 & He' & Hemb' & Hw0'
        & Hplan & Hp0 & Htab & Htab2 & Hmods).
  rewrite He in He'. injection He' as <-.
  rewrite Hemb in Hemb'. injection Hemb' as <- <-.
  rewrite Hw0 in Hw0'. injection Hw0' as <-.
  unfold Sharded.full_plan in Hp. simpl in Hp.
  apply elem_of_cons in Hp as [->|Hp]; [by eexists|].
  apply list_elem_of_fmap in Hp as ([q [F d]] & -> & Hq). simpl.
  apply plan_elem in Hq as (i & [nm md] & Hi & Hq).
  destruct (ready_entries tp W m Hmods i nm md q F d Hi Hq) as (pp & Hpp & _).
  by eexists.
Qed.

(** The round trip of the whole group: every rank succeeds, and ends
    with the tensors, the rescaled attributes and the modules of the
    model it started from. *)
Lemma ready_cluster tp W m :
  RoundTrip.round_trip_ready tp W m = true ->
  exists fuel results,
    round_trip fuel tp W m = Some results /\
    length results = Z.to_nat W /\
    forall rm, rm ∈ results ->
      rm.1 = Ok tt /\
      Claims.restored (update_attrs tp) m rm.2 /\
      Sharded.same_modules m rm.2.
Proof.
  intros Hready.
  destruct (round_trip_ready_inv tp W m Hready)
    as (HW & _ & _ & _ & e & en & emb & w0 & p0 & He & Hemb & Hw0 & _).
  set (n := Z.to_nat W).
  set (par := fun r : nat =>
    TensorParallelEngine1D.parallelize (engine_of tp W (Z.of_nat r)) m).
  set (gs := RoundTrip.gathers W (store m)
               (Sharded.full_plan tp W w0 (named_modules m))).
  set (P := fun r : nat =>
    TensorDeparallelEngine1D.deparallelize (engine_of tp W (Z.of_nat r))
      (par r).2).
  assert (Hrank : forall r, (r < n)%nat ->
            exists m_r m',
              par r = (Ok tt, m_r) /\
              RoundTrip.Trace (P r) (RoundTrip.responses n gs r) (Ok tt, m') /\
              Claims.restored (update_attrs tp) m m' /\
              Sharded.same_modules m m').
  { intros r Hr.
    destruct (ready_rank tp W m e en emb w0 r Hready Hr He Hemb Hw0)
      as (m_r & m' & Hrun & _ & Htr & Hback).
    exists m_r, m'. split; [done|]. split; [|done].
    unfold P. fold (par r) in Hrun. by rewrite Hrun. }
  destruct (run_traces gs P n) as (xs & Hrun & Hlen & Hxs).
  { unfold n. lia. }
  { intros r Hr. destruct (Hrank r Hr) as (m_r & m' & _ & Htr & _). by eexists. }
  exists (length gs), xs. split; [|split; [done|]].
  - unfold round_trip. cbv zeta. rewrite parallelize_all_seq. fold n. fold par.
    assert (Hok : forallb (fun rm : result unit * Model A =>
                             match rm.1 with Ok _ => true | Raise _ => false end)
                    (par <$> seq 0 n) = true).
    { apply forallb_forall. intros x Hx. apply list_elem_of_In in Hx.
      apply list_elem_of_fmap in Hx as (r & -> & Hr). apply elem_of_seq in Hr.
      destruct (Hrank r ltac:(lia)) as (m_r & _ & -> & _). done. }
    rewrite Hok. unfold deparallelize_all. rewrite <- list_fmap_compose.
    rewrite (imap_fmap_seq _ (snd ∘ par) n). exact Hrun.
  - intros rm Hrm. apply list_elem_of_lookup in Hrm as [r Hr].
    assert (Hlt : (r < n)%nat) by (rewrite <- Hlen; by eapply lookup_lt_Some).
    destruct (Hrank r Hlt) as (m_r & m' & _ & Htr & Hback).
    rewrite (trace_functional _ _ _ _ (Hxs r rm Hr) Htr). done.
Qed.

End Ready.

(** * The engines on a model that divides evenly *)

(** X4: on a model that is ready for the round trip
    ([RoundTrip.round_trip_ready]), [parallelize] succeeds on every rank
    [r] of the group and leaves, of every parameter object, exactly the
    shard of rank [r]: rows [r * V / W ...] of the table of the input
    embedding, the slice of [_slice] for the weight of a column- or
    row-parallel module and for the bias of a column-parallel one, and
    the whole tensor for every other object. The input embedding and the
    number of modules are kept. *)
Theorem parallelize_leaves_each_rank_its_shards {A : Type}
    (tp : TensorParallelMapping) (W : Z) (m : Model A) (e : nat) (en : string)
    (emb : Module) (w0 : nat) (r : nat) :
  RoundTrip.round_trip_ready tp W m = true ->
  (r < Z.to_nat W)%nat ->
  input_embeddings m = Some e ->
  named_modules m !! e = Some (en, emb) ->
  weight emb = Ref w0 ->
  exists m',
    TensorParallelEngine1D.parallelize (engine_of tp W (Z.of_nat r)) m
    = (Ok tt, m') /\
    input_embeddings m' = input_embeddings m /\
    length (named_modules m') = length (named_modules m) /\
    forall p,
      RoundTrip.dat m' p
      = RoundTrip.expected W r
          (Sharded.full_plan tp W w0 (named_modules m)) p
        <$> RoundTrip.dat m p.
Proof.
  intros Hready Hr He Hemb Hw0.
  destruct (ready_rank tp W m e en emb w0 r Hready Hr He Hemb Hw0)
    as (m_r & _ & Hrun & (Hie & Hlen & _ & Hdat) & _).
  exists m_r. split; [done|]. split; [congruence|]. split; [done|].
  exact Hdat.
Qed.

Lemma parallelize_leaves_each_rank_its_shards_witness :
  exists m',
    TensorParallelEngine1D.parallelize
      (engine_of Sample.mapping 2 (Z.of_nat 1)) Sample.model
    = (Ok tt, m') /\
    input_embeddings m' = input_embeddings Sample.model /\
    length (named_modules m') = length (named_modules Sample.model) /\
    forall p,
      RoundTrip.dat m' p
      = RoundTrip.expected 2 1
          (Sharded.full_plan Sample.mapping 2 0%nat
             (named_modules Sample.model)) p
        <$> RoundTrip.dat Sample.model p.
Proof.
  apply (parallelize_leaves_each_rank_its_shards Sample.mapping 2 Sample.model
           1%nat "wte"
           (Examples.mk_module Embedding (Ref 0%nat) Absent
              [("num_embeddings", VInt 4)]) 0%nat 1%nat).
  - vm_compute. reflexivity.
  - vm_compute. lia.
  - reflexivity.
  - reflexivity.
  - reflexivity.
Defined.

(** X5: on a model that is ready for the round trip, running
    [parallelize] on the [W] ranks of a group and then [deparallelize] on
    all of them together succeeds on every rank, and every rank ends with
    the tensors of all parameter objects and the rescaled attributes of
    all modules as they were before [parallelize]. *)
Theorem ready_model_round_trip_exact {A : Type} (tp : TensorParallelMapping)
    (W : Z) (m : Model A) :
  RoundTrip.round_trip_ready tp W m = true ->
  Claims.round_trip_exact tp W m.
Proof.
  intros Hready.
  destruct (ready_cluster tp W m Hready) as (fuel & results & Hrun & Hlen & Hall).
  exists fuel, results. split; [exact Hrun|]. split; [exact Hlen|].
  intros rm Hrm. destruct (Hall rm Hrm) as (Hok & Hback & _). by split.
Qed.

Lemma ready_model_round_trip_exact_witness :
  Claims.round_trip_exact Sample.mapping 2 Sample.model.
Proof.
  apply (ready_model_round_trip_exact Sample.mapping 2 Sample.model).
  vm_compute. reflexivity.
Defined.

(** X6: on the model that [parallelize] left on rank [r] of a ready
    model, [deparallelize] issues one all-gather for the table of the
    input embedding and then one for each tensor that was cut, in the
    order of the modules (weight before bias), sending the shard of the
    rank each time; answered with the shards of all ranks it returns
    without an error. Every rank issues the same number of calls. *)
Theorem deparallelize_gathers_each_shard_once {A : Type}
    (tp : TensorParallelMapping) (W : Z) (m : Model A) (e : nat) (en : string)
    (emb : Module) (w0 : nat) (r : nat) :
  RoundTrip.round_trip_ready tp W m = true ->
  (r < Z.to_nat W)%nat ->
  input_embeddings m = Some e ->
  named_modules m !! e = Some (en, emb) ->
  weight emb = Ref w0 ->
  let plan := Sharded.full_plan tp W w0 (named_modules m) in
  let m_r :=
    (TensorParallelEngine1D.parallelize (engine_of tp W (Z.of_nat r)) m).2 in
  exists calls m',
    RoundTrip.Trace
      (TensorDeparallelEngine1D.deparallelize (engine_of tp W (Z.of_nat r)) m_r)
      calls (Ok tt, m') /\
    calls = RoundTrip.responses (Z.to_nat W)
              (RoundTrip.gathers W (store m) plan) r /\
    length calls = length plan /\
    Forall (fun c => c.1.1 = OpAllGather) calls.
Proof.
  intros Hready Hr He Hemb Hw0 plan m_r.
  destruct (ready_rank tp W m e en emb w0 r Hready Hr He Hemb Hw0)
    as (m_r' & m' & Hrun & _ & Htr & _).
  assert (m_r = m_r') as -> by (unfold m_r; by rewrite Hrun).
  eexists _, m'. split; [exact Htr|]. split; [done|]. split.
  - unfold RoundTrip.responses. rewrite length_fmap.
    apply gathers_length.
    by apply (ready_plan_objects tp W m e en emb w0 Hready He Hemb Hw0).
  - unfold RoundTrip.responses, RoundTrip.gathers.
    apply Forall_fmap, Forall_forall. intros g Hg. simpl.
    apply list_elem_of_omap in Hg as (x & _ & Hx).
    destruct (store m !! x.1); [|done]. simpl in Hx. by injection Hx as <-.
Qed.

Lemma deparallelize_gathers_each_shard_once_witness :
  let plan :=
    Sharded.full_plan Sample.mapping 2 0%nat (named_modules Sample.model) in
  let m_r :=
    (TensorParallelEngine1D.parallelize
       (engine_of Sample.mapping 2 (Z.of_nat 0)) Sample.model).2 in
  exists calls m',
    RoundTrip.Trace
      (TensorDeparallelEngine1D.deparallelize
         (engine_of Sample.mapping 2 (Z.of_nat 0)) m_r)
      calls (Ok tt, m') /\
    calls = RoundTrip.responses (Z.to_nat 2)
              (RoundTrip.gathers 2 (store Sample.model) plan) 0 /\
    length calls = length plan /\
    Forall (fun c => c.1.1 = OpAllGather) calls.
Proof.
  apply (deparallelize_gathers_each_shard_once Sample.mapping 2 Sample.model
           1%nat "wte"
           (Examples.mk_module Embedding (Ref 0%nat) Absent
              [("num_embeddings", VInt 4)]) 0%nat 0%nat).
  - vm_compute. reflexivity.
  - vm_compute. lia.
  - reflexivity.
  - reflexivity.
  - reflexivity.
Defined.

(** * Products with the shards of a weight *)

Section Picks.
Context {X : Type}.
Implicit Types (l : list X).

Lemma omap_total_lookup {Y : Type} (f : X -> option Y) l i :
  Forall (fun x => is_Some (f x)) l -> omap f l !! i = l !! i ≫= f.
Proof.
  intros H. revert i. induction H as [|x l [y Hy] _ IH]; intros i; [done|].
  simpl. rewrite Hy. destruct i; simpl; [done|apply IH].
Qed.

Lemma omap_total_length {Y : Type} (f : X -> option Y) l :
  Forall (fun x => is_Some (f x)) l -> length (omap f l) = length l.
Proof.
  induction 1 as [|x l [y Hy] _ IH]; [done|]. simpl. rewrite Hy. simpl.
  f_equal. exact IH.
Qed.

Lemma omap_Forall_ext {Y : Type} (f g : X -> option Y) l :
  Forall (fun x => f x = g x) l -> omap f l = omap g l.
Proof. induction 1 as [|x l Hx _ IH]; [done|]. csimpl. by rewrite Hx, IH. Qed.

Lemma omap_fmap_inner {Y Z : Type} (f : Y -> option Z) (h : X -> Y) l :
  omap f (h <$> l) = omap (fun x => f (h x)) l.
Proof. induction l as [|x l IH]; [done|]. csimpl. by rewrite IH. Qed.

(** The position in [l] of the entry that a rank holds at position [k]. *)
Lemma fused_pick_lookup_idx (s F W r : nat) l (k : nat) :
  (r < W)%nat -> length l = (F * W * s)%nat -> (k < F * s)%nat ->
  Closed.fused_pick s F W r l !! k
  = l !! (((k / s) * W + r) * s + k mod s)%nat.
Proof.
  intros Hr Hl Hk. assert (Hs : s <> 0%nat) by (intros ->; lia).
  pose proof (Nat.div_mod_eq k s) as Hdm.
  pose proof (Nat.mod_upper_bound k s Hs) as Hmod.
  assert (Hdiv : (k / s < F)%nat).
  { apply Nat.Div0.div_lt_upper_bound. lia. }
  transitivity (Closed.fused_pick s F W r l !! (k / s * s + k mod s)%nat).
  { f_equal. lia. }
  by apply fused_pick_lookup.
Qed.

Lemma fused_idx_bound (s F W r k : nat) :
  (r < W)%nat -> (k < F * s)%nat ->
  (((k / s) * W + r) * s + k mod s < F * W * s)%nat.
Proof.
  intros Hr Hk. assert (Hs : s <> 0%nat) by (intros ->; lia).
  pose proof (Nat.mod_upper_bound k s Hs) as Hmod.
  assert (Hdiv : (k / s < F)%nat).
  { apply Nat.Div0.div_lt_upper_bound. lia. }
  assert ((k / s) * W + r + 1 <= F * W)%nat by nia.
  nia.
Qed.

Lemma fmap_concat_list {Y : Type} (g : X -> Y) (ls : list (list X)) :
  g <$> concat ls = concat ((fun l => g <$> l) <$> ls).
Proof.
  induction ls as [|l ls IH]; [done|]. csimpl. by rewrite fmap_app, IH.
Qed.

Lemma fused_pick_fmap {Y : Type} (g : X -> Y) (s F W r : nat) l :
  g <$> Closed.fused_pick s F W r l = Closed.fused_pick s F W r (g <$> l).
Proof.
  unfold Closed.fused_pick, chunk_piece. rewrite fmap_concat_list, <- list_fmap_compose.
  f_equal. apply list_fmap_ext. intros _ i _. simpl.
  by rewrite fmap_take, fmap_drop.
Qed.

End Picks.

Lemma fused_pick_zip_with {X Y Z : Type} (f : X -> Y -> Z) (s F W r : nat)
    (l : list X) (l' : list Y) :
  (r < W)%nat -> length l = (F * W * s)%nat -> length l' = (F * W * s)%nat ->
  zip_with f (Closed.fused_pick s F W r l) (Closed.fused_pick s F W r l')
  = Closed.fused_pick s F W r (zip_with f l l').
Proof.
  intros Hr Hl Hl'.
  assert (Hz : length (zip_with f l l') = (F * W * s)%nat).
  { rewrite length_zip_with. lia. }
  apply (list_eq_same_length _ _ (F * s)%nat).
  - by apply fused_pick_length.
  - rewrite length_zip_with, !fused_pick_length by done. lia.
  - intros k x y Hk Hx Hy.
    rewrite lookup_zip_with, !fused_pick_lookup_idx in Hx by done.
    rewrite fused_pick_lookup_idx, lookup_zip_with in Hy by done.
    congruence.
Qed.

Section Products.
Context {A : Type} (zero : A) (add mul : A -> A -> A).
Implicit Types (rows ys : list (list A)).

Lemma transpose_length rows : length (transpose rows) = ncols rows.
Proof. unfold transpose. by rewrite length_fmap, length_seq. Qed.

Lemma transpose_lookup rows (j : nat) :
  (j < ncols rows)%nat ->
  transpose rows !! j = Some (omap (fun row => row !! j) rows).
Proof.
  intros Hj. unfold transpose. by rewrite list_lookup_fmap, lookup_seq_lt.
Qed.

(** A column of the shard is a column of the matrix. *)
Lemma column_pick rows (s F W r k : nat) :
  (r < W)%nat ->
  Forall (fun row => length row = (F * W * s)%nat) rows ->
  (k < F * s)%nat ->
  omap (fun row => row !! k) (Closed.fused_pick s F W r <$> rows)
  = omap (fun row => row !! (((k / s) * W + r) * s + k mod s)%nat) rows.
Proof.
  intros Hr Hrows Hk. rewrite omap_fmap_inner. apply omap_Forall_ext.
  eapply Forall_impl; [exact Hrows|]. intros row Hrow. simpl.
  by apply fused_pick_lookup_idx.
Qed.

Lemma fmap_transpose_pick {B : Type} (g : list A -> B) rows (s F W r : nat) :
  (r < W)%nat -> (1 <= length rows)%nat ->
  Forall (fun row => length row = (F * W * s)%nat) rows ->
  g <$> transpose (Closed.fused_pick s F W r <$> rows)
  = Closed.fused_pick s F W r (g <$> transpose rows).
Proof.
  intros Hr Hlen Hrows. destruct rows as [|row0 rows']; [simpl in Hlen; lia|].
  assert (Hnc : ncols (row0 :: rows') = (F * W * s)%nat).
  { by apply Forall_cons in Hrows as [? _]. }
  assert (Hnc' : ncols (Closed.fused_pick s F W r <$> row0 :: rows')
                 = (F * s)%nat).
  { simpl. apply fused_pick_length; [done|]. exact Hnc. }
  apply (list_eq_same_length _ _ (F * s)%nat).
  - apply fused_pick_length; [done|].
    by rewrite length_fmap, transpose_length.
  - by rewrite length_fmap, transpose_length.
  - intros k x y Hk Hx Hy.
    rewrite list_lookup_fmap, transpose_lookup in Hx by (by rewrite Hnc').
    rewrite fused_pick_lookup_idx in Hy;
      [|done|by rewrite length_fmap, transpose_length|done].
    rewrite list_lookup_fmap, transpose_lookup in Hy
      by (rewrite Hnc; by apply fused_idx_bound).
    rewrite column_pick in Hx by done. simpl in Hx, Hy. congruence.
Qed.

(** The shard along the columns of a matrix whose rows have one length. *)
Lemma shard_cols_uniform ys (s F W r : nat) :
  (1 <= F)%nat -> (1 <= W)%nat ->
  Forall (fun row => length row = (F * W * s)%nat) ys ->
  Closed.shard F W r 1 (Mat ys) = Mat (Closed.fused_pick s F W r <$> ys).
Proof.
  intros HF HW Hys. simpl. destruct ys as [|y0 ys']; [done|].
  apply Forall_cons in Hys as [Hy0 _]. simpl ncols.
  rewrite Hy0, <- Nat.mul_assoc. rewrite (Nat.mul_comm W s), Nat.mul_assoc.
  rewrite Nat.mul_comm, Nat.mul_assoc. rewrite (Nat.mul_comm W F).
  by rewrite (Nat.mul_comm (F * W) s), Nat.div_mul by lia.
Qed.

(** Column-parallel, reversed layout: the product with the columns that a
    rank holds is the shard of the product. *)
Lemma matmul_column_shard x rows (s F W r : nat) Y :
  (r < W)%nat -> (1 <= F)%nat -> (1 <= length rows)%nat ->
  Forall (fun row => length row = (F * W * s)%nat) rows ->
  matmul zero add mul x (Mat rows) = Ok Y ->
  matmul zero add mul x (Mat (Closed.fused_pick s F W r <$> rows))
  = Ok (Closed.shard F W r 1 Y).
Proof.
  intros Hr HF Hlen Hrows. unfold matmul.
  destruct x as [a|v|xr]; simpl; try done. rewrite length_fmap.
  destruct (forallb _ xr); [|done]. intros [= <-]. f_equal.
  assert (Hnc : ncols rows = (F * W * s)%nat).
  { destruct rows as [|row0 rows']; [simpl in Hlen; lia|].
    by apply Forall_cons in Hrows as [? _]. }
  rewrite (shard_cols_uniform _ s) by
    (try lia; apply Forall_fmap, Forall_forall; intros xi _; simpl;
     by rewrite length_fmap, transpose_length).
  f_equal. rewrite <- list_fmap_compose. apply list_fmap_ext. intros _ xi _.
  simpl. by apply fmap_transpose_pick.
Qed.

(** The bias that a rank holds, added to its columns. *)
Lemma add_bias_shard ys (b : list A) (s F W r : nat) Z0 :
  (r < W)%nat -> (1 <= F)%nat ->
  Forall (fun row => length row = (F * W * s)%nat) ys ->
  add_bias add (Mat ys) (Vec b) = Ok Z0 ->
  add_bias add (Mat (Closed.fused_pick s F W r <$> ys))
    (Closed.shard F W r 0 (Vec b))
  = Ok (Closed.shard F W r 1 Z0).
Proof.
  intros Hr HF Hys. unfold add_bias. cbn [as_mat as_vec rbind Closed.shard].
  destruct (forallb _ ys) eqn:Hcheck; [|done]. intros [= <-].
  destruct (decide (ys = [])) as [->|Hne]; [done|].
  assert (Hb : length b = (F * W * s)%nat).
  { destruct ys as [|y0 ys']; [done|]. simpl in Hcheck.
    apply andb_prop in Hcheck as [Hc _]. apply Nat.eqb_eq in Hc.
    apply Forall_cons in Hys as [Hy0 _]. congruence. }
  assert (Hdiv : (length b / (F * W) = s)%nat).
  { rewrite Hb, (Nat.mul_comm (F * W) s). apply Nat.div_mul. nia. }
  rewrite Hdiv.
  assert (Hloc : forallb (fun r0 : list A =>
                            length r0 =? length (Closed.fused_pick s F W r b))%nat
                   (Closed.fused_pick s F W r <$> ys) = true).
  { apply forallb_forall. intros row Hrow. apply list_elem_of_In in Hrow.
    apply list_elem_of_fmap in Hrow as (row' & -> & Hrow').
    apply Nat.eqb_eq. rewrite !fused_pick_length; try done.
    by eapply (proj1 (Forall_forall _ _) Hys). }
  rewrite Hloc. f_equal.
  rewrite (shard_cols_uniform _ s); [|done|lia|].
  - f_equal. rewrite <- !list_fmap_compose. apply list_fmap_ext.
    intros i row Hrow. simpl. apply fused_pick_zip_with; [done| |done].
    apply (proj1 (Forall_forall _ _) Hys). by eapply list_elem_of_lookup_2.
  - apply Forall_fmap, Forall_forall. intros row Hrow. simpl.
    rewrite length_zip_with, Hb.
    rewrite (proj1 (Forall_forall _ _) Hys row Hrow). lia.
Qed.

Lemma omap_lookup_seq (l : list A) :
  omap (fun j => l !! j) (seq 0 (length l)) = l.
Proof.
  induction l as [|a l IH]; [done|]. simpl length. simpl seq. csimpl.
  f_equal. rewrite <- fmap_S_seq, omap_fmap_inner. exact IH.
Qed.

(** Transposing twice gives the matrix back, unless it has no column. *)
Lemma transpose_transpose rows (c : nat) :
  (1 <= c)%nat -> Forall (fun row => length row = c) rows ->
  transpose (transpose rows) = rows.
Proof.
  intros Hc Hrows. destruct (decide (rows = [])) as [->|Hne]; [done|].
  assert (Hnc : ncols rows = c).
  { destruct rows as [|row0 rows']; [done|].
    by apply Forall_cons in Hrows as [? _]. }
  assert (Htot : forall j, (j < c)%nat ->
            Forall (fun row : list A => is_Some (row !! j)) rows).
  { intros j Hj. eapply Forall_impl; [exact Hrows|]. intros row Hrow. simpl in Hrow.
    apply lookup_lt_is_Some. lia. }
  assert (Hnc2 : ncols (transpose rows) = length rows).
  { unfold transpose. rewrite Hnc. destruct c as [|c']; [lia|]. simpl.
    apply omap_total_length, Htot. lia. }
  unfold transpose at 1. rewrite Hnc2.
  apply (list_eq_same_length _ _ (length rows)); [done| |].
  { by rewrite length_fmap, length_seq. }
  intros i x y Hi Hx Hy.
  rewrite list_lookup_fmap, lookup_seq_lt in Hx by done. simpl in Hx.
  injection Hx as <-. unfold transpose. rewrite Hnc, omap_fmap_inner.
  rewrite (omap_Forall_ext _ (fun j => y !! j)).
  - rewrite <- (Forall_lookup_1 _ _ _ _ Hrows Hy). apply omap_lookup_seq.
  - apply Forall_forall. intros j Hj. apply elem_of_seq in Hj.
    rewrite omap_total_lookup by (apply Htot; lia). by rewrite Hy.
Qed.

Lemma transpose_no_column rows :
  ncols rows = 0%nat -> transpose (transpose rows) = [].
Proof. intros H. unfold transpose at 2. by rewrite H. Qed.

Lemma chunk_piece_fmap {X Y : Type} (g : X -> Y) (s r : nat) (l : list X) :
  g <$> chunk_piece s l r = chunk_piece s (g <$> l) r.
Proof. unfold chunk_piece. by rewrite fmap_take, fmap_drop. Qed.

(** What a product is made of. *)
Lemma matmul_rows x rows Y :
  matmul zero add mul x (Mat rows) = Ok Y ->
  exists xr,
    x = Mat xr /\
    Y = Mat ((fun xi => dot zero add mul xi <$> transpose rows) <$> xr).
Proof.
  unfold matmul. destruct x as [a|v|xr]; simpl; try done.
  destruct (forallb _ xr); [|done]. intros [= <-]. by exists xr.
Qed.

(** Column-parallel, plain layout: the product with the transposed rows
    that a rank holds is the shard of the product. *)
Lemma matmul_t_rows_shard x rows (s W r : nat) Y :
  (r < W)%nat -> (1 <= s)%nat -> length rows = (W * s)%nat ->
  Closed.rectangular rows = true ->
  (wt <- tensor_t (Mat rows) ;; matmul zero add mul x wt)%res = Ok Y ->
  (wt <- tensor_t (Mat (chunk_piece s rows r)) ;;
   matmul zero add mul x wt)%res
  = Ok (Closed.shard 1 W r 1 Y) /\
  exists ys s', Y = Mat ys /\
                Forall (fun row => length row = (1 * W * s')%nat) ys.
Proof.
  intros Hr Hs Hlen Hrect. unfold tensor_t, matmul. cbn [as_mat rbind].
  destruct x as [a|v|xr]; cbn [as_mat rbind]; try done.
  rewrite !transpose_length, (ncols_piece rows s W r) by done.
  destruct (forallb _ xr); [|done]. intros [= <-].
  pose proof (rectangular_spec rows Hrect) as Hrows.
  destruct (decide (ncols rows = 0%nat)) as [Hc|Hc].
  - rewrite (transpose_no_column rows Hc).
    rewrite (transpose_no_column (chunk_piece s rows r))
      by (by rewrite (ncols_piece rows s W r)).
    assert (Hys : Forall (fun row : list A => length row = (1 * W * 0)%nat)
                    ((fun xi : list A => dot zero add mul xi <$> []) <$> xr)).
    { apply Forall_fmap, Forall_forall. intros xi _. simpl. lia. }
    split; [|by eexists _, 0%nat].
    f_equal. rewrite (shard_cols_uniform _ 0) by (done || lia).
    f_equal. rewrite <- list_fmap_compose. by apply list_fmap_ext.
  - rewrite (transpose_transpose rows (ncols rows)) by (done || lia).
    rewrite (transpose_transpose (chunk_piece s rows r) (ncols rows)); cycle 1.
    { lia. }
    { unfold chunk_piece. by apply Forall_take, Forall_drop. }
    assert (Hys : Forall (fun row : list A => length row = (1 * W * s)%nat)
                    ((fun xi : list A => dot zero add mul xi <$> rows) <$> xr)).
    { apply Forall_fmap, Forall_forall. intros xi _. simpl.
      rewrite length_fmap. lia. }
    split; [|by eexists _, s].
    f_equal. rewrite (shard_cols_uniform _ s) by (done || lia).
    f_equal. rewrite <- list_fmap_compose. apply list_fmap_ext. intros _ xi _.
    simpl. by rewrite fused_pick_one, chunk_piece_fmap.
Qed.

End Products.

(** * The output of a column-parallel layer *)

Section ColumnOutput.
Context {A : Type} (zero : A) (add mul : A -> A -> A).

Lemma matmul_row_lengths x rows (Y : Tensor A) :
  matmul zero add mul x (Mat rows) = Ok Y ->
  exists ys, Y = Mat ys /\ Forall (fun row => length row = ncols rows) ys.
Proof.
  intros H. destruct (matmul_rows zero add mul x rows Y H) as (xr & -> & ->).
  eexists. split; [done|]. apply Forall_fmap, Forall_forall. intros xi _.
  simpl. by rewrite length_fmap, transpose_length.
Qed.

Lemma add_bias_vec ys (bt Z0 : Tensor A) :
  add_bias add (Mat ys) bt = Ok Z0 -> exists b, bt = Vec b.
Proof. destruct bt as [a|b|rows]; try done. by exists b. Qed.

(** What a rank computes from its shards of the weight and of the bias is
    its shard of what the whole layer computes. *)
Lemma column_output_shard (rev : bool) (F W : Z) (r : nat) (x w : Tensor A)
    (b : option (Tensor A)) (Y : Tensor A) :
  Closed.sliceable F W (Layer.column_dim rev) w = true ->
  (r < Z.to_nat W)%nat ->
  Layer.output zero add mul rev x w b = Ok Y ->
  Layer.output zero add mul rev x
    (Closed.shard (Z.to_nat F) (Z.to_nat W) r (Layer.column_dim rev) w)
    (Closed.shard (Z.to_nat F) (Z.to_nat W) r 0 <$> b)
  = Ok (Closed.shard (Z.to_nat F) (Z.to_nat W) r 1 Y).
Proof.
  intros Hs Hr. apply sliceable_inv in Hs as (HF & HW & Ht).
  set (Fn := Z.to_nat F) in *. set (Wn := Z.to_nat W) in *.
  assert (HFn : (1 <= Fn)%nat) by lia. assert (HWn : (1 <= Wn)%nat) by lia.
  unfold Layer.output. destruct rev; unfold Layer.column_dim in *.
  - destruct w as [a|v|rows]; [done|by destruct Ht|].
    destruct Ht as (Hrect & [(Hd & _)|(_ & Hlen & s & Hs1 & Hnc)]); [done|].
    assert (Hrows : Forall (fun row => length row = (Fn * Wn * s)%nat) rows).
    { rewrite <- Hnc. by apply rectangular_spec. }
    destruct (matmul zero add mul x (Mat rows)) as [Y0|e] eqn:Hm; [|done].
    cbn [rbind]. rewrite (shard_cols_uniform rows s) by done.
    rewrite (matmul_column_shard zero add mul x rows s Fn Wn r Y0) by done.
    cbn [rbind].
    destruct b as [bt|]; [|by intros [= <-]].
    destruct (matmul_row_lengths x rows Y0 Hm) as (ys & -> & Hys).
    rewrite Hnc in Hys. intros Hb.
    destruct (add_bias_vec ys bt Y Hb) as [bv ->]. cbn [fmap option_fmap option_map].
    rewrite (shard_cols_uniform ys s) by done.
    by apply add_bias_shard.
  - destruct w as [a|v|rows]; [done|done|].
    destruct Ht as (Hrect & [(_ & HF1 & s & Hs1 & Hlen)|(Hd & _)]); [|done].
    assert (Fn = 1%nat) as -> by lia.
    assert (Hsh : Closed.shard 1 Wn r 0 (Mat rows) = Mat (chunk_piece s rows r)).
    { simpl. rewrite Nat.add_0_r, Hlen, div_exact by done.
      by rewrite fused_pick_one. }
    rewrite Hsh.
    destruct (wt <- tensor_t (Mat rows) ;; matmul zero add mul x wt)%res
      as [Y0|e] eqn:Hm; [|done].
    destruct (matmul_t_rows_shard zero add mul x rows s Wn r Y0)
      as (Hloc & ys & s' & -> & Hys); try done.
    rewrite Hloc. cbn [rbind].
    destruct b as [bt|]; [|by intros [= <-]].
    intros Hb. destruct (add_bias_vec ys bt Y Hb) as [bv ->].
    cbn [fmap option_fmap option_map].
    rewrite (shard_cols_uniform ys s') by done.
    by apply add_bias_shard.
Qed.

End ColumnOutput.

(** * Forward passes of the sharded layers *)

Section LayerRuns.
Context {A : Type} (zero : A) (add mul : A -> A -> A).
Implicit Types (m : Model A) (md : Module).

Lemma weight_of_inv m md t :
  Layer.weight_of m md = Some t ->
  exists w pw, weight md = Ref w /\ store m !! w = Some pw /\ data pw = t.
Proof.
  unfold Layer.weight_of. destruct (weight md) as [| |w]; try done.
  intros H. apply fmap_Some in H as (pw & Hpw & ->). by exists w, pw.
Qed.

(** [local_matmul] computes the product from the weight that the module
    holds. *)
Lemma local_matmul_run (self : nat) m nm md (rev : Value) t x Y0 :
  named_modules m !! self = Some (nm, md) ->
  attrs md !! "reversed" = Some rev ->
  Layer.weight_of m md = Some t ->
  Layer.output zero add mul (truthy rev) x t None = Ok Y0 ->
  local_matmul zero add mul self x m = (Ok Y0, m).
Proof.
  intros Hi Hrev Hw HY0.
  destruct (weight_of_inv m md t Hw) as (w & pw & Hwr & Hpw & <-).
  unfold Layer.output in HY0. unfold local_matmul.
  erewrite lbind_ok; [|by eapply getattr_ok].
  erewrite lbind_ok; [|by eapply self_weight_ok].
  destruct (truthy rev).
  - destruct (matmul zero add mul x (data pw)) as [Y1|e]; [|done].
    simpl in HY0. by injection HY0 as ->.
  - destruct (tensor_t (data pw)) as [wt|e]; [|done]. simpl in HY0 |- *.
    unfold lbind, lift.
    destruct (matmul zero add mul x wt) as [Y1|e]; [|done].
    simpl in HY0. by injection HY0 as ->.
Qed.

(** [maybe_add_bias] adds the bias that the module holds. *)
Lemma maybe_add_bias_run (self : nat) m nm md b (G Y : Tensor A) :
  named_modules m !! self = Some (nm, md) ->
  Layer.bias_of m md = Some b ->
  match b with
  | Some bt => add_bias add G bt = Ok Y
  | None => Y = G
  end ->
  maybe_add_bias add self G m = (Ok Y, m).
Proof.
  intros Hi Hb HY. unfold maybe_add_bias.
  erewrite lbind_ok; [|by eapply get_module_ok].
  unfold Layer.bias_of in Hb. destruct (bias md) as [| |bp]; [done| |].
  - injection Hb as <-. by rewrite HY.
  - apply fmap_Some in Hb as (pb & Hpb & ->).
    erewrite lbind_ok; [|by eapply get_param_ok]. unfold lift. by rewrite HY.
Qed.

Lemma output_without_bias (rev : bool) (x t : Tensor A) b Y :
  Layer.output zero add mul rev x t b = Ok Y <->
  exists Y0,
    Layer.output zero add mul rev x t None = Ok Y0 /\
    match b with
    | Some bt => add_bias add Y0 bt = Ok Y
    | None => Y = Y0
    end.
Proof.
  unfold Layer.output.
  destruct (if rev then _ else _) as [Y0|e]; cbn [rbind].
  - split.
    + intros H. exists Y0. split; [done|]. destruct b; [done|congruence].
    + intros (Y1 & [= <-] & H). destruct b; [done|congruence].
  - split; [done|]. by intros (Y1 & ? & _).
Qed.

Lemma trace_broadcast {Y : Type} (t : Tensor A) ts x (f : Tensor A -> M A Y)
    m tr y :
  Py.index ts 0 = Ok x ->
  RoundTrip.Trace (f x m) tr y ->
  RoundTrip.Trace (cbind (mpu_broadcast t) f m) ((OpBroadcast, t, ts) :: tr) y.
Proof.
  intros Hx H. unfold cbind, mpu_broadcast, cbind, collective. simpl.
  constructor. simpl. unfold local, lift. simpl. by rewrite Hx.
Qed.

(** The forward pass of a column-parallel layer that keeps its output to
    itself: one broadcast, then the output from the tensors the module
    holds. *)
Lemma column_forward_trace (self : nat) m nm md mp (rev g : Value) t b
    (x_r x : Tensor A) xs Y :
  named_modules m !! self = Some (nm, md) ->
  attrs md !! "mpu" = Some (VMpu mp) ->
  attrs md !! "reversed" = Some rev ->
  attrs md !! "gather_output" = Some g ->
  truthy g = false ->
  Layer.weight_of m md = Some t ->
  Layer.bias_of m md = Some b ->
  Py.index xs 0 = Ok x ->
  Layer.output zero add mul (truthy rev) x t b = Ok Y ->
  RoundTrip.Trace (ColumnParallelLinear_forward zero add mul self x_r m)
    [(OpBroadcast, x_r, xs)] (Ok Y, m).
Proof.
  intros Hi Hmp Hrev Hg Hgf Hw Hb Hx HY.
  apply output_without_bias in HY as (Y0 & HY0 & HY).
  unfold ColumnParallelLinear_forward.
  rewrite (cbind_local_ok _ _ _ _ _ (self_mpu_ok self m nm md mp Hi Hmp)).
  eapply trace_broadcast; [exact Hx|].
  rewrite (cbind_local_ok _ _ _ _ _
             (local_matmul_run self m nm md rev t x Y0 Hi Hrev Hw HY0)).
  rewrite (cbind_local_ok _ _ _ _ _ (getattr_ok _ _ _ _ _ _ Hi Hg)).
  rewrite Hgf. unfold cbind at 1. simpl. apply trace_local.
  by eapply maybe_add_bias_run.
Qed.

(** The same for a layer that gathers its output: the local product is
    gathered, and the bias is added to what comes back. *)
Lemma column_forward_gather_trace (self : nat) m nm md mp (rev g : Value) t b
    (x_r x : Tensor A) xs Y0 ts G Y :
  named_modules m !! self = Some (nm, md) ->
  attrs md !! "mpu" = Some (VMpu mp) ->
  attrs md !! "reversed" = Some rev ->
  attrs md !! "gather_output" = Some g ->
  truthy g = true ->
  Layer.weight_of m md = Some t ->
  Layer.bias_of m md = Some b ->
  Py.index xs 0 = Ok x ->
  Layer.output zero add mul (truthy rev) x t None = Ok Y0 ->
  Z.of_nat (length ts) = get_tensor_parallel_world_size mp ->
  Forall (fun t' => size Y0 = size t') ts ->
  cat ts (-1) = Ok G ->
  match b with
  | Some bt => add_bias add G bt = Ok Y
  | None => Y = G
  end ->
  RoundTrip.Trace (ColumnParallelLinear_forward zero add mul self x_r m)
    [(OpBroadcast, x_r, xs); (OpAllGather, Y0, ts)] (Ok Y, m).
Proof.
  intros Hi Hmp Hrev Hg Hgt Hw Hb Hx HY0 Hlen Hshape Hcat HY.
  unfold ColumnParallelLinear_forward.
  rewrite (cbind_local_ok _ _ _ _ _ (self_mpu_ok self m nm md mp Hi Hmp)).
  eapply trace_broadcast; [exact Hx|].
  rewrite (cbind_local_ok _ _ _ _ _
             (local_matmul_run self m nm md rev t x Y0 Hi Hrev Hw HY0)).
  rewrite (cbind_local_ok _ _ _ _ _ (getattr_ok _ _ _ _ _ _ Hi Hg)).
  rewrite Hgt. eapply trace_mpu_gather; [exact Hlen|exact Hshape|exact Hcat|].
  apply trace_local. by eapply maybe_add_bias_run.
Qed.

(** The shards of all ranks, side by side, are the matrix. *)
Lemma cat_column_shards (ys : list (list A)) (s W : nat) :
  (1 <= W)%nat ->
  Forall (fun row => length row = (1 * W * s)%nat) ys ->
  cat ((fun r => Closed.shard 1 W r 1 (Mat ys)) <$> seq 0 W) (-1) = Ok (Mat ys) /\
  forall r, (r < W)%nat ->
    Forall (fun t' => size (Closed.shard 1 W r 1 (Mat ys)) = size t')
      ((fun r' => Closed.shard 1 W r' 1 (Mat ys)) <$> seq 0 W).
Proof.
  intros HW Hys.
  assert (Hsh : forall r, Closed.shard 1 W r 1 (Mat ys)
                          = Mat ((fun row => chunk_piece s row r) <$> ys)).
  { intros r. rewrite (shard_cols_uniform ys s) by done. f_equal.
    apply list_fmap_ext. intros _ row _. apply fused_pick_one. }
  split.
  - assert (Hall : (fun r => Closed.shard 1 W r 1 (Mat ys)) <$> seq 0 W
                   = (fun r => Mat ((fun row => chunk_piece s row r) <$> ys))
                       <$> seq 0 W).
    { apply list_fmap_ext. intros _ r _. apply Hsh. }
    rewrite Hall.
    rewrite (cat_mats_cols (fun r => (fun row => chunk_piece s row r) <$> ys)
               W (length ys)); [|done|by right|by intros; rewrite length_fmap].
    f_equal. f_equal. rewrite hcat_fmap.
    rewrite <- (list_fmap_id ys) at 2. apply list_fmap_ext. intros i row Hrow.
    simpl. apply concat_chunk_pieces.
    rewrite (Forall_lookup_1 _ _ _ _ Hys Hrow). lia.
  - intros r Hr. apply Forall_fmap, Forall_forall. intros r' Hr'.
    apply elem_of_seq in Hr'. unfold compose. rewrite !Hsh. simpl.
    rewrite !length_fmap. f_equal. f_equal.
    destruct ys as [|y0 ys']; [done|]. simpl.
    apply Forall_cons in Hys as [Hy0 _].
    rewrite !(chunk_piece_full_length s y0 _ W) by lia. done.
Qed.

End LayerRuns.

(** * The sum of the products of a row-parallel layer *)

Section Pieces.
Context {X : Type}.
Implicit Types (l : list X).

Lemma chunk_piece_take (s K r : nat) l :
  (r < K)%nat -> chunk_piece s (take (K * s) l) r = chunk_piece s l r.
Proof.
  intros Hr. unfold chunk_piece. rewrite !take_drop_commute, take_take.
  do 2 f_equal. nia.
Qed.

Lemma take_last_piece (s K : nat) l :
  length l = (S K * s)%nat -> l = take (K * s) l ++ chunk_piece s l K.
Proof.
  intros Hl. unfold chunk_piece. rewrite take_take_drop.
  rewrite take_ge; [done|]. lia.
Qed.

Lemma omap_total_take {Y : Type} (f : X -> option Y) l (n : nat) :
  Forall (fun x => is_Some (f x)) l -> omap f (take n l) = take n (omap f l).
Proof.
  intros H. revert n. induction H as [|x l [y Hy] _ IH]; intros [|n]; try done.
  csimpl. rewrite Hy. csimpl. by rewrite IH.
Qed.

Lemma omap_total_drop {Y : Type} (f : X -> option Y) l (n : nat) :
  Forall (fun x => is_Some (f x)) l -> omap f (drop n l) = drop n (omap f l).
Proof.
  intros H. revert n. induction H as [|x l [y Hy] _ IH]; intros [|n]; try done.
  csimpl. rewrite Hy. csimpl. by rewrite IH.
Qed.

End Pieces.

Section Sums.
Context {A : Type} (zero : A) (add mul : A -> A -> A).
Hypothesis add_assoc : forall a b c, add a (add b c) = add (add a b) c.
Hypothesis add_zero_l : forall a, add zero a = a.
Implicit Types (u v : list A) (rows cols xr : list (list A)).

Notation dotp := (dot zero add mul).

Lemma foldr_add_app (l k : list A) :
  foldr add zero (l ++ k) = add (foldr add zero l) (foldr add zero k).
Proof.
  induction l as [|a l IH]; simpl; [by rewrite add_zero_l|].
  by rewrite IH, add_assoc.
Qed.

Lemma dot_app u1 u2 v1 v2 :
  length u1 = length v1 ->
  dotp (u1 ++ u2) (v1 ++ v2) = add (dotp u1 v1) (dotp u2 v2).
Proof.
  intros Hl. unfold dot. rewrite zip_with_app by done.
  apply foldr_add_app.
Qed.

(** A dot product is the sum, block by block, of the dot products of the
    blocks. *)
Lemma dot_blocks (s K : nat) u v :
  length u = (S K * s)%nat -> length v = (S K * s)%nat ->
  dotp u v
  = foldl add (dotp (chunk_piece s u 0) (chunk_piece s v 0))
      ((fun r => dotp (chunk_piece s u r) (chunk_piece s v r)) <$> seq 1 K).
Proof.
  revert u v. induction K as [|K IH]; intros u v Hu Hv.
  - simpl. unfold chunk_piece. simpl. by rewrite !drop_0, !take_ge by lia.
  - rewrite seq_S, fmap_app, foldl_app. simpl.
    rewrite (take_last_piece s (S K) u Hu) at 1.
    rewrite (take_last_piece s (S K) v Hv) at 1.
    rewrite dot_app by (rewrite !length_take; lia).
    f_equal. rewrite (IH (take (S K * s) u) (take (S K * s) v))
      by (rewrite length_take; lia).
    rewrite !chunk_piece_take by lia. f_equal.
    apply list_fmap_ext. intros i r Hr. apply lookup_seq in Hr as [-> Hr].
    by rewrite !chunk_piece_take by lia.
Qed.

(** Matrices built entry by entry over the same rows and columns add up
    entry by entry. *)
Lemma tensor_sum_pointwise xr cols (a : list A -> list A -> A)
    (e : nat -> list A -> list A -> A) (start k : nat) :
  tensor_sum add (Mat ((fun xi => (fun cj => a xi cj) <$> cols) <$> xr))
    ((fun r => Mat ((fun xi => (fun cj => e r xi cj) <$> cols) <$> xr))
       <$> seq start k)
  = Ok (Mat ((fun xi =>
                (fun cj => foldl add (a xi cj)
                             ((fun r => e r xi cj) <$> seq start k)) <$> cols)
               <$> xr)).
Proof.
  revert a start. induction k as [|k IH]; intros a start; [done|].
  simpl seq. rewrite fmap_cons. cbn [tensor_sum]. unfold tensor_add.
  rewrite bool_decide_eq_true_2; cycle 1.
  { simpl. rewrite !length_fmap. do 2 f_equal.
    destruct xr as [|x0 xr']; [done|]. simpl. by rewrite !length_fmap. }
  assert (Hz : zip_with (zip_with add)
                 ((fun xi => (fun cj => a xi cj) <$> cols) <$> xr)
                 ((fun xi => (fun cj => e start xi cj) <$> cols) <$> xr)
               = (fun xi => (fun cj => add (a xi cj) (e start xi cj)) <$> cols)
                   <$> xr).
  { rewrite zip_with_fmap_both. apply list_fmap_ext. intros _ xi _. simpl.
    apply zip_with_fmap_both. }
  rewrite Hz. cbn [rbind].
  by rewrite (IH (fun xi cj => add (a xi cj) (e start xi cj)) (S start)).
Qed.

(** The products of the blocks of rank 0, 1, ... add up to the product. *)
Lemma product_blocks_sum xr cols (s K : nat) :
  Forall (fun xi => length xi = (S K * s)%nat) xr ->
  Forall (fun cj => length cj = (S K * s)%nat) cols ->
  tensor_sum add
    (Mat ((fun xi => (fun cj => dotp (chunk_piece s xi 0) (chunk_piece s cj 0))
                       <$> cols) <$> xr))
    ((fun r =>
        Mat ((fun xi => (fun cj => dotp (chunk_piece s xi r) (chunk_piece s cj r))
                          <$> cols) <$> xr)) <$> seq 1 K)
  = Ok (Mat ((fun xi => dotp xi <$> cols) <$> xr)).
Proof.
  intros Hxr Hcols.
  rewrite (tensor_sum_pointwise xr cols
             (fun xi cj => dotp (chunk_piece s xi 0) (chunk_piece s cj 0))
             (fun r xi cj => dotp (chunk_piece s xi r) (chunk_piece s cj r))).
  do 2 f_equal. apply list_fmap_ext. intros i xi Hxi. simpl.
  apply list_fmap_ext. intros j cj Hcj. simpl. symmetry.
  apply dot_blocks.
  - by apply (Forall_lookup_1 _ _ _ _ Hxr Hxi).
  - by apply (Forall_lookup_1 _ _ _ _ Hcols Hcj).
Qed.

End Sums.

Section RowOutput.
Context {A : Type} (zero : A) (add mul : A -> A -> A).
Hypothesis add_assoc : forall a b c, add a (add b c) = add (add a b) c.
Hypothesis add_zero_l : forall a, add zero a = a.
Implicit Types (rows cols xr : list (list A)).

Notation dotp := (dot zero add mul).
Notation mm := (matmul zero add mul).

Lemma matmul_inv x rows (Y : Tensor A) :
  mm x (Mat rows) = Ok Y ->
  exists xr,
    x = Mat xr /\
    Forall (fun xi => length xi = length rows) xr /\
    Y = Mat ((fun xi => dotp xi <$> transpose rows) <$> xr).
Proof.
  unfold matmul. destruct x as [a|v|xr]; simpl; try done.
  destruct (forallb _ xr) eqn:Hcheck; [|done]. intros [= <-]. exists xr.
  split; [done|]. split; [|done]. apply Forall_forall. intros xi Hxi.
  apply Nat.eqb_eq. by apply (forallb_elem_of _ _ xi Hcheck).
Qed.

Lemma matmul_ok xr rows :
  Forall (fun xi => length xi = length rows) xr ->
  mm (Mat xr) (Mat rows)
  = Ok (Mat ((fun xi => dotp xi <$> transpose rows) <$> xr)).
Proof.
  intros H. unfold matmul. simpl.
  assert (Hc : forallb (fun r : list A => (length r =? length rows)%nat) xr = true).
  { apply forallb_forall. intros xi Hxi. apply list_elem_of_In in Hxi.
    apply Nat.eqb_eq. by apply (proj1 (Forall_forall _ _) H). }
  by rewrite Hc.
Qed.

(** The columns of a block of rows are the blocks of the columns. *)
Lemma transpose_piece rows (s K r : nat) :
  Closed.rectangular rows = true -> (1 <= s)%nat -> (r < K)%nat ->
  length rows = (K * s)%nat ->
  transpose (chunk_piece s rows r)
  = (fun cj => chunk_piece s cj r) <$> transpose rows.
Proof.
  intros Hrect Hs Hr Hlen. unfold transpose.
  rewrite (ncols_piece rows s K r) by done. rewrite <- list_fmap_compose.
  apply list_fmap_ext. intros i j Hj. apply lookup_seq in Hj as [-> Hj].
  simpl. unfold chunk_piece.
  assert (Htot : Forall (fun row : list A => is_Some (row !! i)) rows).
  { eapply Forall_impl; [by apply rectangular_spec|]. intros row Hrow.
    simpl in Hrow. apply lookup_lt_is_Some. lia. }
  rewrite omap_total_take by (by apply Forall_drop).
  by rewrite omap_total_drop.
Qed.

Lemma transpose_col_lengths rows :
  Closed.rectangular rows = true ->
  Forall (fun cj => length cj = length rows) (transpose rows).
Proof.
  intros Hrect. unfold transpose. apply Forall_fmap, Forall_forall.
  intros j Hj. apply elem_of_seq in Hj. simpl. apply omap_total_length.
  eapply Forall_impl; [by apply rectangular_spec|]. intros row Hrow.
  simpl in Hrow. apply lookup_lt_is_Some. lia.
Qed.

(** The input of a rank of a row-parallel layer. *)
Lemma shard_input xr (s W r : nat) :
  (1 <= W)%nat -> Forall (fun xi => length xi = (W * s)%nat) xr ->
  Closed.shard 1 W r 1 (Mat xr) = Mat ((fun xi => chunk_piece s xi r) <$> xr).
Proof.
  intros HW Hxr. rewrite (shard_cols_uniform xr s); [|done|done|].
  - f_equal. apply list_fmap_ext. intros _ xi _. apply fused_pick_one.
  - eapply Forall_impl; [exact Hxr|]. intros xi Hxi. simpl in *. lia.
Qed.

(** Row-parallel, both layouts: the products of the ranks, in rank order,
    add up to the product of the layer. *)
Lemma row_output_sum (rev : bool) (W : Z) (x w Y0 : Tensor A) :
  Closed.sliceable 1 W (Layer.row_dim rev) w = true ->
  Layer.output zero add mul rev x w None = Ok Y0 ->
  exists P : nat -> Tensor A,
    (forall r, (r < Z.to_nat W)%nat ->
       Layer.output zero add mul rev
         (Closed.shard 1 (Z.to_nat W) r 1 x)
         (Closed.shard 1 (Z.to_nat W) r (Layer.row_dim rev) w) None
       = Ok (P r)) /\
    tensor_sum add (P 0%nat) (P <$> seq 1 (Z.to_nat W - 1)) = Ok Y0.
Proof.
  intros Hs. apply sliceable_inv in Hs as (_ & HW & Ht).
  set (Wn := Z.to_nat W) in *.
  assert (HWn : (1 <= Wn)%nat) by lia.
  assert (HSK : Wn = S (Wn - 1)) by lia.
  unfold Layer.output, Layer.row_dim in *. destruct rev.
  - (* reversed: the rows of the weight are cut *)
    destruct w as [a|v|rows]; [done| |].
    { intros H. destruct x; simpl in H; discriminate. }
    destruct Ht as (Hrect & [(_ & _ & s & Hs1 & Hlen)|(Hd & _)]); [|done].
    destruct (mm x (Mat rows)) as [Y1|e] eqn:Hm; [|done].
    cbn [rbind]. intros [= ->].
    destruct (matmul_inv x rows Y0 Hm) as (xr & -> & Hxr & ->).
    rewrite Hlen in Hxr.
    exists (fun r => Mat ((fun xi =>
                             (fun cj => dotp (chunk_piece s xi r)
                                            (chunk_piece s cj r))
                               <$> transpose rows) <$> xr)).
    split.
    + intros r Hr. rewrite (shard_input xr s) by done.
      assert (Hw : Closed.shard 1 Wn r 0 (Mat rows)
                   = Mat (chunk_piece s rows r)).
      { simpl. rewrite Nat.add_0_r, Hlen, div_exact by done.
        by rewrite fused_pick_one. }
      rewrite Hw, matmul_ok; cycle 1.
      { apply Forall_fmap, Forall_forall. intros xi Hxi. simpl.
        rewrite (chunk_piece_full_length s xi r Wn),
                (chunk_piece_full_length s rows r Wn); try done.
        by apply (proj1 (Forall_forall _ _) Hxr). }
      cbn [rbind]. do 2 f_equal.
      rewrite (transpose_piece rows s Wn r) by done.
      rewrite <- list_fmap_compose. apply list_fmap_ext. intros _ xi _. simpl.
      by rewrite <- list_fmap_compose.
    + rewrite HSK in Hxr, Hlen.
      apply (product_blocks_sum zero add mul add_assoc add_zero_l xr
               (transpose rows) s (Wn - 1)); [done|].
      rewrite <- Hlen. by apply transpose_col_lengths.
  - (* plain: the columns of the weight are cut *)
    destruct w as [a|v|rows]; [done|by destruct Ht|].
    destruct Ht as (Hrect & [(Hd & _)|(_ & Hlen & s & Hs1 & Hnc)]); [done|].
    change (Z.to_nat 1) with 1%nat in Hnc.
    assert (Hnc' : ncols rows = (Wn * s)%nat) by lia.
    pose proof (rectangular_spec rows Hrect) as Hrows. rewrite Hnc' in Hrows.
    unfold tensor_t at 1. cbn [as_mat rbind].
    destruct (mm x (Mat (transpose rows))) as [Y1|e] eqn:Hm; [|done].
    cbn [rbind]. intros [= ->].
    destruct (matmul_inv x (transpose rows) Y0 Hm) as (xr & -> & Hxr & ->).
    rewrite transpose_length, Hnc' in Hxr.
    rewrite (transpose_transpose rows (Wn * s)) by (done || nia).
    exists (fun r => Mat ((fun xi =>
                             (fun cj => dotp (chunk_piece s xi r)
                                            (chunk_piece s cj r))
                               <$> rows) <$> xr)).
    split.
    + intros r Hr. rewrite !(shard_input _ s) by done.
      unfold tensor_t. cbn [as_mat rbind].
      assert (Hpieces : Forall (fun row : list A => length row = s)
                          ((fun row => chunk_piece s row r) <$> rows)).
      { apply Forall_fmap, Forall_forall. intros row Hrow. simpl.
        apply (chunk_piece_full_length s row r Wn); [|done].
        by apply (proj1 (Forall_forall _ _) Hrows). }
      assert (Hncp : ncols ((fun row => chunk_piece s row r) <$> rows) = s).
      { destruct rows as [|row0 rows']; [simpl in Hlen; lia|].
        by apply Forall_cons in Hpieces as [? _]. }
      rewrite matmul_ok; cycle 1.
      { apply Forall_fmap, Forall_forall. intros xi Hxi. simpl.
        rewrite transpose_length, Hncp.
        apply (chunk_piece_full_length s xi r Wn); [|done].
        by apply (proj1 (Forall_forall _ _) Hxr). }
      rewrite (transpose_transpose _ s) by done. cbn [rbind].
      do 2 f_equal. rewrite <- list_fmap_compose. apply list_fmap_ext.
      intros _ xi _. simpl. by rewrite <- list_fmap_compose.
    + replace (Wn * s)%nat with (S (Wn - 1) * s)%nat in Hxr, Hrows by lia.
      by apply (product_blocks_sum zero add mul add_assoc add_zero_l xr
                  rows s (Wn - 1)).
Qed.

End RowOutput.

(** * The layers on all ranks *)

Section Group.
Context {A : Type}.
Implicit Types (m : Model A) (ms : list (Model A)).

(** Ranks that each see their side of one sequence of calls finish
    together, each with its own result. *)
Lemma run_cluster_traces {X : Type} (gs : list (CollOp * (nat -> Tensor A)))
    (f : nat -> Model A -> Prog A X) ms (res : Model A -> X) :
  ms <> [] ->
  (forall r m, ms !! r = Some m ->
     RoundTrip.Trace (f r m) (RoundTrip.responses (length ms) gs r) (res m)) ->
  run_cluster (length gs) (imap f ms) = Some (res <$> ms).
Proof.
  intros Hne Htr. destruct ms as [|m0 ms'] eqn:E; [done|]. rewrite <- E in *.
  set (P := fun r => f r (default m0 (ms !! r))).
  assert (Himap : imap f ms = P <$> seq 0 (length ms)).
  { apply list_eq. intros i. rewrite list_lookup_imap, list_lookup_fmap.
    destruct (ms !! i) as [m|] eqn:Hi.
    - rewrite lookup_seq_lt by (by eapply lookup_lt_Some). simpl.
      unfold P. by rewrite Hi.
    - rewrite lookup_seq_ge; [done|]. by apply lookup_ge_None. }
  destruct (run_traces gs P (length ms)) as (xs & Hrun & Hlen & Hxs).
  { rewrite E. simpl. lia. }
  { intros r Hr. destruct (lookup_lt_is_Some_2 ms r Hr) as [m Hm].
    exists (res m). unfold P. rewrite Hm. simpl. by apply Htr. }
  rewrite Himap, Hrun. f_equal.
  apply (list_eq_same_length _ _ (length ms)); [by rewrite length_fmap|done|].
  intros r x y Hr Hx Hy. rewrite list_lookup_fmap in Hy.
  destruct (ms !! r) as [m|] eqn:Hm; [|done]. injection Hy as <-.
  pose proof (Hxs r x Hx) as Hx'. unfold P in Hx'. rewrite Hm in Hx'.
  simpl in Hx'. exact (trace_functional _ _ _ _ Hx' (Htr r m Hm)).
Qed.

Lemma trace_reduce {Y : Type} (add : A -> A -> A) (t : Tensor A) t0 ts' g
    (f : Tensor A -> M A Y) m tr y :
  tensor_sum add t0 ts' = Ok g ->
  RoundTrip.Trace (f g m) tr y ->
  RoundTrip.Trace (cbind (mpu_reduce add t) f m)
    ((OpReduce, t, t0 :: ts') :: tr) y.
Proof.
  intros Hsum H. unfold cbind, mpu_reduce, cbind, collective. simpl.
  constructor. simpl. unfold local, lift. simpl. by rewrite Hsum.
Qed.

End Group.

Section Rows.
Context {A : Type} (zero : A) (add mul : A -> A -> A).

(** The product of a layer whose columns can be cut has rows of one
    length, a multiple of the group size. *)
Lemma column_output_rows (rev : bool) (W : Z) (x w Y0 : Tensor A) :
  Closed.sliceable 1 W (Layer.column_dim rev) w = true ->
  Layer.output zero add mul rev x w None = Ok Y0 ->
  exists ys s, Y0 = Mat ys /\
               Forall (fun row => length row = (1 * Z.to_nat W * s)%nat) ys.
Proof.
  intros Hs. apply sliceable_inv in Hs as (_ & HW & Ht).
  unfold Layer.output, Layer.column_dim in *. destruct rev.
  - destruct w as [a|v|rows]; [done|by destruct Ht|].
    destruct Ht as (Hrect & [(Hd & _)|(_ & Hlen & s & Hs1 & Hnc)]); [done|].
    destruct (matmul zero add mul x (Mat rows)) as [Y1|e] eqn:Hm; [|done].
    cbn [rbind]. intros [= ->].
    destruct (matmul_row_lengths zero add mul x rows Y0 Hm) as (ys & -> & Hys).
    exists ys, s. split; [done|]. change (Z.to_nat 1) with 1%nat in Hnc.
    by rewrite <- Hnc.
  - destruct w as [a|v|rows]; [done|done|].
    destruct Ht as (Hrect & [(_ & _ & s & Hs1 & Hlen)|(Hd & _)]); [|done].
    destruct (wt <- tensor_t (Mat rows) ;; matmul zero add mul x wt)%res
      as [Y1|e] eqn:Hm; [|done].
    cbn [rbind]. intros [= ->].
    destruct (matmul_t_rows_shard zero add mul x rows s (Z.to_nat W) 0 Y0)
      as (_ & ys & s' & -> & Hys); try done; try lia.
    by exists ys, s'.
Qed.

End Rows.

Section Layers.
Context {A : Type} (zero : A) (add mul : A -> A -> A).

(** The calls of a column-parallel layer that gathers its output, as
    the ranks of a group see them, and what each rank returns. *)
Lemma gathering_column_calls (rev : bool) (W : Z) (wfull : Tensor A)
    (bfull : option (Tensor A)) (inputs : nat -> Tensor A) (Y : Tensor A) :
  Closed.sliceable 1 W (Layer.column_dim rev) wfull = true ->
  Layer.output zero add mul rev (inputs 0%nat) wfull bfull = Ok Y ->
  exists gs,
    length gs = 2%nat /\
    forall (self r : nat) (m : Model A) nm md mp,
      (r < Z.to_nat W)%nat ->
      named_modules m !! self = Some (nm, md) ->
      attrs md !! "mpu" = Some (VMpu mp) ->
      get_tensor_parallel_world_size mp = W ->
      attrs md !! "reversed" = Some (VBool rev) ->
      attrs md !! "gather_output" = Some (VBool true) ->
      Layer.weight_of m md
      = Some (Closed.shard 1 (Z.to_nat W) r (Layer.column_dim rev) wfull) ->
      Layer.bias_of m md = Some bfull ->
      RoundTrip.Trace
        (ColumnParallelLinear_forward zero add mul self (inputs r) m)
        (RoundTrip.responses (Z.to_nat W) gs r) (Ok Y, m).
Proof.
  intros Hs HY.
  pose proof (sliceable_inv _ _ _ _ Hs) as (_ & HW & _).
  set (n := Z.to_nat W) in *.
  apply output_without_bias in HY as (Y0 & HY0 & HY).
  destruct (column_output_rows zero add mul rev W (inputs 0%nat) wfull Y0 Hs HY0)
    as (ys & s & -> & Hys). fold n in Hys.
  destruct (cat_column_shards ys s n ltac:(lia) Hys) as [Hcat Hshape].
  exists [(OpBroadcast, inputs);
          (OpAllGather, fun r => Closed.shard 1 n r 1 (Mat ys))].
  split; [done|].
  intros self r m nm md mp Hr Hi Hmp Hws Hrev Hg Hw Hb.
  unfold RoundTrip.responses. simpl.
  eapply (column_forward_gather_trace zero add mul self m nm md mp (VBool rev)
            (VBool true)); try done.
  - destruct n; [lia|]. done.
  - simpl. pose proof (column_output_shard zero add mul rev 1 W r (inputs 0%nat)
                         wfull None (Mat ys) Hs Hr HY0) as Hloc.
    exact Hloc.
  - rewrite length_fmap, length_seq, Hws. lia.
  - by apply Hshape.
Qed.

(** The call of a row-parallel layer, as the ranks of a group see it,
    and what each rank returns. *)
Lemma row_parallel_calls (rev : bool) (W : Z) (wfull : Tensor A)
    (bfull : option (Tensor A)) (x Y : Tensor A) :
  (forall a b c, add a (add b c) = add (add a b) c) ->
  (forall a, add zero a = a) ->
  Closed.sliceable 1 W (Layer.row_dim rev) wfull = true ->
  Layer.output zero add mul rev x wfull bfull = Ok Y ->
  exists gs,
    length gs = 1%nat /\
    forall (self r : nat) (m : Model A) nm md,
      (r < Z.to_nat W)%nat ->
      named_modules m !! self = Some (nm, md) ->
      attrs md !! "reversed" = Some (VBool rev) ->
      Layer.weight_of m md
      = Some (Closed.shard 1 (Z.to_nat W) r (Layer.row_dim rev) wfull) ->
      Layer.bias_of m md = Some bfull ->
      RoundTrip.Trace
        (RowParallelLinear_forward zero add mul self
           (Closed.shard 1 (Z.to_nat W) r 1 x) m)
        (RoundTrip.responses (Z.to_nat W) gs r) (Ok Y, m).
Proof.
  intros Hassoc Hzero Hs HY.
  pose proof (sliceable_inv _ _ _ _ Hs) as (_ & HW & _).
  set (n := Z.to_nat W) in *.
  apply output_without_bias in HY as (Y0 & HY0 & HY).
  destruct (row_output_sum zero add mul Hassoc Hzero rev W x wfull Y0 Hs HY0)
    as (P & HP & Hsum). fold n in HP, Hsum.
  exists [(OpReduce, P)]. split; [done|].
  intros self r m nm md Hr Hi Hrev Hw Hb.
  unfold RoundTrip.responses. simpl.
  unfold RowParallelLinear_forward.
  rewrite (cbind_local_ok _ _ _ _ _
             (local_matmul_run zero add mul self m nm md (VBool rev) _ _ (P r)
                Hi Hrev Hw (HP r Hr))).
  assert (Hseq : P <$> seq 0 n = P 0%nat :: (P <$> seq 1 (n - 1))).
  { destruct n; [lia|]. simpl. by rewrite Nat.sub_0_r. }
  rewrite Hseq. eapply trace_reduce; [exact Hsum|].
  apply trace_local. by eapply maybe_add_bias_run.
Qed.

End Layers.

(** * What the sharded layers return *)

(** X7: a column-parallel layer that keeps its output to itself
    ([gather_output] false), on a rank that holds its shard of a weight
    and of a bias that divide evenly, broadcasts its input and returns,
    for the input that comes back from rank 0, the shard along the last
    dimension of what the whole layer returns: the columns of the output
    that belong to the rank, in the order of [_slice]. A weight divides
    evenly ([Closed.sliceable]) in either layout when the fusion degree
    is one, and when it is fused only in the reversed layout, where it
    is cut along its last dimension; a fused weight in the plain layout
    is not covered. No other collective call is made and the model is
    left as it is. *)
Theorem column_parallel_forward_returns_shard {A : Type} (zero : A)
    (add mul : A -> A -> A) (self : nat) (m : Model A) (nm : string)
    (md : Module) (mp : MPU) (rev : bool) (F W : Z) (r : nat)
    (wfull : Tensor A) (bfull : option (Tensor A)) (x_r x : Tensor A)
    (xs : list (Tensor A)) (Y : Tensor A) :
  named_modules m !! self = Some (nm, md) ->
  attrs md !! "mpu" = Some (VMpu mp) ->
  attrs md !! "reversed" = Some (VBool rev) ->
  attrs md !! "gather_output" = Some (VBool false) ->
  Closed.sliceable F W (Layer.column_dim rev) wfull = true ->
  (r < Z.to_nat W)%nat ->
  Layer.weight_of m md
  = Some (Closed.shard (Z.to_nat F) (Z.to_nat W) r (Layer.column_dim rev) wfull) ->
  Layer.bias_of m md
  = Some (Closed.shard (Z.to_nat F) (Z.to_nat W) r 0 <$> bfull) ->
  Py.index xs 0 = Ok x ->
  Layer.output zero add mul rev x wfull bfull = Ok Y ->
  RoundTrip.Trace (ColumnParallelLinear_forward zero add mul self x_r m)
    [(OpBroadcast, x_r, xs)]
    (Ok (Closed.shard (Z.to_nat F) (Z.to_nat W) r 1 Y), m).
Proof.
  intros Hi Hmp Hrev Hg Hs Hr Hw Hb Hx HY.
  eapply (column_forward_trace zero add mul self m nm md mp (VBool rev)
            (VBool false)); try done.
  simpl. by apply column_output_shard.
Qed.

Lemma column_parallel_forward_returns_shard_witness :
  let m := Sample.rank 1 in
  let x := Mat [[1; 0; 2; 1]; [0; 1; 0; 3]] in
  exists Y,
    Layer.output 0 Z.add Z.mul true x (Examples.iota_mat 4 12)
      (Some (Vec (Py.range 12))) = Ok Y /\
    RoundTrip.Trace (ColumnParallelLinear_forward 0 Z.add Z.mul 3 x m)
      [(OpBroadcast, x, [x; x])]
      (Ok (Closed.shard (Z.to_nat 3) (Z.to_nat 2) 1 1 Y), m).
Proof.
  intros m x. eexists. split; [vm_compute; reflexivity|].
  eapply (column_parallel_forward_returns_shard 0 Z.add Z.mul 3 m _ _ _ true
            3 2 1 (Examples.iota_mat 4 12) (Some (Vec (Py.range 12))) x x
            [x; x]).
  - vm_compute. reflexivity.
  - vm_compute. reflexivity.
  - vm_compute. reflexivity.
  - vm_compute. reflexivity.
  - vm_compute. reflexivity.
  - vm_compute. lia.
  - vm_compute. reflexivity.
  - vm_compute. reflexivity.
  - vm_compute. reflexivity.
  - vm_compute. reflexivity.
Defined.

(** X8: when every rank of a group of [W] holds its shard of the weight
    of a column-parallel layer that gathers its output ([gather_output]
    true, fusion degree one; a tied output head is one) and the whole
    bias, if there is one, the forward passes run together return on
    every rank what the whole layer returns for the input of rank 0,
    after one broadcast and one all-gather, and leave the models as they
    are. *)
Theorem gathering_column_forward_returns_whole_output {A : Type} (zero : A)
    (add mul : A -> A -> A) (self : nat) (ms : list (Model A)) (rev : bool)
    (W : Z) (wfull : Tensor A) (bfull : option (Tensor A))
    (inputs : nat -> Tensor A) (Y : Tensor A) :
  Z.of_nat (length ms) = W ->
  Closed.sliceable 1 W (Layer.column_dim rev) wfull = true ->
  (forall r m, ms !! r = Some m ->
     exists nm md mp,
       named_modules m !! self = Some (nm, md) /\
       attrs md !! "mpu" = Some (VMpu mp) /\
       get_tensor_parallel_world_size mp = W /\
       attrs md !! "reversed" = Some (VBool rev) /\
       attrs md !! "gather_output" = Some (VBool true) /\
       Layer.weight_of m md
       = Some (Closed.shard 1 (Z.to_nat W) r (Layer.column_dim rev) wfull) /\
       Layer.bias_of m md = Some bfull) ->
  Layer.output zero add mul rev (inputs 0%nat) wfull bfull = Ok Y ->
  run_cluster 2
    (imap (fun r m =>
             ColumnParallelLinear_forward zero add mul self (inputs r) m) ms)
  = Some ((fun m => (Ok Y, m)) <$> ms).
Proof.
  intros Hlen Hs Hms HY.
  pose proof (sliceable_inv _ _ _ _ Hs) as (_ & HW & _).
  destruct (gathering_column_calls zero add mul rev W wfull bfull inputs Y Hs HY)
    as (gs & Hgs & Htr).
  pose proof (run_cluster_traces gs
                (fun r m => ColumnParallelLinear_forward zero add mul self
                              (inputs r) m)
                ms (fun m => (Ok Y, m))) as Hrun.
  rewrite Hgs in Hrun. apply Hrun.
  { intros ->. simpl in Hlen. lia. }
  intros r m Hm.
  assert (Hn : length ms = Z.to_nat W) by lia. rewrite Hn.
  assert (Hr : (r < Z.to_nat W)%nat).
  { rewrite <- Hn. by eapply lookup_lt_Some. }
  destruct (Hms r m Hm) as (nm & md & mp & Hi & Hmp & Hws & Hrev & Hg & Hw & Hb).
  by eapply Htr.
Qed.

Lemma gathering_column_forward_returns_whole_output_witness :
  let ms := [Sample.rank 0; Sample.rank 1] in
  let x := Mat [[1; 0; 2; 1]; [0; 1; 0; 3]] in
  exists Y,
    Layer.output 0 Z.add Z.mul false x (Examples.iota_mat 4 4) None = Ok Y /\
    run_cluster 2
      (imap (fun r m => ColumnParallelLinear_forward 0 Z.add Z.mul 5 x m) ms)
    = Some ((fun m => (Ok Y, m)) <$> ms).
Proof.
  intros ms x. eexists. split; [vm_compute; reflexivity|].
  apply (gathering_column_forward_returns_whole_output 0 Z.add Z.mul 5 ms
           false 2 (Examples.iota_mat 4 4) None (fun _ => x)).
  - vm_compute. reflexivity.
  - vm_compute. reflexivity.
  - intros r m Hm. destruct r as [|[|r]].
    + change (Some (Sample.rank 0) = Some m) in Hm. injection Hm as <-.
      do 3 eexists. repeat split; vm_compute; reflexivity.
    + change (Some (Sample.rank 1) = Some m) in Hm. injection Hm as <-.
      do 3 eexists. repeat split; vm_compute; reflexivity.
    + discriminate Hm.
  - vm_compute. reflexivity.
Defined.

(** X9: when every rank of a group of [W] holds its shard of the weight
    of a row-parallel layer and the whole bias, if there is one, and is
    given its shard of the input along the last dimension, the forward
    passes run together return on every rank what the whole layer
    returns for the whole input: the products of the ranks are summed by
    one reduction and the bias is added once, after it. The sum of the
    elements is associative with a neutral zero. *)
Theorem row_parallel_forward_returns_whole_output {A : Type} (zero : A)
    (add mul : A -> A -> A) (self : nat) (ms : list (Model A)) (rev : bool)
    (W : Z) (wfull : Tensor A) (bfull : option (Tensor A)) (x Y : Tensor A) :
  (forall a b c, add a (add b c) = add (add a b) c) ->
  (forall a, add zero a = a) ->
  Z.of_nat (length ms) = W ->
  Closed.sliceable 1 W (Layer.row_dim rev) wfull = true ->
  (forall r m, ms !! r = Some m ->
     exists nm md,
       named_modules m !! self = Some (nm, md) /\
       attrs md !! "reversed" = Some (VBool rev) /\
       Layer.weight_of m md
       = Some (Closed.shard 1 (Z.to_nat W) r (Layer.row_dim rev) wfull) /\
       Layer.bias_of m md = Some bfull) ->
  Layer.output zero add mul rev x wfull bfull = Ok Y ->
  run_cluster 1
    (imap (fun r m =>
             RowParallelLinear_forward zero add mul self
               (Closed.shard 1 (Z.to_nat W) r 1 x) m) ms)
  = Some ((fun m => (Ok Y, m)) <$> ms).
Proof.
  intros Hassoc Hzero Hlen Hs Hms HY.
  pose proof (sliceable_inv _ _ _ _ Hs) as (_ & HW & _).
  destruct (row_parallel_calls zero add mul rev W wfull bfull x Y Hassoc Hzero
              Hs HY) as (gs & Hgs & Htr).
  pose proof (run_cluster_traces gs
                (fun r m => RowParallelLinear_forward zero add mul self
                              (Closed.shard 1 (Z.to_nat W) r 1 x) m)
                ms (fun m => (Ok Y, m))) as Hrun.
  rewrite Hgs in Hrun. apply Hrun.
  { intros ->. simpl in Hlen. lia. }
  intros r m Hm.
  assert (Hn : length ms = Z.to_nat W) by lia. rewrite Hn.
  assert (Hr : (r < Z.to_nat W)%nat).
  { rewrite <- Hn. by eapply lookup_lt_Some. }
  destruct (Hms r m Hm) as (nm & md & Hi & Hrev & Hw & Hb).
  by eapply Htr.
Qed.

Lemma row_parallel_forward_returns_whole_output_witness :
  let ms := [Sample.rank 0; Sample.rank 1] in
  let x := Mat [[1; 0; 2; 1]; [0; 1; 0; 3]] in
  exists Y,
    Layer.output 0 Z.add Z.mul true x (Examples.iota_mat 4 4)
      (Some (Vec (Py.range 4))) = Ok Y /\
    run_cluster 1
      (imap (fun r m =>
               RowParallelLinear_forward 0 Z.add Z.mul 4
                 (Closed.shard 1 (Z.to_nat 2) r 1 x) m) ms)
    = Some ((fun m => (Ok Y, m)) <$> ms).
Proof.
  intros ms x. eexists. split; [vm_compute; reflexivity|].
  apply (row_parallel_forward_returns_whole_output 0 Z.add Z.mul 4 ms true 2
           (Examples.iota_mat 4 4) (Some (Vec (Py.range 4))) x).
  - intros a b c. apply Z.add_assoc.
  - intros a. apply Z.add_0_l.
  - vm_compute. reflexivity.
  - vm_compute. reflexivity.
  - intros r m Hm. destruct r as [|[|r]].
    + change (Some (Sample.rank 0) = Some m) in Hm. injection Hm as <-.
      do 2 eexists. repeat split; vm_compute; reflexivity.
    + change (Some (Sample.rank 1) = Some m) in Hm. injection Hm as <-.
      do 2 eexists. repeat split; vm_compute; reflexivity.
    + discriminate Hm.
  - vm_compute. reflexivity.
Defined.

(** * [deparallelize] without an input embedding *)

(** X10: on a model without [get_input_embeddings], [deparallelize]
    raises [AttributeError] from [_deparallelize_embedding] without
    having made a collective call, after [_update_mp_arguments] has
    multiplied the rescaled attributes by the group size: the model at
    the error is the one it was given with those attributes multiplied,
    and nothing else is changed. *)
Theorem deparallelize_without_embedding_raises {A : Type} (self : Engine)
    (m : Model A) :
  let W := get_tensor_parallel_world_size (mpu self) in
  let names := update_attrs (tp_mapping self) in
  Closed.attrs_intb names m = true ->
  input_embeddings m = None ->
  TensorDeparallelEngine1D.deparallelize self m
  = Ret (Raise AttributeError,
         Closed.map_modules
           (fun md => with_attrs md
                        (Closed.rescale_attrs (fun h => h * W) names (attrs md)))
           m).
Proof.
  intros W names Hint Hnone. apply attrs_intb_spec in Hint.
  unfold TensorDeparallelEngine1D.deparallelize.
  rewrite (cbind_local_ok _ _ _ _ _
             (deparallel_update_mp_arguments_closed self m Hint)).
  unfold TensorDeparallelEngine1D._deparallelize_embedding.
  unfold cbind at 1.
  erewrite cbind_local_ok; [|reflexivity]. simpl. by rewrite Hnone.
Qed.

Lemma deparallelize_without_embedding_raises_witness :
  TensorDeparallelEngine1D.deparallelize (engine_of Examples.no_mapping 2 0)
    Examples.headless
  = Ret (Raise AttributeError,
         Closed.map_modules
           (fun md => with_attrs md
                        (Closed.rescale_attrs (fun h => h * 2) ["num_heads"]
                           (attrs md)))
           Examples.headless).
Proof.
  apply (deparallelize_without_embedding_raises
           (engine_of Examples.no_mapping 2 0) Examples.headless).
  - reflexivity.
  - reflexivity.
Defined.

(** * The classes of the modules *)

(** X11: on a model that is ready for the round trip, running
    [parallelize] on the [W] ranks of a group and then [deparallelize] on
    all of them together succeeds on every rank and gives every module
    back its class: every rank ends with as many modules as the model had,
    each with its name, with the class it had before [parallelize] and
    with the same weight and bias objects. *)
Theorem round_trip_restores_module_classes {A : Type}
    (tp : TensorParallelMapping) (W : Z) (m : Model A) :
  RoundTrip.round_trip_ready tp W m = true ->
  exists fuel results,
    round_trip fuel tp W m = Some results /\
    length results = Z.to_nat W /\
    forall rm, rm ∈ results ->
      rm.1 = Ok tt /\
      length (named_modules rm.2) = length (named_modules m) /\
      forall i nm md,
        named_modules m !! i = Some (nm, md) ->
        exists md',
          named_modules rm.2 !! i = Some (nm, md') /\
          cls md' = cls md /\ weight md' = weight md /\ bias md' = bias md.
Proof.
  intros Hready.
  destruct (ready_cluster tp W m Hready) as (fuel & results & Hrun & Hlen & Hall).
  exists fuel, results. split; [exact Hrun|]. split; [exact Hlen|].
  intros rm Hrm. destruct (Hall rm Hrm) as (Hok & _ & Hlen' & Hsame).
  split; [exact Hok|]. split; [exact Hlen'|]. exact Hsame.
Qed.

Lemma round_trip_restores_module_classes_witness :
  exists fuel results,
    round_trip fuel Sample.mapping 2 Sample.model = Some results /\
    length results = Z.to_nat 2 /\
    forall rm, rm ∈ results ->
      rm.1 = Ok tt /\
      length (named_modules rm.2) = length (named_modules Sample.model) /\
      forall i nm md,
        named_modules Sample.model !! i = Some (nm, md) ->
        exists md',
          named_modules rm.2 !! i = Some (nm, md') /\
          cls md' = cls md /\ weight md' = weight md /\ bias md' = bias md.
Proof.
  apply (round_trip_restores_module_classes Sample.mapping 2 Sample.model).
  vm_compute. reflexivity.
Defined.

(** X12: on a model that is ready for the round trip, [parallelize]
    succeeds on every rank and leaves every module with its name and its
    weight and bias objects, and with this class: the input embedding is
    a [VocabParallelEmbedding]; a column-parallel module is a
    [ColumnParallelLinear] and a row-parallel one a [RowParallelLinear];
    a module outside the mapping that shares the table of the input
    embedding and is not of an embedding class is a
    [ColumnParallelLinear]; every other module keeps its class. Whenever
    the class has changed, the class the module had is on record in its
    attribute [orig_module]. *)
Theorem parallelize_sets_module_classes {A : Type}
    (tp : TensorParallelMapping) (W : Z) (m : Model A) (e : nat) (en : string)
    (emb : Module) (w0 : nat) (r : nat) (i : nat) (nm : string) (md : Module) :
  RoundTrip.round_trip_ready tp W m = true ->
  (r < Z.to_nat W)%nat ->
  input_embeddings m = Some e ->
  named_modules m !! e = Some (en, emb) ->
  weight emb = Ref w0 ->
  named_modules m !! i = Some (nm, md) ->
  exists m' md',
    TensorParallelEngine1D.parallelize (engine_of tp W (Z.of_nat r)) m
    = (Ok tt, m') /\
    named_modules m' !! i = Some (nm, md') /\
    weight md' = weight md /\ bias md' = bias md /\
    cls md'
    = (if decide (i = e) then VocabParallelEmbedding
       else match RoundTrip.kind_of tp nm with
            | Some kd => Sharded.parallel_class kd
            | None =>
                if TensorParallelEngine1D.is_tied_head md w0
                then ColumnParallelLinear
                else cls md
            end) /\
    (cls md' <> cls md ->
     attrs md' !! "orig_module" = Some (VClass (cls md))).
Proof.
  intros Hready Hr He Hemb Hw0 Hi.
  destruct (ready_rank tp W m e en emb w0 r Hready Hr He Hemb Hw0)
    as (m_r & _ & Hrun & (_ & _ & Hmods & _) & _).
  destruct (Hmods _ _ _ Hi)
    as (md' & Hi' & (Hw & Hb & _) & Hok & Hcle & Hsl & Hcls & _).
  destruct (round_trip_ready_inv tp W m Hready)
    as (_ & _ & _ & _ & e' & en' & emb' & w0' & p0 & He' & Hemb' & Hw0'
        & Hplan & _).
  rewrite He in He'. injection He' as <-.
  rewrite Hemb in Hemb'. injection Hemb' as <- <-.
  rewrite Hw0 in Hw0'. injection Hw0' as <-.
  exists m_r, md'. split; [exact Hrun|]. split; [exact Hi'|].
  split; [exact Hw|]. split; [exact Hb|].
  destruct (decide (i = e)) as [->|Hne].
  { rewrite Hi in Hemb. injection Hemb as -> ->.
    split; [by destruct (Hcle eq_refl)|]. intros _.
    pose proof (Hok Hw0) as Ho. unfold Sharded.orig_ok in Ho.
    by rewrite decide_True in Ho. }
  destruct (RoundTrip.kind_of tp nm) as [kd|] eqn:Ekd.
  { destruct (Hsl kd eq_refl) as (_ & _ & Ho & Hcl). by split. }
  unfold TensorParallelEngine1D.is_tied_head.
  destruct (decide (weight md = Ref w0)) as [Hw'|Hw'].
  - rewrite bool_decide_eq_true_2 by done.
    pose proof (Hok Hw') as Ho. unfold Sharded.orig_ok in Ho.
    rewrite decide_False in Ho by done.
    destruct (isinstance_Embedding (cls md)) eqn:Ee.
    + simpl. split; [done|]. intros Hc. by destruct Hc.
    + destruct Ho as [Ho Hcl]. split; [|done].
      rewrite Hcl. destruct (cls md); done.
  - rewrite bool_decide_eq_false_2 by done. simpl.
    split; [by apply Hcls|]. intros Hc. by destruct Hc; apply Hcls.
Qed.

Lemma parallelize_sets_module_classes_witness :
  exists m' md',
    TensorParallelEngine1D.parallelize
      (engine_of Sample.mapping 2 (Z.of_nat 1)) Sample.model
    = (Ok tt, m') /\
    named_modules m' !! 5%nat = Some ("lm_head", md') /\
    weight md' = Ref 0%nat /\ bias md' = IsNone /\
    cls md' = ColumnParallelLinear /\
    (cls md' <> Linear ->
     attrs md' !! "orig_module" = Some (VClass Linear)).
Proof.
  apply (parallelize_sets_module_classes Sample.mapping 2 Sample.model
           1%nat "wte"
           (Examples.mk_module Embedding (Ref 0%nat) Absent
              [("num_embeddings", VInt 4)]) 0%nat 1%nat 5%nat "lm_head"
           (Examples.mk_module Linear (Ref 0%nat) IsNone [])).
  - vm_compute. reflexivity.
  - vm_compute. lia.
  - reflexivity.
  - reflexivity.
  - reflexivity.
  - reflexivity.
Defined.

(** * The layers of a parallelized model *)

Section Held.
Context {A : Type}.
Variables (tp : TensorParallelMapping) (W : Z) (m : Model A).
Variables (e w0 r : nat) (m_r : Model A).
Hypothesis Hplan : NoDup (Sharded.full_plan tp W w0 (named_modules m)).*1.
Hypothesis Hafter : Sharded.after_parallelize tp W m e w0 r m_r.
Implicit Types (md : Module).

Notation plan := (Sharded.full_plan tp W w0 (named_modules m)).

(** Of an object of the plan the rank holds its shard. *)
Lemma held_cut p F d pp :
  (p, (F, d)) ∈ plan -> store m !! p = Some pp ->
  exists pp', store m_r !! p = Some pp' /\
              data pp' = Closed.shard (Z.to_nat F) (Z.to_nat W) r d (data pp).
Proof.
  intros Hin Hpp. destruct Hafter as (_ & _ & _ & Hdat).
  pose proof (Hdat p) as Hd. unfold RoundTrip.dat in Hd at 2.
  rewrite Hpp in Hd. simpl in Hd. rewrite (expected_in W r _ p F d) in Hd by done.
  by apply dat_Some in Hd.
Qed.

(** Every other object is held whole. *)
Lemma held_whole p pp :
  p ∉ plan.*1 -> store m !! p = Some pp ->
  exists pp', store m_r !! p = Some pp' /\ data pp' = data pp.
Proof.
  intros Hin Hpp. destruct Hafter as (_ & _ & _ & Hdat).
  pose proof (Hdat p) as Hd. unfold RoundTrip.dat in Hd at 2.
  rewrite Hpp in Hd. simpl in Hd. rewrite expected_not_in in Hd by done.
  by apply dat_Some in Hd.
Qed.

Lemma entry_in_plan i nm md x :
  named_modules m !! i = Some (nm, md) ->
  x ∈ RoundTrip.entries tp W (nm, md) -> x ∈ plan.
Proof.
  intros Hi Hx. unfold Sharded.full_plan. right.
  by eapply entries_in_plan.
Qed.

(** The weight of a column- or row-parallel module. *)
Lemma weight_of_cut i nm md md' kd wfull :
  named_modules m !! i = Some (nm, md) ->
  weight md' = weight md ->
  RoundTrip.kind_of tp nm = Some kd ->
  Layer.weight_of m md = Some wfull ->
  Layer.weight_of m_r md'
  = Some (Closed.shard (Z.to_nat (RoundTrip.fusion_of tp W kd nm md))
            (Z.to_nat W) r (RoundTrip.slice_dim tp kd nm) wfull).
Proof.
  intros Hi Hw' Hkd Hw.
  destruct (weight_of_inv m md wfull Hw) as (w & pw & Hwr & Hpw & <-).
  destruct (held_cut w (RoundTrip.fusion_of tp W kd nm md)
              (RoundTrip.slice_dim tp kd nm) pw) as (pw' & Hpw' & Hdata);
    [|done|].
  { apply (entry_in_plan i nm md); [done|].
    unfold RoundTrip.entries. simpl. rewrite Hkd, Hwr.
    apply elem_of_app. left. left. }
  unfold Layer.weight_of. by rewrite Hw', Hwr, Hpw', <- Hdata.
Qed.

(** The bias of a column-parallel module. *)
Lemma bias_of_cut i nm md md' bfull :
  named_modules m !! i = Some (nm, md) ->
  bias md' = bias md ->
  RoundTrip.kind_of tp nm = Some RoundTrip.Column ->
  Layer.bias_of m md = Some bfull ->
  Layer.bias_of m_r md'
  = Some (Closed.shard
            (Z.to_nat (RoundTrip.fusion_of tp W RoundTrip.Column nm md))
            (Z.to_nat W) r 0 <$> bfull).
Proof.
  intros Hi Hb' Hkd Hb. unfold Layer.bias_of in *. rewrite Hb'.
  destruct (bias md) as [| |b] eqn:Eb; [done|by injection Hb as <-|].
  apply fmap_Some in Hb as (pb & Hpb & ->).
  destruct (held_cut b (RoundTrip.fusion_of tp W RoundTrip.Column nm md) 0 pb)
    as (pb' & Hpb' & Hdata); [|done|].
  { apply (entry_in_plan i nm md); [done|].
    unfold RoundTrip.entries. simpl. rewrite Hkd, Eb.
    apply elem_of_app. right. left. }
  rewrite Hpb'. simpl. by rewrite Hdata.
Qed.

(** A bias that is not cut. *)
Lemma bias_of_whole md md' bfull :
  bias md' = bias md ->
  (forall b, bias md = Ref b -> b ∉ plan.*1) ->
  Layer.bias_of m md = Some bfull ->
  Layer.bias_of m_r md' = Some bfull.
Proof.
  intros Hb' Hout Hb. unfold Layer.bias_of in *. rewrite Hb'.
  destruct (bias md) as [| |b] eqn:Eb; [done|done|].
  apply fmap_Some in Hb as (pb & Hpb & ->).
  destruct (held_whole b pb (Hout b eq_refl) Hpb) as (pb' & Hpb' & Hdata).
  rewrite Hpb'. simpl. by rewrite Hdata.
Qed.

(** The weight of a module that shares the table of the input
    embedding. *)
Lemma weight_of_table md md' wfull :
  weight md' = weight md ->
  weight md = Ref w0 ->
  Layer.weight_of m md = Some wfull ->
  Layer.weight_of m_r md' = Some (Closed.shard 1 (Z.to_nat W) r 0 wfull).
Proof.
  intros Hw' Hw0 Hw. unfold Layer.weight_of in *. rewrite Hw', Hw0 in *.
  apply fmap_Some in Hw as (pw & Hpw & ->).
  destruct (held_cut w0 1 0 pw) as (pw' & Hpw' & Hdata); [by left|done|].
  rewrite Hpw'. simpl. by rewrite Hdata.
Qed.

End Held.

Section Ranks.
Context {A : Type}.
Implicit Types (m : Model A).

Lemma parallelize_all_length tp W m :
  length (parallelize_all tp W m).*2 = Z.to_nat W.
Proof. by rewrite parallelize_all_seq, !length_fmap, length_seq. Qed.

Lemma parallelize_all_lookup tp W m (r : nat) m_r :
  (parallelize_all tp W m).*2 !! r = Some m_r ->
  (r < Z.to_nat W)%nat /\
  m_r = (TensorParallelEngine1D.parallelize (engine_of tp W (Z.of_nat r)) m).2.
Proof.
  rewrite parallelize_all_seq, <- list_fmap_compose, list_lookup_fmap.
  intros H. apply fmap_Some in H as (r' & Hr' & ->).
  apply lookup_seq in Hr' as [-> Hlt]. done.
Qed.

Lemma column_dim_slice_dim tp nm :
  Layer.column_dim (is_reversed_param tp nm)
  = RoundTrip.slice_dim tp RoundTrip.Column nm.
Proof.
  unfold Layer.column_dim, RoundTrip.slice_dim.
  by destruct (is_reversed_param tp nm).
Qed.

Lemma row_dim_slice_dim tp nm :
  Layer.row_dim (is_reversed_param tp nm)
  = RoundTrip.slice_dim tp RoundTrip.Row nm.
Proof.
  unfold Layer.row_dim, RoundTrip.slice_dim.
  by destruct (is_reversed_param tp nm).
Qed.

(** The weight of a module to shard can be cut. *)
Lemma ready_weight_sliceable tp W m i nm md kd wfull :
  (forall i nmd, named_modules m !! i = Some nmd ->
     RoundTrip.module_ready tp W (store m) nmd = true) ->
  named_modules m !! i = Some (nm, md) ->
  RoundTrip.kind_of tp nm = Some kd ->
  Layer.weight_of m md = Some wfull ->
  Closed.sliceable (RoundTrip.fusion_of tp W kd nm md) W
    (RoundTrip.slice_dim tp kd nm) wfull = true.
Proof.
  intros Hready Hi Hkd Hw.
  destruct (weight_of_inv m md wfull Hw) as (w & pw & Hwr & Hpw & <-).
  destruct (ready_entries tp W m Hready i nm md w
              (RoundTrip.fusion_of tp W kd nm md) (RoundTrip.slice_dim tp kd nm)
              Hi) as (pp & Hpp & Hs).
  { unfold RoundTrip.entries. simpl. rewrite Hkd, Hwr.
    apply elem_of_app. left. left. }
  rewrite Hpw in Hpp. by injection Hpp as <-.
Qed.

End Ranks.

(** * [parallelize] keeps what the layers compute *)

(** X13: on a model that is ready for the round trip, the forward pass
    of a column-parallel module of the model that [parallelize] left on
    rank [r] broadcasts its input and returns, for the input that comes
    back from rank 0, the shard of rank [r], along the last dimension, of
    what the module returned before [parallelize] (the product with its
    weight, in the layout that the mapping gives for its name, plus its
    bias). The model is left as it is. *)
Theorem parallelized_column_layer_returns_shard {A : Type} (zero : A)
    (add mul : A -> A -> A) (tp : TensorParallelMapping) (W : Z) (m : Model A)
    (r i : nat) (nm : string) (md : Module) (wfull : Tensor A)
    (bfull : option (Tensor A)) (x_r x : Tensor A) (xs : list (Tensor A))
    (Y : Tensor A) :
  RoundTrip.round_trip_ready tp W m = true ->
  (r < Z.to_nat W)%nat ->
  named_modules m !! i = Some (nm, md) ->
  is_column_parallel tp nm = true ->
  Layer.weight_of m md = Some wfull ->
  Layer.bias_of m md = Some bfull ->
  Py.index xs 0 = Ok x ->
  Layer.output zero add mul (is_reversed_param tp nm) x wfull bfull = Ok Y ->
  let m_r :=
    (TensorParallelEngine1D.parallelize (engine_of tp W (Z.of_nat r)) m).2 in
  let F := get_combined_qkv_degree tp nm (RoundTrip.rescaled tp W md) in
  RoundTrip.Trace (ColumnParallelLinear_forward zero add mul i x_r m_r)
    [(OpBroadcast, x_r, xs)]
    (Ok (Closed.shard (Z.to_nat F) (Z.to_nat W) r 1 Y), m_r).
Proof.
  intros Hready Hr Hi Hcol Hw Hb Hx HY m_r F.
  destruct (round_trip_ready_inv tp W m Hready)
    as (HW & _ & _ & _ & e & en & emb & w0 & p0 & He & Hemb & Hw0 & Hplan & _
        & _ & _ & Hmods).
  destruct (ready_rank tp W m e en emb w0 r Hready Hr He Hemb Hw0)
    as (m_r' & _ & Hrun & Hafter & _).
  assert (m_r = m_r') as -> by (unfold m_r; by rewrite Hrun).
  assert (Hkd : RoundTrip.kind_of tp nm = Some RoundTrip.Column).
  { unfold RoundTrip.kind_of. by rewrite Hcol. }
  pose proof Hafter as (_ & _ & Hall & _).
  destruct (Hall _ _ _ Hi)
    as (md' & Hi' & (Hw' & Hb' & _) & _ & _ & _ & _ & Hlay & _).
  destruct (Hlay _ Hkd) as (Hmpu & Hrev & Hg).
  pose proof (weight_of_cut tp W m e w0 r m_r' Hplan Hafter i nm md md'
                RoundTrip.Column wfull Hi Hw' Hkd Hw) as Hwr.
  pose proof (bias_of_cut tp W m e w0 r m_r' Hplan Hafter i nm md md' bfull
                Hi Hb' Hkd Hb) as Hbr.
  pose proof (ready_weight_sliceable tp W m i nm md RoundTrip.Column wfull
                Hmods Hi Hkd Hw) as Hs.
  rewrite <- column_dim_slice_dim in Hwr, Hs.
  change (RoundTrip.fusion_of tp W RoundTrip.Column nm md) with F in Hwr, Hbr, Hs.
  eapply (column_forward_trace zero add mul i m_r' nm md' _
            (VBool (is_reversed_param tp nm)) (VBool false)); try done.
  simpl. by apply column_output_shard.
Qed.

Lemma parallelized_column_layer_returns_shard_witness :
  let x := Mat [[1; 0; 2; 1]; [0; 1; 0; 3]] in
  let m_r :=
    (TensorParallelEngine1D.parallelize
       (engine_of Sample.mapping 2 (Z.of_nat 1)) Sample.model).2 in
  exists Y,
    Layer.output 0 Z.add Z.mul true x (Examples.iota_mat 4 12)
      (Some (Vec (Py.range 12))) = Ok Y /\
    RoundTrip.Trace (ColumnParallelLinear_forward 0 Z.add Z.mul 3 x m_r)
      [(OpBroadcast, x, [x; x])]
      (Ok (Closed.shard (Z.to_nat 3) (Z.to_nat 2) 1 1 Y), m_r).
Proof.
  intros x m_r. eexists. split; [vm_compute; reflexivity|].
  apply (parallelized_column_layer_returns_shard 0 Z.add Z.mul Sample.mapping 2
           Sample.model 1 3 "c_attn"
           (Examples.mk_module Conv1D (Ref 1%nat) (Ref 2%nat)
              [("nx", VInt 4); ("nf", VInt 12)])
           (Examples.iota_mat 4 12) (Some (Vec (Py.range 12))) x x [x; x]).
  - vm_compute. reflexivity.
  - vm_compute. lia.
  - reflexivity.
  - reflexivity.
  - vm_compute. reflexivity.
  - vm_compute. reflexivity.
  - reflexivity.
  - vm_compute. reflexivity.
Defined.

(** X14: on a model that is ready for the round trip, when every rank
    of the group has run [parallelize] and is given its shard of an
    input along the last dimension, the forward passes of a row-parallel
    module, run together, return on every rank what the module returned
    for the whole input before [parallelize], and leave the models as
    they are. The bias of the module is not an object that the plan
    cuts, and the sum of the elements is associative with a neutral
    zero. *)
Theorem parallelized_row_layer_returns_whole_output {A : Type} (zero : A)
    (add mul : A -> A -> A) (tp : TensorParallelMapping) (W : Z) (m : Model A)
    (e : nat) (en : string) (emb : Module) (w0 : nat)
    (i : nat) (nm : string) (md : Module) (wfull : Tensor A)
    (bfull : option (Tensor A)) (x Y : Tensor A) :
  (forall a b c, add a (add b c) = add (add a b) c) ->
  (forall a, add zero a = a) ->
  RoundTrip.round_trip_ready tp W m = true ->
  input_embeddings m = Some e ->
  named_modules m !! e = Some (en, emb) ->
  weight emb = Ref w0 ->
  named_modules m !! i = Some (nm, md) ->
  RoundTrip.kind_of tp nm = Some RoundTrip.Row ->
  Layer.weight_of m md = Some wfull ->
  Layer.bias_of m md = Some bfull ->
  (forall b, bias md = Ref b ->
     b ∉ (Sharded.full_plan tp W w0 (named_modules m)).*1) ->
  Layer.output zero add mul (is_reversed_param tp nm) x wfull bfull = Ok Y ->
  let ms := (parallelize_all tp W m).*2 in
  run_cluster 1
    (imap (fun r m_r =>
             RowParallelLinear_forward zero add mul i
               (Closed.shard 1 (Z.to_nat W) r 1 x) m_r) ms)
  = Some ((fun m_r => (Ok Y, m_r)) <$> ms).
Proof.
  intros Hassoc Hzero Hready He Hemb Hw0 Hi Hkd Hw Hb Hout HY ms.
  destruct (round_trip_ready_inv tp W m Hready)
    as (HW & _ & _ & _ & e' & en' & emb' & w0' & p0 & He' & Hemb' & Hw0'
        & Hplan & _ & _ & _ & Hmods).
  rewrite He in He'. injection He' as <-.
  rewrite Hemb in Hemb'. injection Hemb' as <- <-.
  rewrite Hw0 in Hw0'. injection Hw0' as <-.
  pose proof (ready_weight_sliceable tp W m i nm md RoundTrip.Row wfull
                Hmods Hi Hkd Hw) as Hs.
  rewrite <- row_dim_slice_dim in Hs.
  change (RoundTrip.fusion_of tp W RoundTrip.Row nm md) with 1 in Hs.
  destruct (row_parallel_calls zero add mul (is_reversed_param tp nm) W wfull
              bfull x Y Hassoc Hzero Hs HY) as (gs & Hgs & Htr).
  pose proof (run_cluster_traces gs
                (fun r m_r => RowParallelLinear_forward zero add mul i
                                (Closed.shard 1 (Z.to_nat W) r 1 x) m_r)
                ms (fun m_r => (Ok Y, m_r))) as Hrun.
  rewrite Hgs in Hrun. apply Hrun.
  { intros Hnil. pose proof (parallelize_all_length tp W m) as Hlen.
    fold ms in Hlen. rewrite Hnil in Hlen. simpl in Hlen. lia. }
  intros r m_r Hm. unfold ms at 1. rewrite parallelize_all_length.
  apply parallelize_all_lookup in Hm as [Hr ->].
  destruct (ready_rank tp W m e en emb w0 r Hready Hr He Hemb Hw0)
    as (m_r & _ & Hpar & Hafter & _).
  rewrite Hpar. cbn [snd].
  pose proof Hafter as (_ & _ & Hall & _).
  destruct (Hall _ _ _ Hi)
    as (md' & Hi' & (Hw' & Hb' & _) & _ & _ & _ & _ & Hlay & _).
  destruct (Hlay _ Hkd) as (_ & Hrev & _).
  pose proof (weight_of_cut tp W m e w0 r m_r Hplan Hafter i nm md md'
                RoundTrip.Row wfull Hi Hw' Hkd Hw) as Hwr.
  rewrite <- row_dim_slice_dim in Hwr.
  change (Z.to_nat (RoundTrip.fusion_of tp W RoundTrip.Row nm md))
    with 1%nat in Hwr.
  eapply Htr; try done.
  by eapply bias_of_whole.
Qed.

Lemma parallelized_row_layer_returns_whole_output_witness :
  let x := Mat [[1; 0; 2; 1]; [0; 1; 0; 3]] in
  let ms := (parallelize_all Sample.mapping 2 Sample.model).*2 in
  exists Y,
    Layer.output 0 Z.add Z.mul true x (Examples.iota_mat 4 4)
      (Some (Vec (Py.range 4))) = Ok Y /\
    run_cluster 1
      (imap (fun r m_r =>
               RowParallelLinear_forward 0 Z.add Z.mul 4
                 (Closed.shard 1 (Z.to_nat 2) r 1 x) m_r) ms)
    = Some ((fun m_r => (Ok Y, m_r)) <$> ms).
Proof.
  intros x ms. eexists. split; [vm_compute; reflexivity|].
  apply (parallelized_row_layer_returns_whole_output 0 Z.add Z.mul
           Sample.mapping 2 Sample.model 1 "wte"
           (Examples.mk_module Embedding (Ref 0%nat) Absent
              [("num_embeddings", VInt 4)]) 0 4 "c_proj"
           (Examples.mk_module Conv1D (Ref 3%nat) (Ref 4%nat)
              [("nx", VInt 4); ("nf", VInt 4)])
           (Examples.iota_mat 4 4) (Some (Vec (Py.range 4))) x).
  - intros a b c. apply Z.add_assoc.
  - intros a. apply Z.add_0_l.
  - vm_compute. reflexivity.
  - reflexivity.
  - reflexivity.
  - reflexivity.
  - reflexivity.
  - reflexivity.
  - vm_compute. reflexivity.
  - vm_compute. reflexivity.
  - intros b Hb. injection Hb as <-.
    apply (bool_decide_unpack _). vm_compute. exact I.
  - vm_compute. reflexivity.
Defined.

(** X15: on a model that is ready for the round trip, when every rank
    of the group has run [parallelize], the forward passes of an output
    head that is tied to the input embedding, run together, return on
    every rank what the head returned for the input of rank 0 before
    [parallelize], after one broadcast and one all-gather, and leave the
    models as they are. The head is not of an embedding class, the
    mapping does not list it as reversed, and its bias is not an object
    that the plan cuts. *)
Theorem parallelized_tied_head_returns_whole_output {A : Type} (zero : A)
    (add mul : A -> A -> A) (tp : TensorParallelMapping) (W : Z) (m : Model A)
    (e : nat) (en : string) (emb : Module) (w0 : nat)
    (i : nat) (nm : string) (md : Module) (wfull : Tensor A)
    (bfull : option (Tensor A)) (inputs : nat -> Tensor A) (Y : Tensor A) :
  RoundTrip.round_trip_ready tp W m = true ->
  input_embeddings m = Some e ->
  named_modules m !! e = Some (en, emb) ->
  weight emb = Ref w0 ->
  named_modules m !! i = Some (nm, md) ->
  i <> e ->
  weight md = Ref w0 ->
  isinstance_Embedding (cls md) = false ->
  is_reversed_param tp nm = false ->
  Layer.weight_of m md = Some wfull ->
  Layer.bias_of m md = Some bfull ->
  (forall b, bias md = Ref b ->
     b ∉ (Sharded.full_plan tp W w0 (named_modules m)).*1) ->
  Layer.output zero add mul false (inputs 0%nat) wfull bfull = Ok Y ->
  let ms := (parallelize_all tp W m).*2 in
  run_cluster 2
    (imap (fun r m_r =>
             ColumnParallelLinear_forward zero add mul i (inputs r) m_r) ms)
  = Some ((fun m_r => (Ok Y, m_r)) <$> ms).
Proof.
  intros Hready He Hemb Hw0 Hi Hie Hwm Hcls Hnrev Hw Hb Hout HY ms.
  destruct (round_trip_ready_inv tp W m Hready)
    as (HW & _ & _ & _ & e' & en' & emb' & w0' & p0 & He' & Hemb' & Hw0'
        & Hplan & Hp0 & Htab & _ & Hmods).
  rewrite He in He'. injection He' as <-.
  rewrite Hemb in Hemb'. injection Hemb' as <- <-.
  rewrite Hw0 in Hw0'. injection Hw0' as <-.
  assert (Hs : Closed.sliceable 1 W (Layer.column_dim false) wfull = true).
  { unfold Layer.weight_of in Hw. rewrite Hwm, Hp0 in Hw.
    by injection Hw as <-. }
  assert (Htied : TensorParallelEngine1D.is_tied_head md w0 = true).
  { unfold TensorParallelEngine1D.is_tied_head.
    rewrite bool_decide_eq_true_2 by done. rewrite Hcls.
    by destruct (cls md). }
  destruct (gathering_column_calls zero add mul false W wfull bfull inputs Y
              Hs HY) as (gs & Hgs & Htr).
  pose proof (run_cluster_traces gs
                (fun r m_r => ColumnParallelLinear_forward zero add mul i
                                (inputs r) m_r)
                ms (fun m_r => (Ok Y, m_r))) as Hrun.
  rewrite Hgs in Hrun. apply Hrun.
  { intros Hnil. pose proof (parallelize_all_length tp W m) as Hlen.
    fold ms in Hlen. rewrite Hnil in Hlen. simpl in Hlen. lia. }
  intros r m_r Hm. unfold ms at 1. rewrite parallelize_all_length.
  apply parallelize_all_lookup in Hm as [Hr ->].
  destruct (ready_rank tp W m e en emb w0 r Hready Hr He Hemb Hw0)
    as (m_r & _ & Hpar & Hafter & _).
  rewrite Hpar. cbn [snd].
  pose proof Hafter as (_ & _ & Hall & _).
  destruct (Hall _ _ _ Hi)
    as (md' & Hi' & (Hw' & Hb' & _) & _ & _ & _ & _ & _ & Hlay).
  destruct (Hlay Htied Hie) as (Hmpu & Hrev & Hg).
  rewrite Hnrev in Hrev.
  eapply Htr; try done.
  - by eapply weight_of_table.
  - by eapply bias_of_whole.
Qed.

Lemma parallelized_tied_head_returns_whole_output_witness :
  let x := Mat [[1; 0; 2; 1]; [0; 1; 0; 3]] in
  let ms := (parallelize_all Sample.mapping 2 Sample.model).*2 in
  exists Y,
    Layer.output 0 Z.add Z.mul false x (Examples.iota_mat 4 4) None = Ok Y /\
    run_cluster 2
      (imap (fun r m_r => ColumnParallelLinear_forward 0 Z.add Z.mul 5 x m_r) ms)
    = Some ((fun m_r => (Ok Y, m_r)) <$> ms).
Proof.
  intros x ms. eexists. split; [vm_compute; reflexivity|].
  apply (parallelized_tied_head_returns_whole_output 0 Z.add Z.mul
           Sample.mapping 2 Sample.model 1 "wte"
           (Examples.mk_module Embedding (Ref 0%nat) Absent
              [("num_embeddings", VInt 4)]) 0 5 "lm_head"
           (Examples.mk_module Linear (Ref 0%nat) IsNone [])
           (Examples.iota_mat 4 4) None (fun _ => x)).
  - vm_compute. reflexivity.
  - reflexivity.
  - reflexivity.
  - reflexivity.
  - reflexivity.
  - lia.
  - reflexivity.
  - reflexivity.
  - reflexivity.
  - vm_compute. reflexivity.
  - vm_compute. reflexivity.
  - intros b Hb. discriminate Hb.
  - vm_compute. reflexivity.
Defined.

(** * The embedding of a parallelized model *)

Section Shards.
Context {A : Type} (zero : A) (add : A -> A -> A).
Hypothesis add_zero_l : forall x, add zero x = x.
Hypothesis add_zero_r : forall x, add x zero = x.

(** Ranks that hold the even shards of a table return, together, what
    the lookup in the table returns. *)
Lemma even_shards_lookup (W : Z) (table : list (list A)) (inputs : list Z)
    (e : nat) (ms : list (Model A)) :
  1 < W ->
  Closed.sliceable 1 W 0 (Mat table) = true ->
  Forall (fun x => 0 <= x < Z.of_nat (length table)) inputs ->
  Z.of_nat (length ms) = W ->
  (forall r m, ms !! r = Some m ->
     exists nm md w p,
       named_modules m !! e = Some (nm, md) /\
       attrs md !! "mpu"
       = Some (VMpu {| get_tensor_parallel_world_size := W;
                       get_tensor_parallel_rank := Z.of_nat r |}) /\
       attrs md !! "num_embeddings" = Some (VInt (Z.of_nat (length table))) /\
       weight md = Ref w /\
       store m !! w = Some p /\
       data p = Closed.shard 1 (Z.to_nat W) r 0 (Mat table)) ->
  run_cluster 1
    ((fun m => VocabParallelEmbedding_forward zero add e inputs m) <$> ms)
  = Some ((fun m => (embedding_lookup inputs (Mat table), m)) <$> ms).
Proof.
  intros HW Hs Hin Hlen Hranks.
  pose proof (sliceable_inv _ _ _ _ Hs)
    as (_ & _ & Hrect & [(_ & _ & s & Hs1 & Hrows)|(Hd & _)]); [|done].
  set (V := Z.of_nat (length table)) in *.
  set (d := ncols table).
  assert (Hwf : Forall (fun row => length row = d) table).
  { by apply rectangular_spec. }
  assert (HVs : V = Z.of_nat s * W) by (unfold V; rewrite Hrows; lia).
  assert (Hcs : Py.ceil_div V W = Z.of_nat s).
  { rewrite HVs. apply ceil_div_exact. lia. }
  assert (Hfull : (W - 1) * Py.ceil_div V W < V) by (rewrite Hcs, HVs; nia).
  set (c := Py.ceil_div V W) in *.
  set (bound := fun i : nat => if Z.of_nat i <? W then Z.of_nat i * c else V).
  set (T := fun r : nat =>
              Mat (Closed.shard_rows zero d table (bound r) (bound (S r)) inputs)).
  assert (Hprogs :
    (fun m => VocabParallelEmbedding_forward zero add e inputs m) <$> ms
    = imap (fun r m => mpu_reduce add (T r) m) ms).
  { apply list_eq. intros r. rewrite list_lookup_fmap, list_lookup_imap.
    destruct (ms !! r) as [m|] eqn:Hm; [|done]. simpl. f_equal.
    apply lookup_lt_Some in Hm as Hrlt.
    destruct (Hranks _ _ Hm) as (nm & md & w & p & He & Hmpu & Hnum & Hw & Hp & Hdata).
    assert (Hdata' : data p = Mat (chunk_piece (Z.to_nat c) table r)).
    { rewrite Hdata. unfold Closed.shard. simpl.
      rewrite fused_pick_one. do 2 f_equal.
      rewrite Hcs, Nat2Z.id, Hrows, Nat.add_0_r. apply div_exact. lia. }
    rewrite (shard_forward zero add W V (Z.of_nat r) d table inputs e m nm md w p);
      try done; try lia.
    - unfold T, bound. fold c.
      destruct (Z.ltb_spec (Z.of_nat r) W); [|lia].
      destruct (Z.eqb_spec (Z.of_nat r) (W - 1)),
               (Z.ltb_spec (Z.of_nat (S r)) W); try lia; [done|].
      by replace (Z.of_nat (S r)) with (Z.of_nat r + 1) by lia.
    - by rewrite Nat2Z.id. }
  rewrite Hprogs. rewrite run_reduce by (intros ->; simpl in Hlen; lia).
  assert (Hsum : tensor_sum add (T 0%nat) (T <$> seq 1 (length ms - 1))
                 = Ok (Mat ((fun x => default [] (table !! Z.to_nat x)) <$> inputs))).
  { unfold T.
    assert (Hb0 : bound 0%nat = 0).
    { unfold bound. destruct (Z.ltb_spec (Z.of_nat 0) W); lia. }
    rewrite Hb0.
    rewrite (shard_rows_sum zero add add_zero_l add_zero_r d table V eq_refl
               Hwf bound inputs 1 (length ms - 1)); try done.
    - replace (1 + (length ms - 1))%nat with (length ms) by lia.
      assert (HbW : bound (length ms) = V).
      { unfold bound. destruct (Z.ltb_spec (Z.of_nat (length ms)) W); lia. }
      rewrite HbW. by rewrite (shard_rows_all zero d table V).
    - intros i _. unfold bound. destruct (Z.ltb_spec (Z.of_nat i) W); nia.
    - intros i Hi. unfold bound.
      destruct (Z.ltb_spec (Z.of_nat i) W), (Z.ltb_spec (Z.of_nat (S i)) W);
        try nia. }
  rewrite Hsum. by rewrite embedding_lookup_ok.
Qed.

End Shards.

(** X16: on a model that is ready for the round trip, in a group of more
    than one rank, when every rank has run [parallelize], the forward
    passes of the input embedding, run together on a batch of ids within
    the vocabulary, return on every rank the rows that the lookup in the
    table returned before [parallelize], after one reduction, and leave
    the models as they are. The attribute [num_embeddings] of the
    embedding is the number of rows of its table, and zero is neutral for
    the sum of the elements. *)
Theorem parallelized_embedding_returns_lookup {A : Type} (zero : A)
    (add : A -> A -> A) (tp : TensorParallelMapping) (W : Z) (m : Model A)
    (e : nat) (en : string) (emb : Module) (table : list (list A))
    (inputs : list Z) :
  (forall x, add zero x = x) ->
  (forall x, add x zero = x) ->
  1 < W ->
  RoundTrip.round_trip_ready tp W m = true ->
  input_embeddings m = Some e ->
  named_modules m !! e = Some (en, emb) ->
  Layer.weight_of m emb = Some (Mat table) ->
  attrs emb !! "num_embeddings" = Some (VInt (Z.of_nat (length table))) ->
  Forall (fun x => 0 <= x < Z.of_nat (length table)) inputs ->
  let ms := (parallelize_all tp W m).*2 in
  exists out,
    embedding_lookup inputs (Mat table) = Ok out /\
    run_cluster 1
      ((fun m_r => VocabParallelEmbedding_forward zero add e inputs m_r) <$> ms)
    = Some ((fun m_r => (Ok out, m_r)) <$> ms).
Proof.
  intros Hl Hr HW Hready He Hemb Hw Hnum Hin ms.
  destruct (round_trip_ready_inv tp W m Hready)
    as (_ & _ & Heng & _ & e' & en' & emb' & w0 & p0 & He' & Hemb' & Hw0
        & Hplan & Hp0 & Htab & _ & Hmods).
  rewrite He in He'. injection He' as <-.
  rewrite Hemb in Hemb'. injection Hemb' as <- <-.
  assert (Hdata : data p0 = Mat table).
  { unfold Layer.weight_of in Hw. rewrite Hw0, Hp0 in Hw. by injection Hw. }
  rewrite Hdata in Htab.
  eexists. split; [by apply embedding_lookup_ok|].
  rewrite <- (embedding_lookup_ok inputs table Hin).
  apply (even_shards_lookup zero add Hl Hr W table inputs e ms HW Htab Hin).
  { unfold ms. rewrite parallelize_all_length. lia. }
  intros r m_r Hm. apply parallelize_all_lookup in Hm as [Hrk ->].
  destruct (ready_rank tp W m e en emb w0 r Hready Hrk He Hemb Hw0)
    as (m_r & _ & Hpar & Hafter & _).
  rewrite Hpar. cbn [snd].
  pose proof Hafter as (_ & _ & Hall & _).
  destruct (Hall _ _ _ Hemb) as (md' & Hi' & (Hw' & _ & _) & _ & Hattrs & _).
  destruct (Hattrs eq_refl) as (_ & Hmpu & Hn).
  pose proof (weight_of_table tp W m e w0 r m_r Hplan Hafter emb md' (Mat table)
                Hw' Hw0 Hw) as Hwr.
  destruct (weight_of_inv m_r md' _ Hwr) as (w & p & Hwref & Hp & Hdat).
  exists en, md', w, p. split; [done|]. split; [exact Hmpu|]. split; [|done].
  rewrite Hn. unfold RoundTrip.rescaled. simpl.
  rewrite rescale_attrs_notin; [done|].
  intros Hin'. apply (Heng _ Hin'). in_names.
Qed.

Lemma parallelized_embedding_returns_lookup_witness :
  let table := [[0; 1; 2; 3]; [4; 5; 6; 7]; [8; 9; 10; 11]; [12; 13; 14; 15]] in
  let ms := (parallelize_all Sample.mapping 2 Sample.model).*2 in
  exists out,
    embedding_lookup [0; 3; 1; 2] (Mat table) = Ok out /\
    run_cluster 1
      ((fun m_r => VocabParallelEmbedding_forward 0 Z.add 1 [0; 3; 1; 2] m_r)
         <$> ms)
    = Some ((fun m_r => (Ok out, m_r)) <$> ms).
Proof.
  intros table ms.
  apply (parallelized_embedding_returns_lookup 0 Z.add Sample.mapping 2
           Sample.model 1 "wte"
           (Examples.mk_module Embedding (Ref 0%nat) Absent
              [("num_embeddings", VInt 4)]) table [0; 3; 1; 2]).
  - intros x. apply Z.add_0_l.
  - intros x. apply Z.add_0_r.
  - lia.
  - vm_compute. reflexivity.
  - reflexivity.
  - reflexivity.
  - vm_compute. reflexivity.
  - vm_compute. reflexivity.
  - repeat constructor; simpl; lia.
Defined.

(** * The rescale list and the round trip *)



